(** * hkanno line parser and formatter: a shallow embedding

    The development follows the TypeScript sources of the hkanno editor
    support:
    - [parser/strict/parser.ts]   primitives, line parsers, dispatchers;
    - [parser/strict/nodes.ts]    the node model;
    - [parser/payload_interpreter/parser.ts]  the payload-instruction line;
    - [providers/formatter.ts]    [formatHkannoText] and [formatNode].

    JavaScript strings are modelled as lists of code units, restricted to
    the 8-bit range (type [ascii]); numbers are IEEE-754 binary64 values,
    represented by the standard library's [spec_float].  Where rounding is
    reasoned about, values are compared as rationals ([Q]). *)

From Stdlib Require Import List String Ascii ZArith NArith Lia Bool Arith.
From Stdlib Require Import SpecFloat.
From Stdlib Require Import QArith Qpower Lqa.
Close Scope Q_scope.
Import ListNotations.

Set Implicit Arguments.

Abbreviation length := List.length (only parsing).

(* ================================================================== *)
(** * JavaScript strings *)

Module JsString.

Abbreviation str := (list ascii) (only parsing).

(** A literal of the source text. *)
Definition lit (s : string) : str := list_ascii_of_string s.

Definition code (c : ascii) : nat := nat_of_ascii c.

Definition eqc (a b : ascii) : bool := Ascii.eqb a b.

Fixpoint eqs (a b : str) : bool :=
  match a, b with
  | [], [] => true
  | x :: a', y :: b' => eqc x y && eqs a' b'
  | _, _ => false
  end.

(** [/\s/]: the white space and line terminator code units below 256. *)
Definition isSpace (c : ascii) : bool :=
  let n := code c in
  ((9 <=? n) && (n <=? 13)) || (n =? 32) || (n =? 160).

(** [/[0-9]/] and [/[0-9.]/]. *)
Definition isDigit (c : ascii) : bool :=
  let n := code c in (48 <=? n) && (n <=? 57).

Definition isDigitOrDot (c : ascii) : bool := isDigit c || eqc c "."%char.

(** [s[i]]: [None] stands for [undefined]. *)
Definition charAt (s : str) (i : nat) : option ascii := nth_error s i.

(** [s.slice(a, b)] for non-negative [a] and [b]. *)
Definition slice (s : str) (a b : nat) : str := firstn (b - a) (skipn a s).

(** [s.startsWith(p)]. *)
Fixpoint startsWith (s p : str) {struct p} : bool :=
  match p, s with
  | [], _ => true
  | _ :: _, [] => false
  | y :: p', x :: s' => eqc x y && startsWith s' p'
  end.

(** [s.includes(p)]. *)
Fixpoint includes (s p : str) : bool :=
  startsWith s p ||
  match s with
  | [] => false
  | _ :: s' => includes s' p
  end.

(** [s.trimStart()], [s.trimEnd()] and [s.trim()]. *)
Fixpoint trimStart (s : str) : str :=
  match s with
  | c :: s' => if isSpace c then trimStart s' else s
  | [] => []
  end.

Definition trimEnd (s : str) : str := rev (trimStart (rev s)).

Definition trim (s : str) : str := trimEnd (trimStart s).

(** [s.toLowerCase()] on 8-bit code units: A-Z, and the Latin-1 capitals
    U+00C0..U+00DE except the multiplication sign. *)
Definition lowerChar (c : ascii) : ascii :=
  let n := code c in
  if ((65 <=? n) && (n <=? 90)) ||
     ((192 <=? n) && (n <=? 222) && negb (n =? 215))
  then ascii_of_nat (n + 32) else c.

Definition toLowerCase (s : str) : str := map lowerChar s.

Definition newline : ascii := ascii_of_nat 10.

(** [s.split('\n')]: never empty. *)
Fixpoint split_nl (s : str) : list str :=
  match s with
  | [] => [[]]
  | c :: s' =>
      if eqc c newline then [] :: split_nl s'
      else match split_nl s' with
           | l :: ls => (c :: l) :: ls
           | [] => [[c]]
           end
  end.

(** [xs.join(sep)]. *)
Fixpoint join (sep : str) (xs : list str) : str :=
  match xs with
  | [] => []
  | [x] => x
  | x :: rest => x ++ sep ++ join sep rest
  end.

(** [s += x] where [x] was read by indexing: [undefined] is appended as
    the text "undefined". *)
Definition appendIndexed (s : str) (x : option ascii) : str :=
  match x with
  | Some c => s ++ [c]
  | None => s ++ lit "undefined"
  end.

(** [re.test(x)] for a one-character class [cls] and an indexed read [x]:
    [undefined] is tested as the text "undefined". *)
Definition testClass (cls : ascii -> bool) (x : option ascii) : bool :=
  match x with
  | Some c => cls c
  | None => existsb cls (lit "undefined")
  end.

(** [stop.includes(x)] for an indexed read [x]. *)
Definition includesIndexed (stop : str) (x : option ascii) : bool :=
  match x with
  | Some c => existsb (eqc c) stop
  | None => includes stop (lit "undefined")
  end.

(** [x === c] for an indexed read [x] and a one-character literal. *)
Definition isChar (x : option ascii) (c : ascii) : bool :=
  match x with
  | Some d => eqc d c
  | None => false
  end.

End JsString.
Export JsString.

(* ================================================================== *)
(** * JavaScript numbers

    A Number is a binary64 value: [spec_float] with precision 53 and
    maximal exponent 1024.  [Number] is the conversion applied by the
    parser to the text it collected, [toFixed6] is [x.toFixed(6)]. *)

Module JsNumber.

Local Open Scope Z_scope.

Definition float := spec_float.

Definition digitVal (c : ascii) : Z := Z.of_nat (code c) - 48.

Definition digitChar (d : Z) : ascii := ascii_of_nat (Z.to_nat (d + 48)).

(** Value of a run of decimal digits, most significant first. *)
Fixpoint digitsVal (acc : Z) (ds : str) : Z :=
  match ds with
  | [] => acc
  | c :: ds' => digitsVal (10 * acc + digitVal c) ds'
  end.

(** Longest prefix of digits and the rest. *)
Fixpoint spanDigits (s : str) : str * str :=
  match s with
  | c :: s' =>
      if isDigit c then let (ds, r) := spanDigits s' in (c :: ds, r)
      else ([], s)
  | [] => ([], [])
  end.

Definition isSign (c : ascii) : bool := eqc c "+"%char || eqc c "-"%char.

Definition isExpMark (c : ascii) : bool := eqc c "e"%char || eqc c "E"%char.

(** Optional sign: [true] for a minus. *)
Definition readSign (s : str) : bool * str :=
  match s with
  | c :: s' => if isSign c then (eqc c "-"%char, s') else (false, s)
  | [] => (false, [])
  end.

(** [ExponentPart] followed by the end of the text; [None] when the text
    is not of that form. *)
Definition readExponent (s : str) : option Z :=
  match s with
  | [] => Some 0
  | c :: s' =>
      if isExpMark c then
        let (neg, s1) := readSign s' in
        match spanDigits s1 with
        | ((_ :: _) as ds, []) =>
            Some (if neg then - digitsVal 0 ds else digitsVal 0 ds)
        | _ => None
        end
      else None
  end.

(** [StrDecimalLiteral] without the [Infinity] alternative: sign,
    decimal mantissa and decimal exponent of the literal, [None] when the
    text is not a decimal literal.  The value is [mant * 10 ^ exp10]. *)
Definition readDecimal (s : str) : option (bool * Z * Z) :=
  let (neg, s0) := readSign s in
  let (ip, s1) := spanDigits s0 in
  let '(fp, s2) :=
    match s1 with
    | c :: s1' => if eqc c "."%char then spanDigits s1' else ([], s1)
    | [] => ([], [])
    end in
  match ip ++ fp with
  | [] => None
  | ds =>
      match readExponent s2 with
      | Some e => Some (neg, digitsVal 0 ds, e - Z.of_nat (length fp))
      | None => None
      end
  end.

(** Exponent of the binade of [p / q]: the [E] with
    [2 ^ E <= p / q < 2 ^ (E + 1)], for positive [p] and [q]. *)
Definition binade (p q : Z) : Z :=
  let g := Z.log2 p - Z.log2 q in
  let ge := if 0 <=? g then q * 2 ^ g <=? p else q <=? p * 2 ^ (- g) in
  if ge then g else g - 1.

(** Nearest integer to [num / den], ties to even. *)
Definition divNearestEven (num den : Z) : Z :=
  let m := num / den in
  let r := num mod den in
  match 2 * r ?= den with
  | Lt => m
  | Gt => m + 1
  | Eq => if Z.even m then m else m + 1
  end.

(** The binary64 value nearest to [p / q] (ties to even), with sign
    [neg], for positive [p] and [q]. *)
Definition roundRatio (neg : bool) (p q : Z) : float :=
  let e := Z.max (binade p q - 52) (-1074) in
  let m := if 0 <=? e then divNearestEven p (q * 2 ^ e)
           else divNearestEven (p * 2 ^ (- e)) q in
  let '(m, e) := if m =? 2 ^ 53 then (2 ^ 52, e + 1) else (m, e) in
  match m with
  | Zpos mp => if e <=? 971 then S754_finite neg mp e else S754_infinity neg
  | _ => S754_zero neg
  end.

(** The binary64 value of the decimal [m * 10 ^ e10]. *)
Definition roundDecimal (neg : bool) (m e10 : Z) : float :=
  if m =? 0 then S754_zero neg
  else if 0 <=? e10 then roundRatio neg (m * 10 ^ e10) 1
  else roundRatio neg m (10 ^ (- e10)).

(** [Number(s)] for a text over the signs, digits, dot and exponent
    marks, which is all that [parseNumberField] collects. *)
Definition Number (s : str) : float :=
  match readDecimal s with
  | Some (neg, m, e10) => roundDecimal neg m e10
  | None => S754_nan
  end.

(** Decimal digits of a non-negative integer, without leading zeros
    ("0" for zero). *)
Fixpoint digitsOfAux (fuel : nat) (n : Z) (acc : str) : str :=
  let acc' := digitChar (n mod 10) :: acc in
  match fuel with
  | O => acc'
  | S fuel' => if n / 10 =? 0 then acc' else digitsOfAux fuel' (n / 10) acc'
  end.

Definition digitsOf (n : Z) : str := digitsOfAux (Z.to_nat (Z.log2 n)) n [].

Definition zeros (k : nat) : str := repeat "0"%char k.

(** Fixed notation with six fraction digits of [n / 10 ^ 6]. *)
Definition fixed6 (n : Z) : str :=
  let m := digitsOf n in
  let m := zeros (7 - length m) ++ m in
  let k := length m in
  firstn (k - 6) m ++ "."%char :: skipn (k - 6) m.

(** [n] with [n / 10 ^ 6 - x] closest to zero, the larger one on a tie,
    for [x = m * 2 ^ e]. *)
Definition scaled6 (m e : Z) : Z :=
  if 0 <=? e then m * 2 ^ e * 10 ^ 6
  else (2 * m * 10 ^ 6 + 2 ^ (- e)) / 2 ^ (- e + 1).

(** Scientific notation of [Number::toString] for the digits [s]
    (decimal) and the decimal exponent [n], when [n] exceeds 21. *)
Definition sciNotation (s : str) (n : Z) : str :=
  match s with
  | [] => []
  | [d] => d :: lit "e+" ++ digitsOf (n - 1)
  | d :: ds => d :: "."%char :: ds ++ lit "e+" ++ digitsOf (n - 1)
  end.

Fixpoint stripZeros (r : str) : str :=
  match r with
  | c :: r' => if eqc c "0"%char then stripZeros r' else r
  | [] => []
  end.

Definition stripZerosEnd (s : str) : str := rev (stripZeros (rev s)).

Definition sameFloat (a b : float) : bool :=
  match a, b with
  | S754_finite s m e, S754_finite s' m' e' =>
      Bool.eqb s s' && Pos.eqb m m' && (e =? e')
  | _, _ => false
  end.

(** The text of [s * 10 ^ t] in scientific notation, when it reads back
    as [x]. *)
Definition candidate (x : float) (t : nat) (s : Z) : option str :=
  let ds := stripZerosEnd (digitsOf s) in
  let n := Z.of_nat (length (digitsOf s)) + Z.of_nat t in
  let txt := sciNotation ds n in
  if sameFloat (Number txt) x then Some txt else None.

(** [Number::toString] of the positive integer [X = m * 2 ^ e] when
    [X >= 10 ^ 21]: the shortest digit string [s] of length [k] with
    [s * 10 ^ (n - k)] reading back as the same value; of the two
    candidates of a length the one closest to [X], the even one on a
    tie.  [d] is the number of digits of [X]. *)
Fixpoint shortest (fuel : nat) (k : nat) (x : float) (X : Z) (d : nat)
  : str :=
  let t := 10 ^ Z.of_nat (d - k) in
  let lo := X / t in
  let hi := lo + 1 in
  let closer_lo :=
    match 2 * (X - lo * t) ?= t with
    | Lt => true
    | Gt => false
    | Eq => Z.even lo
    end in
  match candidate x (d - k) (if closer_lo then lo else hi),
        candidate x (d - k) (if closer_lo then hi else lo) with
  | Some txt, _ => txt
  | None, Some txt => txt
  | None, None =>
      match fuel with
      | O => sciNotation (stripZerosEnd (digitsOf X)) (Z.of_nat d)
      | S fuel' => shortest fuel' (S k) x X d
      end
  end.

Definition toStringLarge (x : float) (X : Z) : str :=
  let d := length (digitsOf X) in
  shortest d 1 x X d.

(** [x.toFixed(6)]. *)
Definition toFixed6 (x : float) : str :=
  match x with
  | S754_nan => lit "NaN"
  | S754_infinity false => lit "Infinity"
  | S754_infinity true => lit "-Infinity"
  | S754_zero _ => lit "0.000000"
  | S754_finite neg m e =>
      let body :=
        if (0 <=? e) && (10 ^ 21 <=? Zpos m * 2 ^ e)
        then toStringLarge (S754_finite false m e) (Zpos m * 2 ^ e)
        else fixed6 (scaled6 (Zpos m) e) in
      if neg then "-"%char :: body else body
  end.

End JsNumber.
Export JsNumber.


(* ================================================================== *)
(** * Outcomes, and the JSON values of [JSON.parse] *)

(** An [Error] object, and [`${e}`] ([Error.prototype.toString]). *)
Module JsError.
Record t : Type := mk { name : str; message : str }.

Definition toString (e : t) : str :=
  match name e, message e with
  | [], msg => msg
  | nm, [] => nm
  | nm, msg => nm ++ lit ": " ++ msg
  end.
End JsError.
Definition JsError := JsError.t.

Definition SyntaxError (msg : str) : JsError :=
  JsError.mk (lit "SyntaxError") msg.

(** An evaluation returns, throws, or exhausts the iteration budget
    given to each [while] loop of the model. *)
Inductive Res (A : Type) : Type :=
| Ok (a : A)
| Throw (e : JsError)
| OutOfFuel.

Arguments Ok {A} a.
Arguments Throw {A} e.
Arguments OutOfFuel {A}.

(** [type Json] of nodes.ts. *)
#[warnings="-register-all"]
Inductive Json : Type :=
| JString (s : str)
| JNumber (x : float)
| JBoolean (b : bool)
| JObject (members : list (str * Json))
| JArray (elements : list Json)
| JNull.

(* ================================================================== *)
(** * The node model (nodes.ts) *)

Module Pos.
Record t : Type := mk { line : nat; startColumn : nat; endColumn : nat }.
End Pos.
Definition Pos := Pos.t.

Module Space.
(** [kind] is the constant "space". *)
Record t : Type := mk { rawText : str; pos : Pos }.
End Space.
Definition SpaceNode := Space.t.

Module Field.
Record t (T : Type) : Type := mk { value : option T; pos : option Pos }.
Arguments mk {T} value pos.
End Field.
Definition FieldNode := Field.t.

(** [f?.value] *)
Definition valueOf {T : Type} (f : option (FieldNode T)) : option T :=
  match f with
  | Some f => Field.value f
  | None => None
  end.

Module Comment.
Record t : Type := mk {
  space0First : option SpaceNode;
  hash : option (FieldNode str);
  space0HashToComment : option SpaceNode;
  comment : option (FieldNode str);
  space0AfterComment : option SpaceNode }.
End Comment.
Definition CommentNode := Comment.t.

Module TrackName.
Record t : Type := mk {
  space0First : option SpaceNode;
  literal : option (FieldNode str);
  space0LiteralToName : option SpaceNode;
  name : option (FieldNode str);
  space0AfterName : option SpaceNode }.
End TrackName.
Definition TrackNameNode := TrackName.t.

Module Text.
Record t : Type := mk {
  space0First : option SpaceNode;
  time : option (FieldNode float);
  space1TimeToText : option SpaceNode;
  text : option (FieldNode str);
  space0AfterText : option SpaceNode }.
End Text.
Definition TextNode := Text.t.

Module Motion.
Record t : Type := mk {
  space0First : option SpaceNode;
  time : option (FieldNode float);
  space1TimeToEvent : option SpaceNode;
  event : option (FieldNode str);
  space1EventToX : option SpaceNode;
  x : option (FieldNode float);
  space1XToY : option SpaceNode;
  y : option (FieldNode float);
  space1YToZ : option SpaceNode;
  z : option (FieldNode float);
  space0AfterZ : option SpaceNode }.
End Motion.
Definition MotionNode := Motion.t.

Module Rotation.
Record t : Type := mk {
  space0First : option SpaceNode;
  time : option (FieldNode float);
  space1TimeToEvent : option SpaceNode;
  event : option (FieldNode str);
  space1EventToDegrees : option SpaceNode;
  degrees : option (FieldNode float);
  space0AfterDegrees : option SpaceNode }.
End Rotation.
Definition RotationNode := Rotation.t.

Module IFrame.
Record t : Type := mk {
  space0First : option SpaceNode;
  time : option (FieldNode float);
  space1TimeToEvent : option SpaceNode;
  event : option (FieldNode str);
  json : option (FieldNode Json);
  space0AfterJson : option SpaceNode;
  (** [{ message: string }] *)
  jsonParseError : option str }.
End IFrame.
Definition IFrameNode := IFrame.t.

Module ParameterItem.
Record t : Type := mk {
  separator : option (FieldNode str);
  value : option (FieldNode str) }.
End ParameterItem.
Definition ParameterItemNode := ParameterItem.t.

Module Parameters.
Record t : Type := mk {
  items : list ParameterItemNode;
  pos : option Pos }.
End Parameters.
Definition ParametersNode := Parameters.t.

Module Instruction.
Record t : Type := mk {
  prefix : option (FieldNode ascii);
  name : option (FieldNode str);
  parameters : option ParametersNode }.
End Instruction.
Definition InstructionNode := Instruction.t.

Module PayloadInstruction.
Record t : Type := mk {
  space0First : option SpaceNode;
  time : option (FieldNode float);
  space1TimeToEvent : option SpaceNode;
  event : option (FieldNode str);
  dot : option (FieldNode str);
  instruction : option InstructionNode }.
End PayloadInstruction.
Definition PayloadInstructionNode := PayloadInstruction.t.

(** [type HkannoNode] and [type HkannoNodeExt]. *)
Inductive HkannoNode : Type :=
| NRotation (n : RotationNode)
| NMotion (n : MotionNode)
| NText (n : TextNode)
| NComment (n : CommentNode)
| NTrackName (n : TrackNameNode).

Inductive HkannoNodeExt : Type :=
| NCommon (n : HkannoNode)
| NIFrame (n : IFrameNode)
| NPayloadInstruction (n : PayloadInstructionNode).

(** The [kind] tag of a node. *)
Definition kind (n : HkannoNode) : str :=
  match n with
  | NRotation _ => lit "rotation"
  | NMotion _ => lit "motion"
  | NText _ => lit "text"
  | NComment _ => lit "comment"
  | NTrackName _ => lit "trackName"
  end.

Definition kindExt (n : HkannoNodeExt) : str :=
  match n with
  | NCommon n => kind n
  | NIFrame _ => lit "iframe"
  | NPayloadInstruction _ => lit "payload_instruction"
  end.

(* ================================================================== *)
(** * Parser state and primitives (parser.ts) *)

Module State.
Record t : Type := mk { line : str; i : nat; lineNumber : nat; len : nat }.
End State.
Definition ParserState := State.t.

(** Computations over the parser state. *)
Definition M (A : Type) : Type := ParserState -> Res (A * ParserState).

Definition ret {A : Type} (a : A) : M A := fun st => Ok (a, st).

Definition bind {A B : Type} (m : M A) (k : A -> M B) : M B :=
  fun st =>
    match m st with
    | Ok (a, st') => k a st'
    | Throw e => Throw e
    | OutOfFuel => OutOfFuel
    end.

Declare Scope parser_scope.
Delimit Scope parser_scope with parser.
Notation "x <- m ;; k" := (bind m (fun x => k))
  (at level 61, m at next level, right associativity) : parser_scope.
Notation "' pat <- m ;; k" := (bind m (fun x => match x with pat => k end))
  (at level 61, pat pattern, m at next level, right associativity)
  : parser_scope.
Notation "m ;;; k" := (bind m (fun _ => k))
  (at level 61, right associativity) : parser_scope.
Local Open Scope parser_scope.

Definition get : M ParserState := fun st => Ok (st, st).

(** [state.i += n] *)
Definition advance (n : nat) : M unit :=
  fun st =>
    Ok (tt, State.mk (State.line st) (State.i st + n)
                     (State.lineNumber st) (State.len st)).

(** [state.line[state.i]] *)
Definition cur (st : ParserState) : option ascii :=
  charAt (State.line st) (State.i st).

(** [state.line[state.i++]] *)
Definition readNext : M (option ascii) :=
  st <- get ;; advance 1 ;;; ret (cur st).

(** [state.i < state.len] *)
Definition inLine (st : ParserState) : bool := State.i st <? State.len st.

(** [while (cond) { acc = body(acc) }] with at most [fuel] iterations. *)
Fixpoint while {A : Type} (fuel : nat) (cond : ParserState -> bool)
    (body : A -> M A) (acc : A) : M A :=
  fun st =>
    if cond st then
      match fuel with
      | O => OutOfFuel
      | S fuel' =>
          match body acc st with
          | Ok (acc', st') => while fuel' cond body acc' st'
          | Throw e => Throw e
          | OutOfFuel => OutOfFuel
          end
      end
    else Ok (acc, st).

Definition makePos (lineNumber start end_ : nat) : Pos :=
  Pos.mk lineNumber (start + 1) (end_ + 1).

Definition parseSpace (fuel : nat) : M (option SpaceNode) :=
  st0 <- get ;;
  let start := State.i st0 in
  while fuel (fun st => inLine st && testClass isSpace (cur st))
             (fun _ => advance 1) tt ;;;
  st <- get ;;
  if start <? State.i st then
    ret (Some (Space.mk (slice (State.line st) start (State.i st))
                        (makePos (State.lineNumber st) start (State.i st))))
  else ret None.

(** [str += state.line[state.i++]] *)
Definition take (s : str) : M str :=
  c <- readNext ;; ret (appendIndexed s c).

Definition parseNumberField (fuel : nat) : M (option (FieldNode float)) :=
  st0 <- get ;;
  let start := State.i st0 in
  if State.len st0 <=? State.i st0 then ret None
  else
    s <- (if isChar (cur st0) "+" || isChar (cur st0) "-"
          then take [] else ret []) ;;
    s <- while fuel (fun st => inLine st && testClass isDigitOrDot (cur st))
               take s ;;
    st1 <- get ;;
    s <- (if inLine st1 && (isChar (cur st1) "e" || isChar (cur st1) "E")
          then
            s <- take s ;;
            st2 <- get ;;
            s <- (if isChar (cur st2) "+" || isChar (cur st2) "-"
                  then take s else ret s) ;;
            while fuel (fun st => inLine st && testClass isDigit (cur st))
                  take s
          else ret s) ;;
    match s with
    | [] => ret None
    | _ =>
        st <- get ;;
        ret (Some (Field.mk (Some (Number s))
                     (Some (makePos (State.lineNumber st) start (State.i st)))))
    end.

Definition parseLiteralField (literal : str) : M (option (FieldNode str)) :=
  st0 <- get ;;
  let start := State.i st0 in
  if eqs (slice (State.line st0) start (start + length literal)) literal then
    advance (length literal) ;;;
    st <- get ;;
    ret (Some (Field.mk (Some literal)
                 (Some (makePos (State.lineNumber st) start (State.i st)))))
  else ret None.

Definition parseFieldUntil (fuel : nat) (stopChars : str)
  : M (option (FieldNode str)) :=
  st0 <- get ;;
  let start := State.i st0 in
  value <- while fuel
             (fun st => inLine st && negb (includesIndexed stopChars (cur st)))
             take [] ;;
  match value with
  | [] => ret None
  | _ =>
      st <- get ;;
      ret (Some (Field.mk (Some value)
                   (Some (makePos (State.lineNumber st) start (State.i st)))))
  end.

(** The state a line parser starts from, and the node it returns. *)
Definition initState (line : str) (lineNumber : nat) : ParserState :=
  State.mk line 0 lineNumber (length line).

Definition run {A : Type} (m : M A) (line : str) (lineNumber : nat) : Res A :=
  match m (initState line lineNumber) with
  | Ok (a, _) => Ok a
  | Throw e => Throw e
  | OutOfFuel => OutOfFuel
  end.

(* ================================================================== *)
(** * Line parsers (parser.ts) *)

Definition parseCommentLine (fuel : nat) (line : str) (lineNumber : nat)
  : Res CommentNode :=
  run (space0First <- parseSpace fuel ;;
       hash <- parseLiteralField (lit "#") ;;
       space0HashToComment <- parseSpace fuel ;;
       comment <- parseFieldUntil fuel [newline] ;;
       space0AfterComment <- parseSpace fuel ;;
       ret (Comment.mk space0First hash space0HashToComment comment
                       space0AfterComment))
      line lineNumber.

(** [if (field?.value) field.value = field.value.trim()] *)
Definition trimField (field : option (FieldNode str))
  : option (FieldNode str) :=
  match field with
  | Some (Field.mk (Some ((_ :: _) as v)) p) => Some (Field.mk (Some (trim v)) p)
  | _ => field
  end.

Definition parseTrackNameLine (fuel : nat) (line : str) (lineNumber : nat)
  : Res TrackNameNode :=
  run (space0First <- parseSpace fuel ;;
       literal <- parseLiteralField (lit "trackName:") ;;
       space0LiteralToName <- parseSpace fuel ;;
       field <- parseFieldUntil fuel [newline] ;;
       let name := trimField field in
       space0AfterName <- parseSpace fuel ;;
       ret (TrackName.mk space0First literal space0LiteralToName name
                         space0AfterName))
      line lineNumber.

Definition parseTextLine (fuel : nat) (line : str) (lineNumber : nat)
  : Res TextNode :=
  run (space0First <- parseSpace fuel ;;
       time <- parseNumberField fuel ;;
       space1TimeToText <- parseSpace fuel ;;
       text <- parseFieldUntil fuel [newline] ;;
       space0AfterText <- parseSpace fuel ;;
       ret (Text.mk space0First time space1TimeToText text space0AfterText))
      line lineNumber.

Definition parseAnimMotionLine (fuel : nat) (line : str) (lineNumber : nat)
  : Res MotionNode :=
  run (space0First <- parseSpace fuel ;;
       time <- parseNumberField fuel ;;
       space1TimeToEvent <- parseSpace fuel ;;
       event <- parseLiteralField (lit "animmotion") ;;
       space1EventToX <- parseSpace fuel ;;
       x <- parseNumberField fuel ;;
       space1XToY <- parseSpace fuel ;;
       y <- parseNumberField fuel ;;
       space1YToZ <- parseSpace fuel ;;
       z <- parseNumberField fuel ;;
       space0AfterZ <- parseSpace fuel ;;
       ret (Motion.mk space0First time space1TimeToEvent event space1EventToX
                      x space1XToY y space1YToZ z space0AfterZ))
      line lineNumber.

Definition parseAnimRotationLine (fuel : nat) (line : str) (lineNumber : nat)
  : Res RotationNode :=
  run (space0First <- parseSpace fuel ;;
       time <- parseNumberField fuel ;;
       space1TimeToEvent <- parseSpace fuel ;;
       event <- parseLiteralField (lit "animrotation") ;;
       space1EventToDegrees <- parseSpace fuel ;;
       degrees <- parseNumberField fuel ;;
       space0AfterDegrees <- parseSpace fuel ;;
       ret (Rotation.mk space0First time space1TimeToEvent event
                        space1EventToDegrees degrees space0AfterDegrees))
      line lineNumber.

(** The result object of [tryParseJson]. *)
Module JsonResult.
Record t : Type := mk {
  success : bool;
  data : option Json;
  error : option str }.
End JsonResult.

(** An entry of the dispatch tables: [{ check, parser }]. *)
Module Entry.
Record t (N : Type) : Type := mk {
  check : str -> bool;
  parser : nat -> str -> nat -> Res N }.
Arguments mk {N} check parser.
End Entry.

Definition mapRes {A B : Type} (f : A -> B) (r : Res A) : Res B :=
  match r with
  | Ok a => Ok (f a)
  | Throw e => Throw e
  | OutOfFuel => OutOfFuel
  end.

Section WithJson.

(** [JSON.parse] is the runtime's: it returns the decoded value or throws
    a [SyntaxError], whose message is given on the left. *)
Variable JSON_parse : str -> str + Json.

Definition JSON_parse_call (value : str) : Res Json :=
  match JSON_parse value with
  | inr json => Ok json
  | inl msg => Throw (SyntaxError msg)
  end.

(** [try { ... } catch (e) { ... }] *)
Definition tryParseJson (value : str) : Res JsonResult.t :=
  match JSON_parse_call value with
  | Ok json => Ok (JsonResult.mk true (Some json) None)
  | Throw e => Ok (JsonResult.mk false None (Some (JsError.toString e)))
  | OutOfFuel => OutOfFuel
  end.

Definition lift {A : Type} (r : Res A) : M A :=
  fun st =>
    match r with
    | Ok a => Ok (a, st)
    | Throw e => Throw e
    | OutOfFuel => OutOfFuel
    end.

Definition parseIFrameLine (fuel : nat) (line : str) (lineNumber : nat)
  : Res IFrameNode :=
  run (space0First <- parseSpace fuel ;;
       time <- parseNumberField fuel ;;
       space1TimeToEvent <- parseSpace fuel ;;
       event <- parseLiteralField (lit "SpecialFrames_Invincible") ;;
       raw <- parseFieldUntil fuel [newline] ;;
       '(json, jsonParseError) <-
         match raw with
         | Some (Field.mk (Some value) p) =>
             result <- lift (tryParseJson value) ;;
             if JsonResult.success result then
               ret (Some (Field.mk (JsonResult.data result) p), None)
             else
               ret (Some (Field.mk None p),
                    match JsonResult.error result with
                    | Some ((_ :: _) as msg) => Some msg
                    | _ => None
                    end)
         | Some (Field.mk None p) => ret (Some (Field.mk None p), None)
         | None => ret (None, None)
         end ;;
       space0AfterJson <- parseSpace fuel ;;
       ret (IFrame.mk space0First time space1TimeToEvent event json
                      space0AfterJson jsonParseError))
      line lineNumber.

(* ------------------------------------------------------------------ *)
(** ** The payload-instruction line (payload_interpreter/parser.ts) *)

(** One round of the parameter loop. *)
Definition parseParameterItem (fuel : nat) (items : list ParameterItemNode)
  : M (list ParameterItemNode) :=
  st <- get ;;
  separator <-
    (if isChar (cur st) "|" then
       advance 1 ;;;
       ret (Some (Field.mk (Some (lit "|"))
              (Some (makePos (State.lineNumber st) (State.i st)
                             (State.i st + 1)))))
     else ret None) ;;
  valueField <- parseFieldUntil fuel (lit "|") ;;
  ret (items ++ [ParameterItem.mk separator valueField]).

Definition isPrefix (c : ascii) : bool :=
  eqc c "@" || eqc c "$" || eqc c "!".

Definition parsePayloadInstructionLine (fuel : nat) (line : str)
    (lineNumber : nat) : Res PayloadInstructionNode :=
  run (space0First <- parseSpace fuel ;;
       time <- parseNumberField fuel ;;
       space1TimeToEvent <- parseSpace fuel ;;
       event <- parseFieldUntil fuel (lit ".") ;;
       st <- get ;;
       dot <-
         (if isChar (cur st) "." then
            advance 1 ;;;
            ret (Some (Field.mk (Some (lit "."))
                   (Some (makePos (State.lineNumber st) (State.i st)
                                  (State.i st + 1)))))
          else ret None) ;;
       st <- get ;;
       instruction <-
         match cur st with
         | Some ch =>
             if isPrefix ch then
               let prefix :=
                 Field.mk (Some ch)
                   (Some (makePos (State.lineNumber st) (State.i st)
                                  (State.i st + 1))) in
               advance 1 ;;;
               name <- parseFieldUntil fuel (lit "|") ;;
               st <- get ;;
               parameters <-
                 (if inLine st && isChar (cur st) "|" then
                    let paramStart := State.i st in
                    items <- while fuel inLine (parseParameterItem fuel) [] ;;
                    st <- get ;;
                    ret (Some (Parameters.mk items
                           (Some (makePos (State.lineNumber st) paramStart
                                          (State.i st)))))
                  else ret None) ;;
               ret (Some (Instruction.mk (Some prefix) name parameters))
             else ret None
         | None => ret None
         end ;;
       ret (PayloadInstruction.mk space0First time space1TimeToEvent event
                                  dot instruction))
      line lineNumber.

(* ------------------------------------------------------------------ *)
(** ** Dispatchers *)

Definition commonParsers : list (Entry.t HkannoNode) :=
  [ Entry.mk (fun line => startsWith (trimStart line) (lit "#"))
             (fun fuel line n => mapRes NComment (parseCommentLine fuel line n));
    Entry.mk (fun line =>
                startsWith (toLowerCase (trimStart line)) (lit "trackname:"))
             (fun fuel line n =>
                mapRes NTrackName (parseTrackNameLine fuel line n));
    Entry.mk (fun line => includes (toLowerCase line) (lit "animrotation"))
             (fun fuel line n =>
                mapRes NRotation (parseAnimRotationLine fuel line n));
    Entry.mk (fun line => includes (toLowerCase line) (lit "animmotion"))
             (fun fuel line n =>
                mapRes NMotion (parseAnimMotionLine fuel line n)) ].

Definition extParser : list (Entry.t HkannoNodeExt) :=
  [ Entry.mk (fun line =>
                includes (toLowerCase line) (lit "specialframes_invincible"))
             (fun fuel line n => mapRes NIFrame (parseIFrameLine fuel line n));
    Entry.mk (fun line => includes (toLowerCase line) (lit "pie"))
             (fun fuel line n =>
                mapRes NPayloadInstruction
                       (parsePayloadInstructionLine fuel line n)) ].

(** [for (const { check, parser } of parsers)
       if (check(line)) return parser(line, lineNumber);]
    followed by the fallback. *)
Fixpoint dispatch {N : Type} (parsers : list (Entry.t N))
    (fallback : nat -> str -> nat -> Res N)
    (fuel : nat) (line : str) (lineNumber : nat) : Res N :=
  match parsers with
  | p :: rest =>
      if Entry.check p line then Entry.parser p fuel line lineNumber
      else dispatch rest fallback fuel line lineNumber
  | [] => fallback fuel line lineNumber
  end.

Definition widen (p : Entry.t HkannoNode) : Entry.t HkannoNodeExt :=
  Entry.mk (Entry.check p)
           (fun fuel line n => mapRes NCommon (Entry.parser p fuel line n)).

Definition parseHkannoLineExt (fuel : nat) (line : str) (lineNumber : nat)
  : Res HkannoNodeExt :=
  dispatch (extParser ++ map widen commonParsers)
           (fun fuel line n => mapRes (fun t => NCommon (NText t))
                                      (parseTextLine fuel line n))
           fuel line lineNumber.

End WithJson.

Definition parseHkannoLine (fuel : nat) (line : str) (lineNumber : nat)
  : Res HkannoNode :=
  dispatch commonParsers
           (fun fuel line n => mapRes NText (parseTextLine fuel line n))
           fuel line lineNumber.

(* ================================================================== *)
(** * The formatter (formatter.ts) *)

(** [string | number]; [undefined] is [None]. *)
Inductive Value : Type :=
| VString (s : str)
| VNumber (x : float).

Definition formatValue (v : option Value) : str :=
  match v with
  | Some (VNumber x) => toFixed6 x
  | Some (VString s) => s
  | None => []
  end.

Definition isDefined (v : option Value) : bool :=
  match v with
  | Some _ => true
  | None => false
  end.

Definition joinSpace1 (values : list (option Value)) : str :=
  join (lit " ") (map formatValue (filter isDefined values)).

Definition num (f : option (FieldNode float)) : option Value :=
  option_map VNumber (valueOf f).

Definition txt (f : option (FieldNode str)) : option Value :=
  option_map VString (valueOf f).

Definition formatNode (node : HkannoNode) : str :=
  match node with
  | NRotation n =>
      joinSpace1 [num (Rotation.time n); txt (Rotation.event n);
                  num (Rotation.degrees n)]
  | NMotion n =>
      joinSpace1 [num (Motion.time n); txt (Motion.event n);
                  num (Motion.x n); num (Motion.y n); num (Motion.z n)]
  | NText n => joinSpace1 [num (Text.time n); txt (Text.text n)]
  | NTrackName n =>
      lit "trackName: " ++
      match valueOf (TrackName.name n) with
      | Some v => trim v
      | None => []
      end
  | NComment n => joinSpace1 [Some (VString (lit "#")); txt (Comment.comment n)]
  end.

(** The loop of [formatHkannoText] over [lines], from index [i]. *)
Fixpoint formatLines (fuel : nat) (lines : list str) (i : nat)
  : Res (list str) :=
  match lines with
  | [] => Ok []
  | l :: rest =>
      match parseHkannoLine fuel l (i + 1) with
      | Ok node =>
          mapRes (cons (formatNode node)) (formatLines fuel rest (i + 1))
      | Throw e => Throw e
      | OutOfFuel => OutOfFuel
      end
  end.

Definition formatHkannoText (fuel : nat) (text : str) : Res str :=
  mapRes (join [newline]) (formatLines fuel (split_nl text) 0).

(* ================================================================== *)
(** * What the primitives consume

    The text a primitive consumes, as a function of the text that follows
    the cursor.  These functions are used to state what the loops of the
    primitives compute. *)

Fixpoint takeWhile (p : ascii -> bool) (s : str) : str :=
  match s with
  | c :: s' => if p c then c :: takeWhile p s' else []
  | [] => []
  end.

Fixpoint dropWhile (p : ascii -> bool) (s : str) : str :=
  match s with
  | c :: s' => if p c then dropWhile p s' else s
  | [] => []
  end.

Definition notIn (stop : str) (c : ascii) : bool :=
  negb (existsb (eqc c) stop).

Definition signText (s : str) : str :=
  match s with
  | c :: _ => if isSign c then [c] else []
  | [] => []
  end.

Definition expText (s : str) : str :=
  match s with
  | c :: s' =>
      if isExpMark c then
        c :: signText s' ++ takeWhile isDigit (skipn (length (signText s')) s')
      else []
  | [] => []
  end.

(** The text [parseNumberField] collects in [str]. *)
Definition numberText (s : str) : str :=
  let s1 := skipn (length (signText s)) s in
  signText s ++ takeWhile isDigitOrDot s1 ++ expText (dropWhile isDigitOrDot s1).

(** The state with [pre] consumed and [rest] ahead. *)
Definition at_ (pre rest : str) (lineNumber : nat) : ParserState :=
  State.mk (pre ++ rest) (length pre) lineNumber (length (pre ++ rest)).

(** Tokens built at the cursor. *)
Definition spaceTok (lineNumber : nat) (pre ws : str) : option SpaceNode :=
  match ws with
  | [] => None
  | _ => Some (Space.mk ws (makePos lineNumber (length pre)
                                    (length pre + length ws)))
  end.

Definition fieldTok {T : Type} (lineNumber : nat) (pre : str) (v : T)
    (consumed : str) : option (FieldNode T) :=
  Some (Field.mk (Some v) (Some (makePos lineNumber (length pre)
                                         (length pre + length consumed)))).

Definition textTok (lineNumber : nat) (pre v : str) : option (FieldNode str) :=
  match v with
  | [] => None
  | _ => fieldTok lineNumber pre v v
  end.

Definition numberTok (lineNumber : nat) (pre v : str)
  : option (FieldNode float) :=
  match v with
  | [] => None
  | _ => fieldTok lineNumber pre (Number v) v
  end.

Definition literalTok (lineNumber : nat) (pre literal rest : str)
  : option (FieldNode str) :=
  if startsWith rest literal then fieldTok lineNumber pre literal literal
  else None.

Definition afterLiteral (literal rest : str) : str :=
  if startsWith rest literal then skipn (length literal) rest else rest.

Definition literalText (literal rest : str) : str :=
  if startsWith rest literal then literal else [].

Definition expRest (s : str) : str :=
  match s with
  | c :: s' =>
      if isExpMark c then dropWhile isDigit (skipn (length (signText s')) s')
      else s
  | [] => []
  end.

(** What [parseNumberField] leaves ahead of the cursor. *)
Definition numberRest (s : str) : str :=
  expRest (dropWhile isDigitOrDot (skipn (length (signText s)) s)).

(* ------------------------------------------------------------------ *)
(** ** Cursors

    A cursor is the pair of the consumed text and the text ahead.  Each
    primitive is described by the token it returns at a cursor and by the
    cursor it leaves. *)

Definition Cursor : Type := str * str.

Definition atc (c : Cursor) (lineNumber : nat) : ParserState :=
  at_ (fst c) (snd c) lineNumber.

Definition move (c : Cursor) (consumed ahead : str) : Cursor :=
  (fst c ++ consumed, ahead).

Definition spaceAt (n : nat) (c : Cursor) : option SpaceNode :=
  spaceTok n (fst c) (takeWhile isSpace (snd c)).

Definition skipSpace (c : Cursor) : Cursor :=
  move c (takeWhile isSpace (snd c)) (dropWhile isSpace (snd c)).

Definition numberAt (n : nat) (c : Cursor) : option (FieldNode float) :=
  numberTok n (fst c) (numberText (snd c)).

Definition skipNumber (c : Cursor) : Cursor :=
  move c (numberText (snd c)) (numberRest (snd c)).

Definition literalAt (n : nat) (literal : str) (c : Cursor)
  : option (FieldNode str) :=
  literalTok n (fst c) literal (snd c).

Definition skipLiteral (literal : str) (c : Cursor) : Cursor :=
  move c (literalText literal (snd c)) (afterLiteral literal (snd c)).

Definition untilAt (n : nat) (stop : str) (c : Cursor)
  : option (FieldNode str) :=
  textTok n (fst c) (takeWhile (notIn stop) (snd c)).

Definition skipUntil (stop : str) (c : Cursor) : Cursor :=
  move c (takeWhile (notIn stop) (snd c)) (dropWhile (notIn stop) (snd c)).

(** The nodes the line parsers return, in terms of cursors. *)
Definition commentNodeOf (line : str) (n : nat) : CommentNode :=
  let c0 : Cursor := ([], line) in
  let c1 := skipSpace c0 in
  let c2 := skipLiteral (lit "#") c1 in
  let c3 := skipSpace c2 in
  let c4 := skipUntil [newline] c3 in
  Comment.mk (spaceAt n c0) (literalAt n (lit "#") c1) (spaceAt n c2)
             (untilAt n [newline] c3) (spaceAt n c4).

Definition trackNameNodeOf (line : str) (n : nat) : TrackNameNode :=
  let c0 : Cursor := ([], line) in
  let c1 := skipSpace c0 in
  let c2 := skipLiteral (lit "trackName:") c1 in
  let c3 := skipSpace c2 in
  let c4 := skipUntil [newline] c3 in
  TrackName.mk (spaceAt n c0) (literalAt n (lit "trackName:") c1)
               (spaceAt n c2) (trimField (untilAt n [newline] c3))
               (spaceAt n c4).

Definition textNodeOf (line : str) (n : nat) : TextNode :=
  let c0 : Cursor := ([], line) in
  let c1 := skipSpace c0 in
  let c2 := skipNumber c1 in
  let c3 := skipSpace c2 in
  let c4 := skipUntil [newline] c3 in
  Text.mk (spaceAt n c0) (numberAt n c1) (spaceAt n c2)
          (untilAt n [newline] c3) (spaceAt n c4).

Definition motionNodeOf (line : str) (n : nat) : MotionNode :=
  let c0 : Cursor := ([], line) in
  let c1 := skipSpace c0 in
  let c2 := skipNumber c1 in
  let c3 := skipSpace c2 in
  let c4 := skipLiteral (lit "animmotion") c3 in
  let c5 := skipSpace c4 in
  let c6 := skipNumber c5 in
  let c7 := skipSpace c6 in
  let c8 := skipNumber c7 in
  let c9 := skipSpace c8 in
  let c10 := skipNumber c9 in
  Motion.mk (spaceAt n c0) (numberAt n c1) (spaceAt n c2)
            (literalAt n (lit "animmotion") c3) (spaceAt n c4)
            (numberAt n c5) (spaceAt n c6) (numberAt n c7) (spaceAt n c8)
            (numberAt n c9) (spaceAt n c10).

Definition rotationNodeOf (line : str) (n : nat) : RotationNode :=
  let c0 : Cursor := ([], line) in
  let c1 := skipSpace c0 in
  let c2 := skipNumber c1 in
  let c3 := skipSpace c2 in
  let c4 := skipLiteral (lit "animrotation") c3 in
  let c5 := skipSpace c4 in
  let c6 := skipNumber c5 in
  Rotation.mk (spaceAt n c0) (numberAt n c1) (spaceAt n c2)
              (literalAt n (lit "animrotation") c3) (spaceAt n c4)
              (numberAt n c5) (spaceAt n c6).

(** The cursor at which [parseIFrameLine] reads the JSON text. *)
Definition iframeJsonCursor (line : str) : Cursor :=
  skipLiteral (lit "SpecialFrames_Invincible")
    (skipSpace (skipNumber (skipSpace ([], line)))).

(** The common node behind an entry point of the lenient dispatcher. *)
Definition hkannoNodeOf (line : str) (n : nat) : HkannoNode :=
  if startsWith (trimStart line) (lit "#") then NComment (commentNodeOf line n)
  else if startsWith (toLowerCase (trimStart line)) (lit "trackname:")
  then NTrackName (trackNameNodeOf line n)
  else if includes (toLowerCase line) (lit "animrotation")
  then NRotation (rotationNodeOf line n)
  else if includes (toLowerCase line) (lit "animmotion")
  then NMotion (motionNodeOf line n)
  else NText (textNodeOf line n).

(** The node [parseIFrameLine] returns. *)
Definition iframeNodeOf (JSON_parse : str -> str + Json) (line : str)
    (n : nat) : IFrameNode :=
  let c0 : Cursor := ([], line) in
  let c1 := skipSpace c0 in
  let c2 := skipNumber c1 in
  let c3 := skipSpace c2 in
  let c4 := iframeJsonCursor line in
  let c5 := skipUntil [newline] c4 in
  let raw := takeWhile (notIn [newline]) (snd c4) in
  let p := Some (makePos n (length (fst c4)) (length (fst c4) + length raw)) in
  let '(json, jsonParseError) :=
    match raw with
    | [] => (None, None)
    | _ =>
        match JSON_parse raw with
        | inr data => (Some (Field.mk (Some data) p), None)
        | inl msg =>
            (Some (Field.mk None p),
             Some (JsError.toString (SyntaxError msg)))
        end
    end in
  IFrame.mk (spaceAt n c0) (numberAt n c1) (spaceAt n c2)
            (literalAt n (lit "SpecialFrames_Invincible") c3)
            json (spaceAt n c5) jsonParseError.

(* ------------------------------------------------------------------ *)
(** ** Tokens of a node

    Every present whitespace token and field of a node, with its span and
    with what the node keeps of the text under the span. *)

Inductive Content : Type :=
| CRaw (s : str)            (** the text itself *)
| CTrimmed (s : str)        (** the text, trimmed *)
| CNumber (x : float)       (** [Number] of the text *)
| CJson (v : option Json)   (** the decoded text, absent on failure *)
| CChar (c : ascii)         (** the one character of the text *)
| CRange                    (** nothing but the span *)
| CNoValue.                 (** a field without a value *)

Definition Token : Type := option Pos * Content.

Definition spaceToken (s : option SpaceNode) : list Token :=
  match s with
  | Some s => [(Some (Space.pos s), CRaw (Space.rawText s))]
  | None => []
  end.

Definition fieldToken {T : Type} (content : T -> Content)
    (f : option (FieldNode T)) : list Token :=
  match f with
  | Some f =>
      [(Field.pos f,
        match Field.value f with
        | Some v => content v
        | None => CNoValue
        end)]
  | None => []
  end.

Definition jsonToken (f : option (FieldNode Json)) : list Token :=
  match f with
  | Some f => [(Field.pos f, CJson (Field.value f))]
  | None => []
  end.

Definition itemTokens (it : ParameterItemNode) : list Token :=
  fieldToken CRaw (ParameterItem.separator it) ++
  fieldToken CRaw (ParameterItem.value it).

Definition parametersTokens (p : option ParametersNode) : list Token :=
  match p with
  | Some p => (Parameters.pos p, CRange) :: flat_map itemTokens (Parameters.items p)
  | None => []
  end.

Definition instructionTokens (i : option InstructionNode) : list Token :=
  match i with
  | Some i =>
      fieldToken CChar (Instruction.prefix i) ++
      fieldToken CRaw (Instruction.name i) ++
      parametersTokens (Instruction.parameters i)
  | None => []
  end.

Definition tokens (node : HkannoNode) : list Token :=
  match node with
  | NRotation n =>
      spaceToken (Rotation.space0First n) ++
      fieldToken CNumber (Rotation.time n) ++
      spaceToken (Rotation.space1TimeToEvent n) ++
      fieldToken CRaw (Rotation.event n) ++
      spaceToken (Rotation.space1EventToDegrees n) ++
      fieldToken CNumber (Rotation.degrees n) ++
      spaceToken (Rotation.space0AfterDegrees n)
  | NMotion n =>
      spaceToken (Motion.space0First n) ++
      fieldToken CNumber (Motion.time n) ++
      spaceToken (Motion.space1TimeToEvent n) ++
      fieldToken CRaw (Motion.event n) ++
      spaceToken (Motion.space1EventToX n) ++
      fieldToken CNumber (Motion.x n) ++
      spaceToken (Motion.space1XToY n) ++
      fieldToken CNumber (Motion.y n) ++
      spaceToken (Motion.space1YToZ n) ++
      fieldToken CNumber (Motion.z n) ++
      spaceToken (Motion.space0AfterZ n)
  | NText n =>
      spaceToken (Text.space0First n) ++
      fieldToken CNumber (Text.time n) ++
      spaceToken (Text.space1TimeToText n) ++
      fieldToken CRaw (Text.text n) ++
      spaceToken (Text.space0AfterText n)
  | NComment n =>
      spaceToken (Comment.space0First n) ++
      fieldToken CRaw (Comment.hash n) ++
      spaceToken (Comment.space0HashToComment n) ++
      fieldToken CRaw (Comment.comment n) ++
      spaceToken (Comment.space0AfterComment n)
  | NTrackName n =>
      spaceToken (TrackName.space0First n) ++
      fieldToken CRaw (TrackName.literal n) ++
      spaceToken (TrackName.space0LiteralToName n) ++
      fieldToken CTrimmed (TrackName.name n) ++
      spaceToken (TrackName.space0AfterName n)
  end.

Definition tokensExt (node : HkannoNodeExt) : list Token :=
  match node with
  | NCommon n => tokens n
  | NIFrame n =>
      spaceToken (IFrame.space0First n) ++
      fieldToken CNumber (IFrame.time n) ++
      spaceToken (IFrame.space1TimeToEvent n) ++
      fieldToken CRaw (IFrame.event n) ++
      jsonToken (IFrame.json n) ++
      spaceToken (IFrame.space0AfterJson n)
  | NPayloadInstruction n =>
      spaceToken (PayloadInstruction.space0First n) ++
      fieldToken CNumber (PayloadInstruction.time n) ++
      spaceToken (PayloadInstruction.space1TimeToEvent n) ++
      fieldToken CRaw (PayloadInstruction.event n) ++
      fieldToken CRaw (PayloadInstruction.dot n) ++
      instructionTokens (PayloadInstruction.instruction n)
  end.

(** The characters of [line] under a span. *)
Definition spanned (line : str) (p : Pos) : str :=
  slice line (Pos.startColumn p - 1) (Pos.endColumn p - 1).

Definition contentOk (JSON_parse : str -> str + Json) (c : Content)
    (consumed : str) : Prop :=
  match c with
  | CRaw s => s = consumed
  | CTrimmed s => s = trim consumed
  | CNumber x => x = Number consumed
  | CJson v =>
      v = match JSON_parse consumed with
          | inr data => Some data
          | inl _ => None
          end
  | CChar ch => consumed = [ch]
  | CRange => True
  | CNoValue => False
  end.

(** A token of a parse of [line] as line [lineNumber]: it has a span, on
    that line, inside the text; the span is as long as the text consumed
    for the token, and the token holds that text. *)
Definition tokenOk (JSON_parse : str -> str + Json) (line : str)
    (lineNumber : nat) (t : Token) : Prop :=
  exists p consumed,
    fst t = Some p /\
    Pos.line p = lineNumber /\
    1 <= Pos.startColumn p /\
    Pos.startColumn p <= Pos.endColumn p /\
    Pos.endColumn p <= length line + 1 /\
    consumed = spanned line p /\
    Pos.endColumn p - Pos.startColumn p = length consumed /\
    contentOk JSON_parse (snd t) consumed.

(** The parse calls of the two modules. *)
Inductive ParseCall : Type :=
| CallCommentLine
| CallTrackNameLine
| CallTextLine
| CallAnimMotionLine
| CallAnimRotationLine
| CallIFrameLine
| CallPayloadInstructionLine
| CallHkannoLine
| CallHkannoLineExt.

Definition parseBy (JSON_parse : str -> str + Json) (call : ParseCall)
    (fuel : nat) (line : str) (lineNumber : nat) : Res HkannoNodeExt :=
  match call with
  | CallCommentLine =>
      mapRes (fun n => NCommon (NComment n))
             (parseCommentLine fuel line lineNumber)
  | CallTrackNameLine =>
      mapRes (fun n => NCommon (NTrackName n))
             (parseTrackNameLine fuel line lineNumber)
  | CallTextLine =>
      mapRes (fun n => NCommon (NText n)) (parseTextLine fuel line lineNumber)
  | CallAnimMotionLine =>
      mapRes (fun n => NCommon (NMotion n))
             (parseAnimMotionLine fuel line lineNumber)
  | CallAnimRotationLine =>
      mapRes (fun n => NCommon (NRotation n))
             (parseAnimRotationLine fuel line lineNumber)
  | CallIFrameLine =>
      mapRes NIFrame (parseIFrameLine JSON_parse fuel line lineNumber)
  | CallPayloadInstructionLine =>
      mapRes NPayloadInstruction
             (parsePayloadInstructionLine fuel line lineNumber)
  | CallHkannoLine => mapRes NCommon (parseHkannoLine fuel line lineNumber)
  | CallHkannoLineExt => parseHkannoLineExt JSON_parse fuel line lineNumber
  end.

(** The parameter items read from a cursor, in at most [k] rounds. *)
Fixpoint itemsFrom (k : nat) (n : nat) (c : Cursor) : list ParameterItemNode :=
  match k, snd c with
  | S k', _ :: _ =>
      let c1 := skipLiteral (lit "|") c in
      let c2 := skipUntil (lit "|") c1 in
      ParameterItem.mk (literalAt n (lit "|") c) (untilAt n (lit "|") c1)
        :: itemsFrom k' n c2
  | _, _ => []
  end.

(** The instruction read at a cursor. *)
Definition instructionAt (n : nat) (c : Cursor) : option InstructionNode :=
  match snd c with
  | ch :: ahead =>
      if isPrefix ch then
        let c1 := move c [ch] ahead in
        let c2 := skipUntil (lit "|") c1 in
        Some (Instruction.mk
                (fieldTok n (fst c) ch [ch])
                (untilAt n (lit "|") c1)
                (if startsWith (snd c2) (lit "|") then
                   Some (Parameters.mk
                           (itemsFrom (length (snd c2)) n c2)
                           (Some (makePos n (length (fst c2))
                                    (length (fst c2) + length (snd c2)))))
                 else None))
      else None
  | [] => None
  end.

(** The node [parsePayloadInstructionLine] returns. *)
Definition payloadNodeOf (line : str) (n : nat) : PayloadInstructionNode :=
  let c0 : Cursor := ([], line) in
  let c1 := skipSpace c0 in
  let c2 := skipNumber c1 in
  let c3 := skipSpace c2 in
  let c4 := skipUntil (lit ".") c3 in
  let c5 := skipLiteral (lit ".") c4 in
  PayloadInstruction.mk (spaceAt n c0) (numberAt n c1) (spaceAt n c2)
                        (untilAt n (lit ".") c3) (literalAt n (lit ".") c4)
                        (instructionAt n c5).

(** The node behind an entry point of the extended dispatcher. *)
Definition hkannoNodeExtOf (JSON_parse : str -> str + Json) (line : str)
    (n : nat) : HkannoNodeExt :=
  if includes (toLowerCase line) (lit "specialframes_invincible")
  then NIFrame (iframeNodeOf JSON_parse line n)
  else if includes (toLowerCase line) (lit "pie")
  then NPayloadInstruction (payloadNodeOf line n)
  else NCommon (hkannoNodeOf line n).

(** The node behind each parse call. *)
Definition nodeBy (JSON_parse : str -> str + Json) (call : ParseCall)
    (line : str) (n : nat) : HkannoNodeExt :=
  match call with
  | CallCommentLine => NCommon (NComment (commentNodeOf line n))
  | CallTrackNameLine => NCommon (NTrackName (trackNameNodeOf line n))
  | CallTextLine => NCommon (NText (textNodeOf line n))
  | CallAnimMotionLine => NCommon (NMotion (motionNodeOf line n))
  | CallAnimRotationLine => NCommon (NRotation (rotationNodeOf line n))
  | CallIFrameLine => NIFrame (iframeNodeOf JSON_parse line n)
  | CallPayloadInstructionLine => NPayloadInstruction (payloadNodeOf line n)
  | CallHkannoLine => NCommon (hkannoNodeOf line n)
  | CallHkannoLineExt => hkannoNodeExtOf JSON_parse line n
  end.

(** A cursor of [line]. *)
Definition onLine (line : str) (c : Cursor) : Prop := fst c ++ snd c = line.

(* ------------------------------------------------------------------ *)
(** ** Notions used by the statements *)

(** The [kind] tags of the two node sets. *)
Definition lenientKinds : list str :=
  [lit "rotation"; lit "motion"; lit "text"; lit "comment"; lit "trackName"].

Definition extendedKinds : list str :=
  lenientKinds ++ [lit "iframe"; lit "payload_instruction"].

(** A span of the data model, for a parse of [line] as [lineNumber]. *)
Definition spanOk (line : str) (lineNumber : nat) (p : option Pos) : Prop :=
  exists q,
    p = Some q /\
    Pos.line q = lineNumber /\ 1 <= Pos.line q /\
    1 <= Pos.startColumn q /\
    Pos.startColumn q <= Pos.endColumn q /\
    Pos.endColumn q <= length line + 1.

(** A well-formed node: every present token and field has a span, and the
    fields that always carry a value have one. *)
Definition wellFormed (line : str) (lineNumber : nat) (node : HkannoNodeExt)
  : Prop :=
  Forall (fun t => spanOk line lineNumber (fst t) /\ snd t <> CNoValue)
         (tokensExt node).

(** A state of a parse: the cursor is inside the line or at its end. *)
Definition wfState (st : ParserState) : Prop :=
  State.len st = length (State.line st) /\ State.i st <= State.len st.

(** [st'] is [st] with the cursor moved forward, within the line. *)
Definition advances (st st' : ParserState) : Prop :=
  State.line st' = State.line st /\
  State.lineNumber st' = State.lineNumber st /\
  State.len st' = State.len st /\
  State.i st <= State.i st' /\
  State.i st' <= State.len st.

(** The text ahead of the cursor. *)
Definition ahead (st : ParserState) : str :=
  skipn (State.i st) (State.line st).

(** The first parameter item of a payload-instruction node has no
    separator. *)
Definition firstSeparatorAbsent (node : PayloadInstructionNode) : Prop :=
  forall instr params item rest,
    PayloadInstruction.instruction node = Some instr ->
    Instruction.parameters instr = Some params ->
    Parameters.items params = item :: rest ->
    ParameterItem.separator item = None.

(** An item that carries its [|] separator. *)
Definition hasSeparator (item : ParameterItemNode) : Prop :=
  exists p,
    ParameterItem.separator item = Some (Field.mk (Some (lit "|")) (Some p)).

(** A bare sign is not consumed: with only a [+] or a [-] ahead,
    [parseNumberField] returns absent and leaves the state as it was. *)
Definition bareSignLeftAlone : Prop :=
  forall (fuel : nat) (st : ParserState) (c : ascii),
    wfState st ->
    State.len st - State.i st <= fuel ->
    isSign c = true ->
    ahead st = [c] ->
    parseNumberField fuel st = Ok (None, st).

(** A primitive at [st]: it returns, the cursor only moves forward, an
    absent result leaves the state as it was, a present one has moved
    the cursor. *)
Definition progresses {T : Type} (m : M (option T)) (st : ParserState)
  : Prop :=
  exists r st',
    m st = Ok (r, st') /\
    advances st st' /\
    (r = None -> st' = st) /\
    (r <> None -> State.i st < State.i st').

(* ------------------------------------------------------------------ *)
(** ** Notions on rendered numbers *)

(** Fixed notation with six fraction digits: an optional minus, one or
    more digits, a dot and exactly six digits. *)
Definition isUnsignedFixed6 (s : str) : bool :=
  match spanDigits s with
  | (_ :: _, dot :: fp) =>
      eqc dot "." && (length fp =? 6) && forallb isDigit fp
  | _ => false
  end.

Definition isFixed6 (s : str) : bool :=
  match s with
  | c :: r => if eqc c "-" then isUnsignedFixed6 r else isUnsignedFixed6 s
  | [] => false
  end.

(** A finite number below [10 ^ 21] in magnitude. *)
Definition isSmallFinite (x : float) : bool :=
  match x with
  | S754_zero _ => true
  | S754_finite _ m e => negb ((0 <=? e)%Z && (10 ^ 21 <=? Zpos m * 2 ^ e)%Z)
  | _ => false
  end.

(** The characters [toFixed6] writes. *)
Definition isNumberChar (c : ascii) : bool :=
  isDigit c || existsb (eqc c) (lit ".-+eNaInfity").

(** The numbers held by the fields of a node. *)
Definition numberOf (f : option (FieldNode float)) : list float :=
  match valueOf f with
  | Some x => [x]
  | None => []
  end.

Definition numbers (node : HkannoNode) : list float :=
  match node with
  | NRotation n => numberOf (Rotation.time n) ++ numberOf (Rotation.degrees n)
  | NMotion n =>
      numberOf (Motion.time n) ++ numberOf (Motion.x n) ++
      numberOf (Motion.y n) ++ numberOf (Motion.z n)
  | NText n => numberOf (Text.time n)
  | NComment _ => []
  | NTrackName _ => []
  end.

(* ------------------------------------------------------------------ *)
(** ** The formatted line

    The values the formatter reads from the node of a line, in terms of
    the text ahead of each field, and the line it writes. *)

Definition numberValue (s : str) : option Value :=
  match numberText s with
  | [] => None
  | t => Some (VNumber (Number t))
  end.

Definition untilValue (stop s : str) : option Value :=
  match takeWhile (notIn stop) s with
  | [] => None
  | t => Some (VString t)
  end.

Definition literalValue (literal s : str) : option Value :=
  if startsWith s literal then Some (VString literal) else None.

Definition afterNumber (s : str) : str := dropWhile isSpace (numberRest s).

Definition rotationOut (line : str) : str :=
  let s1 := dropWhile isSpace line in
  let s3 := afterNumber s1 in
  let s5 := dropWhile isSpace (afterLiteral (lit "animrotation") s3) in
  joinSpace1 [numberValue s1; literalValue (lit "animrotation") s3;
              numberValue s5].

Definition motionOut (line : str) : str :=
  let s1 := dropWhile isSpace line in
  let s3 := afterNumber s1 in
  let s5 := dropWhile isSpace (afterLiteral (lit "animmotion") s3) in
  let s7 := afterNumber s5 in
  let s9 := afterNumber s7 in
  joinSpace1 [numberValue s1; literalValue (lit "animmotion") s3;
              numberValue s5; numberValue s7; numberValue s9].

Definition textOut (line : str) : str :=
  let s1 := dropWhile isSpace line in
  let s3 := afterNumber s1 in
  joinSpace1 [numberValue s1; untilValue [newline] s3].

Definition commentOut (line : str) : str :=
  let s1 := dropWhile isSpace line in
  let s3 := dropWhile isSpace (afterLiteral (lit "#") s1) in
  joinSpace1 [Some (VString (lit "#")); untilValue [newline] s3].

Definition trackNameOut (line : str) : str :=
  let s1 := dropWhile isSpace line in
  let s3 := dropWhile isSpace (afterLiteral (lit "trackName:") s1) in
  lit "trackName: " ++ trim (trim (takeWhile (notIn [newline]) s3)).

(** The line [formatHkannoText] writes for a line. *)
Definition lineOut (line : str) : str :=
  if startsWith (trimStart line) (lit "#") then commentOut line
  else if startsWith (toLowerCase (trimStart line)) (lit "trackname:")
  then trackNameOut line
  else if includes (toLowerCase line) (lit "animrotation")
  then rotationOut line
  else if includes (toLowerCase line) (lit "animmotion")
  then motionOut line
  else textOut line.

(** A text without a newline. *)
Definition noNewline (s : str) : Prop := Forall (fun c => c <> newline) s.

(** Every number held by a node of a lenient parse renders in fixed
    notation with six fraction digits. *)
Definition rendersFixed6 : Prop :=
  forall (fuel : nat) (line : str) (n : nat) (node : HkannoNode) (x : float),
    length line <= fuel ->
    parseHkannoLine fuel line n = Ok node ->
    In x (numbers node) ->
    isFixed6 (formatValue (Some (VNumber x))) = true.

(** The first character [toFixed6] writes. *)
Definition isNumberHead (c : ascii) : bool :=
  isDigit c || eqc c "-" || eqc c "N" || eqc c "I".

(* ------------------------------------------------------------------ *)
(** ** Notions on spaces in the formatted line *)

Definition space : ascii := " "%char.

(** Two consecutive space characters somewhere in [s]. *)
Fixpoint doubleSpace (s : str) : bool :=
  match s with
  | a :: (b :: _) as r => (eqc a space && eqc b space) || doubleSpace r
  | _ => false
  end.

(** A value without any space character, and not empty. *)
Definition tight (s : str) : Prop :=
  s <> [] /\ Forall (fun c => c <> space) s.

(** The free text a node keeps verbatim: the comment, the text or the
    track name. *)
Definition freeText (node : HkannoNode) : str :=
  match node with
  | NText n => match valueOf (Text.text n) with Some t => t | None => [] end
  | NComment n =>
      match valueOf (Comment.comment n) with Some t => t | None => [] end
  | NTrackName n =>
      match valueOf (TrackName.name n) with Some t => t | None => [] end
  | NRotation _ => []
  | NMotion _ => []
  end.

(** No formatted line has two consecutive spaces. *)
Definition neverDoubleSpace : Prop :=
  forall (fuel : nat) (line : str) (n : nat) (node : HkannoNode),
    length line <= fuel ->
    parseHkannoLine fuel line n = Ok node ->
    includes (formatNode node) (lit "  ") = false.

(* ------------------------------------------------------------------ *)
(** ** Notions for formatting twice *)

(** A number that is zero or finite. *)
Definition isFiniteNumber (x : float) : bool :=
  match x with
  | S754_zero _ | S754_finite _ _ _ => true
  | _ => false
  end.

(** A negative number that rounds to zero at six decimals: it is
    rendered -0.000000. *)
Definition roundsToMinusZero (x : float) : bool :=
  match x with
  | S754_finite true m e => isSmallFinite x && (scaled6 (Zpos m) e =? 0)%Z
  | _ => false
  end.

(** A number that formatting renders in a form it reads back: a finite
    number that is not rendered -0.000000. *)
Definition steadyNumber (x : float) : bool :=
  isFiniteNumber x && negb (roundsToMinusZero x).

(** The numbers parsed from a line are steady. *)
Definition steadyLine (fuel : nat) (line : str) : bool :=
  match parseHkannoLine fuel line 1 with
  | Ok node => forallb steadyNumber (numbers node)
  | _ => false
  end.

(** The numbers parsed from the lines of a text are steady. *)
Definition steadyNumbers (fuel : nat) (text : str) : bool :=
  forallb (steadyLine fuel) (split_nl text).

(** Formatting is idempotent. *)
Definition formatIdempotent : Prop :=
  forall (fuel : nat) (text out : str),
    length text <= fuel ->
    length out <= fuel ->
    formatHkannoText fuel text = Ok out ->
    formatHkannoText fuel out = Ok out.

(* ------------------------------------------------------------------ *)
(** ** Notions used in the proofs *)

(** A number whose rendering is a numeral that reads back as a number
    with the same rendering. *)
Definition stableNumber (x : float) : bool :=
  let r := toFixed6 x in
  eqs (numberText r) r && eqs (toFixed6 (Number r)) r.

(** A rendering of a stable number. *)
Definition stableText (r : str) : Prop :=
  numberText r = r /\
  toFixed6 (Number r) = r /\
  Forall (fun c => isNumberChar c = true) r /\
  exists c r', r = c :: r' /\ isNumberHead c = true.

(** A value that is absent or a stable number. *)
Definition stableValue (v : option Value) : Prop :=
  match v with
  | Some (VNumber x) => stableNumber x = true
  | Some (VString _) => False
  | None => True
  end.

(** A character after which a numeral ends. *)
Definition endsNumber (c : ascii) : bool :=
  negb (isSign c) && negb (isDigitOrDot c) && negb (isExpMark c).

(** A text that starts with a character other than white space. *)
Definition solidHead (s : str) : Prop :=
  match s with
  | c :: _ => isSpace c = false
  | [] => False
  end.

(** What follows the first of several values joined by single spaces. *)
Definition restOf (rs : list str) : str :=
  match rs with
  | [] => []
  | _ => space :: join [space] rs
  end.

(** The numbers read one after the other, each followed by white space,
    as the rotation and motion parsers read their operands. *)
Fixpoint readNumbers (k : nat) (s : str) : list (option Value) :=
  match k with
  | 0 => []
  | S k' => numberValue s :: readNumbers k' (afterNumber s)
  end.

(** The line written for a time, a keyword and [k] numbers. *)
Definition keywordOut (literal : str) (k : nat) (line : str) : str :=
  let s1 := dropWhile isSpace line in
  let s3 := afterNumber s1 in
  let s5 := dropWhile isSpace (afterLiteral literal s3) in
  joinSpace1 (numberValue s1 :: literalValue literal s3 :: readNumbers k s5).

(** A keyword that does not start like a number or like white space. *)
Definition plainKeyword (literal : str) : Prop :=
  forall rest : str,
    numberValue (literal ++ rest) = None /\
    afterNumber (literal ++ rest) = literal ++ rest /\
    dropWhile isSpace (literal ++ rest) = literal ++ rest.

(** The minus sign of a negative rendering. *)
Definition signOf (neg : bool) : str := if neg then ["-"%char] else [].

(** A canonical binary64 number: at most 53 bits of mantissa, an exponent
    in range, and a full mantissa unless the exponent is the least. *)
Definition canonical (x : float) : bool :=
  match x with
  | S754_finite _ m e =>
      (Zpos m <? 2 ^ 53)%Z && (-1074 <=? e)%Z && (e <=? 971)%Z &&
      ((e =? -1074)%Z || (2 ^ 52 <=? Zpos m)%Z)
  | _ => true
  end.

(** A number that is zero, or finite, below [10 ^ 21] in magnitude and
    not a negative number that rounds to zero at six decimals. *)
Definition plainNumber (x : float) : bool :=
  match x with
  | S754_zero _ => true
  | S754_finite neg m e =>
      isSmallFinite x && negb (neg && (scaled6 (Zpos m) e =? 0)%Z)
  | _ => false
  end.

(** Exponent notation: a digit, the further digits after a dot, and the
    exponent. *)
Definition sciText (d : ascii) (ds digs : str) : str :=
  d :: match ds with
       | [] => []
       | _ => "."%char :: ds
       end ++ lit "e+" ++ digs.

(** A text in exponent notation. *)
Definition sciShaped (txt : str) : Prop :=
  exists d ds digs,
    txt = sciText d ds digs /\ isDigit d = true /\
    Forall (fun c => isDigit c = true) ds /\
    Forall (fun c => isDigit c = true) digs /\ digs <> [].

(** The rational value [m * 2 ^ e] of a mantissa and an exponent. *)
Definition val (m e : Z) : Q := (inject_Z m * 2 ^ e)%Q.

(** A text that does not begin with a space. *)
Definition cleanHead (s : str) : Prop :=
  match s with
  | c :: _ => c <> space
  | [] => False
  end.

(** The rendered values of [joinSpace1]. *)
Definition rendered (values : list (option Value)) : list str :=
  map formatValue (filter isDefined values).

(** The values [formatNode] hands to [joinSpace1] for a node; a track
    name is not written through [joinSpace1]. *)
Definition fieldValues (node : HkannoNode) : list (option Value) :=
  match node with
  | NRotation n =>
      [num (Rotation.time n); txt (Rotation.event n);
       num (Rotation.degrees n)]
  | NMotion n =>
      [num (Motion.time n); txt (Motion.event n);
       num (Motion.x n); num (Motion.y n); num (Motion.z n)]
  | NText n => [num (Text.time n); txt (Text.text n)]
  | NComment n => [Some (VString (lit "#")); txt (Comment.comment n)]
  | NTrackName _ => []
  end.

(** The texts of the values of a node that are present, in their order. *)
Definition presentValues (node : HkannoNode) : list str :=
  rendered (fieldValues node).

(** A text with no white space at either end. *)
Definition trimmed (s : str) : Prop :=
  dropWhile isSpace s = s /\ dropWhile isSpace (rev s) = rev s.

(** [s] has no character whose lower case is [ch]. *)
Definition avoids (ch : ascii) (s : str) : Prop :=
  Forall (fun c => lowerChar c <> ch) s.

(* ================================================================== *)
(** * The editor providers

    The functions behind the Monaco providers: what each computes from the
    lines of the model, without the registration calls.  They read a line
    through [parseHkannoLineExt]. *)

(** ** Code units above the 8-bit range

    [toUpperCase] leaves the 8-bit range on three code units, so its
    results, and the texts built from them, are lists of code units. *)

Definition ustr : Type := list N.

Definition wide (s : str) : ustr := map N_of_ascii s.

Fixpoint equ (a b : ustr) : bool :=
  match a, b with
  | [], [] => true
  | x :: a', y :: b' => (x =? y)%N && equ a' b'
  | _, _ => false
  end.

(** [s.toUpperCase()] on 8-bit code units: a-z, the Latin-1 small letters
    U+00E0..U+00FE except the division sign, the micro sign (to U+039C),
    the sharp s (to "SS") and y with diaeresis (to U+0178).  Code units
    beyond U+00FF are outside the strings modelled here. *)
Definition upperChar (c : ascii) : ustr :=
  let n := N_of_ascii c in
  (if (97 <=? n) && (n <=? 122) then [n - 32]
   else if n =? 181 then [924]
   else if n =? 223 then [83; 83]
   else if (224 <=? n) && (n <=? 254) && negb (n =? 247) then [n - 32]
   else if n =? 255 then [376]
   else [n])%N.

Definition toUpperCase (s : str) : ustr := flat_map upperChar s.

(** [`${n}`] for a count. *)
Definition showNat (n : nat) : str := digitsOf (Z.of_nat n).

Definition dquote : ascii := ascii_of_nat 34.

(** [f?.pos], [p?.startColumn ?? 1] and [p?.endColumn ?? lineLength + 1]. *)
Definition posOf {T : Type} (f : option (FieldNode T)) : option Pos :=
  match f with
  | Some f => Field.pos f
  | None => None
  end.

Definition spacePos (s : option SpaceNode) : option Pos :=
  option_map Space.pos s.

Definition startColumnOr1 (p : option Pos) : nat :=
  match p with
  | Some p => Pos.startColumn p
  | None => 1
  end.

Definition endColumnOr (p : option Pos) (otherwise : nat) : nat :=
  match p with
  | Some p => Pos.endColumn p
  | None => otherwise
  end.

(* ------------------------------------------------------------------ *)
(** ** The native instructions (payload_interpreter/completion.ts) *)

Module PieInstruction.
Record t : Type := mk { name : str; documentation : str; snippet : str }.
End PieInstruction.

(** The documentation template: a fenced usage line, then a sentence. *)
Definition fenced (usage about : str) : str :=
  join [newline] [lit "```hkanno"; usage; lit "```"; about].

Definition PIE_NATIVE_INSTRUCTIONS : list PieInstruction.t :=
  [ PieInstruction.mk (lit "SGVB")
      (fenced (lit "PIE.@SGVB|<graphVariable>|<bool>")
              (lit "Set an animation boolean variable."))
      (lit "SGVB|${1:graphVariable}|${2:bool}");
    PieInstruction.mk (lit "SGVF")
      (fenced (lit "PIE.@SGVF|<graphVariable>|<float>")
              (lit "Set an animation float variable."))
      (lit "SGVF|${1:graphVariable}|${2:float}");
    PieInstruction.mk (lit "SGVI")
      (fenced (lit "PIE.@SGVI|<graphVariable>|<int>")
              (lit "Set an animation integer variable."))
      (lit "SGVI|${1:graphVariable}|${2:int}");
    PieInstruction.mk (lit "CASTSPELL")
      (fenced (lit "PIE.@CASTSPELL|<spellID>|<esp>|<effectiveness>|<magnitude>|<selfTargeting>|<HealthReq>|<HealthCost>|<StaminaReq>|<StaminaCost>|<MagickaReq>|<MagickaCost>")
              (lit "Cast a spell on the actor. Spell may stay on actor."))
      (lit "CASTSPELL|${1:spellID}|${2:esp}|${3:effectiveness}|${4:magnitude}|${5:selfTargeting}|${6:HealthReq}|${7:HealthCost}|${8:StaminaReq}|${9:StaminaCost}|${10:MagickaReq}|${11:MagickaCost}");
    PieInstruction.mk (lit "APPLYSPELL")
      (fenced (lit "PIE.@APPLYSPELL|<spellID>|<esp>")
              (lit "Apply a spell instantly."))
      (lit "APPLYSPELL|${1:spellID}|${2:esp}");
    PieInstruction.mk (lit "UNAPPLYSPELL")
      (fenced (lit "PIE.@UNAPPLYSPELL|<spellID>|<esp>")
              (lit "Remove a spell effect."))
      (lit "UNAPPLYSPELL|${1:spellID}|${2:esp}");
    PieInstruction.mk (lit "SETGHOST")
      (fenced (lit "PIE.@SETGHOST|<bool>")
              (lit "Make the actor ghost (invincible)."))
      (lit "SETGHOST|${1:bool}");
    PieInstruction.mk (lit "PLAYPARTICLE")
      (fenced (lit "PIE.@PLAYPARTICLE|<nifPath>|<bodyPartIndex>|<scale>|<playTime>|<flags>|<X>|<Y>|<Z>")
              (lit "Play a nif particle effect on the actor."))
      (lit "PLAYPARTICLE|${1:nifPath}|${2:bodyPartIndex}|${3:scale}|${4:playTime}|${5:flags}|${6:X}|${7:Y}|${8:Z}") ].

(** [PIE_NATIVE_INSTRUCTIONS.find((i) => i.name.toUpperCase() === name)] *)
Definition findNative (name : ustr) : option PieInstruction.t :=
  find (fun i => equ (toUpperCase (PieInstruction.name i)) name)
       PIE_NATIVE_INSTRUCTIONS.

(* ------------------------------------------------------------------ *)
(** ** Signature help (payload_interpreter/signature.ts,
       providers/signature.ts) *)

Module ParameterInformation.
Record t : Type := mk { label : str; documentation : str }.
End ParameterInformation.

Module SignatureInformation.
Record t : Type := mk {
  label : str;
  documentation : option str;
  parameters : list ParameterInformation.t }.
End SignatureInformation.

(** The [value] of a [SignatureHelpResult]. *)
Module SignatureHelp.
Record t : Type := mk {
  signatures : list SignatureInformation.t;
  activeSignature : Z;
  activeParameter : Z }.
End SignatureHelp.
Definition SignatureHelp := SignatureHelp.t.

Module Position.
Record t : Type := mk { lineNumber : nat; column : Z }.
End Position.
Definition Position := Position.t.

(** [items.map((p, idx) => ...)], from index [idx]. *)
Fixpoint pieParams (items : list ParameterItemNode) (idx : nat)
  : list ParameterInformation.t :=
  match items with
  | p :: rest =>
      ParameterInformation.mk
        (lit "param" ++ showNat (idx + 1))
        (match valueOf (ParameterItem.value p) with
         | Some v => v
         | None => []
         end)
      :: pieParams rest (idx + 1)
  | [] => []
  end.

Module PieSignature.

Definition None_ : SignatureHelp := SignatureHelp.mk [] 0 0.

Definition providePieSignatureHelp (node : PayloadInstructionNode)
  : SignatureHelp :=
  match PayloadInstruction.instruction node with
  | Some instruction =>
      match valueOf (Instruction.name instruction) with
      | Some ((_ :: _) as name) =>
          let instructionName := toUpperCase name in
          match findNative instructionName with
          | Some insDef =>
              let paramCount :=
                match Instruction.parameters instruction with
                | Some ps => Z.of_nat (length (Parameters.items ps))
                | None => 0%Z
                end in
              let params :=
                match Instruction.parameters instruction with
                | Some ps => pieParams (Parameters.items ps) 0
                | None => []
                end in
              SignatureHelp.mk
                [SignatureInformation.mk
                   (PieInstruction.name insDef ++ lit "()")
                   (Some (PieInstruction.documentation insDef))
                   params]
                0
                (Z.min paramCount (Z.of_nat (length params) - 1))
          | None => None_
          end
      | _ => None_
      end
  | None => None_
  end.

End PieSignature.
Export PieSignature.

(** [s.slice(0, b)] for any integer [b]: a negative [b] counts from the
    end. *)
Definition sliceTo (s : str) (b : Z) : str :=
  firstn (Z.to_nat (if (b <? 0)%Z then Z.max (Z.of_nat (length s) + b) 0
                    else b)) s.

Module SignatureProvider.

Definition fnSignature (label doc : str) (params : list str) (activeParam : Z)
  : SignatureHelp :=
  SignatureHelp.mk
    [SignatureInformation.mk label (Some doc)
       (map (fun p => ParameterInformation.mk p (p ++ lit " value")) params)]
    0
    (Z.max 0 (Z.min activeParam (Z.of_nat (length params) - 1))).

(** The parameter of [animmotion] at the cursor. *)
Definition motionActiveParameter (node : MotionNode) (position : Position)
  : Z :=
  match posOf (Motion.x node) with
  | None => 0
  | Some xpos =>
      let cursorCol := Position.column position in
      if (cursorCol <=? Z.of_nat (Pos.endColumn xpos))%Z then 0
      else
        match posOf (Motion.y node) with
        | None => 1
        | Some ypos =>
            if (cursorCol <=? Z.of_nat (Pos.endColumn ypos))%Z then 1
            else 2
        end
  end%Z.

Definition rotationArgsProvided (node : RotationNode) : Z :=
  match valueOf (Rotation.degrees node) with
  | Some _ => 1
  | None => 0
  end%Z.

Definition valueOf (label doc paramLabel : str) : SignatureHelp :=
  SignatureHelp.mk
    [SignatureInformation.mk label None
       [ParameterInformation.mk paramLabel doc]]
    0 0.

Section WithJson.

Variable JSON_parse : str -> str + Json.

(** [provideSignatureHelp(model, position)], for the content of the line
    of [position]; [None] stands for [undefined]. *)
Definition provideSignatureHelp (fuel : nat) (lineContent : str)
    (position : Position) : Res (option SignatureHelp) :=
  let lineNumber := Position.lineNumber position in
  let beforeCursor := sliceTo lineContent (Position.column position - 1) in
  match parseHkannoLineExt JSON_parse fuel beforeCursor lineNumber with
  | Ok node =>
      Ok match node with
         | NPayloadInstruction node => Some (providePieSignatureHelp node)
         | NCommon (NMotion node) =>
             Some (fnSignature
                     (lit "animmotion <x: f32> <y: f32> <z: f32>")
                     (lit "Applies linear motion offset to the animation.")
                     [lit "x"; lit "y"; lit "z"]
                     (motionActiveParameter node position))
         | NCommon (NRotation node) =>
             Some (fnSignature
                     (lit "animrotation <angle: f32>")
                     (lit "Applies a rotation (in degrees) to the animation.")
                     [lit "angle"]
                     (rotationArgsProvided node))
         | NCommon (NText node) =>
             match Text.time node, Text.space1TimeToText node with
             | Some _, Some _ =>
                 Some (valueOf
                         (lit "<text: string>")
                         (lit "Annotation label or event name (e.g., `MCO_DodgeOpen`, `animmotion`, `animrotation`)")
                         (lit "text"))
             | _, _ =>
                 Some (valueOf (lit "<time: f32>")
                         (lit "Timestamp in seconds (e.g., 0.100000)")
                         (lit "time"))
             end
         | _ => None
         end
  | Throw e => Throw e
  | OutOfFuel => OutOfFuel
  end.

End WithJson.

End SignatureProvider.

(* ------------------------------------------------------------------ *)
(** ** Semantic tokens (providers/semantic_token.ts) *)

Definition TOKEN_TYPES : list str :=
  [ lit "support.class"; lit "variable.function"; lit "type"; lit "variable";
    lit "identifier"; lit "keyword"; lit "comment"; lit "string";
    lit "number"; lit "operator" ].

(** [xs.indexOf(x)] *)
Fixpoint indexOfFrom (x : str) (xs : list str) (i : Z) : Z :=
  match xs with
  | [] => (-1)%Z
  | y :: ys => if eqs y x then i else indexOfFrom x ys (i + 1)%Z
  end.

Definition indexOf (xs : list str) (x : str) : Z := indexOfFrom x xs 0.

(** [Number.isNaN(parseFloat(s))]: [parseFloat] reads the longest prefix
    of the text, without its leading white space, that is a decimal
    literal, and is NaN when there is none. *)
Definition parseFloatIsNaN (s : str) : bool :=
  let t := trimStart s in
  let u := match t with
           | c :: r => if isSign c then r else t
           | [] => []
           end in
  negb (startsWith u (lit "Infinity") ||
        match u with
        | d :: r =>
            isDigit d ||
            (eqc d "."%char &&
             match r with
             | e :: _ => isDigit e
             | [] => false
             end)
        | [] => false
        end).

(** The variables of [provideDocumentSemanticTokens]. *)
Module Sem.
Record t : Type := mk { data : list Z; lastLine : Z; lastChar : Z }.
End Sem.

Definition pushToken (pos : option Pos) (type : str) (st : Sem.t) : Sem.t :=
  match pos with
  | None => st
  | Some pos =>
      let tokenTypeIndex := indexOf TOKEN_TYPES type in
      if (tokenTypeIndex =? -1)%Z then st
      else
        let deltaLine := (Z.of_nat (Pos.line pos) - 1 - Sem.lastLine st)%Z in
        let deltaStart :=
          (if deltaLine =? 0
           then Z.of_nat (Pos.startColumn pos) - 1 - Sem.lastChar st
           else Z.of_nat (Pos.startColumn pos) - 1)%Z in
        let length :=
          (Z.of_nat (Pos.endColumn pos) - Z.of_nat (Pos.startColumn pos))%Z in
        Sem.mk (Sem.data st ++ [deltaLine; deltaStart; length;
                                tokenTypeIndex; 0%Z])
               (Z.of_nat (Pos.line pos) - 1)
               (Z.of_nat (Pos.startColumn pos) - 1)
  end.

(** [parameters?.items?.forEach(...)] *)
Definition pushParameter (st : Sem.t) (parameter : ParameterItemNode)
  : Sem.t :=
  let st := pushToken (posOf (ParameterItem.separator parameter))
                      (lit "operator") st in
  let value := ParameterItem.value parameter in
  if parseFloatIsNaN match valueOf value with
                     | Some v => v
                     | None => []
                     end
  then pushToken (posOf value) (lit "string") st
  else pushToken (posOf value) (lit "number") st.

(** The [switch] on the kind of the node. *)
Definition pushNode (node : HkannoNodeExt) (st : Sem.t) : Sem.t :=
  match node with
  | NPayloadInstruction node =>
      let st := pushToken (posOf (PayloadInstruction.event node))
                          (lit "variable") st in
      match PayloadInstruction.instruction node with
      | None => st
      | Some instruction =>
          let st := pushToken (posOf (Instruction.prefix instruction))
                              (lit "keyword") st in
          let st := pushToken (posOf (Instruction.name instruction))
                              (lit "variable.function") st in
          match Instruction.parameters instruction with
          | Some parameters =>
              fold_left pushParameter (Parameters.items parameters) st
          | None => st
          end
      end
  | NCommon (NTrackName node) =>
      let st := pushToken (posOf (TrackName.literal node))
                          (lit "variable") st in
      pushToken (posOf (TrackName.name node)) (lit "string") st
  | NCommon (NMotion node) =>
      let st := match posOf (Motion.event node) with
                | Some p => pushToken (Some p) (lit "identifier") st
                | None => st
                end in
      fold_left (fun st n => pushToken (posOf n) (lit "number") st)
                [Motion.x node; Motion.y node; Motion.z node] st
  | NCommon (NRotation node) =>
      let st := pushToken (posOf (Rotation.event node))
                          (lit "identifier") st in
      pushToken (posOf (Rotation.degrees node)) (lit "number") st
  | NIFrame node =>
      pushToken (posOf (IFrame.event node)) (lit "identifier") st
  | NCommon (NText node) =>
      let st := pushToken (posOf (Text.time node)) (lit "number") st in
      pushToken (posOf (Text.text node)) (lit "string") st
  | NCommon (NComment _) => st
  end.

(** [new Uint32Array(data)] *)
Definition toUint32 (z : Z) : Z := (z mod 2 ^ 32)%Z.

Section SemanticTokens.

Variable JSON_parse : str -> str + Json.

(** The loop over the lines, from index [lineNumber]. *)
Fixpoint semanticLines (fuel : nat) (lines : list str) (lineNumber : nat)
    (st : Sem.t) : Res Sem.t :=
  match lines with
  | [] => Ok st
  | lineText :: rest =>
      match parseHkannoLineExt JSON_parse fuel lineText (lineNumber + 1) with
      | Ok node => semanticLines fuel rest (lineNumber + 1) (pushNode node st)
      | Throw e => Throw e
      | OutOfFuel => OutOfFuel
      end
  end.

(** [provideDocumentSemanticTokens(model)], for the lines of the model:
    the [data] of the result. *)
Definition provideDocumentSemanticTokens (fuel : nat) (lines : list str)
  : Res (list Z) :=
  mapRes (fun st => map toUint32 (Sem.data st))
         (semanticLines fuel lines 0 (Sem.mk [] 0 0)).

End SemanticTokens.

(* ------------------------------------------------------------------ *)
(** ** Diagnostics (providers/diagnostic.ts) *)

Module MarkerSeverity.
Inductive t : Type := Error | Warning.
End MarkerSeverity.

Module Marker.
Record t : Type := mk {
  severity : MarkerSeverity.t;
  message : ustr;
  startLineNumber : nat;
  endLineNumber : nat;
  startColumn : nat;
  endColumn : nat;
  code : option str }.
End Marker.
Definition Marker := Marker.t.

(** The text ahead of a match of [/\$\{[0-9]+:/] that starts [s]. *)
Definition afterPlaceholder (s : str) : option str :=
  match s with
  | c :: d :: r =>
      if eqc c "$"%char && eqc d "{"%char then
        match takeWhile isDigit r, dropWhile isDigit r with
        | _ :: _, e :: r' => if eqc e ":"%char then Some r' else None
        | _, _ => None
        end
      else None
  | _ => None
  end.

(** [(s.match(/\$\{[0-9]+:/g) ?? []).length]: the matches are searched
    from left to right, each from the end of the one before; [inside]
    counts the characters of [s] that are still under the last match. *)
Fixpoint countPlaceholders (s : str) (inside : nat) : nat :=
  match s with
  | [] => 0
  | _ :: r =>
      match inside with
      | S k => countPlaceholders r k
      | O =>
          match afterPlaceholder s with
          | Some rest =>
              S (countPlaceholders r (length s - length rest - 1))
          | None => countPlaceholders r 0
          end
      end
  end.

(** Truthiness of a decoded JSON value. *)
Definition truthy (v : Json) : bool :=
  match v with
  | JString s => negb (eqs s [])
  | JNumber x =>
      match x with
      | S754_zero _ | S754_nan => false
      | _ => true
      end
  | JBoolean b => b
  | JObject _ | JArray _ => true
  | JNull => false
  end.

(** [Object.keys(v)] for a truthy [v]: the names of the members of an
    object, in the order [JSON.parse] gave them; the indices of an array
    and of a text; none for a number and for [true]. *)
Definition Object_keys (v : Json) : list str :=
  match v with
  | JObject members => map fst members
  | JArray elements => map showNat (seq 0 (length elements))
  | JString s => map showNat (seq 0 (length s))
  | JNumber _ | JBoolean _ | JNull => []
  end.

Definition provideIFrameDiagnostics (node : IFrameNode)
    (lineNumber lineLength : nat) : list Marker :=
  let mark severity message (p : option Pos) code :=
    Marker.mk severity message lineNumber lineNumber
              (startColumnOr1 p) (endColumnOr p (lineLength + 1)) code in
  let markers : list Marker := [] in
  (* time *)
  let markers :=
    match valueOf (IFrame.time node) with
    | None =>
        markers ++
        [mark MarkerSeverity.Error
              (wide (lit "Missing time value in IFrame event."))
              (posOf (IFrame.time node)) None]
    | Some _ => markers
    end in
  (* event *)
  let markers :=
    if match valueOf (IFrame.event node) with
       | Some v => eqs v (lit "SpecialFrames_Invincible")
       | None => false
       end
    then markers
    else
      markers ++
      [mark MarkerSeverity.Error
            (wide (lit "Invalid IFrame event name (expected 'SpecialFrames_Invincible')."))
            (posOf (IFrame.event node)) None] in
  (* JSON parse error *)
  let markers :=
    match IFrame.jsonParseError node with
    | Some message =>
        markers ++
        [mark MarkerSeverity.Error
              (wide (lit "IFrame JSON parse error: " ++ message))
              (posOf (IFrame.json node)) None]
    | None =>
        match valueOf (IFrame.json node) with
        | None =>
            markers ++
            [mark MarkerSeverity.Error
                  (wide (lit "IFrame JSON is missing or invalid. Only " ++
                         [dquote] ++ lit "Duration" ++ [dquote] ++
                         lit " is supported (IFrame Generator RE v1.03)."))
                  (posOf (IFrame.json node)) None]
        | Some _ => markers
        end
    end in
  (* JSON object contains unsupported keys *)
  match valueOf (IFrame.json node) with
  | Some value =>
      if truthy value then
        fold_left
          (fun markers key =>
             if eqs key (lit "Duration") then markers
             else
               markers ++
               [mark MarkerSeverity.Warning
                     (wide (lit "Possible typo: " ++ [dquote] ++ key ++
                            [dquote] ++ lit ". Did you mean " ++ [dquote] ++
                            lit "Duration" ++ [dquote] ++
                            lit "? (IFrame Generator RE v1.03 supports only " ++
                            [dquote] ++ lit "Duration" ++ [dquote] ++
                            lit ")"))
                     (posOf (IFrame.json node))
                     (Some (lit "fix-iframe-key"))])
          (Object_keys value) markers
      else markers
  | None => markers
  end.

(** [items.filter((item) => item.value).length] *)
Definition providedCount (items : list ParameterItemNode) : nat :=
  length (filter (fun item =>
                    match ParameterItem.value item with
                    | Some _ => true
                    | None => false
                    end) items).

(** The body of the loop of [updateHkannoDiagnostics]: the markers pushed
    for a line. *)
Definition lineDiagnostics (node : HkannoNodeExt) (line : str)
    (lineNumber : nat) : list Marker :=
  let mark severity message startCol endCol :=
    Marker.mk severity message lineNumber lineNumber startCol endCol None in
  match node with
  | NIFrame node => provideIFrameDiagnostics node lineNumber (length line)
  | NCommon (NMotion node) =>
      flat_map
        (fun axis : str * option (FieldNode float) =>
           match valueOf (snd axis) with
           | None =>
               let pos := posOf (snd axis) in
               [mark MarkerSeverity.Error
                     (wide (lit "Missing " ++ fst axis ++
                            lit " value in animmotion."))
                     (startColumnOr1 pos) (endColumnOr pos (length line + 1))]
           | Some _ => []
           end)
        [(lit "x", Motion.x node); (lit "y", Motion.y node);
         (lit "z", Motion.z node)]
  | NCommon (NRotation node) =>
      match valueOf (Rotation.degrees node) with
      | None =>
          let pos := posOf (Rotation.degrees node) in
          [mark MarkerSeverity.Error
                (wide (lit "Missing degrees value in animrotation."))
                (startColumnOr1 pos) (endColumnOr pos (length line + 1))]
      | Some _ => []
      end
  | NPayloadInstruction pieNode =>
      let instruction := PayloadInstruction.instruction pieNode in
      let nameField :=
        match instruction with
        | Some i => Instruction.name i
        | None => None
        end in
      let parameters :=
        match instruction with
        | Some i => Instruction.parameters i
        | None => None
        end in
      match option_map toUpperCase (valueOf nameField) with
      | Some ((_ :: _) as name) =>
          match findNative name with
          | Some def =>
              let provided :=
                match parameters with
                | Some ps => providedCount (Parameters.items ps)
                | None => 0
                end in
              let expected :=
                countPlaceholders (PieInstruction.snippet def) 0 in
              if provided <? expected then
                let startCol :=
                  startColumnOr1
                    match instruction with
                    | Some i => posOf (Instruction.prefix i)
                    | None => None
                    end in
                let endCol :=
                  endColumnOr
                    match parameters with
                    | Some ps => Parameters.pos ps
                    | None => None
                    end
                    (endColumnOr (posOf nameField) (length line + 1)) in
                [mark MarkerSeverity.Error
                      (wide (lit "PIE instruction '") ++ name ++
                       wide (lit "' expects " ++ showNat expected ++
                             lit " parameters, but " ++ showNat provided ++
                             lit " provided."))
                      startCol endCol]
              else []
          | None => []
          end
      | _ => []
      end
  | NCommon (NText node) =>
      match Text.time node, valueOf (Text.text node) with
      | Some _, (None | Some []) =>
          let startCol :=
            match spacePos (Text.space1TimeToText node) with
            | Some p => Pos.startColumn p
            | None => endColumnOr (posOf (Text.time node)) 1
            end in
          let endCol :=
            endColumnOr (spacePos (Text.space0AfterText node))
                        (length line + 1) in
          [mark MarkerSeverity.Warning
                (wide (lit "Text annotation is missing."))
                startCol endCol]
      | _, _ => []
      end
  | NCommon (NComment _) | NCommon (NTrackName _) => []
  end.

Section Diagnostics.

Variable JSON_parse : str -> str + Json.

(** The loop over the lines, from line [lineNumber]. *)
Fixpoint diagnosticsFrom (fuel : nat) (lines : list str) (lineNumber : nat)
    (markers : list Marker) : Res (list Marker) :=
  match lines with
  | [] => Ok markers
  | line :: rest =>
      match parseHkannoLineExt JSON_parse fuel line lineNumber with
      | Ok node =>
          diagnosticsFrom fuel rest (lineNumber + 1)
            (markers ++ lineDiagnostics node line lineNumber)
      | Throw e => Throw e
      | OutOfFuel => OutOfFuel
      end
  end.

(** [updateHkannoDiagnostics], for the lines of the model: the markers
    set on the model. *)
Definition updateHkannoDiagnostics (fuel : nat) (lines : list str)
  : Res (list Marker) :=
  diagnosticsFrom fuel lines 1 [].

End Diagnostics.

(* ------------------------------------------------------------------ *)
(** ** Code actions (providers/code_action.ts) *)

Module Range.
Record t : Type := mk {
  startLineNumber : nat;
  startColumn : nat;
  endLineNumber : nat;
  endColumn : nat }.
End Range.

(** [new Range(startLineNumber, startColumn, endLineNumber, endColumn)]:
    the constructor puts the two positions in order. *)
Definition newRange (startLineNumber startColumn endLineNumber endColumn : nat)
  : Range.t :=
  if (endLineNumber <? startLineNumber) ||
     ((startLineNumber =? endLineNumber) && (endColumn <? startColumn))
  then Range.mk endLineNumber endColumn startLineNumber startColumn
  else Range.mk startLineNumber startColumn endLineNumber endColumn.

Module TextEdit.
Record t : Type := mk { range : Range.t; text : str }.
End TextEdit.

Module WorkspaceTextEdit.
(** [versionId] is [undefined]. *)
Record t : Type := mk { resource : str; textEdit : TextEdit.t }.
End WorkspaceTextEdit.

Module CodeAction.
Record t : Type := mk {
  title : ustr;
  diagnostics : list Marker;
  kind : str;
  edits : list WorkspaceTextEdit.t;
  isPreferred : bool }.
End CodeAction.
Definition CodeAction := CodeAction.t.

(** [Object.entries(v)]: the members of an object, the elements of an
    array and the characters of a text under their indices, nothing for a
    number or a boolean; [null] throws a [TypeError]. *)
Definition Object_entries (v : Json) : Res (list (str * Json)) :=
  match v with
  | JObject members => Ok members
  | JArray elements =>
      Ok (combine (map showNat (seq 0 (length elements))) elements)
  | JString s =>
      Ok (combine (map showNat (seq 0 (length s)))
                  (map (fun c => JString [c]) s))
  | JNumber _ | JBoolean _ => Ok []
  | JNull =>
      Throw (JsError.mk (lit "TypeError")
               (lit "Cannot convert undefined or null to object"))
  end.

(** [o[key] = value] on an object given by its members. *)
Fixpoint setMember (o : list (str * Json)) (key : str) (value : Json)
  : list (str * Json) :=
  match o with
  | [] => [(key, value)]
  | (k, v) :: rest =>
      if eqs k key then (k, value) :: rest
      else (k, v) :: setMember rest key value
  end.

Section CodeActions.

(** The decoder and the encoder of the runtime, the text of the model in a
    range, and the URI of the model. *)
Variable JSON_parse : str -> str + Json.
Variable JSON_stringify : Json -> str.
Variable getValueInRange : Range.t -> str.
Variable uri : str.

(** The body of the [try]: the text of the fix. *)
Definition fixedTextOf (textInRange : str) : Res str :=
  match JSON_parse_call JSON_parse textInRange with
  | Ok parsed =>
      match Object_entries parsed with
      | Ok entries =>
          let normalized :=
            fold_left (fun normalized entry =>
                         setMember normalized (lit "Duration") (snd entry))
                      entries [] in
          Ok (JSON_stringify (JObject normalized))
      | Throw e => Throw e
      | OutOfFuel => OutOfFuel
      end
  | Throw e => Throw e
  | OutOfFuel => OutOfFuel
  end.

(** [provideCodeActions(model, _range, context, _token)], for the markers
    of the context: the actions of the result. *)
Fixpoint provideCodeActions (markers : list Marker) : list CodeAction :=
  match markers with
  | [] => []
  | marker :: rest =>
      match Marker.code marker with
      | Some code =>
          if eqs code (lit "fix-iframe-key") then
            let range :=
              newRange (Marker.startLineNumber marker)
                       (Marker.startColumn marker)
                       (Marker.endLineNumber marker)
                       (Marker.endColumn marker) in
            let textInRange := trim (getValueInRange range) in
            match fixedTextOf textInRange with
            | Ok fixedText =>
                CodeAction.mk
                  (wide (lit "Fix IFrame key ") ++ [8594%N] ++
                   wide (lit " " ++ [dquote] ++ lit "Duration" ++ [dquote]))
                  [marker]
                  (lit "quickfix")
                  [WorkspaceTextEdit.mk uri (TextEdit.mk range fixedText)]
                  true
                :: provideCodeActions rest
            | _ => provideCodeActions rest
            end
          else provideCodeActions rest
      | None => provideCodeActions rest
      end
  end.

End CodeActions.

(* ------------------------------------------------------------------ *)
(** ** Hover (providers/hover.ts) *)

Definition UNKNOWN : str := lit "<unknown>".

(** The lines of a template, put together with line breaks. *)
Definition template (lines : list str) : str := join [newline] lines.

(** [isCursorInside(field, column)] *)
Definition isCursorInside {T : Type} (field : option (FieldNode T))
    (column : Z) : bool :=
  match posOf field with
  | Some pos =>
      (Z.of_nat (Pos.startColumn pos) <=? column)%Z &&
      (column <=? Z.of_nat (Pos.endColumn pos))%Z
  | None => false
  end.

Definition getPrefixKindDisplay (ch : option ascii) : option str :=
  match ch with
  | Some c =>
      if eqc c "@" then Some (lit "Native")
      else if eqc c "$" then Some (lit "Custom")
      else if eqc c "!" then Some (lit "Async")
      else None
  | None => None
  end.

(** [`${x}`] for a text that may be [undefined]. *)
Definition showText (x : option str) : str :=
  match x with
  | Some s => s
  | None => lit "undefined"
  end.

Definition hoverTrackName (node : TrackNameNode) : str :=
  let name :=
    match valueOf (TrackName.name node) with
    | Some v => v
    | None => lit "<unnamed>"
    end in
  template
    [ lit "# Annotation Track";
      lit "This defines a named annotation track. All following annotations belong to this track until the next trackName or end of file.";
      [];
      lit "- Track name: `" ++ name ++ lit "`" ].

Definition hoverPie (node : PayloadInstructionNode) (cursorColumn : Z) : str :=
  let pie := node in
  if isCursorInside (PayloadInstruction.event pie) cursorColumn then
    template
      [ lit "# Payload Interpreter Dummy event (PIE)";
        lit "Payload instruction.";
        lit "- required: [Payload Interpreter](https://www.nexusmods.com/skyrimspecialedition/mods/65089)";
        lit "- See: [Reference](https://github.com/D7ry/PayloadInterpreter?tab=readme-ov-file#list-of-instructions)";
        [];
        lit "# Format";
        lit "- Native instruction";
        lit "  ```hkanno";
        lit "  PIE.@<instruction>|<param1>|<param2>|...";
        lit "  ```";
        [];
        lit "- Custom instruction";
        lit "  ```hkanno";
        lit "  PIE.$KEY|instruction1|instruction2|...";
        lit "  ```";
        [];
        lit "- Async instruction";
        lit "  ```hkanno";
        lit "  PIE.$[time]<rest>";
        lit "  ```";
        [] ]
  else
    let instruction := PayloadInstruction.instruction pie in
    let name :=
      match instruction with
      | Some i =>
          match valueOf (Instruction.name i) with
          | Some v => v
          | None => UNKNOWN
          end
      | None => UNKNOWN
      end in
    let params :=
      match instruction with
      | Some i =>
          match Instruction.parameters i with
          | Some ps =>
              map (fun p => match valueOf (ParameterItem.value p) with
                            | Some v => v
                            | None => UNKNOWN
                            end)
                  (Parameters.items ps)
          | None => []
          end
      | None => []
      end in
    let kind :=
      getPrefixKindDisplay
        match instruction with
        | Some i => valueOf (Instruction.prefix i)
        | None => None
        end in
    join [newline]
      [ lit "# PIE Instruction";
        lit "- Kind: `" ++ showText kind ++ lit "`";
        lit "- Name: `" ++ name ++ lit "`";
        match params with
        | [] => lit "- No parameters"
        | _ => lit "- Parameters: " ++ join (lit " | ") params
        end ].

Section Hover.

(** The decoder, the conversion of a number to a text and
    [JSON.stringify(v, null, 2)] are the runtime's. *)
Variable JSON_parse : str -> str + Json.
Variable Number_toString : float -> str.
Variable JSON_stringify2 : Json -> str.

(** [`${f?.value ?? UNKNOWN}`] for a number field. *)
Definition showNumber (f : option (FieldNode float)) : str :=
  match valueOf f with
  | Some x => Number_toString x
  | None => UNKNOWN
  end.

Definition hoverMotion (node : MotionNode) (cursorColumn : Z) : str :=
  if isCursorInside (Motion.event node) cursorColumn then
    template
      [ lit "# Anim Motion";
        lit "Applies linear motion to the animation.";
        lit "- required: [Animation Motion Revolution](https://www.nexusmods.com/skyrimspecialedition/mods/50258)";
        [];
        lit "# Format";
        [];
        lit "```hkanno";
        lit "animmotion <x: f32> <y: f32> <z: f32>";
        lit "```" ]
  else
    let x := showNumber (Motion.x node) in
    let y := showNumber (Motion.y node) in
    let z := showNumber (Motion.z node) in
    let time := showNumber (Motion.time node) in
    template
      [ lit "# animmotion values";
        lit "- Time: " ++ time ++ lit "s";
        lit "- X: " ++ x;
        lit "- Y: " ++ y;
        lit "- Z: " ++ z ].

Definition hoverRotation (node : RotationNode) (cursorColumn : Z) : str :=
  if isCursorInside (Rotation.event node) cursorColumn then
    template
      [ lit "# Anim Rotation";
        lit "Applies rotation to the animation.";
        lit "- required: [Animation Motion Revolution](https://www.nexusmods.com/skyrimspecialedition/mods/50258)";
        [];
        lit "# Format";
        [];
        lit "```hkanno";
        lit "animrotation <degrees: f32>";
        lit "```" ]
  else
    let deg := showNumber (Rotation.degrees node) in
    let time := showNumber (Rotation.time node) in
    template
      [ lit "# animrotation value";
        lit "- Time: " ++ time ++ lit "s";
        (* the degree sign, U+00B0 *)
        lit "- Degrees: " ++ deg ++ [ascii_of_nat 176] ].

Definition hoverText (node : TextNode) : str :=
  let text :=
    match valueOf (Text.text node) with
    | Some v => v
    | None => UNKNOWN
    end in
  let time := showNumber (Text.time node) in
  template
    [ lit "# Text annotation";
      lit "- Time: " ++ time ++ lit "s";
      lit "- Text: `" ++ text ++ lit "`" ].

Definition hoverIFrame (node : IFrameNode) (cursorColumn : Z) : str :=
  if isCursorInside (IFrame.event node) cursorColumn then
    template
      [ lit "# Invincibility Frames Annotation";
        lit "- required: [IFrame Generator RE](https://www.nexusmods.com/skyrimspecialedition/mods/74401)";
        lit "- See: [tutorial](https://github.com/max-su-2019/MaxsuIFrame/blob/main/doc/en/tutorial.md)";
        [];
        lit "# Format";
        [];
        lit "- As of v1.03, it appears to support only `Duration`.";
        [];
        lit "```hkanno";
        lit "SpecialFrames_Invincible{" ++ [dquote] ++ lit "Duration" ++
          [dquote] ++ lit ": <value: f32>}";
        lit "```";
        [];
        lit "# Example";
        [];
        lit "Invincible for 0.1 to 0.5 seconds";
        [];
        lit "```hkanno";
        lit "0.1 SpecialFrames_Invincible{" ++ [dquote] ++ lit "Duration" ++
          [dquote] ++ lit ": 0.5}";
        lit "```";
        [] ]
  else
    let time := showNumber (IFrame.time node) in
    let json :=
      match valueOf (IFrame.json node) with
      | Some v =>
          if truthy v then JSON_stringify2 v
          else lit "<" ++ showText (IFrame.jsonParseError node) ++ lit ">"
      | None => lit "<" ++ showText (IFrame.jsonParseError node) ++ lit ">"
      end in
    template
      [ lit " # I-Frame value";
        lit "- Time: " ++ time ++ lit "s";
        lit "- JSON Data:";
        lit "  ```json";
        lit "  " ++ json;
        lit "  ```";
        [];
        [] ].

(** [null] is [None]. *)
Definition buildHoverMarkdown (node : HkannoNodeExt) (cursorColumn : Z)
  : option str :=
  match node with
  | NCommon (NTrackName node) => Some (hoverTrackName node)
  | NCommon (NMotion node) => Some (hoverMotion node cursorColumn)
  | NCommon (NRotation node) => Some (hoverRotation node cursorColumn)
  | NCommon (NText node) => Some (hoverText node)
  | NIFrame node => Some (hoverIFrame node cursorColumn)
  | NPayloadInstruction node => Some (hoverPie node cursorColumn)
  | NCommon (NComment _) => None
  end.

(** [provideHover(model, position)], for the content of the line of
    [position]: the one value of the contents of the hover, or [None] for
    [null]. *)
Definition provideHover (fuel : nat) (lineContent : str) (position : Position)
  : Res (option str) :=
  match parseHkannoLineExt JSON_parse fuel lineContent
          (Position.lineNumber position) with
  | Ok node =>
      Ok match buildHoverMarkdown node (Position.column position) with
         | Some ((_ :: _) as markdown) => Some markdown
         | _ => None
         end
  | Throw e => Throw e
  | OutOfFuel => OutOfFuel
  end.

End Hover.

(* ------------------------------------------------------------------ *)
(** ** Notions on the spans of a node *)

(** The column (from 0) of a cursor. *)
Definition col (c : Cursor) : nat := length (fst c).

(** The span between two cursors, absent when they are at the same
    column. *)
Definition spanAt (n : nat) (c c' : Cursor) : option Pos :=
  if col c <? col c' then Some (makePos n (col c) (col c')) else None.

(** The tokens of a node but the span of the parameter list, which lies
    over the tokens of its items. *)
Definition isRange (t : Token) : bool :=
  match snd t with
  | CRange => true
  | _ => false
  end.

Definition leaves (node : HkannoNodeExt) : list Token :=
  filter (fun t => negb (isRange t)) (tokensExt node).

(** [tilesFrom n column ts]: the tokens [ts] are on line [n], none is
    empty, the first starts at [column] and each of the others where the
    one before ends; the result is the column where the last ends. *)
Fixpoint tilesFrom (n column : nat) (ts : list Token) : option nat :=
  match ts with
  | [] => Some column
  | (Some p, _) :: rest =>
      if (Pos.line p =? n) && (Pos.startColumn p =? column) &&
         (column <? Pos.endColumn p)
      then tilesFrom n (Pos.endColumn p) rest
      else None
  | (None, _) :: _ => None
  end.

(** The text of [line] under the span of a token. *)
Definition under (line : str) (t : Token) : str :=
  match fst t with
  | Some p => spanned line p
  | None => []
  end.

(* ------------------------------------------------------------------ *)
(** ** Notions on the diagnostics *)

(** The markers of a line, from its text. *)
Definition diagnosticsOf (JSON_parse : str -> str + Json) (line : str)
    (n : nat) : list Marker :=
  lineDiagnostics (hkannoNodeExtOf JSON_parse line n) line n.

(** The markers of the lines from line [n]. *)
Fixpoint markersFrom (JSON_parse : str -> str + Json) (lines : list str)
    (n : nat) : list Marker :=
  match lines with
  | [] => []
  | l :: rest =>
      diagnosticsOf JSON_parse l n ++ markersFrom JSON_parse rest (n + 1)
  end.

(** A marker within line [n], whose text is [line]. *)
Definition markerIn (line : str) (n : nat) (m : Marker) : Prop :=
  Marker.startLineNumber m = n /\
  Marker.endLineNumber m = n /\
  1 <= Marker.startColumn m /\
  Marker.startColumn m <= Marker.endColumn m /\
  Marker.endColumn m <= length line + 1.

(** A marker within one of the lines of a model. *)
Definition markerOk (lines : list str) (m : Marker) : Prop :=
  exists line,
    1 <= Marker.startLineNumber m /\
    nth_error lines (Marker.startLineNumber m - 1) = Some line /\
    markerIn line (Marker.startLineNumber m) m.

(** A span within line [n], or none. *)
Definition spanIn (line : str) (n : nat) (p : option Pos) : Prop :=
  match p with
  | Some q =>
      Pos.line q = n /\ 1 <= Pos.startColumn q /\
      Pos.startColumn q < Pos.endColumn q /\
      Pos.endColumn q <= length line + 1
  | None => True
  end.

(** The marker of a missing value of [animmotion]: an error over the
    whole line. *)
Definition missingValue (line : str) (n : nat) (axis : str) : Marker :=
  Marker.mk MarkerSeverity.Error
            (wide (lit "Missing " ++ axis ++ lit " value in animmotion."))
            n n 1 (length line + 1) None.

(** A line that holds, white space apart, a numeral as [parseNumberField]
    reads it and nothing else. *)
Definition bareTime (line : str) : bool :=
  let r := trimStart line in
  negb (eqs (numberText r) []) && eqs (trimStart (numberRest r)) [].

(** The characters [parseNumberField] reads. *)
Definition isScanChar (c : ascii) : bool :=
  isSign c || isDigitOrDot c || isExpMark c.

(** The marker of a time without a text. *)
Definition textMissing (line : str) (n : nat) : Marker :=
  Marker.mk MarkerSeverity.Warning (wide (lit "Text annotation is missing."))
            n n (length line - length (numberRest (trimStart line)) + 1)
            (length line + 1) None.

(** The first code unit of each message tells the markers apart. *)
Definition startsWithT (m : Marker) : bool :=
  match Marker.message m with
  | u :: _ => (u =? 84)%N
  | [] => false
  end.

(** An IFrame line: a time, the event name and a JSON text, with white
    space [s0] before the time and [s1] after it. *)
Definition iframeLine (s0 t s1 raw : str) : str :=
  s0 ++ t ++ s1 ++ lit "SpecialFrames_Invincible" ++ raw.

(** White space only. *)
Definition blank (s : str) : Prop := Forall (fun c => isSpace c = true) s.

(** A decoder that knows the text [ null] alone, for the examples. *)
Definition parseNullOnly (s : str) : str + Json :=
  if eqs s (lit " null") then inr JNull else inl (lit "Unexpected token").

(** A payload-instruction line: the event [PIE], the dot, a prefix, the
    name of the instruction and its parameters, each after a bar. *)
Definition bars (params : list str) : str :=
  flat_map (fun x => "|"%char :: x) params.

Definition pieLine (prefix : ascii) (name : str) (params : list str) : str :=
  lit "PIE." ++ prefix :: name ++ bars params.

(** A text without a bar. *)
Definition barless (s : str) : Prop :=
  Forall (fun c => notIn (lit "|") c = true) s.

(** The parameters that are not empty. *)
Definition givenCount (params : list str) : nat :=
  length (filter (fun x => negb (eqs x [])) params).

(** The marker of an instruction with too few parameters. *)
Definition tooFewParameters (line : str) (n : nat) (name : ustr)
    (expected provided : nat) : Marker :=
  Marker.mk MarkerSeverity.Error
    (wide (lit "PIE instruction '") ++ name ++
     wide (lit "' expects " ++ showNat expected ++
           lit " parameters, but " ++ showNat provided ++ lit " provided."))
    n n 5 (length line + 1) None.

(** The warning on a key of the JSON of an IFrame line, over the columns
    from [start] to the end of the line. *)
Definition typoMarker (line : str) (n start : nat) (key : str) : Marker :=
  Marker.mk MarkerSeverity.Warning
    (wide (lit "Possible typo: " ++ [dquote] ++ key ++ [dquote] ++
           lit ". Did you mean " ++ [dquote] ++ lit "Duration" ++ [dquote] ++
           lit "? (IFrame Generator RE v1.03 supports only " ++
           [dquote] ++ lit "Duration" ++ [dquote] ++ lit ")"))
    n n start (length line + 1) (Some (lit "fix-iframe-key")).

(** The keys other than [Duration]. *)
Definition otherKeys (keys : list str) : list str :=
  filter (fun key => negb (eqs key (lit "Duration"))) keys.

(** The object that the quick fix writes for the entries of the decoded
    value: the value of the last entry under the one key [Duration]. *)
Definition lastAsDuration (entries : list (str * Json)) : list (str * Json) :=
  match entries with
  | [] => []
  | e :: rest => [(lit "Duration", snd (last rest e))]
  end.

(** The quick fix of a marker: one edit of the range [range] of the model
    [uri] to [text]. *)
Definition quickFix (uri : str) (range : Range.t) (text : str) (marker : Marker)
  : CodeAction :=
  CodeAction.mk
    (wide (lit "Fix IFrame key ") ++ [8594%N] ++
     wide (lit " " ++ [dquote] ++ lit "Duration" ++ [dquote]))
    [marker] (lit "quickfix")
    [WorkspaceTextEdit.mk uri (TextEdit.mk range text)] true.

(* ------------------------------------------------------------------ *)
(** ** Notions on the signature help *)

(** The active parameter of a signature help is an index of the
    parameters of its one signature, or -1 when the signature has no
    parameter; without a signature it is 0. *)
Definition activeInRange (help : SignatureHelp) : Prop :=
  SignatureHelp.activeSignature help = 0%Z /\
  match SignatureHelp.signatures help with
  | [] => SignatureHelp.activeParameter help = 0%Z
  | [sig] =>
      (SignatureHelp.activeParameter help
       = Z.of_nat (length (SignatureInformation.parameters sig)) - 1 \/
       0 <= SignatureHelp.activeParameter help
         < Z.of_nat (length (SignatureInformation.parameters sig)))%Z
  | _ => False
  end.

(** The parameters shown for the texts [params], numbered from
    [idx + 1]. *)
Fixpoint shownParams (params : list str) (idx : nat)
  : list ParameterInformation.t :=
  match params with
  | x :: rest =>
      ParameterInformation.mk (lit "param" ++ showNat (idx + 1)) x
      :: shownParams rest (idx + 1)
  | [] => []
  end.

(* ------------------------------------------------------------------ *)
(** ** Notions on the semantic tokens *)

(** The data of the semantic tokens are read in groups of five numbers,
    as [pushToken] writes them: the line of the token, counted from the
    line of the token before; its first character, counted from that of
    the token before when both are on one line; its length; the index of
    its type; and 0 for its modifiers.
    [wellOrdered prev data]: each token is on the line of the token before
    or on a later one; on the same line it starts at or after the end of
    the token before, whose length is [prev]; no token is empty, and the
    types are indices of [TOKEN_TYPES]. *)
Fixpoint wellOrdered (prev : Z) (data : list Z) : Prop :=
  match data with
  | [] => True
  | deltaLine :: deltaStart :: len :: type :: modifiers :: rest =>
      (0 <= deltaLine /\
       (if deltaLine =? 0 then prev <= deltaStart else 0 <= deltaStart) /\
       1 <= len /\
       0 <= type < Z.of_nat (length TOKEN_TYPES) /\
       modifiers = 0)%Z /\
      wellOrdered len rest
  | _ => False
  end.

(** The calls of [pushToken] for a parameter and for a node, in order. *)
Definition parameterPushes (parameter : ParameterItemNode)
  : list (option Pos * str) :=
  [ (posOf (ParameterItem.separator parameter), lit "operator");
    (posOf (ParameterItem.value parameter),
     if parseFloatIsNaN match valueOf (ParameterItem.value parameter) with
                        | Some v => v
                        | None => []
                        end
     then lit "string" else lit "number") ].

Definition pushes (node : HkannoNodeExt) : list (option Pos * str) :=
  match node with
  | NPayloadInstruction node =>
      (posOf (PayloadInstruction.event node), lit "variable") ::
      match PayloadInstruction.instruction node with
      | None => []
      | Some instruction =>
          (posOf (Instruction.prefix instruction), lit "keyword") ::
          (posOf (Instruction.name instruction), lit "variable.function") ::
          match Instruction.parameters instruction with
          | Some parameters =>
              flat_map parameterPushes (Parameters.items parameters)
          | None => []
          end
      end
  | NCommon (NTrackName node) =>
      [ (posOf (TrackName.literal node), lit "variable");
        (posOf (TrackName.name node), lit "string") ]
  | NCommon (NMotion node) =>
      [ (posOf (Motion.event node), lit "identifier");
        (posOf (Motion.x node), lit "number");
        (posOf (Motion.y node), lit "number");
        (posOf (Motion.z node), lit "number") ]
  | NCommon (NRotation node) =>
      [ (posOf (Rotation.event node), lit "identifier");
        (posOf (Rotation.degrees node), lit "number") ]
  | NIFrame node => [ (posOf (IFrame.event node), lit "identifier") ]
  | NCommon (NText node) =>
      [ (posOf (Text.time node), lit "number");
        (posOf (Text.text node), lit "string") ]
  | NCommon (NComment _) => []
  end.

(** Spans on line [n], none empty, in order between the columns [lo] and
    [hi]; an absent span counts for nothing. *)
Fixpoint ordered (n lo hi : nat) (ps : list (option Pos)) : Prop :=
  match ps with
  | [] => lo <= hi
  | None :: rest => ordered n lo hi rest
  | Some p :: rest =>
      Pos.line p = n /\ lo <= Pos.startColumn p /\
      Pos.startColumn p < Pos.endColumn p /\
      ordered n (Pos.endColumn p) hi rest
  end.

(** A token by its place: line and first character from 0, length, and
    index of its type. *)
Definition Placed : Type := Z * Z * Z * Z.

Definition placed (c : option Pos * str) : list Placed :=
  match fst c with
  | Some p =>
      [(Z.of_nat (Pos.line p) - 1,
        Z.of_nat (Pos.startColumn p) - 1,
        Z.of_nat (Pos.endColumn p) - Z.of_nat (Pos.startColumn p),
        indexOf TOKEN_TYPES (snd c))%Z]
  | None => []
  end.

(** The data of placed tokens, after a token on [lastLine] that starts at
    [lastChar]. *)
Fixpoint encode (lastLine lastChar : Z) (toks : list Placed) : list Z :=
  match toks with
  | [] => []
  | (line, char, len, type) :: rest =>
      [line - lastLine;
       if line - lastLine =? 0 then char - lastChar else char;
       len; type; 0]%Z ++ encode line char rest
  end.

(** The line and first character of the last of the tokens. *)
Fixpoint lastPlace (lastLine lastChar : Z) (toks : list Placed) : Z * Z :=
  match toks with
  | [] => (lastLine, lastChar)
  | (line, char, _, _) :: rest => lastPlace line char rest
  end.

(** Placed tokens in the order of the document, after a token that ends
    on [line] at [char]; [lines] and [width] bound the lines and the
    characters. *)
Fixpoint sortedFrom (lines width line char : Z) (toks : list Placed) : Prop :=
  match toks with
  | [] => True
  | (l, c, len, type) :: rest =>
      ((line < l /\ 0 <= c \/ line = l /\ char <= c) /\
       l < lines /\ 1 <= len /\ c + len <= width /\
       0 <= type < Z.of_nat (length TOKEN_TYPES))%Z /\
      sortedFrom lines width l (c + len)%Z rest
  end.

(** The placed tokens of the lines from line [n]. *)
Fixpoint placedFrom (JSON_parse : str -> str + Json) (lines : list str)
    (n : nat) : list Placed :=
  match lines with
  | [] => []
  | l :: rest =>
      flat_map placed (pushes (hkannoNodeExtOf JSON_parse l (n + 1))) ++
      placedFrom JSON_parse rest (n + 1)
  end.

(** The text before the cursor on an [animmotion] line: a time, the
    keyword and the values typed so far, each after white space, with
    white space [s0], [s1] around the time and [trail] at the end. *)
Definition spaced (args : list (str * str)) : str :=
  flat_map (fun a => fst a ++ snd a) args.

Definition motionBefore (s0 t s1 : str) (args : list (str * str))
    (trail : str) : str :=
  s0 ++ t ++ s1 ++ lit "animmotion" ++ spaced args ++ trail.

(** A numeral as [parseNumberField] reads it. *)
Definition numeral (t : str) : Prop := t <> [] /\ numberText t = t.

(** A value typed after white space. *)
Definition typedValue (a : str * str) : Prop :=
  blank (fst a) /\ fst a <> [] /\ numeral (snd a).

(** The capital of a letter a-z, and the letters A-Z. *)
Definition upperAscii (c : ascii) : ascii :=
  let n := code c in
  if (97 <=? n) && (n <=? 122) then ascii_of_nat (n - 32) else c.

Definition isCapital (c : ascii) : bool :=
  let n := code c in (65 <=? n) && (n <=? 90).

(** A line with a time and, after it, a text [rest]. *)
Definition timedLine (s0 t s1 rest : str) : str := s0 ++ t ++ s1 ++ rest.

(** A text that starts with a character that is neither white space nor
    one that [parseNumberField] reads. *)
Definition wordAhead (rest : str) : Prop :=
  match rest with
  | c :: _ => endsNumber c = true /\ isSpace c = false
  | [] => False
  end.

(* ------------------------------------------------------------------ *)
(** ** Notions used in the proofs on the providers *)

(** The cursor after the items read from [c]. *)
Fixpoint afterItems (k : nat) (c : Cursor) : Cursor :=
  match k, snd c with
  | S k', _ :: _ =>
      afterItems k' (skipUntil (lit "|") (skipLiteral (lit "|") c))
  | _, _ => c
  end.

(** The cursor after the instruction read at [c]. *)
Definition afterInstruction (c : Cursor) : Cursor :=
  match snd c with
  | ch :: ahead =>
      if isPrefix ch then
        let c2 := skipUntil (lit "|") (move c [ch] ahead) in
        if startsWith (snd c2) (lit "|")
        then afterItems (length (snd c2)) c2
        else c2
      else c
  | [] => c
  end.

(** The items read from the parameters [params], after [pre]. *)
Fixpoint itemsOf (n : nat) (pre : str) (params : list str)
  : list ParameterItemNode :=
  match params with
  | [] => []
  | x :: rest =>
      ParameterItem.mk
        (Some (Field.mk (Some (lit "|"))
                 (Some (makePos n (length pre) (length pre + 1)))))
        (textTok n (pre ++ lit "|") x)
      :: itemsOf n ((pre ++ lit "|") ++ x) rest
  end.

Definition pushCall (st : Sem.t) (c : option Pos * str) : Sem.t :=
  pushToken (fst c) (snd c) st.

(** The state after the placed tokens [toks]. *)
Definition pushed (st : Sem.t) (toks : list Placed) : Sem.t :=
  Sem.mk (Sem.data st ++ encode (Sem.lastLine st) (Sem.lastChar st) toks)
         (fst (lastPlace (Sem.lastLine st) (Sem.lastChar st) toks))
         (snd (lastPlace (Sem.lastLine st) (Sem.lastChar st) toks)).

(** The types pushed are among [TOKEN_TYPES]. *)
Definition knownType (c : option Pos * str) : Prop :=
  (0 <= indexOf TOKEN_TYPES (snd c) < Z.of_nat (length TOKEN_TYPES))%Z.

(** A text that is empty or starts with white space. *)
Definition spaceAhead (rest : str) : Prop :=
  match rest with
  | [] => True
  | c :: _ => isSpace c = true
  end.

(** A text that is empty or starts with a character that is not white
    space. *)
Definition solidAhead (rest : str) : Prop :=
  match rest with
  | [] => True
  | c :: _ => isSpace c = false
  end.

(** A text that is empty or starts with a character that ends a
    numeral. *)
Definition endAhead (rest : str) : Prop :=
  match rest with
  | [] => True
  | c :: _ => endsNumber c = true
  end.

(* ------------------------------------------------------------------ *)
(** ** Notions on the hover *)

(** The text shown for a parameter: the text typed for it, or the
    placeholder where none was typed. *)
Definition shownParameter (x : str) : str :=
  match x with
  | [] => UNKNOWN
  | _ => x
  end.

(** The prefixes of an instruction, each with the kind shown for it. *)
Definition prefixKinds : list (ascii * str) :=
  [ ("@"%char, lit "Native"); ("$"%char, lit "Custom");
    ("!"%char, lit "Async") ].

(** The text shown for the data typed after the event name of an IFrame
    line. *)
Definition shownData (JSON_parse : str -> str + Json)
    (JSON_stringify2 : Json -> str) (raw : str) : str :=
  match raw with
  | [] => lit "<undefined>"
  | _ =>
      match JSON_parse raw with
      | inr v => if truthy v then JSON_stringify2 v else lit "<undefined>"
      | inl msg => lit "<" ++ JsError.toString (SyntaxError msg) ++ lit ">"
      end
  end.

(* ================================================================== *)
(** * Lemmas on strings *)

Lemma eqc_true (a b : ascii) : eqc a b = true <-> a = b.
Proof. unfold eqc. apply Ascii.eqb_eq. Qed.

Lemma eqc_refl (a : ascii) : eqc a a = true.
Proof. apply eqc_true. reflexivity. Qed.

Lemma eqs_true (a b : str) : eqs a b = true <-> a = b.
Proof.
  revert b. induction a as [|x a IH]; intros [|y b]; simpl;
    try (split; [discriminate | discriminate || reflexivity]);
    try (split; reflexivity).
  rewrite andb_true_iff, eqc_true, IH. split.
  - intros [-> ->]. reflexivity.
  - intros H. injection H as -> ->. split; reflexivity.
Qed.

Lemma takeWhile_dropWhile (p : ascii -> bool) (s : str) :
  takeWhile p s ++ dropWhile p s = s.
Proof.
  induction s as [|c s IH]; simpl; [reflexivity|].
  destruct (p c); simpl; [rewrite IH|]; reflexivity.
Qed.

Lemma dropWhile_length (p : ascii -> bool) (s : str) :
  length (dropWhile p s) <= length s.
Proof.
  induction s as [|c s IH]; simpl; [lia|].
  destruct (p c); simpl; lia.
Qed.

Lemma takeWhile_all (p : ascii -> bool) (s : str) :
  Forall (fun c => p c = true) (takeWhile p s).
Proof.
  induction s as [|c s IH]; simpl; [constructor|].
  destruct (p c) eqn:E; constructor; assumption.
Qed.

Lemma dropWhile_head (p : ascii -> bool) (s : str) (c : ascii) (r : str) :
  dropWhile p s = c :: r -> p c = false.
Proof.
  induction s as [|d s IH]; simpl; [discriminate|].
  destruct (p d) eqn:E; [exact IH|].
  intros H. injection H as -> _. exact E.
Qed.

Lemma dropWhile_idem (p : ascii -> bool) (s : str) :
  dropWhile p (dropWhile p s) = dropWhile p s.
Proof.
  destruct (dropWhile p s) as [|c r] eqn:E; [reflexivity|].
  simpl. rewrite (dropWhile_head _ _ E). reflexivity.
Qed.

Lemma startsWith_app (p rest : str) : startsWith (p ++ rest) p = true.
Proof.
  induction p as [|c p IH]; simpl; [reflexivity|].
  rewrite eqc_refl. exact IH.
Qed.

Lemma startsWith_firstn (s p : str) :
  eqs (firstn (length p) s) p = startsWith s p.
Proof.
  revert s. induction p as [|c p IH]; intros [|x s]; simpl; try reflexivity.
  rewrite IH. reflexivity.
Qed.

Lemma startsWith_split (s p : str) :
  startsWith s p = true -> s = p ++ skipn (length p) s.
Proof.
  revert s. induction p as [|c p IH]; intros [|x s]; simpl;
    try reflexivity; try discriminate.
  rewrite andb_true_iff, eqc_true. intros [-> H].
  f_equal. apply IH. exact H.
Qed.

Lemma signText_split (s : str) :
  signText s ++ skipn (length (signText s)) s = s.
Proof.
  destruct s as [|c s]; simpl; [reflexivity|].
  destruct (isSign c); reflexivity.
Qed.

(* ================================================================== *)
(** * Lemmas on the state and the loops *)

Lemma at_cur_cons (pre rest : str) (c : ascii) (n : nat) :
  cur (at_ pre (c :: rest) n) = Some c.
Proof.
  unfold cur, at_, charAt. simpl.
  rewrite nth_error_app2 by lia. rewrite Nat.sub_diag. reflexivity.
Qed.

Lemma at_cur_nil (pre : str) (n : nat) : cur (at_ pre [] n) = None.
Proof.
  unfold cur, at_, charAt. simpl. apply nth_error_None.
  rewrite app_nil_r. lia.
Qed.

Lemma at_inLine_cons (pre rest : str) (c : ascii) (n : nat) :
  inLine (at_ pre (c :: rest) n) = true.
Proof.
  unfold inLine, at_. simpl. apply Nat.ltb_lt.
  rewrite length_app. simpl. lia.
Qed.

Lemma at_inLine_nil (pre : str) (n : nat) : inLine (at_ pre [] n) = false.
Proof.
  unfold inLine, at_. simpl. apply Nat.ltb_ge. rewrite app_nil_r. lia.
Qed.

Lemma at_move (pre a rest : str) (n : nat) :
  State.mk (pre ++ a ++ rest) (length pre + length a) n
           (length (pre ++ a ++ rest))
  = at_ (pre ++ a) rest n.
Proof.
  unfold at_. rewrite <- app_assoc, (length_app pre a). reflexivity.
Qed.

Lemma advance_at (pre a rest : str) (n : nat) :
  advance (length a) (at_ pre (a ++ rest) n) = Ok (tt, at_ (pre ++ a) rest n).
Proof. unfold advance. simpl. rewrite at_move. reflexivity. Qed.

Lemma advance1_at (pre rest : str) (c : ascii) (n : nat) :
  advance 1 (at_ pre (c :: rest) n) = Ok (tt, at_ (pre ++ [c]) rest n).
Proof. exact (advance_at pre [c] rest n). Qed.

Lemma take_at (pre rest s : str) (c : ascii) (n : nat) :
  take s (at_ pre (c :: rest) n) = Ok (s ++ [c], at_ (pre ++ [c]) rest n).
Proof.
  unfold take, readNext, bind, get. rewrite advance1_at. unfold ret.
  rewrite at_cur_cons. reflexivity.
Qed.

Lemma bind_ok {A B : Type} (m : M A) (k : A -> M B) (st st' : ParserState)
    (a : A) :
  m st = Ok (a, st') -> bind m k st = k a st'.
Proof. intros H. unfold bind. rewrite H. reflexivity. Qed.

(** A loop that collects the characters of a class. *)
Lemma while_take (P : option ascii -> bool) (cls : ascii -> bool)
    (fuel : nat) :
  (forall c, P (Some c) = cls c) ->
  forall (rest pre acc : str) (n : nat),
    length rest <= fuel ->
    while fuel (fun st => inLine st && P (cur st)) take acc (at_ pre rest n)
    = Ok (acc ++ takeWhile cls rest,
          at_ (pre ++ takeWhile cls rest) (dropWhile cls rest) n).
Proof.
  intros HP.
  induction fuel as [|fuel IH]; intros rest pre acc n Hf.
  - destruct rest; [|simpl in Hf; lia]. simpl.
    rewrite at_inLine_nil. simpl. rewrite !app_nil_r. reflexivity.
  - destruct rest as [|c rest].
    + simpl. rewrite at_inLine_nil. simpl. rewrite !app_nil_r. reflexivity.
    + cbn [while]. rewrite at_inLine_cons, at_cur_cons, HP.
      cbn [andb takeWhile dropWhile].
      destruct (cls c) eqn:E.
      * rewrite take_at. rewrite IH by (simpl in Hf; lia).
        rewrite <- !app_assoc. reflexivity.
      * rewrite !app_nil_r. reflexivity.
Qed.

(** A loop that skips the characters of a class. *)
Lemma while_skip (P : option ascii -> bool) (cls : ascii -> bool)
    (fuel : nat) :
  (forall c, P (Some c) = cls c) ->
  forall (rest pre : str) (n : nat),
    length rest <= fuel ->
    while fuel (fun st => inLine st && P (cur st)) (fun _ => advance 1) tt
          (at_ pre rest n)
    = Ok (tt, at_ (pre ++ takeWhile cls rest) (dropWhile cls rest) n).
Proof.
  intros HP.
  induction fuel as [|fuel IH]; intros rest pre n Hf.
  - destruct rest; [|simpl in Hf; lia]. simpl.
    rewrite at_inLine_nil. simpl. rewrite !app_nil_r. reflexivity.
  - destruct rest as [|c rest].
    + simpl. rewrite at_inLine_nil. simpl. rewrite !app_nil_r. reflexivity.
    + cbn [while]. rewrite at_inLine_cons, at_cur_cons, HP.
      cbn [andb takeWhile dropWhile].
      destruct (cls c) eqn:E.
      * rewrite advance1_at. rewrite IH by (simpl in Hf; lia).
        rewrite <- !app_assoc. reflexivity.
      * rewrite !app_nil_r. reflexivity.
Qed.

(* ================================================================== *)
(** * What the primitives compute *)

Lemma expText_split (s : str) : expText s ++ expRest s = s.
Proof.
  destruct s as [|c s]; simpl; [reflexivity|].
  destruct (isExpMark c); [|reflexivity].
  simpl. f_equal. rewrite <- app_assoc, takeWhile_dropWhile.
  apply signText_split.
Qed.

Lemma numberText_split (s : str) : numberText s ++ numberRest s = s.
Proof.
  unfold numberText, numberRest.
  rewrite <- !app_assoc, expText_split, takeWhile_dropWhile.
  apply signText_split.
Qed.

Lemma slice_at (pre a rest : str) :
  slice ((pre ++ a) ++ rest) (length pre) (length (pre ++ a)) = a.
Proof.
  unfold slice. rewrite <- app_assoc, skipn_app, Nat.sub_diag.
  rewrite skipn_all. simpl. rewrite length_app.
  replace (length pre + length a - length pre) with (length a) by lia.
  rewrite firstn_app, Nat.sub_diag, firstn_all. simpl. apply app_nil_r.
Qed.

Lemma at_nil_r (pre rest : str) (n : nat) :
  at_ (pre ++ []) rest n = at_ pre rest n.
Proof. rewrite app_nil_r. reflexivity. Qed.

Lemma bind_get {B : Type} (k : ParserState -> M B) (st : ParserState) :
  bind get k st = k st st.
Proof. reflexivity. Qed.

Lemma bind_ret {A B : Type} (a : A) (k : A -> M B) (st : ParserState) :
  bind (ret a) k st = k a st.
Proof. reflexivity. Qed.
Lemma parseSpace_at (fuel : nat) (pre rest : str) (n : nat) :
  length rest <= fuel ->
  parseSpace fuel (at_ pre rest n)
  = Ok (spaceTok n pre (takeWhile isSpace rest),
        at_ (pre ++ takeWhile isSpace rest) (dropWhile isSpace rest) n).
Proof.
  intros Hf. unfold parseSpace.
  rewrite bind_get.
  erewrite bind_ok
    by (apply while_skip with (cls := isSpace); [reflexivity | exact Hf]).
  rewrite bind_get.
  unfold at_. cbn [State.i State.line State.lineNumber].
  rewrite slice_at.
  destruct (takeWhile isSpace rest) as [|c ws] eqn:E.
  - rewrite app_nil_r, Nat.ltb_irrefl. reflexivity.
  - replace (length pre <? length (pre ++ c :: ws)) with true.
    + unfold ret, spaceTok. rewrite (length_app pre). reflexivity.
    + symmetry. apply Nat.ltb_lt. rewrite length_app. simpl. lia.
Qed.

Lemma isSign_char (c : ascii) :
  isChar (Some c) "+" || isChar (Some c) "-" = isSign c.
Proof. reflexivity. Qed.

Lemma sign_stage (pre rest s : str) (c : ascii) (n : nat) :
  (if isSign c then take s else ret s) (at_ pre (c :: rest) n)
  = Ok (s ++ signText (c :: rest),
        at_ (pre ++ signText (c :: rest))
            (skipn (length (signText (c :: rest))) (c :: rest)) n).
Proof.
  simpl. destruct (isSign c).
  - rewrite take_at. reflexivity.
  - unfold ret. simpl. rewrite !app_nil_r. reflexivity.
Qed.

Lemma sign_stage_any (pre rest s : str) (n : nat) :
  (if isChar (cur (at_ pre rest n)) "+" || isChar (cur (at_ pre rest n)) "-"
   then take s else ret s) (at_ pre rest n)
  = Ok (s ++ signText rest,
        at_ (pre ++ signText rest) (skipn (length (signText rest)) rest) n).
Proof.
  destruct rest as [|c rest].
  - rewrite at_cur_nil. unfold ret. simpl. rewrite !app_nil_r. reflexivity.
  - rewrite at_cur_cons, isSign_char. apply sign_stage.
Qed.

Lemma exp_stage (fuel : nat) (pre rest s : str) (n : nat) :
  length rest <= fuel ->
  (if inLine (at_ pre rest n) &&
      (isChar (cur (at_ pre rest n)) "e" || isChar (cur (at_ pre rest n)) "E")
   then
     s1 <- take s ;;
     st2 <- get ;;
     s2 <- (if isChar (cur st2) "+" || isChar (cur st2) "-"
            then take s1 else ret s1) ;;
     while fuel (fun st => inLine st && testClass isDigit (cur st)) take s2
   else ret s) (at_ pre rest n)
  = Ok (s ++ expText rest, at_ (pre ++ expText rest) (expRest rest) n).
Proof.
  intros Hf. destruct rest as [|c rest].
  - rewrite at_inLine_nil. unfold ret. simpl. rewrite !app_nil_r. reflexivity.
  - rewrite at_inLine_cons, at_cur_cons. cbn [andb].
    change (isChar (Some c) "e" || isChar (Some c) "E") with (isExpMark c).
    cbn [expText expRest]. destruct (isExpMark c).
    + erewrite bind_ok by apply take_at. rewrite bind_get.
      erewrite bind_ok by apply sign_stage_any.
      rewrite while_take with (cls := isDigit).
      * rewrite <- !app_assoc. reflexivity.
      * reflexivity.
      * rewrite length_skipn. simpl in Hf. lia.
    + unfold ret. rewrite !app_nil_r. reflexivity.
Qed.

Lemma parseNumberField_at (fuel : nat) (pre rest : str) (n : nat) :
  length rest <= fuel ->
  parseNumberField fuel (at_ pre rest n)
  = Ok (numberTok n pre (numberText rest),
        at_ (pre ++ numberText rest) (numberRest rest) n).
Proof.
  intros Hf. unfold parseNumberField. rewrite bind_get.
  destruct rest as [|c rest].
  - replace (State.len (at_ pre [] n) <=? State.i (at_ pre [] n)) with true
      by (symmetry; apply Nat.leb_le; unfold at_; simpl;
          rewrite app_nil_r; lia).
    unfold ret. simpl. rewrite app_nil_r. reflexivity.
  - replace (State.len (at_ pre (c :: rest) n)
             <=? State.i (at_ pre (c :: rest) n)) with false
      by (symmetry; apply Nat.leb_gt; unfold at_; simpl;
          rewrite length_app; simpl; lia).
    rewrite at_cur_cons, isSign_char.
    erewrite bind_ok by apply sign_stage.
    assert (H1 : length (skipn (length (signText (c :: rest))) (c :: rest))
                 <= fuel) by (rewrite length_skipn; lia).
    erewrite bind_ok
      by (apply while_take with (cls := isDigitOrDot); [reflexivity | exact H1]).
    rewrite bind_get.
    assert (H2 : length (dropWhile isDigitOrDot
                   (skipn (length (signText (c :: rest))) (c :: rest)))
                 <= fuel)
      by (eapply Nat.le_trans; [apply dropWhile_length | exact H1]).
    erewrite bind_ok by (apply exp_stage; exact H2).
    fold (numberRest (c :: rest)).
    rewrite <- !app_assoc. cbn [app]. fold (numberText (c :: rest)).
    destruct (numberText (c :: rest)) as [|d ds] eqn:E.
    + unfold ret. simpl. rewrite app_nil_r. reflexivity.
    + rewrite bind_get. unfold ret, numberTok, fieldTok, at_.
      cbn [State.i State.lineNumber]. rewrite (length_app pre). reflexivity.
Qed.

Lemma parseLiteralField_at (literal pre rest : str) (n : nat) :
  parseLiteralField literal (at_ pre rest n)
  = Ok (literalTok n pre literal rest,
        at_ (pre ++ literalText literal rest) (afterLiteral literal rest) n).
Proof.
  unfold parseLiteralField. rewrite bind_get.
  unfold literalTok, literalText, afterLiteral.
  replace (eqs (slice (State.line (at_ pre rest n)) (State.i (at_ pre rest n))
                  (State.i (at_ pre rest n) + length literal)) literal)
    with (startsWith rest literal).
  - destruct (startsWith rest literal) eqn:E.
    + rewrite (startsWith_split _ _ E) at 1.
      erewrite bind_ok by apply advance_at. rewrite bind_get.
      unfold ret, fieldTok, at_. cbn [State.i State.lineNumber].
      rewrite (length_app pre). reflexivity.
    + unfold ret. rewrite app_nil_r. reflexivity.
  - rewrite <- startsWith_firstn. unfold slice, at_.
    cbn [State.i State.line]. rewrite skipn_app, Nat.sub_diag, skipn_all.
    simpl. f_equal. f_equal. lia.
Qed.

Lemma parseFieldUntil_at (fuel : nat) (stop pre rest : str) (n : nat) :
  length rest <= fuel ->
  parseFieldUntil fuel stop (at_ pre rest n)
  = Ok (textTok n pre (takeWhile (notIn stop) rest),
        at_ (pre ++ takeWhile (notIn stop) rest)
            (dropWhile (notIn stop) rest) n).
Proof.
  intros Hf. unfold parseFieldUntil. rewrite bind_get.
  erewrite bind_ok
    by (apply while_take
          with (P := fun x => negb (includesIndexed stop x))
               (cls := notIn stop); [reflexivity | exact Hf]).
  cbn [app].
  destruct (takeWhile (notIn stop) rest) as [|d ds] eqn:E.
  - unfold ret. reflexivity.
  - rewrite bind_get. unfold ret, textTok, fieldTok, at_.
    cbn [State.i State.lineNumber]. rewrite (length_app pre). reflexivity.
Qed.

(** The primitives at a cursor. *)
Lemma parseSpace_c (fuel : nat) (c : Cursor) (n : nat) :
  length (snd c) <= fuel ->
  parseSpace fuel (atc c n) = Ok (spaceAt n c, atc (skipSpace c) n).
Proof. apply parseSpace_at. Qed.

Lemma parseNumberField_c (fuel : nat) (c : Cursor) (n : nat) :
  length (snd c) <= fuel ->
  parseNumberField fuel (atc c n) = Ok (numberAt n c, atc (skipNumber c) n).
Proof. apply parseNumberField_at. Qed.

Lemma parseLiteralField_c (literal : str) (c : Cursor) (n : nat) :
  parseLiteralField literal (atc c n)
  = Ok (literalAt n literal c, atc (skipLiteral literal c) n).
Proof. apply parseLiteralField_at. Qed.

Lemma parseFieldUntil_c (fuel : nat) (stop : str) (c : Cursor) (n : nat) :
  length (snd c) <= fuel ->
  parseFieldUntil fuel stop (atc c n)
  = Ok (untilAt n stop c, atc (skipUntil stop c) n).
Proof. apply parseFieldUntil_at. Qed.

Lemma numberRest_length (s : str) : length (numberRest s) <= length s.
Proof.
  rewrite <- (numberText_split s) at 2. rewrite length_app. lia.
Qed.

Lemma afterLiteral_length (literal s : str) :
  length (afterLiteral literal s) <= length s.
Proof.
  unfold afterLiteral. destruct (startsWith s literal); [|lia].
  rewrite length_skipn. lia.
Qed.

Lemma literal_split (literal s : str) :
  literalText literal s ++ afterLiteral literal s = s.
Proof.
  unfold literalText, afterLiteral. destruct (startsWith s literal) eqn:E.
  - symmetry. apply startsWith_split. exact E.
  - reflexivity.
Qed.

Lemma skipSpace_ahead (c : Cursor) :
  length (snd (skipSpace c)) <= length (snd c).
Proof. apply dropWhile_length. Qed.

Lemma skipNumber_ahead (c : Cursor) :
  length (snd (skipNumber c)) <= length (snd c).
Proof. apply numberRest_length. Qed.

Lemma skipLiteral_ahead (literal : str) (c : Cursor) :
  length (snd (skipLiteral literal c)) <= length (snd c).
Proof. apply afterLiteral_length. Qed.

Lemma skipUntil_ahead (stop : str) (c : Cursor) :
  length (snd (skipUntil stop c)) <= length (snd c).
Proof. apply dropWhile_length. Qed.

(** The iteration budget is enough at every cursor reached from the
    start of the line. *)
Ltac fuel_tac :=
  repeat first
    [ eassumption
    | eapply Nat.le_trans;
      [ first [ apply skipSpace_ahead | apply skipNumber_ahead
              | apply skipLiteral_ahead | apply skipUntil_ahead ] | ] ].

Lemma bind_assoc {A B C : Type} (m : M A) (k1 : A -> M B) (k2 : B -> M C)
    (st : ParserState) :
  bind (bind m k1) k2 st = bind m (fun a => bind (k1 a) k2) st.
Proof.
  unfold bind. destruct (m st) as [[a st']| |]; reflexivity.
Qed.

(** One step of a line parser. *)
Ltac step :=
  first
    [ erewrite bind_ok by (apply parseSpace_c; fuel_tac)
    | erewrite bind_ok by (apply parseNumberField_c; fuel_tac)
    | erewrite bind_ok by (apply parseLiteralField_c)
    | erewrite bind_ok by (apply parseFieldUntil_c; fuel_tac)
    | rewrite bind_get
    | rewrite bind_ret
    | rewrite bind_assoc ].

Ltac start_line line n :=
  unfold run; change (initState line n) with (atc ([], line) n).

Lemma parseCommentLine_eq (fuel : nat) (line : str) (n : nat) :
  length line <= fuel ->
  parseCommentLine fuel line n = Ok (commentNodeOf line n).
Proof.
  intros Hf. unfold parseCommentLine. start_line line n.
  repeat step. reflexivity.
Qed.

Lemma parseTrackNameLine_eq (fuel : nat) (line : str) (n : nat) :
  length line <= fuel ->
  parseTrackNameLine fuel line n = Ok (trackNameNodeOf line n).
Proof.
  intros Hf. unfold parseTrackNameLine. start_line line n.
  repeat step. reflexivity.
Qed.

Lemma parseTextLine_eq (fuel : nat) (line : str) (n : nat) :
  length line <= fuel ->
  parseTextLine fuel line n = Ok (textNodeOf line n).
Proof.
  intros Hf. unfold parseTextLine. start_line line n.
  repeat step. reflexivity.
Qed.

Lemma parseAnimMotionLine_eq (fuel : nat) (line : str) (n : nat) :
  length line <= fuel ->
  parseAnimMotionLine fuel line n = Ok (motionNodeOf line n).
Proof.
  intros Hf. unfold parseAnimMotionLine. start_line line n.
  repeat step. reflexivity.
Qed.

Lemma parseAnimRotationLine_eq (fuel : nat) (line : str) (n : nat) :
  length line <= fuel ->
  parseAnimRotationLine fuel line n = Ok (rotationNodeOf line n).
Proof.
  intros Hf. unfold parseAnimRotationLine. start_line line n.
  repeat step. reflexivity.
Qed.

Lemma parseHkannoLine_eq (fuel : nat) (line : str) (n : nat) :
  length line <= fuel ->
  parseHkannoLine fuel line n = Ok (hkannoNodeOf line n).
Proof.
  intros Hf. unfold parseHkannoLine, hkannoNodeOf, commonParsers.
  cbn [dispatch Entry.check Entry.parser].
  destruct (startsWith (trimStart line) (lit "#")).
  { rewrite parseCommentLine_eq by exact Hf. reflexivity. }
  destruct (startsWith (toLowerCase (trimStart line)) (lit "trackname:")).
  { rewrite parseTrackNameLine_eq by exact Hf. reflexivity. }
  destruct (includes (toLowerCase line) (lit "animrotation")).
  { rewrite parseAnimRotationLine_eq by exact Hf. reflexivity. }
  destruct (includes (toLowerCase line) (lit "animmotion")).
  { rewrite parseAnimMotionLine_eq by exact Hf. reflexivity. }
  rewrite parseTextLine_eq by exact Hf. reflexivity.
Qed.

Lemma toString_SyntaxError (msg : str) :
  exists c s, JsError.toString (SyntaxError msg) = c :: s.
Proof.
  unfold JsError.toString, SyntaxError. simpl.
  destruct msg; eexists; eexists; reflexivity.
Qed.


Lemma parseIFrameLine_eq (JSON_parse : str -> str + Json) (fuel : nat)
    (line : str) (n : nat) :
  length line <= fuel ->
  parseIFrameLine JSON_parse fuel line n = Ok (iframeNodeOf JSON_parse line n).
Proof.
  intros Hf. unfold parseIFrameLine, iframeNodeOf, iframeJsonCursor.
  start_line line n. do 5 step.
  unfold untilAt, textTok.
  destruct (takeWhile (notIn [newline]) _) as [|d ds] eqn:E.
  - repeat step. reflexivity.
  - unfold fieldTok. cbv beta iota.
    unfold tryParseJson, JSON_parse_call.
    destruct (JSON_parse (d :: ds)) as [msg|data].
    + destruct (toString_SyntaxError msg) as (c & s & Hs).
      unfold lift at 1. rewrite bind_assoc.
      erewrite bind_ok by reflexivity.
      cbn [JsonResult.success JsonResult.error].
      rewrite Hs. repeat step. reflexivity.
    + unfold lift at 1. rewrite bind_assoc.
      erewrite bind_ok by reflexivity.
      cbn [JsonResult.success JsonResult.data].
      repeat step. reflexivity.
Qed.

(* ------------------------------------------------------------------ *)
(** ** The payload-instruction line *)

Lemma atc_nil_r (pre rest : str) (n : nat) :
  atc (pre ++ [], rest) n = atc (pre, rest) n.
Proof. unfold atc. simpl. apply at_nil_r. Qed.

(** Reading one given character, as the [dot] and [separator] steps do. *)
Lemma char_stage (ch : ascii) (c : Cursor) (n : nat) :
  (if isChar (cur (atc c n)) ch then
     advance 1 ;;;
     ret (Some (Field.mk (Some [ch])
            (Some (makePos (State.lineNumber (atc c n)) (State.i (atc c n))
                           (State.i (atc c n) + 1)))))
   else ret None) (atc c n)
  = Ok (literalAt n [ch] c, atc (skipLiteral [ch] c) n).
Proof.
  destruct c as [pre [|d r]]; unfold atc, literalAt, skipLiteral, move,
    literalTok, literalText, afterLiteral; cbn [fst snd].
  - rewrite at_cur_nil. cbn [isChar startsWith]. unfold ret.
    rewrite app_nil_r. reflexivity.
  - rewrite at_cur_cons. cbn [isChar startsWith]. rewrite andb_true_r.
    destruct (eqc d ch) eqn:E.
    + apply eqc_true in E. subst d.
      erewrite bind_ok by apply advance1_at. unfold ret, fieldTok, at_.
      reflexivity.
    + unfold ret. rewrite app_nil_r. reflexivity.
Qed.

Lemma parseParameterItem_c (fuel : nat) (items : list ParameterItemNode)
    (c : Cursor) (n : nat) :
  length (snd c) <= fuel ->
  parseParameterItem fuel items (atc c n)
  = Ok (items ++
        [ParameterItem.mk (literalAt n (lit "|") c)
           (untilAt n (lit "|") (skipLiteral (lit "|") c))],
        atc (skipUntil (lit "|") (skipLiteral (lit "|") c)) n).
Proof.
  intros Hf. unfold parseParameterItem. step.
  erewrite bind_ok by apply (char_stage "|").
  repeat step. reflexivity.
Qed.

Lemma notIn_bar (ch : ascii) : notIn (lit "|") ch = false -> ch = "|"%char.
Proof.
  unfold notIn. simpl. rewrite orb_false_r. intros H.
  apply negb_false_iff in H. apply eqc_true. exact H.
Qed.

Lemma item_cursor_total (c : Cursor) :
  fst (skipUntil (lit "|") (skipLiteral (lit "|") c)) ++
  snd (skipUntil (lit "|") (skipLiteral (lit "|") c))
  = fst c ++ snd c.
Proof.
  unfold skipUntil, skipLiteral, move. cbn [fst snd].
  rewrite <- !app_assoc, takeWhile_dropWhile, literal_split. reflexivity.
Qed.

Lemma item_cursor_ahead (c : Cursor) (r : str) :
  snd c = "|"%char :: r ->
  length (snd (skipUntil (lit "|") (skipLiteral (lit "|") c))) <= length r.
Proof.
  intros H. unfold skipUntil, skipLiteral, move, afterLiteral. cbn [fst snd].
  rewrite H. simpl. apply dropWhile_length.
Qed.

Lemma dropWhile_bar (s : str) :
  dropWhile (notIn (lit "|")) s = [] \/
  startsWith (dropWhile (notIn (lit "|")) s) (lit "|") = true.
Proof.
  destruct (dropWhile (notIn (lit "|")) s) as [|e r] eqn:E;
    [left; reflexivity | right].
  apply dropWhile_head in E. apply notIn_bar in E. subst e. reflexivity.
Qed.

(** The parameter loop reads [itemsFrom] and reaches the end of line. *)
Lemma param_loop (n fuel : nat) :
  forall (k : nat) (c : Cursor) (items : list ParameterItemNode),
    length (snd c) <= k ->
    length (snd c) <= fuel ->
    startsWith (snd c) (lit "|") = true \/ snd c = [] ->
    while k inLine (parseParameterItem fuel) items (atc c n)
    = Ok (items ++ itemsFrom k n c, atc (fst c ++ snd c, []) n).
Proof.
  induction k as [|k IH]; intros [pre rest] items Hk Hf Hbar;
    cbn [fst snd] in *.
  - destruct rest; [|simpl in Hk; lia]. simpl. unfold atc at 1.
    cbn [fst snd]. rewrite at_inLine_nil, !app_nil_r. reflexivity.
  - destruct rest as [|d r].
    + simpl. unfold atc at 1. cbn [fst snd].
      rewrite at_inLine_nil, !app_nil_r. reflexivity.
    + destruct Hbar as [Hbar|Hbar]; [|discriminate].
      simpl in Hbar. rewrite andb_true_r in Hbar. apply eqc_true in Hbar.
      subst d. cbn [while]. unfold atc at 1. cbn [fst snd].
      rewrite at_inLine_cons.
      change (at_ pre ("|"%char :: r) n) with (atc (pre, "|"%char :: r) n).
      rewrite parseParameterItem_c by exact Hf.
      pose proof (@item_cursor_ahead (pre, "|"%char :: r) r eq_refl) as Ha.
      pose proof (item_cursor_total (pre, "|"%char :: r)) as Ht.
      cbn [fst snd] in Ht. simpl in Hk, Hf.
      rewrite IH.
      * apply f_equal. apply f_equal2.
        -- rewrite <- app_assoc. reflexivity.
        -- apply (f_equal (fun x => atc (x, []) n)). exact Ht.
      * eapply Nat.le_trans; [exact Ha | lia].
      * eapply Nat.le_trans; [exact Ha | lia].
      * unfold skipUntil, move. cbn [snd]. apply or_comm, dropWhile_bar.
Qed.

Lemma item_cursor_shorter (pre r : str) (d : ascii) :
  length (snd (skipUntil (lit "|") (skipLiteral (lit "|") (pre, d :: r))))
  <= length r.
Proof.
  unfold skipUntil, skipLiteral, move, afterLiteral. cbn [fst snd].
  destruct (startsWith (d :: r) (lit "|")) eqn:E; cbn [fst snd].
  - change (skipn (length (lit "|")) (d :: r)) with r.
    apply dropWhile_length.
  - assert (H : notIn (lit "|") d = true).
    { unfold notIn. simpl in *. rewrite orb_false_r.
      rewrite andb_true_r in E. rewrite E. reflexivity. }
    cbn [dropWhile]. rewrite H. apply dropWhile_length.
Qed.

Lemma itemsFrom_any (n : nat) :
  forall (k1 k2 : nat) (c : Cursor),
    length (snd c) <= k1 -> length (snd c) <= k2 ->
    itemsFrom k1 n c = itemsFrom k2 n c.
Proof.
  induction k1 as [|k1 IH]; intros k2 [pre rest] H1 H2; cbn [snd] in *.
  - destruct rest; [|simpl in H1; lia]. destruct k2; reflexivity.
  - destruct rest as [|d r]; [destruct k2; reflexivity|].
    destruct k2 as [|k2]; [simpl in H2; lia|].
    cbn [itemsFrom snd]. f_equal.
    pose proof (item_cursor_shorter pre r d) as Ha. simpl in H1, H2.
    apply IH; lia.
Qed.

Lemma itemsFrom_enough (n k : nat) (c : Cursor) :
  length (snd c) <= k -> itemsFrom k n c = itemsFrom (length (snd c)) n c.
Proof. intros H. apply itemsFrom_any; [exact H | apply Nat.le_refl]. Qed.

Lemma parsePayloadInstructionLine_eq (fuel : nat) (line : str) (n : nat) :
  length line <= fuel ->
  parsePayloadInstructionLine fuel line n = Ok (payloadNodeOf line n).
Proof.
  intros Hf. unfold parsePayloadInstructionLine, payloadNodeOf.
  start_line line n. do 5 step.
  erewrite bind_ok by apply (char_stage ".").
  step.
  change ["."%char] with (lit ".").
  set (c5 := skipLiteral (lit ".") _).
  assert (H5 : length (snd c5) <= fuel) by (subst c5; fuel_tac).
  unfold instructionAt. destruct c5 as [pre5 [|ch ahead]]; cbn [fst snd].
  - unfold atc at 1. cbn [fst snd]. rewrite at_cur_nil.
    repeat step. reflexivity.
  - unfold atc at 1. cbn [fst snd]. rewrite at_cur_cons.
    destruct (isPrefix ch); [|repeat step; reflexivity].
    rewrite bind_assoc.
    erewrite bind_ok by (apply (advance1_at pre5 ahead ch n)).
    change (at_ (pre5 ++ [ch]) ahead n) with (atc (move (pre5, ch :: ahead) [ch] ahead) n).
    set (c6 := move (pre5, ch :: ahead) [ch] ahead).
    assert (H6 : length (snd c6) <= fuel) by (simpl in *; lia).
    rewrite bind_assoc. step. rewrite bind_assoc. step.
    set (c7 := skipUntil (lit "|") c6).
    assert (H7 : length (snd c7) <= fuel) by (subst c7; fuel_tac).
    rewrite bind_assoc.
    destruct c7 as [pre7 [|d r]] eqn:E7.
    + unfold atc at 1. cbn [fst snd]. rewrite at_inLine_nil. cbn [andb].
      repeat step. reflexivity.
    + unfold atc at 1 2. cbn [fst snd]. rewrite at_inLine_cons, at_cur_cons.
      cbn [andb isChar].
      change (startsWith (d :: r) (lit "|")) with (eqc d "|" && true).
      rewrite andb_true_r.
      destruct (eqc d "|") eqn:Ed; [|repeat step; reflexivity].
      rewrite bind_assoc.
      change (at_ pre7 (d :: r) n) with (atc (pre7, d :: r) n).
      erewrite bind_ok.
      2:{ apply param_loop; cbn [snd].
          - exact H7.
          - exact H7.
          - left. simpl. rewrite Ed. reflexivity. }
      repeat step. unfold atc, at_.
      cbn [State.lineNumber State.i fst snd app].
      rewrite (@itemsFrom_enough n fuel (pre7, d :: r) H7), (length_app pre7).
      reflexivity.
Qed.

Lemma parseHkannoLineExt_eq (JSON_parse : str -> str + Json) (fuel : nat)
    (line : str) (n : nat) :
  length line <= fuel ->
  parseHkannoLineExt JSON_parse fuel line n
  = Ok (hkannoNodeExtOf JSON_parse line n).
Proof.
  intros Hf.
  unfold parseHkannoLineExt, hkannoNodeExtOf, hkannoNodeOf, extParser,
    commonParsers.
  cbn [dispatch app map widen Entry.check Entry.parser].
  destruct (includes (toLowerCase line) (lit "specialframes_invincible")).
  { rewrite parseIFrameLine_eq by exact Hf. reflexivity. }
  destruct (includes (toLowerCase line) (lit "pie")).
  { rewrite parsePayloadInstructionLine_eq by exact Hf. reflexivity. }
  destruct (startsWith (trimStart line) (lit "#")).
  { rewrite parseCommentLine_eq by exact Hf. reflexivity. }
  destruct (startsWith (toLowerCase (trimStart line)) (lit "trackname:")).
  { rewrite parseTrackNameLine_eq by exact Hf. reflexivity. }
  destruct (includes (toLowerCase line) (lit "animrotation")).
  { rewrite parseAnimRotationLine_eq by exact Hf. reflexivity. }
  destruct (includes (toLowerCase line) (lit "animmotion")).
  { rewrite parseAnimMotionLine_eq by exact Hf. reflexivity. }
  rewrite parseTextLine_eq by exact Hf. reflexivity.
Qed.

(** Every parse call returns its node when the iteration budget of the
    loops is the length of the line, or more. *)
Lemma parseBy_eq (JSON_parse : str -> str + Json) (call : ParseCall)
    (fuel : nat) (line : str) (n : nat) :
  length line <= fuel ->
  parseBy JSON_parse call fuel line n = Ok (nodeBy JSON_parse call line n).
Proof.
  intros Hf. destruct call; cbn [parseBy nodeBy].
  - rewrite parseCommentLine_eq by exact Hf. reflexivity.
  - rewrite parseTrackNameLine_eq by exact Hf. reflexivity.
  - rewrite parseTextLine_eq by exact Hf. reflexivity.
  - rewrite parseAnimMotionLine_eq by exact Hf. reflexivity.
  - rewrite parseAnimRotationLine_eq by exact Hf. reflexivity.
  - rewrite parseIFrameLine_eq by exact Hf. reflexivity.
  - rewrite parsePayloadInstructionLine_eq by exact Hf. reflexivity.
  - rewrite parseHkannoLine_eq by exact Hf. reflexivity.
  - apply parseHkannoLineExt_eq. exact Hf.
Qed.

(* ================================================================== *)
(** * Tokens and their spans *)

Lemma onLine_start (line : str) : onLine line ([], line).
Proof. reflexivity. Qed.

Lemma onLine_move (line : str) (c : Cursor) (a rest : str) :
  onLine line c -> a ++ rest = snd c -> onLine line (move c a rest).
Proof.
  unfold onLine, move. cbn [fst snd]. intros H E.
  rewrite <- app_assoc, E. exact H.
Qed.

Lemma onLine_skipSpace (line : str) (c : Cursor) :
  onLine line c -> onLine line (skipSpace c).
Proof. intros H. apply onLine_move; [exact H | apply takeWhile_dropWhile]. Qed.

Lemma onLine_skipNumber (line : str) (c : Cursor) :
  onLine line c -> onLine line (skipNumber c).
Proof. intros H. apply onLine_move; [exact H | apply numberText_split]. Qed.

Lemma onLine_skipLiteral (line literal : str) (c : Cursor) :
  onLine line c -> onLine line (skipLiteral literal c).
Proof. intros H. apply onLine_move; [exact H | apply literal_split]. Qed.

Lemma onLine_skipUntil (line stop : str) (c : Cursor) :
  onLine line c -> onLine line (skipUntil stop c).
Proof. intros H. apply onLine_move; [exact H | apply takeWhile_dropWhile]. Qed.

Create HintDb cursor.
#[local] Hint Resolve onLine_start onLine_skipSpace onLine_skipNumber
  onLine_skipLiteral onLine_skipUntil : cursor.

Section Tokens.

Variable JSON_parse : str -> str + Json.
Variable line : str.
Variable n : nat.

#[local] Abbreviation ok := (tokenOk JSON_parse line n).

(** A token built at a cursor of the line, over the text [a] ahead. *)
Lemma token_at (c : Cursor) (a rest : str) (content : Content) :
  onLine line c ->
  a ++ rest = snd c ->
  contentOk JSON_parse content a ->
  ok (Some (makePos n (length (fst c)) (length (fst c) + length a)), content).
Proof.
  intros Hc Ha Hk. exists (makePos n (length (fst c)) (length (fst c) + length a)), a.
  unfold onLine in Hc. rewrite <- Ha in Hc.
  assert (Hs : spanned line
                 (makePos n (length (fst c)) (length (fst c) + length a)) = a).
  { unfold spanned, makePos. cbn [Pos.startColumn Pos.endColumn].
    rewrite !Nat.add_sub. rewrite <- Hc, app_assoc.
    rewrite <- (length_app (fst c) a). apply slice_at. }
  unfold makePos in *. cbn [fst snd Pos.line Pos.startColumn Pos.endColumn].
  repeat split; try lia.
  - rewrite <- Hc, !length_app. lia.
  - symmetry. exact Hs.
  - exact Hk.
Qed.

Lemma spaceAt_ok (c : Cursor) :
  onLine line c -> Forall ok (spaceToken (spaceAt n c)).
Proof.
  intros Hc. unfold spaceAt, spaceTok.
  destruct (takeWhile isSpace (snd c)) as [|d ds] eqn:E; [constructor|].
  constructor; [|constructor]. cbn [Space.pos Space.rawText].
  apply token_at with (rest := dropWhile isSpace (snd c)).
  - exact Hc.
  - rewrite <- E. apply takeWhile_dropWhile.
  - reflexivity.
Qed.

Lemma numberAt_ok (c : Cursor) :
  onLine line c -> Forall ok (fieldToken CNumber (numberAt n c)).
Proof.
  intros Hc. unfold numberAt, numberTok.
  destruct (numberText (snd c)) as [|d ds] eqn:E; [constructor|].
  constructor; [|constructor]. cbn [fieldTok Field.pos Field.value].
  apply token_at with (rest := numberRest (snd c)).
  - exact Hc.
  - rewrite <- E. apply numberText_split.
  - reflexivity.
Qed.

Lemma literalAt_ok (literal : str) (c : Cursor) :
  onLine line c -> Forall ok (fieldToken CRaw (literalAt n literal c)).
Proof.
  intros Hc. unfold literalAt, literalTok.
  destruct (startsWith (snd c) literal) eqn:E; [|constructor].
  constructor; [|constructor]. cbn [fieldTok Field.pos Field.value].
  apply token_at with (rest := skipn (length literal) (snd c)).
  - exact Hc.
  - symmetry. apply startsWith_split. exact E.
  - reflexivity.
Qed.

Lemma untilAt_ok (stop : str) (c : Cursor) :
  onLine line c -> Forall ok (fieldToken CRaw (untilAt n stop c)).
Proof.
  intros Hc. unfold untilAt, textTok.
  destruct (takeWhile (notIn stop) (snd c)) as [|d ds] eqn:E; [constructor|].
  constructor; [|constructor]. cbn [fieldTok Field.pos Field.value].
  apply token_at with (rest := dropWhile (notIn stop) (snd c)).
  - exact Hc.
  - rewrite <- E. apply takeWhile_dropWhile.
  - reflexivity.
Qed.

Lemma trimmedAt_ok (stop : str) (c : Cursor) :
  onLine line c ->
  Forall ok (fieldToken CTrimmed (trimField (untilAt n stop c))).
Proof.
  intros Hc. unfold untilAt, textTok.
  destruct (takeWhile (notIn stop) (snd c)) as [|d ds] eqn:E; [constructor|].
  constructor; [|constructor].
  cbn [fieldTok trimField Field.pos Field.value].
  apply token_at with (rest := dropWhile (notIn stop) (snd c)).
  - exact Hc.
  - rewrite <- E. apply takeWhile_dropWhile.
  - reflexivity.
Qed.

Lemma itemsFrom_ok (k : nat) :
  forall c : Cursor,
    onLine line c -> Forall ok (flat_map itemTokens (itemsFrom k n c)).
Proof.
  induction k as [|k IH]; intros c Hc; [constructor|].
  cbn [itemsFrom]. destruct (snd c) eqn:E; [constructor|].
  cbn [flat_map]. unfold itemTokens at 1.
  cbn [ParameterItem.separator ParameterItem.value].
  rewrite !Forall_app. repeat split.
  - apply literalAt_ok. exact Hc.
  - apply untilAt_ok. auto with cursor.
  - apply IH. auto with cursor.
Qed.

Lemma instructionAt_ok (c : Cursor) :
  onLine line c -> Forall ok (instructionTokens (instructionAt n c)).
Proof.
  intros Hc. unfold instructionAt.
  destruct (snd c) as [|ch ahead] eqn:E; [constructor|].
  destruct (isPrefix ch); [|constructor].
  assert (Hm : onLine line (move c [ch] ahead))
    by (apply onLine_move; [exact Hc | symmetry; exact E]).
  cbn [instructionTokens Instruction.prefix Instruction.name
       Instruction.parameters].
  rewrite !Forall_app. repeat split.
  - constructor; [|constructor]. cbn [fieldTok Field.pos Field.value].
    apply token_at with (rest := ahead);
      [exact Hc | symmetry; exact E | reflexivity].
  - apply untilAt_ok. exact Hm.
  - destruct (startsWith _ (lit "|")); [|constructor].
    cbn [parametersTokens Parameters.pos Parameters.items].
    constructor.
    + apply token_at with (rest := []).
      * auto with cursor.
      * apply app_nil_r.
      * exact I.
    + apply itemsFrom_ok. auto with cursor.
Qed.

Lemma iframeNodeOf_ok :
  Forall ok (tokensExt (NIFrame (iframeNodeOf JSON_parse line n))).
Proof.
  unfold iframeNodeOf, iframeJsonCursor.
  set (c4 := skipLiteral _ _).
  assert (H4 : onLine line c4) by (subst c4; auto 10 with cursor).
  destruct (takeWhile (notIn [newline]) (snd c4)) as [|d ds] eqn:E.
  - cbn [tokensExt IFrame.space0First IFrame.time IFrame.space1TimeToEvent
         IFrame.event IFrame.json IFrame.space0AfterJson jsonToken].
    rewrite !Forall_app. repeat split;
      first [ apply spaceAt_ok | apply numberAt_ok | apply literalAt_ok
            | constructor ];
      auto 10 with cursor.
  - assert (Hj : ok (Some (makePos n (length (fst c4))
                                   (length (fst c4) + length (d :: ds))),
                     CJson match JSON_parse (d :: ds) with
                           | inr data => Some data
                           | inl _ => None
                           end)).
    { apply token_at with (rest := dropWhile (notIn [newline]) (snd c4)).
      - exact H4.
      - rewrite <- E. apply takeWhile_dropWhile.
      - reflexivity. }
    destruct (JSON_parse (d :: ds)) as [msg|data];
      cbn [tokensExt IFrame.space0First IFrame.time IFrame.space1TimeToEvent
           IFrame.event IFrame.json IFrame.space0AfterJson jsonToken
           Field.pos Field.value];
      rewrite !Forall_app; repeat split;
      first [ apply spaceAt_ok | apply numberAt_ok | apply literalAt_ok
            | constructor; [exact Hj | constructor] ];
      auto 10 with cursor.
Qed.

Ltac tokens_tac :=
  rewrite !Forall_app; repeat split;
  first [ apply spaceAt_ok | apply numberAt_ok | apply literalAt_ok
        | apply untilAt_ok | apply trimmedAt_ok | apply instructionAt_ok ];
  auto 15 with cursor.

Lemma hkannoNodeOf_ok : Forall ok (tokens (hkannoNodeOf line n)).
Proof.
  unfold hkannoNodeOf.
  destruct (startsWith (trimStart line) (lit "#")).
  { unfold commentNodeOf. cbn. tokens_tac. }
  destruct (startsWith (toLowerCase (trimStart line)) (lit "trackname:")).
  { unfold trackNameNodeOf. cbn. tokens_tac. }
  destruct (includes (toLowerCase line) (lit "animrotation")).
  { unfold rotationNodeOf. cbn. tokens_tac. }
  destruct (includes (toLowerCase line) (lit "animmotion")).
  { unfold motionNodeOf. cbn. tokens_tac. }
  unfold textNodeOf. cbn. tokens_tac.
Qed.

Lemma payloadNodeOf_ok :
  Forall ok (tokensExt (NPayloadInstruction (payloadNodeOf line n))).
Proof. unfold payloadNodeOf. cbn. tokens_tac. Qed.

(** Every token of the node of every parse call is well placed. *)
Lemma nodeBy_ok (call : ParseCall) :
  Forall ok (tokensExt (nodeBy JSON_parse call line n)).
Proof.
  destruct call; cbn [nodeBy].
  - unfold commentNodeOf. cbn. tokens_tac.
  - unfold trackNameNodeOf. cbn. tokens_tac.
  - unfold textNodeOf. cbn. tokens_tac.
  - unfold motionNodeOf. cbn. tokens_tac.
  - unfold rotationNodeOf. cbn. tokens_tac.
  - apply iframeNodeOf_ok.
  - apply payloadNodeOf_ok.
  - apply hkannoNodeOf_ok.
  - unfold hkannoNodeExtOf.
    destruct (includes _ (lit "specialframes_invincible"));
      [apply iframeNodeOf_ok|].
    destruct (includes _ (lit "pie")); [apply payloadNodeOf_ok|].
    apply hkannoNodeOf_ok.
Qed.

End Tokens.

Unset Implicit Arguments.

(* ================================================================== *)
(** * States and cursors *)

Lemma wfState_atc (st : ParserState) :
  wfState st ->
  st = atc (firstn (State.i st) (State.line st), ahead st) (State.lineNumber st).
Proof.
  intros [Hl Hi]. destruct st as [l i ln len]. cbn [State.len State.line
    State.i State.lineNumber] in *. subst len.
  unfold atc, at_, ahead. cbn [fst snd State.i State.line].
  rewrite firstn_skipn, length_firstn, Nat.min_l by exact Hi. reflexivity.
Qed.

Lemma ahead_length (st : ParserState) :
  wfState st -> length (ahead st) = State.len st - State.i st.
Proof.
  intros [Hl Hi]. unfold ahead. rewrite length_skipn, Hl. reflexivity.
Qed.

Lemma atc_advances (c : Cursor) (a rest : str) (n : nat) :
  a ++ rest = snd c ->
  advances (atc c n) (atc (move c a rest) n) /\
  State.i (atc (move c a rest) n) = State.i (atc c n) + length a.
Proof.
  intros E. unfold advances, atc, at_, move.
  cbn [fst snd State.line State.i State.lineNumber State.len].
  rewrite <- E, <- !app_assoc, !length_app. repeat split; lia.
Qed.

Lemma atc_same (c : Cursor) (rest : str) (n : nat) :
  rest = snd c -> atc (move c [] rest) n = atc c n.
Proof.
  intros ->. destruct c as [pre r]. unfold move. cbn [fst snd].
  apply atc_nil_r.
Qed.

(* ================================================================== *)
(** * Properties of the parser *)

Lemma kind_lenient (node : HkannoNode) : In (kind node) lenientKinds.
Proof. destruct node; simpl; auto 10. Qed.

Lemma kind_extended (node : HkannoNodeExt) : In (kindExt node) extendedKinds.
Proof.
  destruct node as [node| |]; [|simpl; auto 10 ..].
  unfold extendedKinds. apply in_or_app. left. apply kind_lenient.
Qed.

Lemma tokenOk_wellFormed (JSON_parse : str -> str + Json) (line : str)
    (n : nat) (node : HkannoNodeExt) :
  1 <= n ->
  Forall (tokenOk JSON_parse line n) (tokensExt node) ->
  wellFormed line n node.
Proof.
  intros Hn H. unfold wellFormed. eapply Forall_impl; [|exact H].
  intros [p c] (q & consumed & Hq & Hl & Hs & Hse & He & _ & _ & Hc).
  cbn [fst snd] in *. split.
  - exists q. repeat split; try assumption. lia.
  - intros ->. exact Hc.
Qed.

(** C1. For every line and every line number from 1, the lenient
    dispatcher [parseHkannoLine] and the extended dispatcher
    [parseHkannoLineExt] return a node: they neither throw nor run out
    of iterations when each loop may run as many times as the line is
    long.  The node has a kind of the closed set of its dispatcher and is
    well formed: every present token and field has a span on the given
    line, with columns from 1, ordered and inside the text. *)
Theorem parse_dispatchers_total (JSON_parse : str -> str + Json)
    (line : str) (lineNumber fuel : nat) :
  1 <= lineNumber ->
  length line <= fuel ->
  (exists node,
      parseHkannoLine fuel line lineNumber = Ok node /\
      In (kind node) lenientKinds /\
      wellFormed line lineNumber (NCommon node)) /\
  (exists node,
      parseHkannoLineExt JSON_parse fuel line lineNumber = Ok node /\
      In (kindExt node) extendedKinds /\
      wellFormed line lineNumber node).
Proof.
  intros Hn Hf. split.
  - exists (hkannoNodeOf line lineNumber). repeat split.
    + apply parseHkannoLine_eq. exact Hf.
    + apply kind_lenient.
    + apply (tokenOk_wellFormed JSON_parse); [exact Hn|].
      apply (nodeBy_ok JSON_parse line lineNumber CallHkannoLine).
  - exists (hkannoNodeExtOf JSON_parse line lineNumber). repeat split.
    + apply parseHkannoLineExt_eq. exact Hf.
    + apply kind_extended.
    + apply (tokenOk_wellFormed JSON_parse); [exact Hn|].
      apply (nodeBy_ok JSON_parse line lineNumber CallHkannoLineExt).
Qed.

Lemma parse_dispatchers_total_witness :
  1 <= 3 /\
  length (lit "0.5 animrotation {90") <= 20 /\
  (exists node,
      parseHkannoLine 20 (lit "0.5 animrotation {90") 3 = Ok node /\
      In (kind node) lenientKinds /\
      wellFormed (lit "0.5 animrotation {90") 3 (NCommon node)) /\
  (exists node,
      parseHkannoLineExt (fun _ => inl []) 20 (lit "0.5 animrotation {90") 3
      = Ok node /\
      In (kindExt node) extendedKinds /\
      wellFormed (lit "0.5 animrotation {90") 3 node).
Proof.
  split; [lia|]. split; [simpl; lia|].
  apply (parse_dispatchers_total (fun _ => inl [])
           (lit "0.5 animrotation {90") 3 20);
    [lia | simpl; lia].
Defined.

(** C5. For every parse call (the seven line parsers and the two
    dispatchers), every present field and whitespace token of the
    returned node has a span whose line is the line number passed in and
    whose [endColumn - startColumn] is the number of characters consumed
    for the token; the token holds exactly the text of the line under its
    span (verbatim, trimmed for the track name, converted for numbers
    and JSON). *)
Theorem span_consistency (JSON_parse : str -> str + Json) (call : ParseCall)
    (line : str) (lineNumber fuel : nat) :
  length line <= fuel ->
  exists node,
    parseBy JSON_parse call fuel line lineNumber = Ok node /\
    Forall (tokenOk JSON_parse line lineNumber) (tokensExt node).
Proof.
  intros Hf. exists (nodeBy JSON_parse call line lineNumber). split.
  - apply parseBy_eq. exact Hf.
  - apply nodeBy_ok.
Qed.

Lemma span_consistency_witness :
  length (lit " 1.0 animmotion 1.0 2.0 3.0 ") <= 29 /\
  exists node,
    parseBy (fun _ => inl []) CallAnimMotionLine 29
            (lit " 1.0 animmotion 1.0 2.0 3.0 ") 1 = Ok node /\
    Forall (tokenOk (fun _ => inl []) (lit " 1.0 animmotion 1.0 2.0 3.0 ") 1)
           (tokensExt node).
Proof.
  split; [simpl; lia|].
  apply (span_consistency (fun _ => inl []) CallAnimMotionLine
           (lit " 1.0 animmotion 1.0 2.0 3.0 ") 1 29).
  simpl. lia.
Defined.

Lemma itemsFrom_separators (n : nat) :
  forall (k : nat) (c : Cursor),
    startsWith (snd c) (lit "|") = true \/ snd c = [] ->
    Forall hasSeparator (itemsFrom k n c).
Proof.
  induction k as [|k IH]; intros c Hc; [constructor|].
  cbn [itemsFrom]. destruct (snd c) as [|d r] eqn:E; [constructor|].
  destruct Hc as [Hc|Hc]; [|discriminate].
  constructor.
  - unfold hasSeparator, literalAt, literalTok.
    cbn [ParameterItem.separator]. rewrite E, Hc. unfold fieldTok.
    eexists. reflexivity.
  - apply IH. unfold skipUntil, move. cbn [snd].
    apply or_comm, dropWhile_bar.
Qed.

Lemma Some_eq {A : Type} (a b : A) : Some a = Some b -> a = b.
Proof. intros H. injection H as H. exact H. Qed.

Lemma Ok_eq {A : Type} (a b : A) : Ok a = Ok b -> a = b.
Proof. intros H. injection H as H. exact H. Qed.

Lemma instructionAt_parameters (n : nat) (c : Cursor)
    (instr : InstructionNode) (params : ParametersNode) :
  instructionAt n c = Some instr ->
  Instruction.parameters instr = Some params ->
  Parameters.items params <> [] /\
  Forall hasSeparator (Parameters.items params).
Proof.
  unfold instructionAt. intros Hi Hq.
  destruct (snd c) as [|ch rest]; [discriminate|].
  destruct (isPrefix ch); [|discriminate].
  apply Some_eq in Hi. rewrite <- Hi in Hq.
  unfold Instruction.parameters in Hq.
  set (c2 := skipUntil (lit "|") _) in Hq.
  destruct (startsWith (snd c2) (lit "|")) eqn:Hbar; [|discriminate].
  apply Some_eq in Hq. rewrite <- Hq. unfold Parameters.items. split.
  - destruct (snd c2) as [|d r] eqn:E; [discriminate|].
    cbn [length itemsFrom]. rewrite E. discriminate.
  - apply itemsFrom_separators. left. exact Hbar.
Qed.

(** C3, as the code has it.  In a payload-instruction node with a
    parameters list, the list is not empty and every item, the first one
    included, carries its [|] separator. *)
Theorem parameters_all_separated (fuel : nat) (line : str) (lineNumber : nat)
    (node : PayloadInstructionNode) (instr : InstructionNode)
    (params : ParametersNode) :
  length line <= fuel ->
  parsePayloadInstructionLine fuel line lineNumber = Ok node ->
  PayloadInstruction.instruction node = Some instr ->
  Instruction.parameters instr = Some params ->
  Parameters.items params <> [] /\
  Forall hasSeparator (Parameters.items params).
Proof.
  intros Hf Hp Hi Hq.
  rewrite parsePayloadInstructionLine_eq in Hp by exact Hf.
  apply Ok_eq in Hp. rewrite <- Hp in Hi. unfold payloadNodeOf in Hi.
  unfold PayloadInstruction.instruction in Hi.
  exact (instructionAt_parameters _ _ _ _ Hi Hq).
Qed.

Lemma parameters_all_separated_witness :
  exists node instr params,
    length (lit "0.3 PIE.@SGVB|flag|1") <= 20 /\
    parsePayloadInstructionLine 20 (lit "0.3 PIE.@SGVB|flag|1") 1 = Ok node /\
    PayloadInstruction.instruction node = Some instr /\
    Instruction.parameters instr = Some params /\
    Parameters.items params <> [] /\
    Forall hasSeparator (Parameters.items params).
Proof.
  eexists. eexists. eexists.
  split; [simpl; lia|].
  split; [vm_compute; reflexivity|].
  split; [reflexivity|]. split; [reflexivity|].
  eapply (parameters_all_separated 20 (lit "0.3 PIE.@SGVB|flag|1") 1);
    [simpl; lia | vm_compute; reflexivity | reflexivity | reflexivity].
Defined.

(** C3 as stated fails: in the line of the repository's own test the
    first parameter item has a separator. *)
Lemma first_separator_present :
  exists node,
    parsePayloadInstructionLine 62
      (lit "0.3 PIE.@CASTSPELL|0X001|Apocalypse.esp|1|2.0|0|100|10|0|0|0|0") 1
    = Ok node /\
    ~ firstSeparatorAbsent node.
Proof.
  eexists. split; [vm_compute; reflexivity|].
  intros H.
  specialize (H _ _ _ _ eq_refl eq_refl eq_refl). discriminate H.
Qed.

Lemma numberText_sign (c : ascii) :
  isSign c = true -> numberText [c] = [c] /\ Number [c] = S754_nan.
Proof.
  intros H. unfold numberText, Number, readDecimal, readSign, signText.
  rewrite H. split; reflexivity.
Qed.

Lemma parseNumberField_cursor (fuel : nat) (c : Cursor) (n : nat) :
  length (snd c) <= fuel ->
  exists r st',
    parseNumberField fuel (atc c n) = Ok (r, st') /\
    advances (atc c n) st' /\
    (r = None <-> State.i st' = State.i (atc c n)) /\
    (r = None -> st' = atc c n) /\
    (forall ch, isSign ch = true -> snd c = [ch] ->
       r = Some (Field.mk (Some S754_nan)
                   (Some (makePos n (State.i (atc c n))
                                  (State.i (atc c n) + 1)))) /\
       State.i st' = State.i (atc c n) + 1).
Proof.
  intros Hf. exists (numberAt n c), (atc (skipNumber c) n).
  destruct (atc_advances c _ _ n (numberText_split (snd c))) as [Ha Hi].
  split; [apply parseNumberField_c; exact Hf|].
  split; [exact Ha|].
  fold (skipNumber c) in Hi. unfold numberAt, numberTok.
  destruct (numberText (snd c)) as [|d ds] eqn:E.
  - split; [|split].
    + split; [intros _; rewrite Hi; simpl; lia | reflexivity].
    + intros _. unfold skipNumber. rewrite E. apply atc_same.
      pose proof (numberText_split (snd c)) as Hs. rewrite E in Hs.
      exact Hs.
    + intros ch Hch Hc. rewrite Hc in E.
      destruct (numberText_sign ch Hch) as [Ht _]. rewrite Ht in E. discriminate.
  - split; [|split].
    + split; [discriminate | rewrite Hi; simpl; lia].
    + discriminate.
    + intros ch Hch Hc. rewrite Hc in E.
      destruct (numberText_sign ch Hch) as [Ht Hn]. rewrite Ht in E.
      injection E as <- <-. rewrite Hn. split; [reflexivity|].
      rewrite Hi. reflexivity.
Qed.

(** On a state inside the line, [parseNumberField] returns absent exactly
    when it consumed no character, and then the state is unchanged; a
    bare sign at the end of the line is consumed. *)
Theorem number_field_absent_iff_nothing_consumed (fuel : nat)
    (st : ParserState) :
  wfState st ->
  State.len st - State.i st <= fuel ->
  exists r st',
    parseNumberField fuel st = Ok (r, st') /\
    advances st st' /\
    (r = None <-> State.i st' = State.i st) /\
    (r = None -> st' = st) /\
    (forall c, isSign c = true -> ahead st = [c] ->
       r = Some (Field.mk (Some S754_nan)
                   (Some (makePos (State.lineNumber st) (State.i st)
                                  (State.i st + 1)))) /\
       State.i st' = State.i st + 1).
Proof.
  intros Hwf Hf.
  pose proof (ahead_length st Hwf) as Hl.
  pose proof (wfState_atc st Hwf) as E.
  set (c := (firstn (State.i st) (State.line st), ahead st)) in E.
  assert (Hc : length (snd c) <= fuel) by (cbn [snd c]; lia).
  destruct (parseNumberField_cursor fuel c (State.lineNumber st) Hc)
    as (r & st' & H1 & H2 & H3 & H4 & H5).
  rewrite <- E in H1, H2, H3, H4, H5.
  exists r, st'. split; [exact H1|]. split; [exact H2|].
  split; [exact H3|]. split; [exact H4|].
  intros ch Hch Ha. apply (H5 ch Hch). exact Ha.
Qed.

Lemma number_field_absent_iff_nothing_consumed_witness :
  wfState (State.mk (lit "1 -") 2 1 3) /\
  State.len (State.mk (lit "1 -") 2 1 3) - State.i (State.mk (lit "1 -") 2 1 3)
  <= 1 /\
  exists r st',
    parseNumberField 1 (State.mk (lit "1 -") 2 1 3) = Ok (r, st') /\
    advances (State.mk (lit "1 -") 2 1 3) st' /\
    (r = None <-> State.i st' = 2) /\
    (r = None -> st' = State.mk (lit "1 -") 2 1 3) /\
    (forall c, isSign c = true -> ahead (State.mk (lit "1 -") 2 1 3) = [c] ->
       r = Some (Field.mk (Some S754_nan) (Some (makePos 1 2 (2 + 1)))) /\
       State.i st' = 2 + 1).
Proof.
  assert (Hwf : wfState (State.mk (lit "1 -") 2 1 3))
    by (unfold wfState; simpl; lia).
  split; [exact Hwf|]. split; [simpl; lia|].
  apply (number_field_absent_iff_nothing_consumed 1
           (State.mk (lit "1 -") 2 1 3) Hwf).
  simpl. lia.
Defined.

(** C4 as stated fails: on the line "+" the sign is consumed and a
    present field is returned. *)
Lemma bare_sign_consumed :
  parseNumberField 1 (initState (lit "+") 1)
  = Ok (Some (Field.mk (Some S754_nan) (Some (Pos.mk 1 1 2))),
        State.mk (lit "+") 1 1 1) /\
  ~ bareSignLeftAlone.
Proof.
  split; [vm_compute; reflexivity|].
  intros H.
  assert (Hwf : wfState (initState (lit "+") 1))
    by (unfold wfState; simpl; lia).
  specialize (H 1 (initState (lit "+") 1) "+"%char Hwf (Nat.le_refl 1)
                eq_refl eq_refl).
  vm_compute in H. discriminate H.
Qed.

Lemma numberText_sign_only (c : ascii) (rest : str) :
  isSign c = true ->
  match rest with
  | d :: _ => isDigitOrDot d = false /\ isExpMark d = false
  | [] => True
  end ->
  numberText (c :: rest) = [c] /\ numberRest (c :: rest) = rest.
Proof.
  intros Hc Hd. unfold numberText, numberRest, signText. rewrite Hc.
  cbn [length skipn].
  destruct rest as [|d rest]; [split; reflexivity|].
  destruct Hd as [H1 H2]. cbn [takeWhile dropWhile]. rewrite H1.
  cbn [expText expRest app]. rewrite H2. split; reflexivity.
Qed.

(** C4.  A sign that no digit follows is committed.  On a state whose
    text ahead is a [+] or a [-] followed by nothing, or by a character
    that is neither a digit, a dot nor an exponent mark,
    [parseNumberField] returns a present field, whose value is NaN and
    whose span is the sign, and leaves the cursor past the sign: it does
    not return absent, and the sign is lost for the fields that follow. *)
Theorem sign_without_digits_committed (fuel : nat) (st : ParserState)
    (c : ascii) (rest : str) :
  wfState st ->
  State.len st - State.i st <= fuel ->
  ahead st = c :: rest ->
  isSign c = true ->
  match rest with
  | d :: _ => isDigitOrDot d = false /\ isExpMark d = false
  | [] => True
  end ->
  parseNumberField fuel st
  = Ok (Some (Field.mk (Some S754_nan)
                (Some (makePos (State.lineNumber st) (State.i st)
                               (State.i st + 1)))),
        State.mk (State.line st) (State.i st + 1) (State.lineNumber st)
                 (State.len st)).
Proof.
  intros Hwf Hf Ha Hc Hd.
  pose proof (ahead_length st Hwf) as Hl.
  pose proof (wfState_atc st Hwf) as E.
  destruct (numberText_sign_only c rest Hc Hd) as [Et Er].
  destruct (numberText_sign c Hc) as [_ En].
  destruct st as [line i ln len].
  cbn [State.line State.i State.lineNumber State.len] in *.
  destruct Hwf as [Hlen Hi].
  cbn [State.line State.i State.lineNumber State.len] in Hlen, Hi.
  rewrite E at 1.
  rewrite parseNumberField_c by (cbn [snd]; lia).
  unfold numberAt, numberTok, skipNumber, move, atc, at_, fieldTok.
  cbn [fst snd]. rewrite Ha, Et, Er, En.
  assert (Li : length (firstn i line) = i)
    by (rewrite length_firstn; subst len; lia).
  assert (Eline : (firstn i line ++ [c]) ++ rest = line).
  { rewrite <- app_assoc. cbn [app]. rewrite <- Ha. unfold ahead.
    cbn [State.i State.line]. apply firstn_skipn. }
  rewrite Eline, length_app, Li. cbn [length]. subst len. reflexivity.
Qed.

Lemma sign_without_digits_committed_witness :
  parseNumberField 5 (State.mk (lit "+ foo") 0 1 5)
  = Ok (Some (Field.mk (Some S754_nan) (Some (makePos 1 0 (0 + 1)))),
        State.mk (lit "+ foo") (0 + 1) 1 5).
Proof.
  apply (sign_without_digits_committed 5 (State.mk (lit "+ foo") 0 1 5)
           "+"%char (lit " foo")).
  - unfold wfState. simpl. lia.
  - simpl. lia.
  - reflexivity.
  - reflexivity.
  - split; reflexivity.
Defined.

Lemma spanned_at (line : str) (c : Cursor) (a rest : str) (n : nat) :
  onLine line c ->
  a ++ rest = snd c ->
  spanned line (makePos n (length (fst c)) (length (fst c) + length a)) = a.
Proof.
  intros Hc Ha. unfold onLine in Hc. rewrite <- Ha in Hc.
  unfold spanned, makePos. cbn [Pos.startColumn Pos.endColumn].
  rewrite !Nat.add_sub. rewrite <- Hc, app_assoc.
  rewrite <- (length_app (fst c) a). apply slice_at.
Qed.

Lemma iframeJsonCursor_onLine (line : str) : onLine line (iframeJsonCursor line).
Proof. unfold iframeJsonCursor. auto 10 with cursor. Qed.

(** C6. For every line, [parseIFrameLine] returns a node (it does not
    throw).  When text follows the place of the event literal up to the
    end of the line: if [JSON.parse] decodes it, the json field holds the
    decoded data and there is no parse error; if [JSON.parse] throws, the
    json field has no value and [jsonParseError] holds a non-empty
    message, the text of the error thrown.  When nothing follows, there
    is neither a json field nor a parse error. *)
Theorem iframe_json_failure_is_data (JSON_parse : str -> str + Json)
    (fuel : nat) (line : str) (lineNumber : nat) :
  length line <= fuel ->
  exists node,
    parseIFrameLine JSON_parse fuel line lineNumber = Ok node /\
    let raw := takeWhile (notIn [newline]) (snd (iframeJsonCursor line)) in
    match raw, JSON_parse raw with
    | [], _ => IFrame.json node = None /\ IFrame.jsonParseError node = None
    | _ :: _, inr data =>
        (exists p, IFrame.json node = Some (Field.mk (Some data) (Some p)) /\
                   spanned line p = raw) /\
        IFrame.jsonParseError node = None
    | _ :: _, inl msg =>
        (exists p, IFrame.json node = Some (Field.mk None (Some p)) /\
                   spanned line p = raw) /\
        (exists text, IFrame.jsonParseError node = Some text /\
                      text <> [] /\
                      text = JsError.toString (SyntaxError msg))
    end.
Proof.
  intros Hf. exists (iframeNodeOf JSON_parse line lineNumber).
  split; [apply parseIFrameLine_eq; exact Hf|].
  unfold iframeNodeOf. cbv zeta.
  destruct (takeWhile (notIn [newline]) (snd (iframeJsonCursor line)))
    as [|d ds] eqn:E.
  - split; reflexivity.
  - assert (Hs : spanned line
                   (makePos lineNumber (length (fst (iframeJsonCursor line)))
                      (length (fst (iframeJsonCursor line))
                       + length (d :: ds))) = d :: ds).
    { apply spanned_at
        with (rest := dropWhile (notIn [newline]) (snd (iframeJsonCursor line))).
      - apply iframeJsonCursor_onLine.
      - rewrite <- E. apply takeWhile_dropWhile. }
    destruct (JSON_parse (d :: ds)) as [msg|data];
      cbn [IFrame.json IFrame.jsonParseError].
    + split.
      * eexists. split; [reflexivity | exact Hs].
      * eexists. split; [reflexivity|]. split; [|reflexivity].
        destruct (toString_SyntaxError msg) as (c & s & Hc).
        rewrite Hc. discriminate.
    + split; [|reflexivity].
      eexists. split; [reflexivity | exact Hs].
Qed.

Lemma iframe_json_failure_is_data_witness :
  length (lit "0.5 SpecialFrames_Invincible{invalid}") <= 37 /\
  exists node,
    parseIFrameLine (fun _ => inl (lit "Unexpected token i")) 37
      (lit "0.5 SpecialFrames_Invincible{invalid}") 1 = Ok node /\
    (exists p, IFrame.json node = Some (Field.mk None (Some p)) /\
               spanned (lit "0.5 SpecialFrames_Invincible{invalid}") p
               = lit "{invalid}") /\
    (exists text, IFrame.jsonParseError node = Some text /\
                  text <> [] /\
                  text = lit "SyntaxError: Unexpected token i").
Proof.
  split; [simpl; lia|].
  apply (iframe_json_failure_is_data
           (fun _ => inl (lit "Unexpected token i")) 37
           (lit "0.5 SpecialFrames_Invincible{invalid}") 1).
  simpl. lia.
Defined.

Lemma progresses_at {T : Type} (m : M (option T)) (c : Cursor) (n : nat)
    (a rest : str) (tok : option T) :
  a ++ rest = snd c ->
  m (atc c n) = Ok (tok, atc (move c a rest) n) ->
  (tok = None <-> a = []) ->
  progresses m (atc c n).
Proof.
  intros Ha Hm Ht. exists tok, (atc (move c a rest) n).
  destruct (atc_advances c a rest n Ha) as [Hadv Hi].
  split; [exact Hm|]. split; [exact Hadv|]. split.
  - intros Hn. apply Ht in Hn. subst a. apply atc_same. exact Ha.
  - intros Hn. rewrite Hi. destruct a as [|d a].
    + exfalso. apply Hn. apply Ht. reflexivity.
    + simpl. lia.
Qed.

Lemma tok_none_iff {T : Type} (a : str) (t : T) :
  match a with [] => None | _ :: _ => Some t end = None <-> a = [].
Proof. destruct a; split; intros H; try reflexivity; discriminate. Qed.

Lemma parseSpace_progresses (fuel : nat) (c : Cursor) (n : nat) :
  length (snd c) <= fuel -> progresses (parseSpace fuel) (atc c n).
Proof.
  intros Hf. eapply progresses_at.
  - apply (takeWhile_dropWhile isSpace).
  - apply parseSpace_c. exact Hf.
  - unfold spaceAt, spaceTok. apply tok_none_iff.
Qed.

Lemma parseNumberField_progresses (fuel : nat) (c : Cursor) (n : nat) :
  length (snd c) <= fuel -> progresses (parseNumberField fuel) (atc c n).
Proof.
  intros Hf. eapply progresses_at.
  - apply numberText_split.
  - apply parseNumberField_c. exact Hf.
  - unfold numberAt, numberTok, fieldTok. apply tok_none_iff.
Qed.

Lemma parseFieldUntil_progresses (fuel : nat) (stop : str) (c : Cursor)
    (n : nat) :
  length (snd c) <= fuel -> progresses (parseFieldUntil fuel stop) (atc c n).
Proof.
  intros Hf. eapply progresses_at.
  - apply (takeWhile_dropWhile (notIn stop)).
  - apply parseFieldUntil_c. exact Hf.
  - unfold untilAt, textTok, fieldTok. apply tok_none_iff.
Qed.

Lemma parseLiteralField_progresses (literal : str) (c : Cursor) (n : nat) :
  literal <> [] -> progresses (parseLiteralField literal) (atc c n).
Proof.
  intros Hl. eapply progresses_at.
  - apply literal_split.
  - apply parseLiteralField_c.
  - unfold literalAt, literalTok, literalText, fieldTok.
    destruct (startsWith (snd c) literal); split; intros H;
      try reflexivity; try discriminate.
    contradiction.
Qed.

(** One round of the parameter loop consumes input. *)
Lemma parseParameterItem_consumes (fuel : nat)
    (items : list ParameterItemNode) (c : Cursor) (n : nat) :
  length (snd c) <= fuel ->
  snd c <> [] ->
  exists items' c',
    parseParameterItem fuel items (atc c n) = Ok (items', atc c' n) /\
    fst c' ++ snd c' = fst c ++ snd c /\
    length (snd c') < length (snd c).
Proof.
  intros Hf Hne. eexists. eexists.
  split; [apply parseParameterItem_c; exact Hf|].
  split; [apply item_cursor_total|].
  destruct c as [pre [|d r]]; [contradiction|].
  pose proof (item_cursor_shorter pre r d) as H. cbn [snd length]. lia.
Qed.

Lemma atc_wf (c : Cursor) (n : nat) : wfState (atc c n).
Proof.
  unfold wfState, atc, at_. cbn [State.len State.line State.i].
  split; [reflexivity|]. rewrite length_app. lia.
Qed.

Lemma atc_i (c : Cursor) (n : nat) : State.i (atc c n) = length (fst c).
Proof. reflexivity. Qed.

Lemma atc_line (c : Cursor) (n : nat) : State.line (atc c n) = fst c ++ snd c.
Proof. reflexivity. Qed.

(** C9. Every parse call terminates within the length of the line: with
    an iteration budget per loop of the line length or more, each of the
    nine parse calls returns a node, the same for every such budget.
    On every state of the line, each primitive returns, moves the cursor
    only forward and inside the line, and leaves the state unchanged when
    it returns absent; each round of a loop (of the primitives, and of
    the parameter loop of the payload-instruction parser) moves the
    cursor forward by at least one character. *)
Theorem parsing_terminates (JSON_parse : str -> str + Json) (line : str)
    (lineNumber fuel : nat) :
  length line <= fuel ->
  (forall call,
     exists node,
       parseBy JSON_parse call fuel line lineNumber = Ok node /\
       forall fuel', length line <= fuel' ->
         parseBy JSON_parse call fuel' line lineNumber = Ok node) /\
  (forall st, wfState st -> State.line st = line ->
     progresses (parseSpace fuel) st /\
     progresses (parseNumberField fuel) st /\
     (forall stop, progresses (parseFieldUntil fuel stop) st) /\
     (forall literal, literal <> [] ->
        progresses (parseLiteralField literal) st)) /\
  (forall st, wfState st -> State.line st = line -> inLine st = true ->
     (exists st', advance 1 st = Ok (tt, st') /\
                  State.i st' = State.i st + 1 /\ wfState st') /\
     (forall s, exists s' st',
        take s st = Ok (s', st') /\
        State.i st' = State.i st + 1 /\ wfState st') /\
     (forall items, exists items' st',
        parseParameterItem fuel items st = Ok (items', st') /\
        State.i st < State.i st' /\
        wfState st' /\ State.line st' = line)).
Proof.
  intros Hf. split; [|split].
  - intros call. exists (nodeBy JSON_parse call line lineNumber).
    split; [apply parseBy_eq; exact Hf|].
    intros fuel' Hf'. apply parseBy_eq. exact Hf'.
  - intros st Hwf Hl.
    pose proof (ahead_length st Hwf) as Ha.
    pose proof (wfState_atc st Hwf) as E.
    assert (Hc : length (ahead st) <= fuel).
    { destruct Hwf as [Hlen _]. rewrite Ha, Hlen, Hl. lia. }
    rewrite E. repeat split.
    + apply parseSpace_progresses. exact Hc.
    + apply parseNumberField_progresses. exact Hc.
    + intros stop. apply parseFieldUntil_progresses. exact Hc.
    + intros literal Hne. apply parseLiteralField_progresses. exact Hne.
  - intros st Hwf Hl Hin.
    pose proof (ahead_length st Hwf) as Ha.
    pose proof (wfState_atc st Hwf) as E.
    assert (Hc : length (ahead st) <= fuel).
    { destruct Hwf as [Hlen _]. rewrite Ha, Hlen, Hl. lia. }
    destruct (ahead st) as [|d r] eqn:Er.
    { unfold inLine in Hin. apply Nat.ltb_lt in Hin. simpl in Ha. lia. }
    set (pre := firstn (State.i st) (State.line st)) in E.
    assert (Hi : State.i st = length pre).
    { subst pre. destruct Hwf as [Hlen Hle].
      rewrite length_firstn, Nat.min_l; [reflexivity | lia]. }
    assert (Hline : pre ++ d :: r = line).
    { transitivity (firstn (State.i st) (State.line st)
                    ++ skipn (State.i st) (State.line st)).
      - f_equal. symmetry. exact Er.
      - rewrite firstn_skipn. exact Hl. }
    rewrite E. repeat split.
    + exists (at_ (pre ++ [d]) r (State.lineNumber st)).
      split; [apply advance1_at|]. split.
      * unfold atc, at_. cbn [State.i fst]. rewrite length_app. simpl. lia.
      * apply (atc_wf (pre ++ [d], r)).
    + intros s. exists (s ++ [d]), (at_ (pre ++ [d]) r (State.lineNumber st)).
      split; [apply take_at|]. split.
      * unfold atc, at_. cbn [State.i fst]. rewrite length_app. simpl. lia.
      * apply (atc_wf (pre ++ [d], r)).
    + intros items.
      destruct (parseParameterItem_consumes fuel items (pre, d :: r)
                  (State.lineNumber st) Hc ltac:(discriminate))
        as (items' & c' & Hp & Ht & Hlt).
      exists items', (atc c' (State.lineNumber st)).
      split; [exact Hp|]. cbn [fst snd] in Ht, Hlt.
      split; [|split].
      * rewrite (atc_i c'), (atc_i (pre, d :: r)). cbn [fst].
        apply (f_equal (@length ascii)) in Ht.
        rewrite !length_app in Ht. simpl in *. lia.
      * apply atc_wf.
      * rewrite atc_line, Ht. exact Hline.
Qed.

Lemma parsing_terminates_witness :
  length (lit "0.3 PIE.@SGVB|flag|1") <= 20 /\
  forall call,
    exists node,
      parseBy (fun _ => inl []) call 20 (lit "0.3 PIE.@SGVB|flag|1") 7
      = Ok node /\
      forall fuel', length (lit "0.3 PIE.@SGVB|flag|1") <= fuel' ->
        parseBy (fun _ => inl []) call fuel' (lit "0.3 PIE.@SGVB|flag|1") 7
        = Ok node.
Proof.
  split; [simpl; lia|].
  apply (parsing_terminates (fun _ => inl []) (lit "0.3 PIE.@SGVB|flag|1")
           7 20).
  simpl. lia.
Defined.

(* ================================================================== *)
(** * Rendered numbers *)

Lemma digitChar_digit (d : Z) :
  (0 <= d < 10)%Z -> isDigit (digitChar d) = true.
Proof.
  intros H.
  assert (E : (d = 0 \/ d = 1 \/ d = 2 \/ d = 3 \/ d = 4 \/ d = 5 \/ d = 6 \/
               d = 7 \/ d = 8 \/ d = 9)%Z) by lia.
  repeat (destruct E as [->|E]; [reflexivity|]). subst d. reflexivity.
Qed.

Lemma digitsOfAux_digits (fuel : nat) :
  forall (n : Z) (acc : str),
    Forall (fun c => isDigit c = true) acc ->
    Forall (fun c => isDigit c = true) (digitsOfAux fuel n acc).
Proof.
  induction fuel as [|fuel IH]; intros n acc Hacc; cbn [digitsOfAux].
  - constructor; [|exact Hacc].
    apply digitChar_digit. apply Z.mod_pos_bound. lia.
  - assert (Hd : Forall (fun c => isDigit c = true)
                   (digitChar (n mod 10) :: acc)).
    { constructor; [|exact Hacc].
      apply digitChar_digit. apply Z.mod_pos_bound. lia. }
    destruct (n / 10 =? 0)%Z; [exact Hd | apply IH; exact Hd].
Qed.

Lemma digitsOf_digits (n : Z) : Forall (fun c => isDigit c = true) (digitsOf n).
Proof. apply digitsOfAux_digits. constructor. Qed.

Lemma zeros_digits (k : nat) : Forall (fun c => isDigit c = true) (zeros k).
Proof.
  unfold zeros. induction k; simpl; constructor; [reflexivity | assumption].
Qed.

Lemma spanDigits_app (ip rest : str) (c : ascii) :
  Forall (fun c => isDigit c = true) ip ->
  isDigit c = false ->
  spanDigits (ip ++ c :: rest) = (ip, c :: rest).
Proof.
  intros Hip Hc. induction Hip as [|d ip Hd _ IH]; simpl.
  - rewrite Hc. reflexivity.
  - rewrite Hd, IH. reflexivity.
Qed.

Lemma forallb_digits (s : str) :
  Forall (fun c => isDigit c = true) s -> forallb isDigit s = true.
Proof. intros H. apply forallb_forall. apply Forall_forall. exact H. Qed.

Lemma Forall_firstn_skipn {A : Type} (P : A -> Prop) (k : nat) (l : list A) :
  Forall P l -> Forall P (firstn k l) /\ Forall P (skipn k l).
Proof.
  intros H. rewrite <- (firstn_skipn k l) in H. apply Forall_app in H.
  exact H.
Qed.

(** [fixed6] writes fixed notation. *)
Lemma fixed6_shape (n : Z) :
  exists ip fp,
    fixed6 n = ip ++ "."%char :: fp /\
    ip <> [] /\ length fp = 6 /\
    Forall (fun c => isDigit c = true) ip /\
    Forall (fun c => isDigit c = true) fp.
Proof.
  unfold fixed6.
  set (m := zeros (7 - length (digitsOf n)) ++ digitsOf n).
  assert (Hm : Forall (fun c => isDigit c = true) m)
    by (apply Forall_app; split; [apply zeros_digits | apply digitsOf_digits]).
  assert (Hl : 7 <= length m).
  { subst m. rewrite length_app. unfold zeros. rewrite repeat_length. lia. }
  exists (firstn (length m - 6) m), (skipn (length m - 6) m).
  split; [reflexivity|]. split; [|split; [|split]].
  - intros H. apply (f_equal (@length ascii)) in H.
    rewrite length_firstn in H. simpl in H. lia.
  - rewrite length_skipn. lia.
  - apply Forall_firstn_skipn. exact Hm.
  - apply Forall_firstn_skipn. exact Hm.
Qed.

Lemma fixed6_isFixed6 (n : Z) : isUnsignedFixed6 (fixed6 n) = true.
Proof.
  destruct (fixed6_shape n) as (ip & fp & E & Hne & Hl & Hip & Hfp).
  unfold isUnsignedFixed6. rewrite E.
  rewrite spanDigits_app by (assumption || reflexivity).
  destruct ip as [|d ip]; [contradiction|].
  rewrite eqc_refl, Hl, forallb_digits by exact Hfp. reflexivity.
Qed.

Lemma fixed6_head (n : Z) :
  exists d r, fixed6 n = d :: r /\ isDigit d = true.
Proof.
  destruct (fixed6_shape n) as (ip & fp & E & Hne & _ & Hip & _).
  destruct ip as [|d ip]; [contradiction|].
  exists d, (ip ++ "."%char :: fp). split; [exact E|].
  apply Forall_inv in Hip. exact Hip.
Qed.

Lemma digit_not_minus (d : ascii) : isDigit d = true -> eqc d "-" = false.
Proof.
  intros H. destruct (eqc d "-") eqn:E; [|reflexivity].
  apply eqc_true in E. subst d. discriminate H.
Qed.

(** A finite number below [10 ^ 21] is rendered in fixed notation. *)
Lemma toFixed6_small (x : float) :
  isSmallFinite x = true -> isFixed6 (toFixed6 x) = true.
Proof.
  destruct x as [s|s| |s m e]; try discriminate.
  - intros _. reflexivity.
  - cbn [isSmallFinite toFixed6]. intros H. apply negb_true_iff in H.
    rewrite H. destruct (fixed6_head (scaled6 (Zpos m) e)) as (d & r & E & Hd).
    destruct s.
    + cbn [isFixed6]. rewrite eqc_refl. apply fixed6_isFixed6.
    + pose proof (fixed6_isFixed6 (scaled6 (Zpos m) e)) as Hf.
      rewrite E in *. cbn [isFixed6].
      rewrite (digit_not_minus d Hd). exact Hf.
Qed.

Lemma digit_numberChar (c : ascii) :
  isDigit c = true -> isNumberChar c = true.
Proof. intros H. unfold isNumberChar. rewrite H. reflexivity. Qed.

Lemma digits_numberChars (s : str) :
  Forall (fun c => isDigit c = true) s ->
  Forall (fun c => isNumberChar c = true) s.
Proof.
  intros H. eapply Forall_impl; [|exact H]. apply digit_numberChar.
Qed.

Lemma stripZeros_digits (r : str) :
  Forall (fun c => isDigit c = true) r ->
  Forall (fun c => isDigit c = true) (stripZeros r).
Proof.
  intros H. induction H as [|c r Hc Hr IH]; simpl; [constructor|].
  destruct (eqc c "0"); [exact IH | constructor; assumption].
Qed.

Lemma stripZerosEnd_digits (s : str) :
  Forall (fun c => isDigit c = true) s ->
  Forall (fun c => isDigit c = true) (stripZerosEnd s).
Proof.
  intros H. unfold stripZerosEnd. apply Forall_rev, stripZeros_digits.
  apply Forall_rev. exact H.
Qed.

Lemma sciNotation_chars (ds : str) (n : Z) :
  Forall (fun c => isDigit c = true) ds ->
  Forall (fun c => isNumberChar c = true) (sciNotation ds n).
Proof.
  intros H. pose proof (digits_numberChars _ (digitsOf_digits (n - 1))) as He.
  destruct H as [|d ds Hd Hds]; [constructor|].
  apply digits_numberChars in Hds. apply digit_numberChar in Hd.
  destruct ds as [|d' ds]; cbn [sciNotation].
  - constructor; [exact Hd|]. apply Forall_app. split; [|exact He].
    repeat constructor.
  - constructor; [exact Hd|]. constructor; [reflexivity|].
    apply Forall_app. split; [exact Hds|].
    apply Forall_app. split; [|exact He]. repeat constructor.
Qed.

Lemma candidate_chars (x : float) (t : nat) (s : Z) (txt : str) :
  candidate x t s = Some txt -> Forall (fun c => isNumberChar c = true) txt.
Proof.
  unfold candidate. destruct (sameFloat _ x); [|discriminate].
  intros H. apply Some_eq in H. subst txt.
  apply sciNotation_chars, stripZerosEnd_digits, digitsOf_digits.
Qed.

Lemma shortest_chars (x : float) (X : Z) (d : nat) :
  forall fuel k,
    Forall (fun c => isNumberChar c = true) (shortest fuel k x X d).
Proof.
  induction fuel as [|fuel IH]; intros k; cbn [shortest];
    repeat (match goal with
            | |- context [candidate ?a ?b ?c] =>
                let E := fresh "E" in
                destruct (candidate a b c) as [txt|] eqn:E
            end;
            try (eapply candidate_chars; eassumption)).
  - apply sciNotation_chars, stripZerosEnd_digits, digitsOf_digits.
  - apply IH.
Qed.

(** [toFixed6] writes number characters only. *)
Lemma toFixed6_chars (x : float) :
  Forall (fun c => isNumberChar c = true) (toFixed6 x).
Proof.
  destruct x as [s|[|]| |s m e]; cbn [toFixed6];
    try (repeat constructor).
  assert (Hb : Forall (fun c => isNumberChar c = true)
                 (if (0 <=? e)%Z && (10 ^ 21 <=? Zpos m * 2 ^ e)%Z
                  then toStringLarge (S754_finite false m e) (Zpos m * 2 ^ e)
                  else fixed6 (scaled6 (Zpos m) e))).
  { destruct (_ && _).
    - apply shortest_chars.
    - destruct (fixed6_shape (scaled6 (Zpos m) e))
        as (ip & fp & E & _ & _ & Hip & Hfp).
      rewrite E. apply Forall_app. split; [apply digits_numberChars, Hip|].
      constructor; [reflexivity | apply digits_numberChars, Hfp]. }
  destruct s; [constructor; [reflexivity | exact Hb] | exact Hb].
Qed.

(* ================================================================== *)
(** * What the formatter writes *)

Lemma num_numberAt (n : nat) (c : Cursor) :
  num (numberAt n c) = numberValue (snd c).
Proof.
  unfold num, numberAt, numberTok, numberValue.
  destruct (numberText (snd c)); reflexivity.
Qed.

Lemma txt_untilAt (n : nat) (stop : str) (c : Cursor) :
  txt (untilAt n stop c) = untilValue stop (snd c).
Proof.
  unfold txt, untilAt, textTok, untilValue.
  destruct (takeWhile (notIn stop) (snd c)); reflexivity.
Qed.

Lemma txt_literalAt (n : nat) (literal : str) (c : Cursor) :
  txt (literalAt n literal c) = literalValue literal (snd c).
Proof.
  unfold txt, literalAt, literalTok, literalValue.
  destruct (startsWith (snd c) literal); reflexivity.
Qed.

Lemma formatNode_hkannoNodeOf (line : str) (n : nat) :
  formatNode (hkannoNodeOf line n) = lineOut line.
Proof.
  unfold hkannoNodeOf, lineOut.
  destruct (startsWith (trimStart line) (lit "#")).
  { unfold commentNodeOf, commentOut. cbn [formatNode Comment.comment].
    rewrite txt_untilAt. reflexivity. }
  destruct (startsWith (toLowerCase (trimStart line)) (lit "trackname:")).
  { unfold trackNameNodeOf, trackNameOut. cbn [formatNode TrackName.name].
    unfold untilAt, textTok, skipSpace, skipLiteral, move. cbn [fst snd].
    destruct (takeWhile (notIn [newline]) _) as [|d ds]; reflexivity. }
  destruct (includes (toLowerCase line) (lit "animrotation")).
  { unfold rotationNodeOf, rotationOut.
    cbn [formatNode Rotation.time Rotation.event Rotation.degrees].
    rewrite !num_numberAt, txt_literalAt. reflexivity. }
  destruct (includes (toLowerCase line) (lit "animmotion")).
  { unfold motionNodeOf, motionOut.
    cbn [formatNode Motion.time Motion.event Motion.x Motion.y Motion.z].
    rewrite !num_numberAt, txt_literalAt. reflexivity. }
  unfold textNodeOf, textOut. cbn [formatNode Text.time Text.text].
  rewrite num_numberAt, txt_untilAt. reflexivity.
Qed.

Lemma formatLines_eq (fuel : nat) (lines : list str) :
  Forall (fun l => length l <= fuel) lines ->
  forall i, formatLines fuel lines i = Ok (map lineOut lines).
Proof.
  intros H. induction H as [|l lines Hl _ IH]; intros i; cbn [formatLines map].
  - reflexivity.
  - rewrite parseHkannoLine_eq by exact Hl. rewrite IH.
    cbn [mapRes]. rewrite formatNode_hkannoNodeOf. reflexivity.
Qed.

Lemma split_nl_nonempty (s : str) : split_nl s <> [].
Proof.
  induction s as [|c s IH]; simpl; [discriminate|].
  destruct (eqc c newline); [discriminate|].
  destruct (split_nl s); discriminate.
Qed.

Lemma split_nl_lengths (s : str) :
  Forall (fun l => length l <= length s) (split_nl s).
Proof.
  induction s as [|c s IH]; simpl.
  - constructor; [simpl; lia | constructor].
  - destruct (eqc c newline).
    + constructor; [simpl; lia|].
      eapply Forall_impl; [|exact IH]. simpl. intros; lia.
    + destruct (split_nl s) as [|l ls]; [constructor; [simpl; lia|constructor]|].
      inversion IH as [|? ? Hl Hls]; subst.
      constructor; [simpl; lia|].
      eapply Forall_impl; [|exact Hls]. simpl. intros; lia.
Qed.

(** What [formatHkannoText] returns. *)
Lemma formatHkannoText_eq (fuel : nat) (text : str) :
  length text <= fuel ->
  formatHkannoText fuel text
  = Ok (join [newline] (map lineOut (split_nl text))).
Proof.
  intros Hf. unfold formatHkannoText. rewrite formatLines_eq; [reflexivity|].
  eapply Forall_impl; [|apply split_nl_lengths].
  simpl. intros l Hl. lia.
Qed.

Lemma split_nl_noNewline (s : str) : noNewline s -> split_nl s = [s].
Proof.
  intros H. induction H as [|c s Hc _ IH]; simpl; [reflexivity|].
  destruct (eqc c newline) eqn:E; [apply eqc_true in E; contradiction|].
  rewrite IH. reflexivity.
Qed.

Lemma split_nl_app (a b : str) :
  noNewline a ->
  split_nl (a ++ newline :: b) = a :: split_nl b.
Proof.
  intros H. induction H as [|c a Hc _ IH]; simpl.
  - reflexivity.
  - destruct (eqc c newline) eqn:E; [apply eqc_true in E; contradiction|].
    rewrite IH. reflexivity.
Qed.

Lemma split_nl_join (ls : list str) :
  ls <> [] -> Forall noNewline ls -> split_nl (join [newline] ls) = ls.
Proof.
  intros Hne H. induction H as [|l ls Hl Hls IH]; [contradiction|].
  destruct ls as [|l' ls].
  - simpl. apply split_nl_noNewline. exact Hl.
  - change (join [newline] (l :: l' :: ls))
      with (l ++ newline :: join [newline] (l' :: ls)).
    rewrite split_nl_app by exact Hl.
    rewrite IH by discriminate. reflexivity.
Qed.

Lemma numberChar_not_newline (c : ascii) :
  isNumberChar c = true -> c <> newline.
Proof. intros H E. subst c. discriminate H. Qed.

Lemma toFixed6_noNewline (x : float) : noNewline (toFixed6 x).
Proof.
  eapply Forall_impl; [|apply toFixed6_chars]. apply numberChar_not_newline.
Qed.

Lemma notIn_newline (c : ascii) : notIn [newline] c = true -> c <> newline.
Proof.
  unfold notIn. simpl. rewrite orb_false_r. intros H E. subst c.
  discriminate H.
Qed.

Lemma takeWhile_noNewline (s : str) :
  noNewline (takeWhile (notIn [newline]) s).
Proof.
  eapply Forall_impl; [|apply takeWhile_all]. apply notIn_newline.
Qed.

Lemma trimStart_Forall (P : ascii -> Prop) (s : str) :
  Forall P s -> Forall P (trimStart s).
Proof.
  intros H. induction H as [|c s Hc Hs IH]; simpl; [constructor|].
  destruct (isSpace c); [exact IH | constructor; assumption].
Qed.

Lemma trim_Forall (P : ascii -> Prop) (s : str) :
  Forall P s -> Forall P (trim s).
Proof.
  intros H. unfold trim, trimEnd.
  apply Forall_rev, trimStart_Forall, Forall_rev, trimStart_Forall. exact H.
Qed.

Lemma join_noNewline (sep : str) (xs : list str) :
  noNewline sep -> Forall noNewline xs -> noNewline (join sep xs).
Proof.
  intros Hs H. induction H as [|x xs Hx Hxs IH]; [constructor|].
  destruct xs as [|y xs]; [exact Hx|].
  change (join sep (x :: y :: xs)) with (x ++ sep ++ join sep (y :: xs)).
  apply Forall_app. split; [exact Hx|].
  apply Forall_app. split; [exact Hs | exact IH].
Qed.

Lemma joinSpace1_noNewline (values : list (option Value)) :
  Forall (fun v => noNewline (formatValue v)) values ->
  noNewline (joinSpace1 values).
Proof.
  intros H. unfold joinSpace1. apply join_noNewline.
  - repeat constructor. discriminate.
  - induction H as [|v vs Hv Hvs IH]; simpl; [constructor|].
    destruct (isDefined v); [constructor; assumption | exact IH].
Qed.

Lemma numberValue_noNewline (s : str) :
  noNewline (formatValue (numberValue s)).
Proof.
  unfold numberValue. destruct (numberText s); [constructor|].
  apply toFixed6_noNewline.
Qed.

Lemma untilValue_noNewline (s : str) :
  noNewline (formatValue (untilValue [newline] s)).
Proof.
  unfold untilValue.
  pose proof (takeWhile_noNewline s) as H.
  destruct (takeWhile (notIn [newline]) s); [constructor | exact H].
Qed.

Lemma literalValue_noNewline (literal s : str) :
  noNewline literal -> noNewline (formatValue (literalValue literal s)).
Proof.
  intros H. unfold literalValue.
  destruct (startsWith s literal); [exact H | constructor].
Qed.

Lemma lit_noNewline (s : str) :
  forallb (fun c => negb (eqc c newline)) s = true -> noNewline s.
Proof.
  intros H. apply Forall_forall. intros c Hc E. subst c.
  rewrite forallb_forall in H. specialize (H _ Hc). discriminate H.
Qed.

(** A formatted line never holds a newline. *)
Lemma lineOut_noNewline (line : str) : noNewline (lineOut line).
Proof.
  unfold lineOut.
  destruct (startsWith (trimStart line) (lit "#")).
  { apply joinSpace1_noNewline. repeat constructor;
      [discriminate | apply untilValue_noNewline]. }
  destruct (startsWith (toLowerCase (trimStart line)) (lit "trackname:")).
  { unfold trackNameOut. apply Forall_app. split.
    - apply lit_noNewline. reflexivity.
    - apply trim_Forall, trim_Forall, takeWhile_noNewline. }
  destruct (includes (toLowerCase line) (lit "animrotation")).
  { apply joinSpace1_noNewline.
    repeat constructor; try apply numberValue_noNewline.
    apply literalValue_noNewline, lit_noNewline. reflexivity. }
  destruct (includes (toLowerCase line) (lit "animmotion")).
  { apply joinSpace1_noNewline.
    repeat constructor; try apply numberValue_noNewline.
    apply literalValue_noNewline, lit_noNewline. reflexivity. }
  apply joinSpace1_noNewline.
  repeat constructor;
    [apply numberValue_noNewline | apply untilValue_noNewline].
Qed.

Lemma map_lineOut_noNewline (lines : list str) :
  Forall noNewline (map lineOut lines).
Proof.
  induction lines; simpl; constructor;
    [apply lineOut_noNewline | assumption].
Qed.

Lemma split_nl_formatted (text : str) :
  split_nl (join [newline] (map lineOut (split_nl text)))
  = map lineOut (split_nl text).
Proof.
  apply split_nl_join; [|apply map_lineOut_noNewline].
  pose proof (split_nl_nonempty text) as H.
  destruct (split_nl text); [contradiction | discriminate].
Qed.

(** C8. For every text, [formatHkannoText] returns a text (with an
    iteration budget of the text length or more for the loops of the
    parser), and the text returned has as many newline-separated lines as
    the input: its lines are the formatted lines of the input, one for
    one. *)
Theorem format_preserves_line_count (fuel : nat) (text : str) :
  length text <= fuel ->
  exists out,
    formatHkannoText fuel text = Ok out /\
    length (split_nl out) = length (split_nl text) /\
    split_nl out = map lineOut (split_nl text).
Proof.
  intros Hf. exists (join [newline] (map lineOut (split_nl text))).
  split; [apply formatHkannoText_eq; exact Hf|].
  rewrite split_nl_formatted, length_map. split; reflexivity.
Qed.

Lemma format_preserves_line_count_witness :
  length (lit " 1.0   animmotion 1 2 3 ") + 1
  + length (lit "TRACKNAME: x") <= 40 /\
  exists out,
    formatHkannoText 40
      (lit " 1.0   animmotion 1 2 3 " ++ newline :: lit "TRACKNAME: x")
    = Ok out /\
    length (split_nl out) = 2 /\
    split_nl out
    = [lit "1.000000 animmotion 1.000000 2.000000 3.000000";
       lit "trackName: TRACKNAME: x"].
Proof.
  split; [simpl; lia|].
  apply (format_preserves_line_count 40
           (lit " 1.0   animmotion 1 2 3 " ++ newline :: lit "TRACKNAME: x")).
  simpl. lia.
Defined.

(* ================================================================== *)
(** * Digits and their value *)

Lemma digitVal_digitChar (d : Z) :
  (0 <= d < 10)%Z -> digitVal (digitChar d) = d.
Proof.
  intros H.
  assert (E : (d = 0 \/ d = 1 \/ d = 2 \/ d = 3 \/ d = 4 \/ d = 5 \/ d = 6 \/
               d = 7 \/ d = 8 \/ d = 9)%Z) by lia.
  repeat (destruct E as [->|E]; [reflexivity|]). subst d. reflexivity.
Qed.

Lemma digitsVal_app (a b : str) (acc : Z) :
  digitsVal acc (a ++ b) = digitsVal (digitsVal acc a) b.
Proof.
  revert acc. induction a as [|c a IH]; intros acc; simpl;
    [reflexivity | apply IH].
Qed.

Lemma digitsVal_acc (ds : str) (acc : Z) :
  (digitsVal acc ds = acc * 10 ^ Z.of_nat (length ds) + digitsVal 0 ds)%Z.
Proof.
  revert acc. induction ds as [|c ds IH]; intros acc.
  - simpl. lia.
  - cbn [digitsVal length]. rewrite IH, (IH (10 * 0 + digitVal c)%Z).
    rewrite Nat2Z.inj_succ, Z.pow_succ_r by lia. lia.
Qed.

Lemma digitsOfAux_val (fuel : nat) :
  forall (n : Z) (acc : str),
    (0 <= n < 10 ^ Z.of_nat (S fuel))%Z ->
    (digitsVal 0 (digitsOfAux fuel n acc)
     = n * 10 ^ Z.of_nat (length acc) + digitsVal 0 acc)%Z.
Proof.
  induction fuel as [|fuel IH]; intros n acc Hn; cbn [digitsOfAux].
  - change (10 ^ Z.of_nat 1)%Z with 10%Z in Hn.
    cbn [digitsVal]. rewrite digitsVal_acc.
    rewrite digitVal_digitChar by (apply Z.mod_pos_bound; lia).
    rewrite Z.mod_small by lia. lia.
  - assert (Hd : (digitsVal 0 (digitChar (n mod 10) :: acc)
                  = n mod 10 * 10 ^ Z.of_nat (length acc) + digitsVal 0 acc)%Z).
    { cbn [digitsVal]. rewrite digitsVal_acc.
      rewrite digitVal_digitChar by (apply Z.mod_pos_bound; lia). lia. }
    destruct (n / 10 =? 0)%Z eqn:E.
    + apply Z.eqb_eq in E. rewrite Hd.
      rewrite (Z.div_mod n 10) at 2 by lia. rewrite E. lia.
    + rewrite IH.
      * rewrite Hd. cbn [length]. rewrite Nat2Z.inj_succ, Z.pow_succ_r by lia.
        rewrite (Z.div_mod n 10) at 3 by lia. lia.
      * split; [apply Z.div_pos; lia|].
        apply Z.div_lt_upper_bound; [lia|].
        rewrite <- Z.pow_succ_r by lia. rewrite <- Nat2Z.inj_succ. apply Hn.
Qed.

Lemma pow2_le_pow10 (k : Z) : (0 <= k -> 2 ^ k <= 10 ^ k)%Z.
Proof. intros H. apply Z.pow_le_mono_l. lia. Qed.

(** [digitsOf] writes the number. *)
Lemma digitsOf_val (n : Z) : (0 <= n)%Z -> digitsVal 0 (digitsOf n) = n.
Proof.
  intros Hn. unfold digitsOf. rewrite digitsOfAux_val.
  - simpl. lia.
  - split; [exact Hn|].
    destruct (Z.eq_dec n 0) as [->|Hz].
    + simpl. lia.
    + assert (Hp : (0 < n)%Z) by lia.
      pose proof (Z.log2_spec n Hp) as [_ Hu].
      rewrite Nat2Z.inj_succ, Z2Nat.id by apply Z.log2_nonneg.
      eapply Z.lt_le_trans; [exact Hu|].
      apply pow2_le_pow10. pose proof (Z.log2_nonneg n). lia.
Qed.

Lemma stripZeros_nil_val (r : str) :
  stripZeros r = [] -> digitsVal 0 (rev r) = 0%Z.
Proof.
  induction r as [|c r IH]; simpl; [reflexivity|].
  destruct (eqc c "0") eqn:E; [|discriminate].
  apply eqc_true in E. subst c. intros H.
  rewrite digitsVal_app, (IH H). reflexivity.
Qed.

Lemma stripZerosEnd_nonempty (n : Z) :
  (0 < n)%Z -> stripZerosEnd (digitsOf n) <> [].
Proof.
  intros Hn H. unfold stripZerosEnd in H.
  assert (Hs : stripZeros (rev (digitsOf n)) = []).
  { destruct (stripZeros (rev (digitsOf n))); [reflexivity|].
    simpl in H. apply app_eq_nil in H. destruct H as [_ H]. discriminate H. }
  apply stripZeros_nil_val in Hs. rewrite rev_involutive in Hs.
  rewrite digitsOf_val in Hs by lia. lia.
Qed.

Lemma sciNotation_head (ds : str) (n : Z) :
  ds <> [] -> Forall (fun c => isDigit c = true) ds ->
  exists d r, sciNotation ds n = d :: r /\ isDigit d = true.
Proof.
  intros Hne H. destruct H as [|d ds Hd _]; [contradiction|].
  destruct ds as [|d' ds]; cbn [sciNotation]; eexists; eexists;
    (split; [reflexivity | exact Hd]).
Qed.

Lemma candidate_head (x : float) (t : nat) (s : Z) (txt : str) :
  candidate x t s = Some txt ->
  exists d r, txt = d :: r /\ isDigit d = true.
Proof.
  unfold candidate.
  destruct (stripZerosEnd (digitsOf s)) as [|d ds] eqn:E.
  - cbn [sciNotation]. discriminate.
  - destruct (sameFloat _ x); [|discriminate].
    intros H. apply Some_eq in H. subst txt.
    apply sciNotation_head; [discriminate|].
    rewrite <- E. apply stripZerosEnd_digits, digitsOf_digits.
Qed.

Lemma shortest_head (x : float) (X : Z) (d : nat) :
  (0 < X)%Z ->
  forall fuel k,
  exists c r, shortest fuel k x X d = c :: r /\ isDigit c = true.
Proof.
  intros HX.
  induction fuel as [|fuel IH]; intros k; cbn [shortest];
    repeat (match goal with
            | |- context [candidate ?a ?b ?c] =>
                let E := fresh "E" in
                destruct (candidate a b c) as [txt|] eqn:E
            end;
            try (eapply candidate_head; eassumption)).
  - apply sciNotation_head.
    + apply stripZerosEnd_nonempty. exact HX.
    + apply stripZerosEnd_digits, digitsOf_digits.
  - apply IH.
Qed.

Lemma toFixed6_head (x : float) :
  exists c r, toFixed6 x = c :: r /\ isNumberHead c = true.
Proof.
  destruct x as [s|[|]| |s m e]; cbn [toFixed6];
    try (eexists; eexists; split; reflexivity).
  destruct s; [eexists; eexists; split; reflexivity|].
  destruct (_ && _) eqn:Hb.
  - apply andb_true_iff in Hb. destruct Hb as [He _]. apply Z.leb_le in He.
    assert (HX : (0 < Zpos m * 2 ^ e)%Z)
      by (apply Z.mul_pos_pos; [lia | apply Z.pow_pos_nonneg; lia]).
    destruct (shortest_head (S754_finite false m e) (Zpos m * 2 ^ e)
                (length (digitsOf (Zpos m * 2 ^ e))) HX
                (length (digitsOf (Zpos m * 2 ^ e))) 1) as (c & r & E & Hc).
    exists c, r. split; [exact E|]. unfold isNumberHead. rewrite Hc.
    reflexivity.
  - destruct (fixed6_head (scaled6 (Zpos m) e)) as (d & r & E & Hd).
    exists d, r. split; [exact E|]. unfold isNumberHead. rewrite Hd.
    reflexivity.
Qed.

Lemma toFixed6_nonempty (x : float) : toFixed6 x <> [].
Proof.
  destruct (toFixed6_head x) as (c & r & E & _). rewrite E. discriminate.
Qed.

(* ================================================================== *)
(** * Spaces in the formatted line *)

Lemma includes_doubleSpace (s : str) :
  includes s (lit "  ") = doubleSpace s.
Proof.
  induction s as [|a s IH]; [reflexivity|].
  cbn [includes]. rewrite IH. destruct s as [|b s].
  - simpl. rewrite andb_false_r. reflexivity.
  - cbn [doubleSpace]. f_equal. simpl. rewrite andb_true_r. reflexivity.
Qed.

Lemma doubleSpace_cons (a b : ascii) (r : str) :
  doubleSpace (a :: b :: r)
  = (eqc a space && eqc b space) || doubleSpace (b :: r).
Proof. reflexivity. Qed.

Lemma not_space (a : ascii) : a <> space -> eqc a space = false.
Proof.
  intros H. destruct (eqc a space) eqn:E; [|reflexivity].
  apply eqc_true in E. contradiction.
Qed.

Lemma doubleSpace_tight_sep (v rest : str) :
  tight v ->
  doubleSpace (v ++ space :: rest)
  = match rest with
    | c :: _ => eqc c space || doubleSpace rest
    | [] => false
    end.
Proof.
  intros [Hne Hv]. induction Hv as [|a v Ha Hv IH]; [contradiction|].
  destruct v as [|b v].
  - change ([a] ++ space :: rest) with (a :: space :: rest).
    rewrite doubleSpace_cons, (not_space a Ha). cbn [andb orb].
    destruct rest as [|c rest]; [reflexivity|].
    rewrite doubleSpace_cons, eqc_refl. reflexivity.
  - change ((a :: b :: v) ++ space :: rest)
      with (a :: b :: (v ++ space :: rest)).
    rewrite doubleSpace_cons, (not_space a Ha). cbn [andb orb].
    change (b :: v ++ space :: rest) with ((b :: v) ++ space :: rest).
    apply IH. discriminate.
Qed.

Lemma doubleSpace_tight (v : str) : tight v -> doubleSpace v = false.
Proof.
  intros [_ Hv]. induction Hv as [|a v Ha Hv IH]; [reflexivity|].
  destruct v as [|b v]; [reflexivity|].
  rewrite doubleSpace_cons, IH, (not_space a Ha). reflexivity.
Qed.

Lemma tight_cleanHead (v : str) : tight v -> cleanHead v.
Proof.
  intros [Hne Hv]. destruct Hv as [|a v Ha _]; [contradiction | exact Ha].
Qed.

Lemma cleanHead_app (v rest : str) : cleanHead v -> cleanHead (v ++ rest).
Proof. destruct v; [contradiction | intros H; exact H]. Qed.

Lemma join_tight (vs : list str) :
  Forall tight vs ->
  doubleSpace (join [space] vs) = false /\
  (vs <> [] -> cleanHead (join [space] vs)).
Proof.
  intros H. induction H as [|v vs Hv Hvs [IH1 IH2]]; [split; [reflexivity | contradiction]|].
  destruct vs as [|w vs].
  - cbn [join]. split; [apply doubleSpace_tight; exact Hv|].
    intros _. apply tight_cleanHead. exact Hv.
  - change (join [space] (v :: w :: vs))
      with (v ++ space :: join [space] (w :: vs)).
    split.
    + rewrite doubleSpace_tight_sep by exact Hv.
      specialize (IH2 ltac:(discriminate)).
      destruct (join [space] (w :: vs)) as [|c r]; [reflexivity|].
      rewrite IH1, orb_false_r.
      destruct (eqc c space) eqn:E; [|reflexivity].
      apply eqc_true in E. contradiction.
    + intros _. apply cleanHead_app, tight_cleanHead. exact Hv.
Qed.

Lemma join_tight_then (vs : list str) (t : str) :
  Forall tight vs -> cleanHead t ->
  doubleSpace (join [space] (vs ++ [t])) = doubleSpace t /\
  cleanHead (join [space] (vs ++ [t])).
Proof.
  intros H Ht. induction H as [|v vs Hv Hvs [IH1 IH2]].
  - cbn [app join]. split; [reflexivity | exact Ht].
  - assert (E : exists w ws, vs ++ [t] = w :: ws).
    { destruct vs; eexists; eexists; reflexivity. }
    destruct E as (w & ws & E). cbn [app]. rewrite E in *.
    change (join [space] (v :: w :: ws))
      with (v ++ space :: join [space] (w :: ws)).
    split.
    + rewrite doubleSpace_tight_sep by exact Hv.
      destruct (join [space] (w :: ws)) as [|c r]; [contradiction|].
      rewrite IH1.
      destruct (eqc c space) eqn:Ec; [|reflexivity].
      apply eqc_true in Ec. contradiction.
    + apply cleanHead_app, tight_cleanHead. exact Hv.
Qed.

Lemma numberChar_not_space (c : ascii) :
  isNumberChar c = true -> c <> space.
Proof. intros H E. subst c. discriminate H. Qed.

Lemma toFixed6_tight (x : float) : tight (toFixed6 x).
Proof.
  split; [apply toFixed6_nonempty|].
  eapply Forall_impl; [|apply toFixed6_chars]. apply numberChar_not_space.
Qed.

Lemma lit_tight (s : str) :
  s <> [] -> forallb (fun c => negb (eqc c space)) s = true -> tight s.
Proof.
  intros Hne H. split; [exact Hne|].
  apply Forall_forall. intros c Hc E. subst c.
  rewrite forallb_forall in H. specialize (H _ Hc). discriminate H.
Qed.

Lemma rendered_cons_none (values : list (option Value)) :
  rendered (None :: values) = rendered values.
Proof. reflexivity. Qed.

Lemma rendered_cons_some (v : Value) (values : list (option Value)) :
  rendered (Some v :: values) = formatValue (Some v) :: rendered values.
Proof. reflexivity. Qed.

Lemma rendered_tight (values : list (option Value)) :
  Forall (fun v => tight (formatValue v) \/ v = None) values ->
  Forall tight (rendered values).
Proof.
  intros H. induction H as [|v vs Hv Hvs IH]; [constructor|].
  destruct v as [v|].
  - rewrite rendered_cons_some. constructor; [|exact IH].
    destruct Hv as [Hv|Hv]; [exact Hv | discriminate].
  - rewrite rendered_cons_none. exact IH.
Qed.

Lemma rendered_app (a b : list (option Value)) :
  rendered (a ++ b) = rendered a ++ rendered b.
Proof. unfold rendered. rewrite filter_app, map_app. reflexivity. Qed.

Lemma numberValue_tight (s : str) :
  tight (formatValue (numberValue s)) \/ numberValue s = None.
Proof.
  unfold numberValue. destruct (numberText s); [right; reflexivity|].
  left. apply toFixed6_tight.
Qed.

Lemma literalValue_tight (literal s : str) :
  tight literal ->
  tight (formatValue (literalValue literal s)) \/ literalValue literal s = None.
Proof.
  intros H. unfold literalValue.
  destruct (startsWith s literal); [left; exact H | right; reflexivity].
Qed.

Lemma dropWhile_cleanHead (s : str) :
  dropWhile isSpace s <> [] -> cleanHead (dropWhile isSpace s).
Proof.
  destruct (dropWhile isSpace s) as [|c r] eqn:E; [contradiction|].
  intros _ Hc. apply dropWhile_head in E. subst c. discriminate E.
Qed.

Lemma takeWhile_cleanHead (p : ascii -> bool) (s : str) :
  cleanHead s -> takeWhile p s <> [] -> cleanHead (takeWhile p s).
Proof.
  destruct s as [|c s]; [contradiction|]. simpl.
  destruct (p c); [intros H _; exact H | contradiction].
Qed.

(** The text of a comment or text line does not begin with a space. *)
Lemma untilValue_cleanHead (s : str) (t : str) :
  untilValue [newline] (dropWhile isSpace s) = Some (VString t) ->
  cleanHead t.
Proof.
  unfold untilValue.
  destruct (takeWhile (notIn [newline]) (dropWhile isSpace s)) as [|c r] eqn:E;
    [discriminate|].
  intros H. apply Some_eq in H. injection H as <-. rewrite <- E.
  apply takeWhile_cleanHead; [|rewrite E; discriminate].
  apply dropWhile_cleanHead. intros Hn. rewrite Hn in E. discriminate E.
Qed.

Lemma joinSpace1_text (values : list (option Value)) (s : str) :
  Forall (fun v => tight (formatValue v) \/ v = None) values ->
  doubleSpace
    (joinSpace1 (values ++ [untilValue [newline] (dropWhile isSpace s)]))
  = match untilValue [newline] (dropWhile isSpace s) with
    | Some (VString t) => doubleSpace t
    | _ => false
    end.
Proof.
  intros H. apply rendered_tight in H. unfold joinSpace1.
  fold (rendered (values ++ [untilValue [newline] (dropWhile isSpace s)])).
  rewrite rendered_app.
  destruct (untilValue [newline] (dropWhile isSpace s)) as [[t|x]|] eqn:E.
  - apply untilValue_cleanHead in E.
    cbn [rendered filter isDefined map formatValue].
    apply join_tight_then; assumption.
  - unfold untilValue in E.
    destruct (takeWhile _ _); discriminate.
  - cbn [rendered filter isDefined map]. rewrite app_nil_r.
    apply join_tight. exact H.
Qed.

Lemma joinSpace1_numbers (values : list (option Value)) :
  Forall (fun v => tight (formatValue v) \/ v = None) values ->
  doubleSpace (joinSpace1 values) = false.
Proof.
  intros H. apply rendered_tight in H. apply join_tight. exact H.
Qed.

(* ------------------------------------------------------------------ *)
(** ** Trimming *)

Lemma trimStart_dropWhile (s : str) : trimStart s = dropWhile isSpace s.
Proof.
  induction s as [|c s IH]; simpl; [reflexivity|].
  destruct (isSpace c); [exact IH | reflexivity].
Qed.

Lemma dropWhile_app_stop (p : ascii -> bool) (a rest : str) (c : ascii) :
  p c = false ->
  dropWhile p (a ++ c :: rest) = dropWhile p a ++ c :: rest.
Proof.
  intros Hc. induction a as [|x a IH]; simpl.
  - rewrite Hc. reflexivity.
  - destruct (p x); [exact IH | reflexivity].
Qed.

Lemma takeWhile_app_stop (p : ascii -> bool) (a rest : str) (c : ascii) :
  p c = false ->
  takeWhile p (a ++ c :: rest) = takeWhile p a.
Proof.
  intros Hc. induction a as [|x a IH]; simpl.
  - rewrite Hc. reflexivity.
  - destruct (p x); [rewrite IH|]; reflexivity.
Qed.

Lemma trimEnd_head (c : ascii) (s : str) :
  isSpace c = false -> exists r, trimEnd (c :: s) = c :: r.
Proof.
  intros Hc. unfold trimEnd. rewrite trimStart_dropWhile. cbn [rev].
  rewrite (dropWhile_app_stop isSpace (rev s) [] c Hc), rev_app_distr.
  eexists. reflexivity.
Qed.

Lemma trim_trimmed (s : str) : trimmed (trim s).
Proof.
  unfold trimmed, trim. split.
  - rewrite trimStart_dropWhile.
    destruct (dropWhile isSpace s) as [|c r] eqn:E; [reflexivity|].
    pose proof (dropWhile_head _ _ E) as Hc.
    destruct (trimEnd_head c r Hc) as (r' & Hr). rewrite Hr.
    simpl. rewrite Hc. reflexivity.
  - unfold trimEnd. rewrite rev_involutive, trimStart_dropWhile.
    apply dropWhile_idem.
Qed.

Lemma trim_of_trimmed (s : str) : trimmed s -> trim s = s.
Proof.
  intros [H1 H2]. unfold trim, trimEnd. rewrite !trimStart_dropWhile.
  rewrite H1, H2. apply rev_involutive.
Qed.

Lemma trim_idem (s : str) : trim (trim s) = trim s.
Proof. apply trim_of_trimmed, trim_trimmed. Qed.

Lemma trimmed_cleanHead (s : str) : trimmed s -> s <> [] -> cleanHead s.
Proof.
  intros [H _] Hne. rewrite <- H. apply dropWhile_cleanHead.
  rewrite H. exact Hne.
Qed.

(* ------------------------------------------------------------------ *)

Lemma valueOf_untilAt (n : nat) (stop : str) (c : Cursor) :
  valueOf (untilAt n stop c)
  = match takeWhile (notIn stop) (snd c) with
    | [] => None
    | t => Some t
    end.
Proof.
  unfold untilAt, textTok. destruct (takeWhile (notIn stop) (snd c));
    reflexivity.
Qed.

Ltac tight_values :=
  repeat (apply Forall_cons;
          [ first [ apply numberValue_tight
                  | apply literalValue_tight, lit_tight;
                    [discriminate | reflexivity] ] | ]);
  apply Forall_nil.

Lemma valueOf_trimField_untilAt (n : nat) (stop : str) (c : Cursor) :
  valueOf (trimField (untilAt n stop c))
  = match takeWhile (notIn stop) (snd c) with
    | [] => None
    | t => Some (trim t)
    end.
Proof.
  unfold untilAt, textTok. destruct (takeWhile (notIn stop) (snd c));
    reflexivity.
Qed.

(** The formatted line has a double space only inside the free text of
    the node. *)
Lemma lineOut_doubleSpace (line : str) (n : nat) :
  doubleSpace (lineOut line) = true ->
  doubleSpace (freeText (hkannoNodeOf line n)) = true.
Proof.
  unfold lineOut, hkannoNodeOf.
  destruct (startsWith (trimStart line) (lit "#")).
  { unfold commentOut, commentNodeOf. cbn [freeText Comment.comment].
    rewrite valueOf_untilAt.
    change (joinSpace1 [Some (VString (lit "#")); ?v])
      with (joinSpace1 ([Some (VString (lit "#"))] ++ [v])).
    rewrite joinSpace1_text.
    - unfold untilValue, skipSpace, skipLiteral, move. cbn [fst snd].
      destruct (takeWhile (notIn [newline]) _); intros H; exact H.
    - apply Forall_cons; [|apply Forall_nil]. left. apply lit_tight;
        [discriminate | reflexivity]. }
  destruct (startsWith (toLowerCase (trimStart line)) (lit "trackname:")).
  { unfold trackNameOut, trackNameNodeOf. cbn [freeText TrackName.name].
    rewrite valueOf_trimField_untilAt.
    unfold skipSpace, skipLiteral, move. cbn [fst snd].
    set (t := takeWhile (notIn [newline]) _).
    change (lit "trackName: " ++ trim (trim t))
      with (lit "trackName:" ++ space :: trim (trim t)).
    rewrite doubleSpace_tight_sep
      by (apply lit_tight; [discriminate | reflexivity]).
    rewrite trim_idem.
    destruct (trim t) as [|c r] eqn:E.
    - discriminate.
    - pose proof (trimmed_cleanHead _ (trim_trimmed t)) as Hc.
      rewrite E in Hc. specialize (Hc ltac:(discriminate)).
      rewrite (not_space c Hc). cbn [orb].
      destruct t as [|d t]; [discriminate E|]. rewrite E.
      intros H. exact H. }
  destruct (includes (toLowerCase line) (lit "animrotation")).
  { unfold rotationOut. rewrite joinSpace1_numbers; [discriminate|].
    tight_values. }
  destruct (includes (toLowerCase line) (lit "animmotion")).
  { unfold motionOut. rewrite joinSpace1_numbers; [discriminate|].
    tight_values. }
  unfold textOut, textNodeOf. cbn [freeText Text.text].
  rewrite valueOf_untilAt.
  change (joinSpace1 [?a; ?v]) with (joinSpace1 ([a] ++ [v])).
  unfold afterNumber. rewrite joinSpace1_text.
  - unfold untilValue, skipSpace, skipNumber, move. cbn [fst snd].
    destruct (takeWhile (notIn [newline]) _); intros H; exact H.
  - tight_values.
Qed.

Lemma rendered_cleanHead (values : list (option Value)) :
  Forall (fun v => cleanHead (formatValue v) \/ v = None) values ->
  Forall cleanHead (rendered values).
Proof.
  intros H. induction H as [|v vs Hv Hvs IH]; [constructor|].
  destruct v as [v|].
  - rewrite rendered_cons_some. constructor; [|exact IH].
    destruct Hv as [Hv|Hv]; [exact Hv | discriminate].
  - rewrite rendered_cons_none. exact IH.
Qed.

Lemma numberValue_clean (s : str) :
  cleanHead (formatValue (numberValue s)) \/ numberValue s = None.
Proof.
  destruct (numberValue_tight s) as [H|H]; [left | right; exact H].
  apply tight_cleanHead. exact H.
Qed.

Lemma literalValue_clean (literal s : str) :
  tight literal ->
  cleanHead (formatValue (literalValue literal s)) \/
  literalValue literal s = None.
Proof.
  intros Hl. destruct (literalValue_tight literal s Hl) as [H|H];
    [left | right; exact H].
  apply tight_cleanHead. exact H.
Qed.

Lemma untilValue_clean (s : str) :
  cleanHead (formatValue (untilValue [newline] (dropWhile isSpace s))) \/
  untilValue [newline] (dropWhile isSpace s) = None.
Proof.
  destruct (untilValue [newline] (dropWhile isSpace s)) as [[t|x]|] eqn:E.
  - left. apply (untilValue_cleanHead s). exact E.
  - exfalso. unfold untilValue in E.
    destruct (takeWhile (notIn [newline]) (dropWhile isSpace s));
      discriminate E.
  - right. reflexivity.
Qed.

(** No value the formatter joins for a parsed line is empty or begins
    with a space. *)
Lemma presentValues_clean (line : str) (n : nat) :
  Forall cleanHead (presentValues (hkannoNodeOf line n)).
Proof.
  unfold presentValues, hkannoNodeOf.
  destruct (startsWith (trimStart line) (lit "#")).
  { apply rendered_cleanHead. unfold commentNodeOf.
    cbn [fieldValues Comment.comment]. rewrite txt_untilAt.
    apply Forall_cons; [left; intros E; discriminate E|].
    apply Forall_cons; [|apply Forall_nil].
    unfold skipSpace, move. cbn [fst snd]. apply untilValue_clean. }
  destruct (startsWith (toLowerCase (trimStart line)) (lit "trackname:")).
  { constructor. }
  destruct (includes (toLowerCase line) (lit "animrotation")).
  { apply rendered_cleanHead. unfold rotationNodeOf.
    cbn [fieldValues Rotation.time Rotation.event Rotation.degrees].
    rewrite !num_numberAt, txt_literalAt.
    repeat (apply Forall_cons;
            [ first [ apply numberValue_clean
                    | apply literalValue_clean, lit_tight;
                      [discriminate | reflexivity] ] | ]).
    apply Forall_nil. }
  destruct (includes (toLowerCase line) (lit "animmotion")).
  { apply rendered_cleanHead. unfold motionNodeOf.
    cbn [fieldValues Motion.time Motion.event Motion.x Motion.y Motion.z].
    rewrite !num_numberAt, txt_literalAt.
    repeat (apply Forall_cons;
            [ first [ apply numberValue_clean
                    | apply literalValue_clean, lit_tight;
                      [discriminate | reflexivity] ] | ]).
    apply Forall_nil. }
  apply rendered_cleanHead. unfold textNodeOf.
  cbn [fieldValues Text.time Text.text].
  rewrite num_numberAt, txt_untilAt.
  apply Forall_cons; [apply numberValue_clean|].
  apply Forall_cons; [|apply Forall_nil].
  unfold skipSpace, move. cbn [fst snd]. apply untilValue_clean.
Qed.

(** The name a track-name line is written with is the name of the node:
    trimming it again changes nothing. *)
Lemma trackName_written (line : str) (n : nat) :
  formatNode (NTrackName (trackNameNodeOf line n))
  = lit "trackName: " ++ freeText (NTrackName (trackNameNodeOf line n)).
Proof.
  unfold trackNameNodeOf. cbn [formatNode freeText TrackName.name].
  rewrite valueOf_trimField_untilAt.
  destruct (takeWhile (notIn [newline]) _) as [|d ds]; [reflexivity|].
  rewrite trim_idem. reflexivity.
Qed.

(** C10, as the code has it.  For a parsed line of kind rotation, motion,
    text or comment the formatter writes the values that are present (for
    a comment the sign [#] and the text of the comment) with one space
    between two of them, so that an absent field contributes neither text
    nor separator; none of the values written is empty or begins with a
    space.  A track-name line is not written this way: it is always the
    text [trackName: ], with its space, followed by the name of the node,
    whether or not the literal and the name were read.  The formatted line
    has two consecutive spaces only where the free text kept verbatim (the
    comment, the text or the track name) has them, and lines of kind
    rotation and motion never have them. *)
Theorem formatter_joins_present_values (fuel : nat) (line : str) (n : nat)
    (node : HkannoNode) :
  length line <= fuel ->
  parseHkannoLine fuel line n = Ok node ->
  (kind node <> lit "trackName" ->
   formatNode node = join [space] (presentValues node) /\
   Forall cleanHead (presentValues node)) /\
  (kind node = lit "trackName" ->
   formatNode node = lit "trackName: " ++ freeText node) /\
  (includes (formatNode node) (lit "  ") = true ->
   includes (freeText node) (lit "  ") = true) /\
  (kind node = lit "rotation" \/ kind node = lit "motion" ->
   includes (formatNode node) (lit "  ") = false).
Proof.
  intros Hf Hp. rewrite parseHkannoLine_eq in Hp by exact Hf.
  apply Ok_eq in Hp. subst node.
  assert (H : includes (formatNode (hkannoNodeOf line n)) (lit "  ") = true ->
              includes (freeText (hkannoNodeOf line n)) (lit "  ") = true).
  { rewrite !includes_doubleSpace, formatNode_hkannoNodeOf.
    apply lineOut_doubleSpace. }
  split; [|split; [|split; [exact H|]]].
  - intros Hk. split; [|apply presentValues_clean].
    destruct (hkannoNodeOf line n); try reflexivity.
    contradiction Hk. reflexivity.
  - unfold hkannoNodeOf.
    destruct (startsWith (trimStart line) (lit "#"));
      [intros Hk; discriminate Hk|].
    destruct (startsWith (toLowerCase (trimStart line)) (lit "trackname:"));
      [intros _; apply trackName_written|].
    destruct (includes (toLowerCase line) (lit "animrotation"));
      [intros Hk; discriminate Hk|].
    destruct (includes (toLowerCase line) (lit "animmotion"));
      intros Hk; discriminate Hk.
  - intros Hk.
    destruct (includes (formatNode (hkannoNodeOf line n)) (lit "  ")) eqn:E;
      [|reflexivity].
    specialize (H eq_refl).
    destruct (hkannoNodeOf line n); cbn [freeText kind] in *;
      try discriminate H; destruct Hk as [Hk|Hk]; discriminate Hk.
Qed.

Lemma formatter_joins_present_values_witness :
  exists node,
    length (lit "0.5    animrotation   ") <= 25 /\
    parseHkannoLine 25 (lit "0.5    animrotation   ") 1 = Ok node /\
    presentValues node = [lit "0.500000"; lit "animrotation"] /\
    formatNode node = lit "0.500000 animrotation" /\
    formatNode node = join [space] (presentValues node) /\
    includes (formatNode node) (lit "  ") = false.
Proof.
  eexists. split; [simpl; lia|].
  split; [vm_compute; reflexivity|].
  split; [vm_compute; reflexivity|].
  split; [vm_compute; reflexivity|].
  destruct (formatter_joins_present_values 25
              (lit "0.5    animrotation   ") 1 _
              ltac:(simpl; lia) ltac:(vm_compute; reflexivity))
    as (H1 & _ & _ & H4).
  split.
  - apply H1. discriminate.
  - apply H4. left. reflexivity.
Defined.

(** C10 as stated fails: a comment is written verbatim, with the
    consecutive spaces it has, and a track-name line without a name is
    written with the separator space at its end. *)
Lemma comment_keeps_double_space :
  parseHkannoLine 6 (lit "# a  b") 1 = Ok (hkannoNodeOf (lit "# a  b") 1) /\
  formatNode (hkannoNodeOf (lit "# a  b") 1) = lit "# a  b" /\
  formatHkannoText 10 (lit "trackName:") = Ok (lit "trackName: ") /\
  ~ neverDoubleSpace.
Proof.
  split; [vm_compute; reflexivity|].
  split; [vm_compute; reflexivity|].
  split; [vm_compute; reflexivity|].
  intros H.
  specialize (H 6 (lit "# a  b") 1 (hkannoNodeOf (lit "# a  b") 1)
                (Nat.le_refl 6)).
  assert (Hp : parseHkannoLine 6 (lit "# a  b") 1
               = Ok (hkannoNodeOf (lit "# a  b") 1))
    by (vm_compute; reflexivity).
  specialize (H Hp). vm_compute in H. discriminate H.
Qed.

(* ================================================================== *)
(** * Reading back a formatted line *)

Lemma stableNumber_text (x : float) :
  stableNumber x = true -> stableText (toFixed6 x).
Proof.
  unfold stableNumber. cbv zeta. rewrite andb_true_iff, !eqs_true.
  intros [H1 H2]. split; [exact H1|]. split; [exact H2|].
  split; [apply toFixed6_chars | apply toFixed6_head].
Qed.

Lemma signText_app_stop (a rest : str) (c : ascii) :
  isSign c = false -> signText (a ++ c :: rest) = signText a.
Proof.
  intros Hc. destruct a as [|x a]; simpl; [rewrite Hc|]; reflexivity.
Qed.

Lemma signText_length (a : str) : length (signText a) <= length a.
Proof.
  destruct a as [|x a]; simpl; [lia|]. destruct (isSign x); simpl; lia.
Qed.

Lemma skipn_app_le {A : Type} (k : nat) (a b : list A) :
  k <= length a -> skipn k (a ++ b) = skipn k a ++ b.
Proof.
  intros H. rewrite skipn_app. replace (k - length a) with 0 by lia.
  reflexivity.
Qed.

Lemma expText_app_stop (a rest : str) (c : ascii) :
  endsNumber c = true ->
  expText (a ++ c :: rest) = expText a /\
  expRest (a ++ c :: rest) = expRest a ++ c :: rest.
Proof.
  unfold endsNumber. rewrite !andb_true_iff, !negb_true_iff.
  intros [[Hs Hd] He].
  assert (Hg : isDigit c = false).
  { unfold isDigitOrDot in Hd. apply orb_false_iff in Hd. apply Hd. }
  destruct a as [|x a].
  - simpl. rewrite He. split; reflexivity.
  - cbn [app expText expRest]. destruct (isExpMark x); [|split; reflexivity].
    rewrite (signText_app_stop a rest c Hs).
    rewrite (skipn_app_le _ a (c :: rest) (signText_length a)).
    rewrite takeWhile_app_stop, dropWhile_app_stop by exact Hg.
    split; reflexivity.
Qed.

(** A numeral is read the same when a character that ends it follows. *)
Lemma numberText_app_stop (a rest : str) (c : ascii) :
  endsNumber c = true ->
  numberText (a ++ c :: rest) = numberText a /\
  numberRest (a ++ c :: rest) = numberRest a ++ c :: rest.
Proof.
  intros Hc. pose proof Hc as Hc'. unfold endsNumber in Hc'.
  rewrite !andb_true_iff, !negb_true_iff in Hc'.
  destruct Hc' as [[Hs Hd] He].
  unfold numberText, numberRest.
  rewrite (signText_app_stop a rest c Hs).
  rewrite (skipn_app_le _ a (c :: rest) (signText_length a)).
  rewrite takeWhile_app_stop, dropWhile_app_stop by exact Hd.
  destruct (expText_app_stop
              (dropWhile isDigitOrDot (skipn (length (signText a)) a))
              rest c Hc) as [E1 E2].
  rewrite E1, E2. split; reflexivity.
Qed.

Lemma numberRest_of_whole (r : str) : numberText r = r -> numberRest r = [].
Proof.
  intros H. pose proof (numberText_split r) as E. rewrite H in E.
  apply (f_equal (@length ascii)) in E. rewrite length_app in E.
  apply length_zero_iff_nil. lia.
Qed.

Lemma stableText_nonempty (r : str) : stableText r -> r <> [].
Proof. intros (_ & _ & _ & c & r' & E & _). rewrite E. discriminate. Qed.

Lemma numberHead_not_space (c : ascii) :
  isNumberHead c = true -> isSpace c = false.
Proof.
  intros H. destruct (isSpace c) eqn:E; [|reflexivity].
  unfold isSpace in E. unfold isNumberHead, isDigit, eqc in H.
  destruct c as [[] [] [] [] [] [] [] []]; simpl in *; try discriminate;
    reflexivity.
Qed.

Lemma stableText_dropWhile (r rest : str) :
  stableText r -> dropWhile isSpace (r ++ rest) = r ++ rest.
Proof.
  intros (_ & _ & _ & c & r' & E & Hc). rewrite E. simpl.
  rewrite (numberHead_not_space c Hc). reflexivity.
Qed.

(** A stable rendering followed by a space is read back whole. *)
Lemma numberValue_stable_sep (r rest : str) :
  stableText r ->
  numberValue (r ++ space :: rest) = Some (VNumber (Number r)) /\
  afterNumber (r ++ space :: rest) = dropWhile isSpace rest.
Proof.
  intros Hr. pose proof (stableText_nonempty r Hr) as Hne.
  destruct Hr as (H1 & _).
  destruct (numberText_app_stop r rest space eq_refl) as [E1 E2].
  unfold numberValue, afterNumber. rewrite E1, E2, H1.
  rewrite (numberRest_of_whole r H1). split.
  - destruct r; [contradiction | reflexivity].
  - reflexivity.
Qed.

Lemma numberValue_stable_end (r : str) :
  stableText r ->
  numberValue r = Some (VNumber (Number r)) /\ afterNumber r = [].
Proof.
  intros Hr. pose proof (stableText_nonempty r Hr) as Hne.
  destruct Hr as (H1 & _).
  unfold numberValue, afterNumber. rewrite H1, (numberRest_of_whole r H1).
  split; [destruct r; [contradiction | reflexivity] | reflexivity].
Qed.

Lemma literalValue_app (literal rest : str) :
  literalValue literal (literal ++ rest) = Some (VString literal) /\
  afterLiteral literal (literal ++ rest) = rest.
Proof.
  unfold literalValue, afterLiteral. rewrite startsWith_app.
  split; [reflexivity|].
  rewrite skipn_app, Nat.sub_diag, skipn_all. reflexivity.
Qed.

(* ------------------------------------------------------------------ *)
(** ** Searching a text *)

Lemma startsWith_app_l (a b p : str) :
  startsWith a p = true -> startsWith (a ++ b) p = true.
Proof.
  revert a. induction p as [|y p IH]; intros a H; [reflexivity|].
  destruct a as [|x a]; [discriminate|]. simpl in *.
  apply andb_true_iff in H. destruct H as [H1 H2].
  rewrite H1. apply IH. exact H2.
Qed.

Lemma includes_app_l (a b p : str) :
  includes a p = true -> includes (a ++ b) p = true.
Proof.
  induction a as [|x a IH]; cbn [includes app].
  - rewrite orb_false_r. intros H. destruct p; [|discriminate].
    destruct b; reflexivity.
  - intros H. apply orb_true_iff in H. apply orb_true_iff.
    destruct H as [H|H].
    + left. apply (startsWith_app_l (x :: a) b p H).
    + right. apply IH. exact H.
Qed.

Lemma includes_app_r (a b p : str) :
  includes b p = true -> includes (a ++ b) p = true.
Proof.
  intros H. induction a as [|x a IH]; [exact H|].
  cbn [includes app]. rewrite IH. apply orb_true_r.
Qed.

Lemma includes_false_app (a b p : str) :
  includes (a ++ b) p = false ->
  includes a p = false /\ includes b p = false.
Proof.
  intros H. split.
  - destruct (includes a p) eqn:E; [|reflexivity].
    rewrite (includes_app_l a b p E) in H. discriminate.
  - destruct (includes b p) eqn:E; [|reflexivity].
    rewrite (includes_app_r a b p E) in H. discriminate.
Qed.

Lemma startsWith_chars (s p : str) (c : ascii) :
  startsWith s p = true -> In c p -> In c s.
Proof.
  revert s. induction p as [|y p IH]; intros s H Hc; [contradiction|].
  destruct s as [|x s]; [discriminate|]. simpl in H.
  apply andb_true_iff in H. destruct H as [H1 H2]. apply eqc_true in H1.
  subst y. destruct Hc as [->|Hc]; [left; reflexivity|].
  right. apply IH; assumption.
Qed.

Lemma includes_chars (s p : str) (c : ascii) :
  includes s p = true -> In c p -> In c s.
Proof.
  induction s as [|x s IH]; cbn [includes]; intros H Hc.
  - rewrite orb_false_r in H. exact (startsWith_chars [] p c H Hc).
  - apply orb_true_iff in H. destruct H as [H|H].
    + exact (startsWith_chars (x :: s) p c H Hc).
    + right. apply IH; assumption.
Qed.

Lemma startsWith_app_sep (a b p : str) (c : ascii) :
  ~ In c p -> startsWith (a ++ c :: b) p = startsWith a p.
Proof.
  revert a. induction p as [|y p IH]; intros a Hc; [reflexivity|].
  assert (Hy : eqc c y = false).
  { destruct (eqc c y) eqn:E; [|reflexivity]. apply eqc_true in E.
    exfalso. apply Hc. left. symmetry. exact E. }
  destruct a as [|x a]; cbn [app startsWith].
  - rewrite Hy. reflexivity.
  - rewrite IH; [reflexivity|]. intros H. apply Hc. right. exact H.
Qed.

(** A pattern does not straddle a character it does not contain. *)
Lemma includes_app_sep (a b p : str) (c : ascii) :
  ~ In c p -> p <> [] ->
  includes (a ++ c :: b) p = includes a p || includes b p.
Proof.
  intros Hc Hp. induction a as [|x a IH].
  - pose proof (startsWith_app_sep [] b p c Hc) as E. cbn [app] in E.
    cbn [app includes]. rewrite E.
    destruct p as [|y p]; [contradiction|]. reflexivity.
  - pose proof (startsWith_app_sep (x :: a) b p c Hc) as E. cbn [app] in E.
    cbn [app includes]. rewrite IH, E.
    rewrite orb_assoc. reflexivity.
Qed.

Lemma toLowerCase_app (a b : str) :
  toLowerCase (a ++ b) = toLowerCase a ++ toLowerCase b.
Proof. apply map_app. Qed.

Lemma includes_avoids (s p : str) (ch : ascii) :
  avoids ch s -> In ch p -> includes (toLowerCase s) p = false.
Proof.
  intros Ha Hp. destruct (includes (toLowerCase s) p) eqn:E; [|reflexivity].
  pose proof (includes_chars _ _ ch E Hp) as Hin.
  unfold toLowerCase in Hin. apply in_map_iff in Hin.
  destruct Hin as (c & Hc & Hin). unfold avoids in Ha.
  rewrite Forall_forall in Ha. exfalso. exact (Ha c Hin Hc).
Qed.

Lemma numberChar_lower (c : ascii) :
  isNumberChar c = true ->
  lowerChar c <> "m"%char /\ lowerChar c <> "r"%char.
Proof.
  destruct c as [[] [] [] [] [] [] [] []]; intros H;
    try discriminate H; split; discriminate.
Qed.

Lemma numberChars_avoid (r : str) :
  Forall (fun c => isNumberChar c = true) r ->
  avoids "m" r /\ avoids "r" r.
Proof.
  intros H. split; (eapply Forall_impl; [|exact H]); intros c Hc;
    apply (numberChar_lower c Hc).
Qed.

Lemma avoids_lit (ch : ascii) (s : str) :
  forallb (fun c => negb (eqc (lowerChar c) ch)) s = true -> avoids ch s.
Proof.
  intros H. apply Forall_forall. intros c Hc E.
  rewrite forallb_forall in H. specialize (H c Hc).
  rewrite E, eqc_refl in H. discriminate H.
Qed.

(** A line that begins with a number, or with an [a], is neither a
    comment nor a track name. *)
Lemma head_dispatch (c : ascii) (s : str) :
  isNumberHead c || eqc c "a" = true ->
  startsWith (trimStart (c :: s)) (lit "#") = false /\
  startsWith (toLowerCase (trimStart (c :: s))) (lit "trackname:") = false.
Proof.
  destruct c as [[] [] [] [] [] [] [] []]; intros H;
    try discriminate H; split; reflexivity.
Qed.

(* ------------------------------------------------------------------ *)
(** ** Formatted lines read back *)

Lemma numberValue_sep (r rest : str) :
  stableText r -> numberValue (r ++ space :: rest) = Some (VNumber (Number r)).
Proof. intros H. apply numberValue_stable_sep. exact H. Qed.

Lemma afterNumber_sep (r rest : str) :
  stableText r -> afterNumber (r ++ space :: rest) = dropWhile isSpace rest.
Proof. intros H. apply numberValue_stable_sep. exact H. Qed.

Lemma numberValue_end (r : str) :
  stableText r -> numberValue r = Some (VNumber (Number r)).
Proof. intros H. apply numberValue_stable_end. exact H. Qed.

Lemma afterNumber_end (r : str) : stableText r -> afterNumber r = [].
Proof. intros H. apply numberValue_stable_end. exact H. Qed.

Lemma dropWhile_stable (r : str) : stableText r -> dropWhile isSpace r = r.
Proof.
  intros H. pose proof (stableText_dropWhile r [] H) as E.
  rewrite app_nil_r in E. exact E.
Qed.

Lemma dropWhile_stable_app (r rest : str) :
  stableText r -> dropWhile isSpace (r ++ space :: rest) = r ++ space :: rest.
Proof. apply stableText_dropWhile. Qed.

Lemma literalValue_here (literal rest : str) :
  literalValue literal (literal ++ rest) = Some (VString literal).
Proof. apply literalValue_app. Qed.

Lemma afterLiteral_here (literal rest : str) :
  afterLiteral literal (literal ++ rest) = rest.
Proof. apply literalValue_app. Qed.

Lemma dropWhile_space (s : str) :
  dropWhile isSpace (space :: s) = dropWhile isSpace s.
Proof. reflexivity. Qed.

Lemma formatValue_number (r : str) :
  stableText r -> toFixed6 (Number r) = r.
Proof. intros (_ & H & _). exact H. Qed.

Lemma includes_startsWith (s p : str) :
  startsWith s p = true -> includes s p = true.
Proof. intros H. destruct s; cbn [includes]; rewrite H; reflexivity. Qed.

Lemma includes_literal (a b p : str) :
  toLowerCase p = p -> includes (toLowerCase (a ++ p ++ b)) p = true.
Proof.
  intros Hp. rewrite !toLowerCase_app, Hp.
  apply includes_app_r, includes_startsWith, startsWith_app.
Qed.

Lemma takeWhile_fixed (p : ascii -> bool) (s : str) :
  Forall (fun c => p c = true) s -> takeWhile p s = s.
Proof.
  intros H. induction H as [|c s Hc _ IH]; simpl; [reflexivity|].
  rewrite Hc, IH. reflexivity.
Qed.

Lemma takeWhile_line (s : str) :
  noNewline s -> takeWhile (notIn [newline]) s = s.
Proof.
  intros H. apply takeWhile_fixed. eapply Forall_impl; [|exact H].
  intros c Hc. unfold notIn. simpl. rewrite orb_false_r.
  destruct (eqc c newline) eqn:E; [|reflexivity].
  apply eqc_true in E. contradiction.
Qed.

Lemma untilValue_line (s : str) :
  noNewline s -> s <> [] -> untilValue [newline] s = Some (VString s).
Proof.
  intros H Hne. unfold untilValue. rewrite (takeWhile_line s H).
  destruct s; [contradiction | reflexivity].
Qed.

Lemma solidHead_nonempty (s : str) : solidHead s -> s <> [].
Proof. destruct s; [contradiction | discriminate]. Qed.

Lemma solidHead_dropWhile (s : str) : solidHead s -> dropWhile isSpace s = s.
Proof. destruct s as [|c s]; [contradiction|]. simpl. intros ->. reflexivity. Qed.

Lemma dropWhile_solidHead (s : str) :
  dropWhile isSpace s <> [] -> solidHead (dropWhile isSpace s).
Proof.
  destruct (dropWhile isSpace s) as [|c r] eqn:E; [contradiction|].
  intros _. exact (dropWhile_head _ _ E).
Qed.

Lemma stableText_solidHead (r rest : str) :
  stableText r -> solidHead (r ++ rest).
Proof.
  intros (_ & _ & _ & c & r' & E & Hc). rewrite E.
  exact (numberHead_not_space c Hc).
Qed.

Lemma stableText_avoids (r : str) :
  stableText r -> avoids "m" r /\ avoids "r" r.
Proof. intros (_ & _ & H & _). apply numberChars_avoid. exact H. Qed.

Lemma stableText_noNewline (r : str) : stableText r -> noNewline r.
Proof.
  intros (_ & _ & H & _). eapply Forall_impl; [|exact H].
  apply numberChar_not_newline.
Qed.

(** The dispatch of a line that starts with a formatted number. *)
Lemma stableText_dispatch (r rest : str) :
  stableText r ->
  startsWith (trimStart (r ++ rest)) (lit "#") = false /\
  startsWith (toLowerCase (trimStart (r ++ rest))) (lit "trackname:") = false.
Proof.
  intros (_ & _ & _ & c & r' & E & Hc). rewrite E. cbn [app].
  apply head_dispatch. rewrite Hc. reflexivity.
Qed.

Lemma includes_spaced (a b p : str) :
  ~ In space p -> p <> [] ->
  includes (toLowerCase (a ++ space :: b)) p
  = includes (toLowerCase a) p || includes (toLowerCase b) p.
Proof.
  intros Hs Hp. rewrite toLowerCase_app.
  change (toLowerCase (space :: b)) with (space :: toLowerCase b).
  apply includes_app_sep; assumption.
Qed.

Lemma keyword_spaced (a b : str) :
  (includes (toLowerCase (a ++ space :: b)) (lit "animrotation")
   = includes (toLowerCase a) (lit "animrotation")
     || includes (toLowerCase b) (lit "animrotation")) /\
  (includes (toLowerCase (a ++ space :: b)) (lit "animmotion")
   = includes (toLowerCase a) (lit "animmotion")
     || includes (toLowerCase b) (lit "animmotion")).
Proof.
  split; apply includes_spaced; try discriminate;
    intros H; repeat (destruct H as [H|H]; [discriminate H|]); exact H.
Qed.

Lemma stableText_keywords (r : str) :
  stableText r ->
  includes (toLowerCase r) (lit "animrotation") = false /\
  includes (toLowerCase r) (lit "animmotion") = false.
Proof.
  intros Hr. destruct (stableText_avoids r Hr) as [Hm _].
  split; apply (includes_avoids r _ "m" Hm); simpl; tauto.
Qed.

(** A formatted number alone on its line is read back as it is. *)
Lemma number_reparse (r : str) : stableText r -> lineOut r = r.
Proof.
  intros Hr. unfold lineOut.
  destruct (stableText_dispatch r [] Hr) as [D1 D2].
  rewrite app_nil_r in D1, D2. rewrite D1, D2.
  destruct (stableText_keywords r Hr) as [K1 K2]. rewrite K1, K2.
  unfold textOut. rewrite (dropWhile_stable r Hr).
  rewrite (numberValue_end r Hr), (afterNumber_end r Hr).
  unfold joinSpace1. cbn. apply formatValue_number. exact Hr.
Qed.

(** A formatted number followed by a text is read back as it is. *)
Lemma text_reparse (r w : str) :
  stableText r -> solidHead w -> noNewline w ->
  includes (toLowerCase w) (lit "animrotation") = false ->
  includes (toLowerCase w) (lit "animmotion") = false ->
  lineOut (r ++ space :: w) = r ++ space :: w.
Proof.
  intros Hr Hw Hn W1 W2. unfold lineOut.
  destruct (stableText_dispatch r (space :: w) Hr) as [D1 D2].
  rewrite D1, D2.
  destruct (keyword_spaced r w) as [K1 K2]. rewrite K1, K2, W1, W2.
  destruct (stableText_keywords r Hr) as [R1 R2]. rewrite R1, R2.
  cbn [orb]. unfold textOut.
  rewrite (dropWhile_stable_app r w Hr).
  rewrite (numberValue_sep r w Hr), (afterNumber_sep r w Hr).
  rewrite (solidHead_dropWhile w Hw).
  rewrite (untilValue_line w Hn (solidHead_nonempty w Hw)).
  unfold joinSpace1. cbn [filter isDefined map formatValue join].
  rewrite (formatValue_number r Hr). reflexivity.
Qed.

Lemma join_cons (x : str) (rs : list str) :
  join [space] (x :: rs) = x ++ restOf rs.
Proof. destruct rs; cbn [join restOf app]; [rewrite app_nil_r|]; reflexivity. Qed.

Lemma join_Forall (P : ascii -> Prop) (rs : list str) :
  P space -> Forall (Forall P) rs -> Forall P (join [space] rs).
Proof.
  intros Hs H. induction H as [|r rs Hr _ IH]; [constructor|].
  rewrite join_cons. apply Forall_app. split; [exact Hr|].
  destruct rs; [constructor|]. constructor; [exact Hs | exact IH].
Qed.

Lemma join_stable (rs : list str) :
  Forall stableText rs ->
  noNewline (join [space] rs) /\
  avoids "m" (join [space] rs) /\ avoids "r" (join [space] rs).
Proof.
  intros H. repeat split; apply join_Forall; try discriminate;
    (eapply Forall_impl; [|exact H]); intros r Hr.
  - apply stableText_noNewline. exact Hr.
  - apply (stableText_avoids r Hr).
  - apply (stableText_avoids r Hr).
Qed.

Lemma join_solidHead (r : str) (rs : list str) :
  stableText r -> solidHead (join [space] (r :: rs)).
Proof. intros Hr. rewrite join_cons. apply stableText_solidHead. exact Hr. Qed.

Lemma dropWhile_restOf (rs : list str) :
  Forall stableText rs -> dropWhile isSpace (restOf rs) = join [space] rs.
Proof.
  intros H. destruct H as [|r rs Hr _]; [reflexivity|].
  unfold restOf. rewrite dropWhile_space.
  apply solidHead_dropWhile, join_solidHead. exact Hr.
Qed.

Lemma number_then (r : str) (rs : list str) :
  stableText r -> Forall stableText rs ->
  numberValue (r ++ restOf rs) = Some (VNumber (Number r)) /\
  afterNumber (r ++ restOf rs) = join [space] rs.
Proof.
  intros Hr Hrs. destruct rs as [|r2 rs].
  - cbn [restOf join]. rewrite app_nil_r.
    apply numberValue_stable_end. exact Hr.
  - unfold restOf. rewrite (numberValue_sep _ _ Hr), (afterNumber_sep _ _ Hr).
    split; [reflexivity|].
    apply solidHead_dropWhile, join_solidHead.
    apply (Forall_inv Hrs).
Qed.

Lemma readNumbers_nil (k : nat) : rendered (readNumbers k []) = [].
Proof. induction k as [|k IH]; [reflexivity|]. exact IH. Qed.

(** Formatted numbers joined by single spaces are read back one by one. *)
Lemma readNumbers_join (rs : list str) :
  Forall stableText rs ->
  forall k, length rs <= k ->
  rendered (readNumbers k (join [space] rs)) = rs.
Proof.
  intros H. induction H as [|r rs Hr Hrs IH]; intros k Hk.
  - apply readNumbers_nil.
  - destruct k as [|k]; [simpl in Hk; lia|].
    rewrite join_cons. cbn [readNumbers].
    destruct (number_then r rs Hr Hrs) as [E1 E2]. rewrite E1, E2.
    rewrite rendered_cons_some. cbn [formatValue].
    rewrite (formatValue_number r Hr), IH by (simpl in Hk; lia).
    reflexivity.
Qed.

(** Formatted numbers alone on a line are read back as they are. *)
Lemma numbers_reparse (rs : list str) :
  Forall stableText rs -> lineOut (join [space] rs) = join [space] rs.
Proof.
  intros H. destruct H as [|r rs Hr Hrs]; [reflexivity|].
  destruct Hrs as [|r2 rs Hr2 Hrs]; [apply number_reparse; exact Hr|].
  rewrite join_cons. unfold restOf.
  assert (Hall : Forall stableText (r2 :: rs)) by (constructor; assumption).
  destruct (join_stable _ Hall) as (Hn & Hm & _).
  apply text_reparse.
  - exact Hr.
  - apply join_solidHead. exact Hr2.
  - exact Hn.
  - apply (includes_avoids _ _ "m" Hm). simpl. tauto.
  - apply (includes_avoids _ _ "m" Hm). simpl. tauto.
Qed.

Lemma rotationOut_keyword (line : str) :
  rotationOut line = keywordOut (lit "animrotation") 1 line.
Proof. reflexivity. Qed.

Lemma motionOut_keyword (line : str) :
  motionOut line = keywordOut (lit "animmotion") 3 line.
Proof. reflexivity. Qed.

Lemma rotation_plain : plainKeyword (lit "animrotation").
Proof. intros rest. repeat split; reflexivity. Qed.

Lemma motion_plain : plainKeyword (lit "animmotion").
Proof. intros rest. repeat split; reflexivity. Qed.

(** The operands after the keyword are read back as they are. *)
Lemma keywordOut_tail (literal : str) (k : nat) (rs : list str) :
  plainKeyword literal ->
  Forall stableText rs -> length rs <= k ->
  literalValue literal (literal ++ restOf rs) = Some (VString literal) /\
  rendered (readNumbers k
    (dropWhile isSpace (afterLiteral literal (literal ++ restOf rs)))) = rs.
Proof.
  intros _ Hrs Hk. rewrite literalValue_here, afterLiteral_here.
  split; [reflexivity|].
  rewrite (dropWhile_restOf rs Hrs). apply readNumbers_join; assumption.
Qed.

(** A formatted line with its keyword is read back as it is. *)
Lemma keywordOut_join (literal : str) (k : nat) (ts rs : list str) :
  plainKeyword literal ->
  Forall stableText ts -> length ts <= 1 ->
  Forall stableText rs -> length rs <= k ->
  keywordOut literal k (join [space] (ts ++ literal :: rs))
  = join [space] (ts ++ literal :: rs).
Proof.
  intros Hp Hts Hlt Hrs Hk.
  destruct (keywordOut_tail literal k rs Hp Hrs Hk) as [E1 E2].
  destruct (Hp (restOf rs)) as (P1 & P2 & P3).
  unfold keywordOut. cbv zeta.
  destruct ts as [|t [|t2 ts]]; [| |simpl in Hlt; lia]; cbn [app].
  - rewrite join_cons, P3, P1, P2, E1.
    unfold joinSpace1. fold (rendered (None :: Some (VString literal) ::
      readNumbers k (dropWhile isSpace
        (afterLiteral literal (literal ++ restOf rs))))).
    rewrite rendered_cons_none, rendered_cons_some, E2. cbn [formatValue].
    exact (join_cons literal rs).
  - pose proof (Forall_inv Hts) as Ht.
    rewrite (join_cons t).
    change (restOf (literal :: rs))
      with (space :: join [space] (literal :: rs)).
    rewrite join_cons.
    rewrite (dropWhile_stable_app t _ Ht).
    rewrite (numberValue_sep t _ Ht), (afterNumber_sep t _ Ht), P3, E1.
    unfold joinSpace1.
    fold (rendered (Some (VNumber (Number t)) :: Some (VString literal) ::
      readNumbers k (dropWhile isSpace
        (afterLiteral literal (literal ++ restOf rs))))).
    rewrite !rendered_cons_some, E2. cbn [formatValue].
    rewrite (formatValue_number t Ht).
    change (lit " ") with [space]. rewrite (join_cons t).
    change (restOf (literal :: rs))
      with (space :: join [space] (literal :: rs)).
    rewrite join_cons. reflexivity.
Qed.
Lemma join_keyword (ts rs : list str) (literal : str) :
  length ts <= 1 ->
  exists a, join [space] (ts ++ literal :: rs) = a ++ literal ++ restOf rs.
Proof.
  intros Hl. destruct ts as [|t [|t2 ts]]; [| |simpl in Hl; lia]; cbn [app].
  - exists []. apply join_cons.
  - exists (t ++ [space]). rewrite (join_cons t).
    change (restOf (literal :: rs))
      with (space :: join [space] (literal :: rs)).
    rewrite join_cons, <- app_assoc. reflexivity.
Qed.

(** The dispatch of a formatted line that holds its keyword. *)
Lemma keyword_dispatch (ts rs : list str) (literal : str) :
  Forall stableText ts ->
  let out := join [space] (ts ++ ("a"%char :: literal) :: rs) in
  startsWith (trimStart out) (lit "#") = false /\
  startsWith (toLowerCase (trimStart out)) (lit "trackname:") = false.
Proof.
  intros Hts out. subst out. destruct Hts as [|t ts Ht _]; cbn [app].
  - rewrite join_cons. cbn [app]. apply head_dispatch. reflexivity.
  - rewrite join_cons. apply stableText_dispatch. exact Ht.
Qed.

Lemma keyword_found (ts rs : list str) (literal : str) :
  length ts <= 1 -> toLowerCase literal = literal ->
  includes (toLowerCase (join [space] (ts ++ literal :: rs))) literal = true.
Proof.
  intros Hl Hlow. destruct (join_keyword ts rs literal Hl) as [a E].
  rewrite E. apply includes_literal. exact Hlow.
Qed.

(** A formatted rotation line is read back as it is. *)
Lemma rotation_reparse (ts rs : list str) :
  Forall stableText ts -> length ts <= 1 ->
  Forall stableText rs -> length rs <= 1 ->
  lineOut (join [space] (ts ++ lit "animrotation" :: rs))
  = join [space] (ts ++ lit "animrotation" :: rs).
Proof.
  intros Hts Hlt Hrs Hlr. unfold lineOut.
  destruct (keyword_dispatch ts rs (lit "nimrotation") Hts) as [D1 D2].
  change ("a"%char :: lit "nimrotation") with (lit "animrotation") in D1, D2.
  rewrite D1, D2.
  rewrite (keyword_found ts rs (lit "animrotation") Hlt eq_refl).
  rewrite rotationOut_keyword.
  apply keywordOut_join; [apply rotation_plain | assumption ..].
Qed.

(** A formatted motion line is read back as it is. *)
Lemma motion_reparse (ts rs : list str) :
  Forall stableText ts -> length ts <= 1 ->
  Forall stableText rs -> length rs <= 3 ->
  lineOut (join [space] (ts ++ lit "animmotion" :: rs))
  = join [space] (ts ++ lit "animmotion" :: rs).
Proof.
  intros Hts Hlt Hrs Hlr. unfold lineOut.
  destruct (keyword_dispatch ts rs (lit "nimmotion") Hts) as [D1 D2].
  change ("a"%char :: lit "nimmotion") with (lit "animmotion") in D1, D2.
  rewrite D1, D2.
  assert (Hr : avoids "r" (join [space] (ts ++ lit "animmotion" :: rs))).
  { apply join_Forall; [discriminate|]. apply Forall_app. split.
    - eapply Forall_impl; [|exact Hts]. intros r Hr.
      apply (stableText_avoids r Hr).
    - constructor; [apply avoids_lit; reflexivity|].
      eapply Forall_impl; [|exact Hrs]. intros r Hr.
      apply (stableText_avoids r Hr). }
  rewrite (includes_avoids _ (lit "animrotation") "r" Hr)
    by (simpl; tauto).
  rewrite (keyword_found ts rs (lit "animmotion") Hlt eq_refl).
  rewrite motionOut_keyword.
  apply keywordOut_join; [apply motion_plain | assumption ..].
Qed.

(* ------------------------------------------------------------------ *)
(** ** Formatting a formatted line *)

Lemma numberOf_stable (n : nat) (c : Cursor) :
  Forall (fun x => stableNumber x = true) (numberOf (numberAt n c)) ->
  stableValue (numberValue (snd c)).
Proof.
  unfold numberOf, numberAt, numberTok, numberValue.
  destruct (numberText (snd c)); cbn; intros H; [exact I|].
  exact (Forall_inv H).
Qed.

Lemma rendered_stable (vs : list (option Value)) :
  Forall stableValue vs ->
  Forall stableText (rendered vs) /\ length (rendered vs) <= length vs.
Proof.
  intros H. induction H as [|v vs Hv _ [IH1 IH2]]; [split; [constructor | simpl; lia]|].
  destruct v as [[s|x]|]; [exfalso; exact Hv | |].
  - rewrite rendered_cons_some. split; [|simpl; lia].
    constructor; [|exact IH1]. apply stableNumber_text. exact Hv.
  - rewrite rendered_cons_none. split; [exact IH1 | simpl; lia].
Qed.

(** The line with a keyword is made of stable numbers around the
    keyword, when the keyword was found. *)
Lemma keywordOut_shape (literal : str) (k : nat) (line : str) :
  let s1 := dropWhile isSpace line in
  let s5 := dropWhile isSpace (afterLiteral literal (afterNumber s1)) in
  stableValue (numberValue s1) ->
  Forall stableValue (readNumbers k s5) ->
  exists ts rs,
    Forall stableText ts /\ length ts <= 1 /\
    Forall stableText rs /\ length rs <= k /\
    (keywordOut literal k line = join [space] (ts ++ literal :: rs) \/
     keywordOut literal k line = join [space] (ts ++ rs)).
Proof.
  intros s1 s5 H1 H5.
  destruct (rendered_stable [numberValue s1]) as [T1 T2];
    [constructor; [exact H1 | constructor]|].
  destruct (rendered_stable _ H5) as [R1 R2].
  exists (rendered [numberValue s1]), (rendered (readNumbers k s5)).
  split; [exact T1|]. split; [exact T2|]. split; [exact R1|].
  split.
  { eapply Nat.le_trans; [exact R2|].
    clear. generalize s5. induction k; intros s; simpl; [lia|].
    specialize (IHk (afterNumber s)). lia. }
  unfold keywordOut. fold s1. fold s5. unfold joinSpace1, literalValue.
  fold (rendered (numberValue s1 ::
    (if startsWith (afterNumber s1) literal then Some (VString literal)
     else None) :: readNumbers k s5)).
  change (numberValue s1 :: ?e :: readNumbers k s5)
    with ([numberValue s1] ++ e :: readNumbers k s5).
  rewrite rendered_app.
  destruct (startsWith (afterNumber s1) literal).
  - left. rewrite rendered_cons_some. reflexivity.
  - right. rewrite rendered_cons_none. reflexivity.
Qed.

Lemma rotation_idem (line : str) (n : nat) :
  Forall (fun x => stableNumber x = true)
    (numbers (NRotation (rotationNodeOf line n))) ->
  lineOut (rotationOut line) = rotationOut line.
Proof.
  unfold rotationNodeOf.
  cbn [numbers Rotation.time Rotation.degrees]. intros H.
  apply Forall_app in H. destruct H as [H1 H2].
  apply numberOf_stable in H1, H2.
  rewrite rotationOut_keyword.
  destruct (keywordOut_shape (lit "animrotation") 1 line H1)
    as (ts & rs & Hts & Hlt & Hrs & Hlr & [E|E]).
  { constructor; [exact H2 | constructor]. }
  - rewrite E. apply rotation_reparse; assumption.
  - rewrite E. apply numbers_reparse, Forall_app. split; assumption.
Qed.

Lemma motion_idem (line : str) (n : nat) :
  Forall (fun x => stableNumber x = true)
    (numbers (NMotion (motionNodeOf line n))) ->
  lineOut (motionOut line) = motionOut line.
Proof.
  unfold motionNodeOf.
  cbn [numbers Motion.time Motion.x Motion.y Motion.z]. intros H.
  apply Forall_app in H. destruct H as [H1 H].
  apply Forall_app in H. destruct H as [H2 H].
  apply Forall_app in H. destruct H as [H3 H4].
  apply numberOf_stable in H1, H2, H3, H4.
  rewrite motionOut_keyword.
  destruct (keywordOut_shape (lit "animmotion") 3 line H1)
    as (ts & rs & Hts & Hlt & Hrs & Hlr & [E|E]).
  { constructor; [exact H2|]. constructor; [exact H3|].
    constructor; [exact H4 | constructor]. }
  - rewrite E. apply motion_reparse; assumption.
  - rewrite E. apply numbers_reparse, Forall_app. split; assumption.
Qed.

Lemma takeWhile_solidHead (p : ascii -> bool) (s : str) :
  solidHead s -> takeWhile p s <> [] -> solidHead (takeWhile p s).
Proof.
  destruct s as [|c s]; [contradiction|]. simpl.
  destruct (p c); [intros H _; exact H | contradiction].
Qed.

(** A formatted comment is read back as it is. *)
Lemma comment_idem (line : str) :
  lineOut (commentOut line) = commentOut line.
Proof.
  unfold commentOut. cbv zeta.
  set (s3 := dropWhile isSpace _).
  unfold untilValue.
  destruct (takeWhile (notIn [newline]) s3) as [|d w] eqn:E; [reflexivity|].
  assert (Hs : solidHead (d :: w)).
  { rewrite <- E. apply takeWhile_solidHead; [|rewrite E; discriminate].
    apply dropWhile_solidHead. intros Hn. unfold s3 in E.
    rewrite Hn in E. discriminate E. }
  assert (Hn : noNewline (d :: w)).
  { rewrite <- E. apply takeWhile_noNewline. }
  change (joinSpace1 [Some (VString (lit "#")); Some (VString (d :: w))])
    with ("#"%char :: space :: d :: w).
  unfold lineOut.
  change (startsWith (trimStart ("#"%char :: space :: d :: w)) (lit "#"))
    with true.
  cbv iota. unfold commentOut. cbv zeta.
  change (dropWhile isSpace ("#"%char :: space :: d :: w))
    with ("#"%char :: space :: d :: w).
  change (afterLiteral (lit "#") ("#"%char :: space :: d :: w))
    with (space :: d :: w).
  rewrite dropWhile_space, (solidHead_dropWhile _ Hs).
  rewrite (untilValue_line _ Hn) by discriminate. reflexivity.
Qed.

(** A formatted track name is read back as it is. *)
Lemma trackName_idem (line : str) :
  lineOut (trackNameOut line) = trackNameOut line.
Proof.
  unfold trackNameOut. cbv zeta.
  set (s3 := dropWhile isSpace _).
  assert (Hn : noNewline (trim (trim (takeWhile (notIn [newline]) s3)))).
  { apply trim_Forall, trim_Forall, takeWhile_noNewline. }
  rewrite trim_idem in *.
  pose proof (trim_trimmed (takeWhile (notIn [newline]) s3)) as Ht.
  set (u := trim (takeWhile (notIn [newline]) s3)) in *.
  unfold lineOut.
  change (startsWith (trimStart (lit "trackName: " ++ u)) (lit "#"))
    with false.
  change (startsWith (toLowerCase (trimStart (lit "trackName: " ++ u)))
            (lit "trackname:")) with true.
  cbv iota. unfold trackNameOut. cbv zeta.
  change (dropWhile isSpace (lit "trackName: " ++ u))
    with (lit "trackName:" ++ space :: u).
  rewrite afterLiteral_here, dropWhile_space.
  rewrite (proj1 Ht), (takeWhile_line u Hn).
  rewrite (trim_of_trimmed u Ht), (trim_of_trimmed u Ht). reflexivity.
Qed.
Lemma afterNumber_suffix (s : str) : exists a, s = a ++ afterNumber s.
Proof.
  unfold afterNumber.
  exists (numberText s ++ takeWhile isSpace (numberRest s)).
  rewrite <- app_assoc, takeWhile_dropWhile. symmetry.
  apply numberText_split.
Qed.

Lemma keywords_suffix (a b : str) :
  includes (toLowerCase (a ++ b)) (lit "animrotation") = false ->
  includes (toLowerCase (a ++ b)) (lit "animmotion") = false ->
  includes (toLowerCase b) (lit "animrotation") = false /\
  includes (toLowerCase b) (lit "animmotion") = false.
Proof.
  rewrite toLowerCase_app. intros H1 H2.
  apply includes_false_app in H1, H2. split; [apply H1 | apply H2].
Qed.

Lemma numberValue_none (s : str) :
  numberValue s = None -> afterNumber s = dropWhile isSpace s.
Proof.
  unfold numberValue, afterNumber. intros H.
  pose proof (numberText_split s) as E.
  destruct (numberText s); [|discriminate H].
  cbn [app] in E. rewrite E. reflexivity.
Qed.

(** A formatted text line is read back as it is. *)
Lemma text_idem (line : str) (n : nat) :
  noNewline line ->
  startsWith (trimStart line) (lit "#") = false ->
  startsWith (toLowerCase (trimStart line)) (lit "trackname:") = false ->
  includes (toLowerCase line) (lit "animrotation") = false ->
  includes (toLowerCase line) (lit "animmotion") = false ->
  Forall (fun x => stableNumber x = true)
    (numbers (NText (textNodeOf line n))) ->
  lineOut (textOut line) = textOut line.
Proof.
  intros Hl D1 D2 K1 K2. unfold textNodeOf. cbn [numbers Text.time].
  intros H. apply numberOf_stable in H.
  change (snd (skipSpace ([], line))) with (dropWhile isSpace line) in H.
  set (s1 := dropWhile isSpace line) in *.
  assert (E1 : line = takeWhile isSpace line ++ s1)
    by (symmetry; apply takeWhile_dropWhile).
  destruct (afterNumber_suffix s1) as [a E3].
  assert (Hn1 : noNewline s1).
  { unfold noNewline in *. rewrite E1 in Hl.
    apply Forall_app in Hl. apply Hl. }
  assert (Hn3 : noNewline (afterNumber s1)).
  { unfold noNewline in *. rewrite E3 in Hn1.
    apply Forall_app in Hn1. apply Hn1. }
  pose proof K1 as K1'. pose proof K2 as K2'. rewrite E1 in K1', K2'.
  destruct (keywords_suffix _ _ K1' K2') as [L1 L2].
  pose proof L1 as L1'. pose proof L2 as L2'. rewrite E3 in L1', L2'.
  destruct (keywords_suffix _ _ L1' L2') as [M1 M2].
  assert (Eout : textOut line
                 = joinSpace1 [numberValue s1;
                               untilValue [newline] (afterNumber s1)])
    by reflexivity.
  destruct (afterNumber s1) as [|d w] eqn:E.
  - (* nothing after the number *)
    rewrite Eout. destruct (numberValue s1) as [[t|x]|];
      [exfalso; exact H | | reflexivity].
    apply (number_reparse (toFixed6 x)), stableNumber_text. exact H.
  - assert (Hs : solidHead (d :: w)).
    { rewrite <- E. unfold afterNumber. apply dropWhile_solidHead.
      fold (afterNumber s1). rewrite E. discriminate. }
    rewrite (untilValue_line _ Hn3) in Eout by discriminate.
    destruct (numberValue s1) as [[t|x]|] eqn:En; [exfalso; exact H | |].
    + rewrite Eout.
      apply (text_reparse (toFixed6 x) (d :: w)); try assumption.
      apply stableNumber_text. exact H.
    + (* no number: the line without its leading white space *)
      assert (Es : d :: w = s1).
      { rewrite <- E, (numberValue_none s1 En). apply dropWhile_idem. }
      rewrite Eout.
      change (joinSpace1 [None; Some (VString (d :: w))]) with (d :: w).
      assert (Et : trimStart s1 = trimStart line).
      { rewrite !trimStart_dropWhile. apply dropWhile_idem. }
      assert (Ed : dropWhile isSpace s1 = s1) by apply dropWhile_idem.
      rewrite Es. unfold lineOut. rewrite Et, D1, D2, L1, L2.
      unfold textOut. cbv zeta.
      rewrite Ed, En, E, (untilValue_line _ Hn3) by discriminate.
      rewrite <- Es. reflexivity.
Qed.

(** Formatting a formatted line changes nothing, when the numbers of the
    line are stable. *)
Lemma lineOut_idem (line : str) (n : nat) :
  noNewline line ->
  Forall (fun x => stableNumber x = true) (numbers (hkannoNodeOf line n)) ->
  lineOut (lineOut line) = lineOut line.
Proof.
  intros Hl. unfold hkannoNodeOf, lineOut at 2 3.
  destruct (startsWith (trimStart line) (lit "#")) eqn:D1;
    [intros _; apply comment_idem|].
  destruct (startsWith (toLowerCase (trimStart line)) (lit "trackname:"))
    eqn:D2; [intros _; apply trackName_idem|].
  destruct (includes (toLowerCase line) (lit "animrotation")) eqn:K1;
    [apply rotation_idem|].
  destruct (includes (toLowerCase line) (lit "animmotion")) eqn:K2;
    [apply motion_idem|].
  apply text_idem; assumption.
Qed.

(* ================================================================== *)
(** * Numbers written and read back

    The values are compared as rationals: a binary64 number below
    [10 ^ 21] is written with six decimals, and the binary64 number
    nearest to what was written is written the same; a number from
    [10 ^ 21] on is written with digits that read back as the number
    itself. *)


Section Rounding.
Local Open Scope Q_scope.

Lemma pow2_pos (e : Z) : 0 < 2 ^ e.
Proof. apply Qpower_0_lt. reflexivity. Qed.

Lemma pow2_add (a b : Z) : 2 ^ (a + b) == 2 ^ a * 2 ^ b.
Proof. apply Qpower_plus. discriminate. Qed.

Lemma pow2_Z (k : Z) : (0 <= k)%Z -> inject_Z (2 ^ k) == 2 ^ k.
Proof. intros H. rewrite Zpower_Qpower by exact H. reflexivity. Qed.

Lemma pow2_succ (a : Z) : 2 ^ (a + 1) == 2 * 2 ^ a.
Proof. rewrite pow2_add. change (2 ^ 1) with 2. ring. Qed.

Lemma pow2_inv (k : Z) : 2 ^ k * 2 ^ (- k) == 1.
Proof. rewrite <- pow2_add. replace (k + - k)%Z with 0%Z by lia. reflexivity. Qed.

(** [divNearestEven] is within one half of the quotient. *)
Lemma divNearestEven_spec (num den : Z) :
  (0 < den)%Z ->
  (- den <= 2 * (num - divNearestEven num den * den) <= den)%Z.
Proof.
  intros Hd. unfold divNearestEven.
  pose proof (Z.div_mod num den ltac:(lia)) as E.
  pose proof (Z.mod_pos_bound num den Hd) as B.
  set (m := (num / den)%Z) in *. set (r := (num mod den)%Z) in *.
  destruct (Z.compare_spec (2 * r) den) as [C|C|C];
    [destruct (Z.even m)| |]; lia.
Qed.

(** [binade p q] is the exponent of the power of two at or below
    [p / q]. *)
Lemma binade_spec (p q : Z) :
  (0 < p)%Z -> (0 < q)%Z ->
  2 ^ binade p q * inject_Z q <= inject_Z p /\
  inject_Z p < 2 ^ (binade p q + 1) * inject_Z q.
Proof.
  intros Hp Hq. unfold binade.
  set (lp := Z.log2 p). set (lq := Z.log2 q). set (g := (lp - lq)%Z).
  destruct (Z.log2_spec p Hp) as [P1 P2].
  destruct (Z.log2_spec q Hq) as [Q1 Q2].
  fold lp in P1, P2. fold lq in Q1, Q2.
  assert (Hlp : (0 <= lp)%Z) by apply Z.log2_nonneg.
  assert (Hlq : (0 <= lq)%Z) by apply Z.log2_nonneg.
  rewrite Zle_Qle, pow2_Z in P1, Q1 by lia.
  rewrite Zlt_Qlt, pow2_Z, <- Z.add_1_r, pow2_succ in P2, Q2 by lia.
  pose proof (pow2_pos g) as Ga. pose proof (pow2_pos lq) as Gb.
  pose proof (pow2_pos (g - 1)) as Gh.
  assert (G : 2 ^ g * 2 ^ lq == 2 ^ lp).
  { rewrite <- pow2_add. replace (g + lq)%Z with lp by lia. reflexivity. }
  assert (H2 : 2 ^ (g - 1 + 1) == 2 ^ g).
  { replace (g - 1 + 1)%Z with g by lia. reflexivity. }
  pose proof (pow2_succ (g - 1)) as H3. rewrite H2 in H3.
  pose proof (pow2_succ g) as H4.
  assert (Ht : (if (0 <=? g)%Z then (q * 2 ^ g <=? p)%Z
                else (q <=? p * 2 ^ (- g))%Z) = true
               <-> 2 ^ g * inject_Z q <= inject_Z p).
  { destruct (0 <=? g)%Z eqn:Hg.
    - apply Z.leb_le in Hg. rewrite Z.leb_le, Zle_Qle, inject_Z_mult, pow2_Z by lia.
      split; intros H; lra.
    - apply Z.leb_gt in Hg.
      rewrite Z.leb_le, Zle_Qle, inject_Z_mult, pow2_Z by lia.
      pose proof (pow2_inv g) as Hi. pose proof (pow2_pos (- g)) as Gi.
      split; intros H; nra. }
  destruct (if (0 <=? g)%Z then _ else _) eqn:Ht'.
  - assert (T : 2 ^ g * inject_Z q <= inject_Z p) by (apply Ht; reflexivity).
    split; [exact T|]. rewrite H4. nra.
  - assert (T : ~ 2 ^ g * inject_Z q <= inject_Z p).
    { intros T. apply Ht in T. discriminate T. }
    rewrite H2. split; [|lra]. nra.
Qed.

(** [scaled6 m e] is the integer nearest to the value times [10 ^ 6],
    the larger one on a tie. *)
Lemma scaled6_spec (m e : Z) :
  inject_Z (scaled6 m e) - (1 # 2) <= val m e * 1000000 /\
  val m e * 1000000 < inject_Z (scaled6 m e) + (1 # 2).
Proof.
  unfold scaled6, val. destruct (0 <=? e)%Z eqn:He.
  - apply Z.leb_le in He.
    rewrite !inject_Z_mult, pow2_Z by exact He.
    change (inject_Z (10 ^ 6)) with 1000000. split; lra.
  - apply Z.leb_gt in He.
    set (k := (- e)%Z). assert (Hk : (0 < k)%Z) by (unfold k; lia).
    set (A := (2 * m * 10 ^ 6 + 2 ^ k)%Z). set (D := (2 ^ (k + 1))%Z).
    assert (HD : (0 < D)%Z) by (unfold D; apply Z.pow_pos_nonneg; lia).
    pose proof (Z.div_mod A D ltac:(lia)) as E.
    pose proof (Z.mod_pos_bound A D HD) as B.
    set (N := (A / D)%Z) in *.
    assert (L : (D * N <= A)%Z) by lia.
    assert (U : (A < D * N + D)%Z) by lia.
    rewrite Zle_Qle in L. rewrite Zlt_Qlt in U. unfold A, D in L, U.
    repeat rewrite ?inject_Z_plus, ?inject_Z_mult in L.
    repeat rewrite ?inject_Z_plus, ?inject_Z_mult in U.
    rewrite !pow2_Z, ?pow2_succ in L by lia.
    rewrite !pow2_Z, ?pow2_succ in U by lia.
    change (inject_Z (10 ^ 6)) with 1000000 in L, U.
    change (inject_Z 2) with 2 in L, U.
    pose proof (pow2_inv k) as Hi. unfold k in Hi at 2.
    replace (- - e)%Z with e in Hi by lia.
    pose proof (pow2_pos k) as Gk. pose proof (pow2_pos e) as Ge.
    set (u := 2 ^ k) in *. set (v := 2 ^ e) in *.
    set (M := inject_Z m) in *. set (n := inject_Z N) in *.
    assert (E1 : 2 * u * n * v == 2 * n).
    { transitivity (2 * n * (u * v)); [ring | rewrite Hi; ring]. }
    assert (E2 : (2 * M * 1000000 + u) * v == 2 * (M * v * 1000000) + 1).
    { transitivity (2 * (M * v * 1000000) + u * v); [ring | rewrite Hi; ring]. }
    assert (E3 : (2 * u * n + 2 * u) * v == 2 * n + 2).
    { transitivity (2 * n * (u * v) + 2 * (u * v)); [ring | rewrite Hi; ring]. }
    assert (L' : 2 * u * n * v <= (2 * M * 1000000 + u) * v)
      by (apply Qmult_le_compat_r; [exact L | lra]).
    assert (U' : (2 * M * 1000000 + u) * v < (2 * u * n + 2 * u) * v)
      by (apply Qmult_lt_compat_r; [exact Ge | exact U]).
    rewrite E1, E2 in L'. rewrite E2, E3 in U'. split; lra.
Qed.

(** The integer within one half below, and less than one half above,
    the value times [10 ^ 6] is [scaled6 m e]. *)
Lemma scaled6_unique (m e N : Z) :
  inject_Z N - (1 # 2) <= val m e * 1000000 ->
  val m e * 1000000 < inject_Z N + (1 # 2) ->
  scaled6 m e = N.
Proof.
  intros L U. destruct (scaled6_spec m e) as [L' U'].
  assert (H1 : inject_Z N < inject_Z (scaled6 m e + 1)).
  { rewrite inject_Z_plus. change (inject_Z 1) with 1. lra. }
  assert (H2 : inject_Z (scaled6 m e) < inject_Z (N + 1)).
  { rewrite inject_Z_plus. change (inject_Z 1) with 1. lra. }
  rewrite <- Zlt_Qlt in H1, H2. lia.
Qed.

Lemma inject_Z_sub (a b : Z) : inject_Z (a - b) == inject_Z a - inject_Z b.
Proof. unfold Z.sub. rewrite inject_Z_plus, inject_Z_opp. reflexivity. Qed.

(** The mantissa [roundRatio] computes is within half a unit of
    [p / q / 2 ^ e]. *)
Lemma nearest_mantissa (p q e : Z) :
  (0 < q)%Z ->
  let M := if (0 <=? e)%Z then divNearestEven p (q * 2 ^ e)
           else divNearestEven (p * 2 ^ (- e)) q in
  - (2 ^ e * inject_Z q)
    <= 2 * (inject_Z M * 2 ^ e * inject_Z q - inject_Z p) /\
  2 * (inject_Z M * 2 ^ e * inject_Z q - inject_Z p)
    <= 2 ^ e * inject_Z q.
Proof.
  intros Hq M. subst M. pose proof (pow2_pos e) as Ge.
  destruct (0 <=? e)%Z eqn:He.
  - apply Z.leb_le in He.
    assert (Hd : (0 < q * 2 ^ e)%Z)
      by (apply Z.mul_pos_pos; [exact Hq | apply Z.pow_pos_nonneg; lia]).
    destruct (divNearestEven_spec p (q * 2 ^ e) Hd) as [L U].
    set (M := divNearestEven p (q * 2 ^ e)) in *.
    rewrite Zle_Qle in L, U.
    repeat rewrite ?inject_Z_opp, ?inject_Z_plus, ?inject_Z_sub,
      ?inject_Z_mult in L.
    repeat rewrite ?inject_Z_opp, ?inject_Z_plus, ?inject_Z_sub,
      ?inject_Z_mult in U.
    rewrite !pow2_Z in L by exact He. rewrite !pow2_Z in U by exact He.
    change (inject_Z 2) with 2 in L, U. split; lra.
  - apply Z.leb_gt in He.
    destruct (divNearestEven_spec (p * 2 ^ (- e)) q Hq) as [L U].
    set (M := divNearestEven (p * 2 ^ (- e)) q) in *.
    rewrite Zle_Qle in L, U.
    repeat rewrite ?inject_Z_opp, ?inject_Z_plus, ?inject_Z_sub,
      ?inject_Z_mult in L.
    repeat rewrite ?inject_Z_opp, ?inject_Z_plus, ?inject_Z_sub,
      ?inject_Z_mult in U.
    rewrite !pow2_Z in L by lia. rewrite !pow2_Z in U by lia.
    change (inject_Z 2) with 2 in L, U.
    pose proof (pow2_inv e) as Hi.
    set (u := 2 ^ e) in *. set (K := 2 ^ (- e)) in *.
    set (P := inject_Z p) in *. set (Qq := inject_Z q) in *.
    set (m := inject_Z M) in *.
    assert (E1 : 2 * (P * K - m * Qq) * u == 2 * (P - m * u * Qq)).
    { transitivity (2 * P * (u * K) - 2 * m * Qq * u);
        [ring | rewrite Hi; ring]. }
    assert (L' : - Qq * u <= 2 * (P * K - m * Qq) * u)
      by (apply Qmult_le_compat_r; [exact L | lra]).
    assert (U' : 2 * (P * K - m * Qq) * u <= Qq * u)
      by (apply Qmult_le_compat_r; [exact U | lra]).
    rewrite E1 in L', U'. split; lra.
Qed.

(** In the normal range [roundRatio] returns a finite number, a multiple
    of [2 ^ (binade p q - 52)] within half of it from [p / q]. *)
Lemma roundRatio_spec (neg : bool) (p q : Z) :
  (0 < p)%Z -> (0 < q)%Z ->
  (-1022 <= binade p q <= 1022)%Z ->
  exists (m' : positive) (e' M : Z),
    roundRatio neg p q = S754_finite neg m' e' /\
    val (Zpos m') e' == inject_Z M * 2 ^ (binade p q - 52) /\
    - (2 ^ (binade p q - 52) * inject_Z q)
      <= 2 * (inject_Z M * 2 ^ (binade p q - 52) * inject_Z q - inject_Z p) /\
    2 * (inject_Z M * 2 ^ (binade p q - 52) * inject_Z q - inject_Z p)
      <= 2 ^ (binade p q - 52) * inject_Z q.
Proof.
  intros Hp Hq HE. unfold roundRatio.
  destruct (binade_spec p q Hp Hq) as [B1 _].
  set (E := binade p q) in *.
  rewrite Z.max_l by lia. set (e := (E - 52)%Z).
  pose proof (nearest_mantissa p q e Hq) as HM. cbv zeta in HM.
  set (M := if (0 <=? e)%Z then divNearestEven p (q * 2 ^ e)
            else divNearestEven (p * 2 ^ (- e)) q) in *.
  destruct HM as [L U].
  pose proof (pow2_pos e) as Ge.
  assert (HqQ : 0 < inject_Z q).
  { change 0 with (inject_Z 0). rewrite <- Zlt_Qlt. exact Hq. }
  assert (B2 : 2 ^ E == 4503599627370496 * 2 ^ e).
  { replace E with (52 + e)%Z by (unfold e; lia). rewrite pow2_add.
    reflexivity. }
  assert (HMpos : (0 < M)%Z).
  { rewrite Zlt_Qlt. change (inject_Z 0) with 0.
    rewrite B2 in B1.
    assert (Hpos : 0 < 2 ^ e * inject_Z q)
      by (apply Qmult_lt_0_compat; assumption).
    set (w := 2 ^ e * inject_Z q) in *.
    assert (Ew : inject_Z M * 2 ^ e * inject_Z q == inject_Z M * w)
      by (unfold w; ring).
    assert (Eb : 4503599627370496 * 2 ^ e * inject_Z q
                 == 4503599627370496 * w) by (unfold w; ring).
    rewrite Ew in L. rewrite Eb in B1. nra. }
  destruct (M =? 2 ^ 53)%Z eqn:H53.
  - apply Z.eqb_eq in H53.
    change (2 ^ 52)%Z with 4503599627370496%Z.
    assert (He : (e + 1 <=? 971)%Z = true) by (apply Z.leb_le; unfold e; lia).
    rewrite He.
    exists 4503599627370496%positive, (e + 1)%Z, M.
    split; [reflexivity|]. split; [|split; assumption].
    unfold val. rewrite pow2_succ, H53.
    change (inject_Z (2 ^ 53)) with 9007199254740992.
    change (inject_Z 4503599627370496) with 4503599627370496. ring.
  - destruct M as [|mp|mp]; try lia.
    assert (He : (e <=? 971)%Z = true) by (apply Z.leb_le; unfold e; lia).
    rewrite He.
    exists mp, e, (Zpos mp).
    split; [reflexivity|]. split; [reflexivity|]. split; assumption.
Qed.

Lemma inject_Z_pos (z : Z) : (0 < z)%Z -> 0 < inject_Z z.
Proof. intros H. change 0 with (inject_Z 0). rewrite <- Zlt_Qlt. exact H. Qed.

Lemma pow2_le (a b : Z) : (a <= b)%Z -> 2 ^ a <= 2 ^ b.
Proof. intros H. apply Qpower_le_compat_l; [exact H | discriminate]. Qed.

Lemma pow2_lt_inv (a b : Z) : 2 ^ a < 2 ^ b -> (a < b)%Z.
Proof. intros H. apply (Qpower_lt_compat_l_inv 2); [exact H | reflexivity]. Qed.

(** A binary64 value below [10 ^ 21]. *)
Lemma val_small (m e : Z) :
  (0 < m < 2 ^ 53)%Z ->
  ((0 <=? e) && (10 ^ 21 <=? m * 2 ^ e))%Z = false ->
  val m e <= 999999999999999999999.
Proof.
  intros [Hm1 Hm2] Hs. unfold val.
  pose proof (inject_Z_pos m Hm1) as Gm.
  destruct (0 <=? e)%Z eqn:He.
  - apply Z.leb_le in He. cbn [andb] in Hs. apply Z.leb_gt in Hs.
    assert (H : (m * 2 ^ e <= 999999999999999999999)%Z) by lia.
    rewrite Zle_Qle, inject_Z_mult, pow2_Z in H by exact He. exact H.
  - apply Z.leb_gt in He.
    assert (H1 : 2 ^ e <= 2 ^ 0) by (apply pow2_le; lia).
    change (2 ^ 0) with 1 in H1. pose proof (pow2_pos e) as Ge.
    assert (H2 : (m <= 9007199254740992)%Z) by lia.
    rewrite Zle_Qle in H2. change (inject_Z 9007199254740992)
      with 9007199254740992 in H2. nra.
Qed.

Lemma pow2_not_million (k : Z) : (2 ^ k)%Z <> 1000000%Z.
Proof.
  intros H. destruct (Z.lt_ge_cases k 0) as [Hk|Hk].
  - rewrite Z.pow_neg_r in H by exact Hk. discriminate H.
  - destruct (Z.lt_ge_cases k 20) as [Hk'|Hk'].
    + assert (C : (k = 0 \/ k = 1 \/ k = 2 \/ k = 3 \/ k = 4 \/ k = 5 \/
                   k = 6 \/ k = 7 \/ k = 8 \/ k = 9 \/ k = 10 \/ k = 11 \/
                   k = 12 \/ k = 13 \/ k = 14 \/ k = 15 \/ k = 16 \/
                   k = 17 \/ k = 18 \/ k = 19)%Z) by lia.
      repeat (destruct C as [->|C]; [discriminate H|]).
      subst k. discriminate H.
    + pose proof (Z.pow_le_mono_r 2 20 k ltac:(lia) Hk') as Hp.
      change (2 ^ 20)%Z with 1048576%Z in Hp. lia.
Qed.

(** The unit in the last place, scaled by [10 ^ 6], is never one. *)
Lemma ulp_not_one (e : Z) : ~ 2 ^ e * 1000000 == 1.
Proof.
  intros H. destruct (Z.lt_ge_cases e 0) as [He|He].
  - pose proof (pow2_inv e) as Hi.
    assert (E : 2 ^ (- e) == 1000000).
    { transitivity (2 ^ (- e) * (2 ^ e * 1000000)); [rewrite H; ring|].
      transitivity (2 ^ e * 2 ^ (- e) * 1000000); [ring | rewrite Hi; ring]. }
    rewrite <- pow2_Z in E by lia.
    change 1000000 with (inject_Z 1000000) in E.
    apply (proj1 (inject_Z_injective _ _)) in E. exact (pow2_not_million _ E).
  - assert (H1 : 2 ^ 0 <= 2 ^ e) by (apply pow2_le; exact He).
    change (2 ^ 0) with 1 in H1. lra.
Qed.

(** A multiple of the unit within half a unit of [n], when another
    multiple lies within one half of [n], lies within one half of [n]. *)
Lemma nearest_in_window (k M : Z) (W n : Q) :
  0 < W -> ~ W == 1 ->
  n - (1 # 2) <= inject_Z k * W -> inject_Z k * W < n + (1 # 2) ->
  - W <= 2 * (inject_Z M * W - n) -> 2 * (inject_Z M * W - n) <= W ->
  n - (1 # 2) <= inject_Z M * W /\ inject_Z M * W < n + (1 # 2).
Proof.
  intros HW H1 K1 K2 L U.
  destruct (Z.lt_trichotomy k M) as [H|[H|H]].
  - assert (H' : (k + 1 <= M)%Z) by lia.
    rewrite Zle_Qle, inject_Z_plus in H'. change (inject_Z 1) with 1 in H'.
    assert (P : 0 <= (inject_Z M - inject_Z k - 1) * W)
      by (apply Qmult_le_0_compat; lra).
    assert (HW1 : W <= 1) by lra.
    assert (HW2 : W < 1).
    { destruct (Qlt_le_dec W 1) as [Hlt|Hge]; [exact Hlt|].
      exfalso. apply H1. apply Qle_antisym; assumption. }
    split; lra.
  - subst M. split; assumption.
  - assert (H' : (M + 1 <= k)%Z) by lia.
    rewrite Zle_Qle, inject_Z_plus in H'. change (inject_Z 1) with 1 in H'.
    assert (P : 0 <= (inject_Z k - inject_Z M - 1) * W)
      by (apply Qmult_le_0_compat; lra).
    split; lra.
Qed.

(** A multiple of [2 ^ es] within one half of [scaled6 m e], in units of
    [10 ^ -6]: the value itself when it is such a multiple, the power of
    two above it otherwise. *)
Lemma anchor (m e E : Z) :
  (0 < m < 2 ^ 53)%Z ->
  2 ^ E * 1000000 <= inject_Z (scaled6 m e) ->
  exists k : Z,
    inject_Z (scaled6 m e) - (1 # 2) <= inject_Z k * (2 ^ (E - 52) * 1000000) /\
    inject_Z k * (2 ^ (E - 52) * 1000000) < inject_Z (scaled6 m e) + (1 # 2).
Proof.
  intros [Hm1 Hm2] HE. destruct (scaled6_spec m e) as [L U].
  set (N := inject_Z (scaled6 m e)) in *. set (es := (E - 52)%Z).
  pose proof (pow2_pos es) as Ges.
  destruct (Z.le_gt_cases es e) as [H|H].
  - exists (m * 2 ^ (e - es))%Z.
    rewrite inject_Z_mult, pow2_Z by lia.
    assert (Ev : inject_Z m * 2 ^ (e - es) * (2 ^ es * 1000000)
                 == val m e * 1000000).
    { unfold val. replace e with ((e - es) + es)%Z at 2 by lia.
      rewrite pow2_add. ring. }
    rewrite Ev. split; assumption.
  - exists (2 ^ 52)%Z.
    change (inject_Z (2 ^ 52)) with 4503599627370496.
    assert (E1 : 4503599627370496 * (2 ^ es * 1000000) == 2 ^ E * 1000000).
    { replace E with (52 + es)%Z by (unfold es; lia). rewrite pow2_add.
      change (2 ^ 52) with 4503599627370496. ring. }
    rewrite E1. split; [|lra].
    assert (H1 : 2 ^ e <= 2 ^ (es - 1)) by (apply pow2_le; lia).
    assert (H2 : 2 ^ (es - 1 + 1) == 2 ^ es)
      by (replace (es - 1 + 1)%Z with es by lia; reflexivity).
    pose proof (pow2_succ (es - 1)) as H3. rewrite H2 in H3.
    assert (H4 : 2 ^ E == 4503599627370496 * 2 ^ es).
    { replace E with (52 + es)%Z by (unfold es; lia). rewrite pow2_add.
      reflexivity. }
    assert (H5 : (m <= 9007199254740991)%Z) by lia.
    rewrite Zle_Qle in H5.
    change (inject_Z 9007199254740991) with 9007199254740991 in H5.
    pose proof (inject_Z_pos m Hm1) as Gm. pose proof (pow2_pos e) as Ge.
    pose proof (pow2_pos (es - 1)) as Gs.
    unfold val in L.
    assert (H6 : inject_Z m * 2 ^ e <= 9007199254740991 * 2 ^ (es - 1)).
    { apply Qle_trans with (inject_Z m * 2 ^ (es - 1)).
      - apply Qmult_le_l; assumption.
      - apply Qmult_le_compat_r; lra. }
    nra.
Qed.

(** The rendering of a binary64 value below [10 ^ 21], read back as a
    number, is rendered the same. *)
Lemma reread_scaled6 (neg : bool) (m e : Z) :
  (0 < m < 2 ^ 53)%Z ->
  ((0 <=? e) && (10 ^ 21 <=? m * 2 ^ e))%Z = false ->
  (0 < scaled6 m e)%Z ->
  exists (m' : positive) (e' : Z),
    roundRatio neg (scaled6 m e) (10 ^ 6) = S754_finite neg m' e' /\
    scaled6 (Zpos m') e' = scaled6 m e /\
    ((0 <=? e') && (10 ^ 21 <=? Zpos m' * 2 ^ e'))%Z = false.
Proof.
  intros Hm Hs HN.
  pose proof (val_small m e Hm Hs) as Hx.
  destruct (scaled6_spec m e) as [L U].
  assert (Hq : (0 < 10 ^ 6)%Z) by reflexivity.
  destruct (binade_spec (scaled6 m e) (10 ^ 6) HN Hq) as [B1 B2].
  change (inject_Z (10 ^ 6)) with 1000000 in B1, B2.
  pose proof (inject_Z_pos _ HN) as GN.
  assert (HN1 : 1 <= inject_Z (scaled6 m e)).
  { change 1 with (inject_Z 1). rewrite <- Zle_Qle. lia. }
  set (E := binade (scaled6 m e) (10 ^ 6)) in *.
  assert (HE : (-1022 <= E <= 1022)%Z).
  { split.
    - assert (H : 2 ^ (-21) < 2 ^ (E + 1)).
      { change (2 ^ (-21)) with (1 # 2097152). lra. }
      apply pow2_lt_inv in H. lia.
    - assert (H : 2 ^ E < 2 ^ 70).
      { change (2 ^ 70) with 1180591620717411303424. lra. }
      apply pow2_lt_inv in H. lia. }
  destruct (roundRatio_spec neg (scaled6 m e) (10 ^ 6) HN Hq HE)
    as (m' & e' & M & Er & Ev & L' & U').
  fold E in Ev, L', U'. change (inject_Z (10 ^ 6)) with 1000000 in L', U'.
  destruct (anchor m e E Hm B1) as (k & K1 & K2).
  set (W := 2 ^ (E - 52) * 1000000) in *.
  assert (GW : 0 < W).
  { unfold W. pose proof (pow2_pos (E - 52)). lra. }
  assert (EW : inject_Z M * 2 ^ (E - 52) * 1000000 == inject_Z M * W)
    by (unfold W; ring).
  rewrite EW in L', U'.
  destruct (nearest_in_window k M W (inject_Z (scaled6 m e)) GW
              (ulp_not_one (E - 52)) K1 K2 L' U') as [Y1 Y2].
  assert (EY : val (Zpos m') e' * 1000000 == inject_Z M * W).
  { rewrite Ev. unfold W. ring. }
  exists m', e'. split; [exact Er|]. split.
  - apply scaled6_unique; rewrite EY; assumption.
  - destruct (0 <=? e')%Z eqn:He'; [|reflexivity].
    apply Z.leb_le in He'. cbn [andb]. apply Z.leb_gt.
    rewrite Zlt_Qlt, inject_Z_mult, pow2_Z by exact He'.
    change (inject_Z (10 ^ 21)) with 1000000000000000000000.
    fold (val (Zpos m') e'). lra.
Qed.

(** [roundRatio] returns canonical numbers. *)
Lemma roundRatio_canonical (neg : bool) (p q : Z) :
  (0 < p)%Z -> (0 < q)%Z -> canonical (roundRatio neg p q) = true.
Proof.
  intros Hp Hq. unfold roundRatio.
  destruct (binade_spec p q Hp Hq) as [B1 B2].
  set (E := binade p q) in *.
  set (e := Z.max (E - 52) (-1074)).
  pose proof (nearest_mantissa p q e Hq) as HM. cbv zeta in HM.
  set (M := if (0 <=? e)%Z then divNearestEven p (q * 2 ^ e)
            else divNearestEven (p * 2 ^ (- e)) q) in *.
  destruct HM as [L U].
  pose proof (pow2_pos e) as Ge. pose proof (inject_Z_pos q Hq) as Gq.
  assert (Hw : 0 < 2 ^ e * inject_Z q)
    by (apply Qmult_lt_0_compat; assumption).
  assert (Ew : inject_Z M * 2 ^ e * inject_Z q
               == inject_Z M * (2 ^ e * inject_Z q)) by ring.
  rewrite Ew in L, U.
  assert (HM : (M <= 2 ^ 53)%Z).
  { assert (H1 : 2 ^ (E + 1) <= 2 ^ (53 + e)) by (apply pow2_le; lia).
    rewrite (pow2_add 53 e) in H1.
    change (2 ^ 53) with 9007199254740992 in H1.
    set (w := 2 ^ e * inject_Z q) in *.
    assert (H2 : inject_Z p < 9007199254740992 * w).
    { eapply Qlt_le_trans; [exact B2|]. unfold w.
      rewrite Qmult_assoc. apply Qmult_le_compat_r; lra. }
    assert (H3 : inject_Z M < inject_Z (2 ^ 53 + 1)).
    { change (inject_Z (2 ^ 53 + 1)) with 9007199254740993.
      destruct (Qlt_le_dec (inject_Z M) 9007199254740993) as [Hlt|Hge];
        [exact Hlt|]. exfalso.
      assert (0 <= (inject_Z M - 9007199254740993) * w)
        by (apply Qmult_le_0_compat; lra).
      lra. }
    rewrite <- Zlt_Qlt in H3. lia. }
  assert (HL : (e <> -1074 -> 2 ^ 52 <= M)%Z).
  { intros Hne. assert (He : e = (E - 52)%Z) by lia.
    assert (H1 : 2 ^ E == 4503599627370496 * 2 ^ e).
    { replace E with (52 + e)%Z by lia. rewrite pow2_add. reflexivity. }
    rewrite H1 in B1.
    set (w := 2 ^ e * inject_Z q) in *.
    assert (H2 : 4503599627370496 * w <= inject_Z p).
    { unfold w. rewrite Qmult_assoc. exact B1. }
    assert (H3 : inject_Z (2 ^ 52 - 1) < inject_Z M).
    { change (inject_Z (2 ^ 52 - 1)) with 4503599627370495.
      destruct (Qlt_le_dec 4503599627370495 (inject_Z M)) as [Hlt|Hge];
        [exact Hlt|]. exfalso.
      assert (0 <= (4503599627370495 - inject_Z M) * w)
        by (apply Qmult_le_0_compat; lra).
      lra. }
    rewrite <- Zlt_Qlt in H3. lia. }
  assert (He : (-1074 <= e)%Z) by (unfold e; lia).
  destruct (M =? 2 ^ 53)%Z eqn:H53.
  - change (2 ^ 52)%Z with 4503599627370496%Z. cbv iota beta.
    destruct (e + 1 <=? 971)%Z eqn:H971; [|reflexivity].
    cbn [canonical]. rewrite H971.
    assert (H0 : (-1074 <=? e + 1)%Z = true) by (apply Z.leb_le; lia).
    rewrite H0.
    change (4503599627370496 <? 2 ^ 53)%Z with true.
    change (2 ^ 52 <=? 4503599627370496)%Z with true.
    rewrite orb_true_r. reflexivity.
  - apply Z.eqb_neq in H53. destruct M as [|mp|mp]; try reflexivity.
    destruct (e <=? 971)%Z eqn:H971; [|reflexivity].
    cbn [canonical]. rewrite H971.
    assert (H0 : (-1074 <=? e)%Z = true) by (apply Z.leb_le; lia).
    assert (H1 : (Zpos mp <? 2 ^ 53)%Z = true) by (apply Z.ltb_lt; lia).
    rewrite H0, H1. cbn [andb].
    destruct (e =? -1074)%Z eqn:H2; [reflexivity|].
    apply Z.eqb_neq in H2. apply Z.leb_le. apply HL. exact H2.
Qed.

End Rounding.

(* ------------------------------------------------------------------ *)
(** ** Fixed notation read back *)

Lemma digitsVal_zeros (k : nat) : digitsVal 0 (zeros k) = 0%Z.
Proof. induction k as [|k IH]; [reflexivity | exact IH]. Qed.

Lemma fixed6_value (n : Z) :
  (0 <= n)%Z ->
  exists ip fp,
    fixed6 n = ip ++ "."%char :: fp /\
    ip <> [] /\ length fp = 6 /\
    Forall (fun c => isDigit c = true) ip /\
    Forall (fun c => isDigit c = true) fp /\
    digitsVal 0 (ip ++ fp) = n.
Proof.
  intros Hn. unfold fixed6.
  set (m := zeros (7 - length (digitsOf n)) ++ digitsOf n).
  assert (Hm : Forall (fun c => isDigit c = true) m)
    by (apply Forall_app; split; [apply zeros_digits | apply digitsOf_digits]).
  assert (Hl : 7 <= length m).
  { subst m. rewrite length_app. unfold zeros. rewrite repeat_length. lia. }
  exists (firstn (length m - 6) m), (skipn (length m - 6) m).
  split; [reflexivity|]. split; [|split; [|split; [|split]]].
  - intros H. apply (f_equal (@length ascii)) in H.
    rewrite length_firstn in H. simpl in H. lia.
  - rewrite length_skipn. lia.
  - apply Forall_firstn_skipn. exact Hm.
  - apply Forall_firstn_skipn. exact Hm.
  - rewrite firstn_skipn. unfold m.
    rewrite digitsVal_app, digitsVal_zeros. apply digitsOf_val. exact Hn.
Qed.

Lemma spanDigits_all (ds : str) :
  Forall (fun c => isDigit c = true) ds -> spanDigits ds = (ds, []).
Proof.
  intros H. induction H as [|d ds Hd _ IH]; simpl; [reflexivity|].
  rewrite Hd, IH. reflexivity.
Qed.

Lemma digit_not_sign (d : ascii) : isDigit d = true -> isSign d = false.
Proof.
  intros H. destruct (isSign d) eqn:E; [|reflexivity].
  unfold isSign in E. apply orb_true_iff in E.
  destruct E as [E|E]; apply eqc_true in E; subst d; discriminate H.
Qed.

Lemma readSign_signOf (neg : bool) (d : ascii) (s : str) :
  isDigit d = true -> readSign (signOf neg ++ d :: s) = (neg, d :: s).
Proof.
  intros Hd. destruct neg; [reflexivity|].
  cbn [signOf app readSign]. rewrite (digit_not_sign d Hd). reflexivity.
Qed.

(** [Number] of a text in fixed notation. *)
Lemma readDecimal_fixed (neg : bool) (ip fp : str) :
  ip <> [] ->
  Forall (fun c => isDigit c = true) ip ->
  Forall (fun c => isDigit c = true) fp ->
  readDecimal (signOf neg ++ ip ++ "."%char :: fp)
  = Some (neg, digitsVal 0 (ip ++ fp), (0 - Z.of_nat (length fp))%Z).
Proof.
  intros Hne Hip Hfp. unfold readDecimal.
  destruct ip as [|d ip]; [contradiction|].
  cbn [app]. rewrite (readSign_signOf neg d _ (Forall_inv Hip)).
  change (d :: ip ++ "."%char :: fp) with ((d :: ip) ++ "."%char :: fp).
  rewrite (spanDigits_app (d :: ip) fp "." Hip eq_refl).
  rewrite eqc_refl, (spanDigits_all fp Hfp). reflexivity.
Qed.

Lemma dropWhile_all (p : ascii -> bool) (s : str) :
  Forall (fun c => p c = true) s -> dropWhile p s = [].
Proof.
  intros H. induction H as [|c s Hc _ IH]; simpl; [reflexivity|].
  rewrite Hc. exact IH.
Qed.

Lemma digit_digitOrDot (c : ascii) : isDigit c = true -> isDigitOrDot c = true.
Proof. intros H. unfold isDigitOrDot. rewrite H. reflexivity. Qed.

(** A text in fixed notation is a numeral that is read whole. *)
Lemma numberText_fixed (neg : bool) (ip fp : str) :
  ip <> [] ->
  Forall (fun c => isDigit c = true) ip ->
  Forall (fun c => isDigit c = true) fp ->
  numberText (signOf neg ++ ip ++ "."%char :: fp)
  = signOf neg ++ ip ++ "."%char :: fp.
Proof.
  intros Hne Hip Hfp.
  assert (Hb : Forall (fun c => isDigitOrDot c = true) (ip ++ "."%char :: fp)).
  { apply Forall_app. split.
    - eapply Forall_impl; [|exact Hip]. apply digit_digitOrDot.
    - constructor; [reflexivity|].
      eapply Forall_impl; [|exact Hfp]. apply digit_digitOrDot. }
  assert (Es : signText (signOf neg ++ ip ++ "."%char :: fp) = signOf neg).
  { destruct ip as [|d ip]; [contradiction|]. destruct neg; [reflexivity|].
    cbn [signOf app signText].
    rewrite (digit_not_sign d (Forall_inv Hip)). reflexivity. }
  unfold numberText. rewrite Es.
  assert (Ek : skipn (length (signOf neg))
                 (signOf neg ++ ip ++ "."%char :: fp)
               = ip ++ "."%char :: fp) by (destruct neg; reflexivity).
  rewrite Ek, (takeWhile_fixed _ _ Hb), (dropWhile_all _ _ Hb).
  cbn [expText]. rewrite app_nil_r. reflexivity.
Qed.

Lemma scaled6_nonneg (m e : Z) : (0 < m)%Z -> (0 <= scaled6 m e)%Z.
Proof.
  intros Hm. unfold scaled6. destruct (0 <=? e)%Z eqn:He.
  - apply Z.leb_le in He.
    pose proof (Z.pow_pos_nonneg 2 e ltac:(lia) He). nia.
  - apply Z.leb_gt in He. apply Z.div_pos.
    + pose proof (Z.pow_pos_nonneg 2 (- e) ltac:(lia) ltac:(lia)). lia.
    + apply Z.pow_pos_nonneg; lia.
Qed.

(** The rendering of a small finite number. *)
Lemma toFixed6_plain (neg : bool) (m : positive) (e : Z) :
  ((0 <=? e) && (10 ^ 21 <=? Zpos m * 2 ^ e))%Z = false ->
  toFixed6 (S754_finite neg m e) = signOf neg ++ fixed6 (scaled6 (Zpos m) e).
Proof. intros H. cbn [toFixed6]. rewrite H. destruct neg; reflexivity. Qed.

(** Every canonical plain number is stable. *)
Lemma plainNumber_stable (x : float) :
  canonical x = true -> plainNumber x = true -> stableNumber x = true.
Proof.
  destruct x as [s| | |neg m e]; try discriminate.
  { intros _ _. destruct s; reflexivity. }
  cbn [canonical plainNumber isSmallFinite].
  rewrite !andb_true_iff, !negb_true_iff.
  intros [[[Hm _] _] _] [Hs Hz]. apply Z.ltb_lt in Hm.
  unfold stableNumber. cbv zeta. rewrite (toFixed6_plain neg m e Hs).
  pose proof (scaled6_nonneg (Zpos m) e ltac:(lia)) as HN.
  destruct (fixed6_value _ HN) as (ip & fp & E & Hne & Hl & Hip & Hfp & Ev).
  rewrite E, (numberText_fixed neg ip fp Hne Hip Hfp).
  apply andb_true_iff. split; [apply eqs_true; reflexivity|].
  apply eqs_true. unfold Number.
  rewrite (readDecimal_fixed neg ip fp Hne Hip Hfp), Ev, Hl.
  unfold roundDecimal. change (0 <=? 0 - Z.of_nat 6)%Z with false.
  change (10 ^ (- (0 - Z.of_nat 6)))%Z with (10 ^ 6)%Z.
  destruct (scaled6 (Zpos m) e =? 0)%Z eqn:H0.
  - rewrite andb_true_r in Hz. subst neg.
    apply Z.eqb_eq in H0. rewrite H0 in E.
    rewrite <- E. reflexivity.
  - apply Z.eqb_neq in H0.
    destruct (reread_scaled6 neg (Zpos m) e ltac:(lia) Hs ltac:(lia))
      as (m' & e' & Er & Es & Hs').
    rewrite Er, (toFixed6_plain neg m' e' Hs'), Es, E. reflexivity.
Qed.

(* ------------------------------------------------------------------ *)
(** ** Exponent notation read back *)

Lemma sciNotation_sciText (d : ascii) (ds : str) (n : Z) :
  sciNotation (d :: ds) n = sciText d ds (digitsOf (n - 1)).
Proof. destruct ds; reflexivity. Qed.

Lemma sciText_body (d : ascii) (ds digs : str) :
  isDigit d = true ->
  Forall (fun c => isDigit c = true) ds ->
  exists mant,
    sciText d ds digs = (d :: mant) ++ "e"%char :: "+"%char :: digs /\
    Forall (fun c => isDigitOrDot c = true) (d :: mant).
Proof.
  intros Hd Hds. unfold sciText.
  exists (match ds with [] => [] | _ => "."%char :: ds end).
  split; [rewrite <- app_comm_cons; reflexivity|].
  constructor; [apply digit_digitOrDot; exact Hd|].
  destruct ds as [|c ds]; [constructor|].
  constructor; [reflexivity|].
  eapply Forall_impl; [|exact Hds]. apply digit_digitOrDot.
Qed.

(** A text in exponent notation is a numeral that is read whole. *)
Lemma numberText_sci (neg : bool) (d : ascii) (ds digs : str) :
  isDigit d = true ->
  Forall (fun c => isDigit c = true) ds ->
  Forall (fun c => isDigit c = true) digs ->
  numberText (signOf neg ++ sciText d ds digs)
  = signOf neg ++ sciText d ds digs.
Proof.
  intros Hd Hds Hdigs.
  destruct (sciText_body d ds digs Hd Hds) as (mant & E & Hm).
  rewrite E.
  assert (Es : signText (signOf neg ++ (d :: mant) ++ "e"%char :: "+"%char :: digs)
               = signOf neg).
  { destruct neg; [reflexivity|]. cbn [signOf app signText].
    rewrite (digit_not_sign d Hd). reflexivity. }
  unfold numberText. rewrite Es.
  assert (Ek : skipn (length (signOf neg))
                 (signOf neg ++ (d :: mant) ++ "e"%char :: "+"%char :: digs)
               = (d :: mant) ++ "e"%char :: "+"%char :: digs)
    by (destruct neg; reflexivity).
  rewrite Ek.
  rewrite (takeWhile_app_stop isDigitOrDot (d :: mant) _ "e" eq_refl).
  rewrite (dropWhile_app_stop isDigitOrDot (d :: mant) _ "e" eq_refl).
  rewrite (takeWhile_fixed _ _ Hm), (dropWhile_all _ _ Hm).
  cbn [app expText isExpMark eqc Ascii.eqb Bool.eqb orb signText isSign
       length skipn].
  rewrite (takeWhile_fixed _ _ Hdigs). reflexivity.
Qed.

Lemma spanDigits_one (d c : ascii) (r : str) :
  isDigit d = true -> isDigit c = false ->
  spanDigits (d :: c :: r) = ([d], c :: r).
Proof. intros Hd Hc. simpl. rewrite Hd, Hc. reflexivity. Qed.

(** [Number] of a text in exponent notation. *)
Lemma readDecimal_sci (neg : bool) (d : ascii) (ds digs : str) :
  isDigit d = true ->
  Forall (fun c => isDigit c = true) ds ->
  Forall (fun c => isDigit c = true) digs ->
  digs <> [] ->
  readDecimal (signOf neg ++ sciText d ds digs)
  = Some (neg, digitsVal 0 (d :: ds),
          (digitsVal 0 digs - Z.of_nat (length ds))%Z).
Proof.
  intros Hd Hds Hdigs Hne. unfold readDecimal, sciText.
  rewrite (readSign_signOf neg d _ Hd).
  assert (Ex : readExponent ("e"%char :: "+"%char :: digs)
               = Some (digitsVal 0 digs)).
  { cbn [readExponent isExpMark eqc Ascii.eqb Bool.eqb orb
                   readSign isSign andb].
    rewrite (spanDigits_all digs Hdigs).
    destruct digs; [contradiction | reflexivity]. }
  destruct ds as [|c ds].
  - cbn [app lit list_ascii_of_string].
    rewrite (spanDigits_one d "e" _ Hd eq_refl).
    cbn [eqc Ascii.eqb Bool.eqb app]. rewrite Ex. reflexivity.
  - cbn [app lit list_ascii_of_string].
    rewrite (spanDigits_one d "." _ Hd eq_refl).
    rewrite eqc_refl.
    change (c :: ds ++ "e"%char :: "+"%char :: digs)
      with ((c :: ds) ++ "e"%char :: "+"%char :: digs).
    rewrite (spanDigits_app (c :: ds) _ "e" Hds eq_refl).
    cbn [app]. rewrite Ex. reflexivity.
Qed.

(** [roundRatio] returns a binary64 integer as it is. *)
Lemma roundRatio_exact (neg : bool) (m : positive) (e : Z) :
  (2 ^ 52 <= Zpos m < 2 ^ 53)%Z -> (0 <= e <= 971)%Z ->
  roundRatio neg (Zpos m * 2 ^ e) 1 = S754_finite neg m e.
Proof.
  intros [Hm1 Hm2] [He1 He2].
  assert (Hp : (0 < 2 ^ e)%Z) by (apply Z.pow_pos_nonneg; lia).
  assert (Hl : Z.log2 (Zpos m * 2 ^ e) = (52 + e)%Z).
  { rewrite Z.log2_mul_pow2 by lia.
    rewrite (Z.log2_unique (Zpos m) 52) by (change (2 ^ (52 + 1))%Z with (2 ^ 53)%Z; lia).
    lia. }
  assert (Hb : binade (Zpos m * 2 ^ e) 1 = (52 + e)%Z).
  { unfold binade. rewrite Hl. change (Z.log2 1) with 0%Z.
    rewrite Z.sub_0_r.
    assert (H0 : (0 <=? 52 + e)%Z = true) by (apply Z.leb_le; lia).
    rewrite H0.
    assert (H1 : (1 * 2 ^ (52 + e) <=? Zpos m * 2 ^ e)%Z = true).
    { apply Z.leb_le. rewrite Z.pow_add_r by lia. nia. }
    rewrite H1. reflexivity. }
  unfold roundRatio. rewrite Hb.
  replace (52 + e - 52)%Z with e by lia. rewrite Z.max_l by lia.
  assert (H0 : (0 <=? e)%Z = true) by (apply Z.leb_le; lia). rewrite H0.
  assert (Hd : divNearestEven (Zpos m * 2 ^ e) (1 * 2 ^ e) = Zpos m).
  { unfold divNearestEven. rewrite Z.mul_1_l.
    rewrite Z.div_mul by lia. rewrite Z.mod_mul by lia.
    assert (Hc : (2 * 0 ?= 2 ^ e)%Z = Lt) by (apply Z.compare_lt_iff; lia).
    rewrite Hc. reflexivity. }
  rewrite Hd.
  assert (H53 : (Zpos m =? 2 ^ 53)%Z = false) by (apply Z.eqb_neq; lia).
  rewrite H53.
  assert (H971 : (e <=? 971)%Z = true) by (apply Z.leb_le; lia).
  rewrite H971. reflexivity.
Qed.

Lemma rev_zeros (k : nat) : rev (zeros k) = zeros k.
Proof.
  unfold zeros. induction k as [|k IH]; [reflexivity|].
  cbn [repeat rev]. rewrite IH. symmetry. apply repeat_cons.
Qed.

Lemma stripZeros_split (r : str) : exists k, r = zeros k ++ stripZeros r.
Proof.
  induction r as [|c r [k IH]]; [exists 0; reflexivity|].
  cbn [stripZeros]. destruct (eqc c "0") eqn:E.
  - apply eqc_true in E. subst c. exists (S k).
    cbn [zeros repeat app]. f_equal. exact IH.
  - exists 0. reflexivity.
Qed.

Lemma stripZerosEnd_split (s : str) :
  exists k, s = stripZerosEnd s ++ zeros k.
Proof.
  unfold stripZerosEnd. destruct (stripZeros_split (rev s)) as [k E].
  exists k. rewrite <- (rev_involutive s) at 1. rewrite E at 1.
  rewrite rev_app_distr, rev_zeros. reflexivity.
Qed.

(** The digits without their trailing zeros, and the zeros dropped,
    give the number back. *)
Lemma stripZerosEnd_val (n : Z) :
  (0 <= n)%Z ->
  exists k : nat,
    length (digitsOf n) = length (stripZerosEnd (digitsOf n)) + k /\
    n = (digitsVal 0 (stripZerosEnd (digitsOf n)) * 10 ^ Z.of_nat k)%Z.
Proof.
  intros Hn. destruct (stripZerosEnd_split (digitsOf n)) as [k E].
  exists k. split.
  - rewrite E at 1. rewrite length_app. unfold zeros.
    rewrite repeat_length. reflexivity.
  - rewrite <- (digitsOf_val n Hn) at 1. rewrite E at 1.
    rewrite digitsVal_app, digitsVal_acc, digitsVal_zeros.
    unfold zeros. rewrite repeat_length. lia.
Qed.

Lemma sameFloat_eq (a b : float) : sameFloat a b = true -> a = b.
Proof.
  destruct a as [| | |s m e], b as [| | |s' m' e']; try discriminate.
  cbn [sameFloat]. rewrite !andb_true_iff.
  intros [[H1 H2] H3]. apply Bool.eqb_prop in H1. apply Pos.eqb_eq in H2.
  apply Z.eqb_eq in H3. subst. reflexivity.
Qed.

Lemma roundRatio_sign (neg : bool) (p q : Z) (m : positive) (e : Z) :
  roundRatio false p q = S754_finite false m e ->
  roundRatio neg p q = S754_finite neg m e.
Proof.
  unfold roundRatio. cbv zeta.
  destruct (if (_ =? 2 ^ 53)%Z then _ else _) as [m' e'].
  destruct m' as [|mp|mp]; try discriminate.
  destruct (e' <=? 971)%Z; [|discriminate].
  intros H. injection H as -> ->. reflexivity.
Qed.

Lemma roundDecimal_sign (neg : bool) (m e10 : Z) (mm : positive) (ee : Z) :
  roundDecimal false m e10 = S754_finite false mm ee ->
  roundDecimal neg m e10 = S754_finite neg mm ee.
Proof.
  unfold roundDecimal. destruct (m =? 0)%Z; [discriminate|].
  destruct (0 <=? e10)%Z; apply roundRatio_sign.
Qed.

Lemma digitsOfAux_nonempty (fuel : nat) (n : Z) (acc : str) :
  digitsOfAux fuel n acc <> [].
Proof.
  revert n acc. induction fuel as [|fuel IH]; intros n acc; cbn [digitsOfAux].
  - discriminate.
  - destruct (n / 10 =? 0)%Z; [discriminate | apply IH].
Qed.

Lemma digitsOf_nonempty (n : Z) : digitsOf n <> [].
Proof. apply digitsOfAux_nonempty. Qed.

Lemma sciNotation_shaped (d : ascii) (ds : str) (n : Z) :
  Forall (fun c => isDigit c = true) (d :: ds) ->
  sciShaped (sciNotation (d :: ds) n).
Proof.
  intros H. rewrite sciNotation_sciText.
  exists d, ds, (digitsOf (n - 1)). split; [reflexivity|].
  split; [exact (Forall_inv H)|]. split; [exact (Forall_inv_tail H)|].
  split; [apply digitsOf_digits | apply digitsOf_nonempty].
Qed.

(** A candidate reads back as the number and is in exponent notation. *)
Lemma candidate_result (x : float) (t : nat) (s : Z) (txt : str) :
  candidate x t s = Some txt -> Number txt = x /\ sciShaped txt.
Proof.
  unfold candidate.
  pose proof (stripZerosEnd_digits _ (digitsOf_digits s)) as Hd.
  destruct (stripZerosEnd (digitsOf s)) as [|d ds] eqn:E.
  - cbn [sciNotation]. discriminate.
  - destruct (sameFloat _ x) eqn:Hs; [|discriminate].
    intros H. apply Some_eq in H. subst txt.
    split; [apply sameFloat_eq; exact Hs | apply sciNotation_shaped; exact Hd].
Qed.

(** All the digits of a binary64 integer read back as the number. *)
Lemma allDigits_result (m : positive) (e : Z) :
  (2 ^ 52 <= Zpos m < 2 ^ 53)%Z -> (0 <= e <= 971)%Z ->
  let X := (Zpos m * 2 ^ e)%Z in
  let txt := sciNotation (stripZerosEnd (digitsOf X))
               (Z.of_nat (length (digitsOf X))) in
  Number txt = S754_finite false m e /\ sciShaped txt.
Proof.
  intros Hm He X txt.
  assert (HX : (0 < X)%Z).
  { unfold X. apply Z.mul_pos_pos; [lia | apply Z.pow_pos_nonneg; lia]. }
  pose proof (stripZerosEnd_digits _ (digitsOf_digits X)) as Hd.
  pose proof (stripZerosEnd_nonempty X HX) as Hne.
  destruct (stripZerosEnd_val X ltac:(lia)) as (k & Hl & Hv).
  pose proof (digitsOf_nonempty X) as Hn.
  subst txt. destruct (stripZerosEnd (digitsOf X)) as [|d ds]; [contradiction|].
  split; [|apply sciNotation_shaped; exact Hd].
  rewrite sciNotation_sciText. unfold Number.
  pose proof (readDecimal_sci false d ds
                (digitsOf (Z.of_nat (length (digitsOf X)) - 1))
                (Forall_inv Hd) (Forall_inv_tail Hd)
                (digitsOf_digits _) (digitsOf_nonempty _)) as Er.
  cbn [signOf app] in Er. rewrite Er.
  assert (Hlen : 1 <= length (digitsOf X))
    by (destruct (digitsOf X); [contradiction | simpl; lia]).
  rewrite digitsOf_val by lia.
  cbn [length] in Hl.
  replace (Z.of_nat (length (digitsOf X)) - 1 - Z.of_nat (length ds))%Z
    with (Z.of_nat k) by lia.
  unfold roundDecimal.
  assert (Hv0 : (digitsVal 0 (d :: ds) =? 0)%Z = false).
  { apply Z.eqb_neq. intros H0. rewrite H0 in Hv. lia. }
  rewrite Hv0.
  assert (Hk : (0 <=? Z.of_nat k)%Z = true) by (apply Z.leb_le; lia).
  rewrite Hk, <- Hv. apply roundRatio_exact; assumption.
Qed.

Lemma shortest_result (P : str -> Prop) (x : float) (X : Z) (d : nat) :
  (forall t s txt, candidate x t s = Some txt -> P txt) ->
  P (sciNotation (stripZerosEnd (digitsOf X)) (Z.of_nat d)) ->
  forall fuel k, P (shortest fuel k x X d).
Proof.
  intros Hc Hf.
  induction fuel as [|fuel IH]; intros k; cbn [shortest];
    repeat (match goal with
            | |- context [candidate ?a ?b ?c] =>
                let E := fresh "E" in
                destruct (candidate a b c) as [txt|] eqn:E
            end;
            try (eapply Hc; eassumption)).
  - exact Hf.
  - apply IH.
Qed.

(** The rendering of a canonical number from [10 ^ 21] on is in exponent
    notation and reads back as the number. *)
Lemma toFixed6_large (neg : bool) (m : positive) (e : Z) :
  canonical (S754_finite neg m e) = true ->
  ((0 <=? e) && (10 ^ 21 <=? Zpos m * 2 ^ e))%Z = true ->
  exists txt,
    toFixed6 (S754_finite neg m e) = signOf neg ++ txt /\
    Number txt = S754_finite false m e /\ sciShaped txt.
Proof.
  intros Hc Hb. pose proof Hb as Hb'. revert Hc Hb'.
  cbn [canonical]. rewrite !andb_true_iff, orb_true_iff.
  rewrite !Z.ltb_lt, !Z.leb_le, Z.eqb_eq.
  intros [[[Hm _] He] Hn] [He0 Hbig].
  assert (Hm2 : (2 ^ 52 <= Zpos m)%Z) by (destruct Hn as [Hn|Hn]; lia).
  exists (toStringLarge (S754_finite false m e) (Zpos m * 2 ^ e)).
  split; [cbn [toFixed6]; rewrite Hb; destruct neg; reflexivity|].
  unfold toStringLarge.
  apply (shortest_result
           (fun txt => Number txt = S754_finite false m e /\ sciShaped txt)).
  - intros t s txt. apply candidate_result.
  - apply allDigits_result; lia.
Qed.

(** A canonical number from [10 ^ 21] on is stable. *)
Lemma largeNumber_stable (neg : bool) (m : positive) (e : Z) :
  canonical (S754_finite neg m e) = true ->
  ((0 <=? e) && (10 ^ 21 <=? Zpos m * 2 ^ e))%Z = true ->
  stableNumber (S754_finite neg m e) = true.
Proof.
  intros Hc Hb.
  destruct (toFixed6_large neg m e Hc Hb)
    as (txt & Ef & En & d & ds & digs & Es & Hd & Hds & Hdigs & Hne).
  assert (EN : Number (signOf neg ++ txt) = S754_finite neg m e).
  { rewrite Es. unfold Number.
    rewrite (readDecimal_sci neg d ds digs Hd Hds Hdigs Hne).
    apply roundDecimal_sign.
    rewrite Es in En. unfold Number in En.
    pose proof (readDecimal_sci false d ds digs Hd Hds Hdigs Hne) as Er.
    cbn [signOf app] in Er. rewrite Er in En. exact En. }
  unfold stableNumber. cbv zeta. rewrite Ef, EN, Ef, Es.
  rewrite (numberText_sci neg d ds digs Hd Hds Hdigs).
  apply andb_true_iff. split; apply eqs_true; reflexivity.
Qed.

(** A text in exponent notation is not in fixed notation. *)
Lemma sciShaped_not_fixed (neg : bool) (txt : str) :
  sciShaped txt -> isFixed6 (signOf neg ++ txt) = false.
Proof.
  intros (d & ds & digs & E & Hd & Hds & _). subst txt.
  assert (Hu : isUnsignedFixed6 (sciText d ds digs) = false).
  { unfold isUnsignedFixed6, sciText. destruct ds as [|c ds].
    - cbn [app lit list_ascii_of_string].
      rewrite (spanDigits_one d "e" _ Hd eq_refl). reflexivity.
    - cbn [app lit list_ascii_of_string].
      rewrite (spanDigits_one d "." _ Hd eq_refl). rewrite eqc_refl.
      change (c :: ds ++ "e"%char :: "+"%char :: digs)
        with ((c :: ds) ++ "e"%char :: "+"%char :: digs).
      rewrite forallb_app. cbn [forallb]. 
      change (isDigit "e") with false.
      rewrite andb_false_r. cbn [andb]. rewrite andb_false_r. reflexivity. }
  destruct neg.
  - cbn [signOf app isFixed6]. rewrite eqc_refl. exact Hu.
  - cbn [signOf app]. unfold sciText in *. cbn [isFixed6].
    rewrite (digit_not_minus d Hd). exact Hu.
Qed.


Lemma digitVal_nonneg (c : ascii) : isDigit c = true -> (0 <= digitVal c)%Z.
Proof.
  unfold isDigit, digitVal. cbv zeta. rewrite andb_true_iff, Nat.leb_le.
  intros [H _]. lia.
Qed.

Lemma digitsVal_nonneg (ds : str) :
  Forall (fun c => isDigit c = true) ds ->
  forall acc, (0 <= acc)%Z -> (0 <= digitsVal acc ds)%Z.
Proof.
  intros H. induction H as [|c ds Hc _ IH]; intros acc Ha; [exact Ha|].
  cbn [digitsVal]. apply IH. pose proof (digitVal_nonneg c Hc). lia.
Qed.

Lemma spanDigits_digits (s : str) :
  Forall (fun c => isDigit c = true) (fst (spanDigits s)).
Proof.
  induction s as [|c s IH]; simpl; [constructor|].
  destruct (isDigit c) eqn:E; [|constructor].
  destruct (spanDigits s) as [ds r]. constructor; [exact E | exact IH].
Qed.

Lemma readDecimal_nonneg (s : str) (neg : bool) (m e10 : Z) :
  readDecimal s = Some (neg, m, e10) -> (0 <= m)%Z.
Proof.
  unfold readDecimal. destruct (readSign s) as [sg s0].
  pose proof (spanDigits_digits s0) as Hip.
  destruct (spanDigits s0) as [ip s1]. cbn [fst] in Hip.
  assert (Hfp : Forall (fun c => isDigit c = true)
                  (fst (match s1 with
                        | c :: s1' =>
                            if eqc c "." then spanDigits s1' else ([], s1)
                        | [] => ([], [])
                        end))).
  { destruct s1 as [|c s1']; [constructor|].
    destruct (eqc c "."); [apply spanDigits_digits | constructor]. }
  destruct (match s1 with
            | c :: s1' => if eqc c "." then spanDigits s1' else ([], s1)
            | [] => ([], [])
            end) as [fp s2]. cbn [fst] in Hfp.
  assert (Hd : Forall (fun c => isDigit c = true) (ip ++ fp))
    by (apply Forall_app; split; assumption).
  destruct (ip ++ fp) as [|d ds] eqn:Ed; [discriminate|].
  destruct (readExponent s2); [|discriminate].
  intros H. injection H as _ Hm _. subst m.
  exact (digitsVal_nonneg (d :: ds) Hd 0%Z (Z.le_refl 0)).
Qed.

(** A parsed number is canonical. *)
Lemma Number_canonical (s : str) : canonical (Number s) = true.
Proof.
  unfold Number. destruct (readDecimal s) as [[[neg m] e10]|] eqn:E;
    [|reflexivity].
  apply readDecimal_nonneg in E. unfold roundDecimal.
  destruct (m =? 0)%Z eqn:H0; [reflexivity|]. apply Z.eqb_neq in H0.
  destruct (0 <=? e10)%Z eqn:He.
  - apply Z.leb_le in He. apply roundRatio_canonical; [|lia].
    apply Z.mul_pos_pos; [lia | apply Z.pow_pos_nonneg; lia].
  - apply Z.leb_gt in He. apply roundRatio_canonical; [lia|].
    apply Z.pow_pos_nonneg; lia.
Qed.

(* ================================================================== *)
(** * Formatting twice *)

Lemma numberOf_canonical (n : nat) (c : Cursor) :
  Forall (fun x => canonical x = true) (numberOf (numberAt n c)).
Proof.
  unfold numberOf, numberAt, numberTok.
  destruct (numberText (snd c)) as [|d ds]; cbn; [constructor|].
  constructor; [apply Number_canonical | constructor].
Qed.

(** The numbers of a parsed line are canonical. *)
Lemma numbers_canonical (line : str) (n : nat) :
  Forall (fun x => canonical x = true) (numbers (hkannoNodeOf line n)).
Proof.
  unfold hkannoNodeOf.
  destruct (startsWith (trimStart line) (lit "#")); [constructor|].
  destruct (startsWith (toLowerCase (trimStart line)) (lit "trackname:"));
    [constructor|].
  destruct (includes (toLowerCase line) (lit "animrotation")).
  { unfold rotationNodeOf. cbn [numbers Rotation.time Rotation.degrees].
    repeat (apply Forall_app; split); apply numberOf_canonical. }
  destruct (includes (toLowerCase line) (lit "animmotion")).
  { unfold motionNodeOf. cbn [numbers Motion.time Motion.x Motion.y Motion.z].
    repeat (apply Forall_app; split); apply numberOf_canonical. }
  unfold textNodeOf. cbn [numbers Text.time]. apply numberOf_canonical.
Qed.

(** A canonical steady number is stable. *)
Lemma steadyNumber_stable (x : float) :
  canonical x = true -> steadyNumber x = true -> stableNumber x = true.
Proof.
  intros Hc H. unfold steadyNumber in H. apply andb_true_iff in H.
  destruct H as [Hf Hz]. apply negb_true_iff in Hz.
  destruct x as [s| | |neg m e]; try discriminate Hf.
  { apply plainNumber_stable; reflexivity. }
  destruct ((0 <=? e) && (10 ^ 21 <=? Zpos m * 2 ^ e))%Z eqn:Hb.
  - apply largeNumber_stable; assumption.
  - apply plainNumber_stable; [exact Hc|].
    cbn [plainNumber isSmallFinite]. rewrite Hb. cbn [negb andb].
    destruct neg; [|reflexivity].
    cbn [roundsToMinusZero isSmallFinite] in Hz. rewrite Hb in Hz.
    cbn [negb andb] in Hz. rewrite Hz. reflexivity.
Qed.

Lemma split_nl_lines (s : str) : Forall noNewline (split_nl s).
Proof.
  induction s as [|c s IH]; simpl; [repeat constructor|].
  destruct (eqc c newline) eqn:E; [constructor; [constructor | exact IH]|].
  destruct (split_nl s) as [|l ls]; [repeat constructor|].
  - intros Hc. subst c. discriminate E.
  - constructor; [|exact (Forall_inv_tail IH)].
    constructor; [|exact (Forall_inv IH)].
    intros Hc. subst c. discriminate E.
Qed.

Lemma steadyLine_numbers (fuel : nat) (line : str) :
  length line <= fuel -> steadyLine fuel line = true ->
  Forall (fun x => stableNumber x = true) (numbers (hkannoNodeOf line 1)).
Proof.
  intros Hf. unfold steadyLine. rewrite parseHkannoLine_eq by exact Hf.
  intros H. rewrite forallb_forall in H.
  pose proof (numbers_canonical line 1) as Hb. rewrite Forall_forall in Hb.
  apply Forall_forall. intros x Hx.
  apply steadyNumber_stable; [apply Hb | apply H]; exact Hx.
Qed.

Lemma map_lineOut_idem (fuel : nat) (lines : list str) :
  Forall (fun l => length l <= fuel) lines ->
  Forall noNewline lines ->
  forallb (steadyLine fuel) lines = true ->
  map lineOut (map lineOut lines) = map lineOut lines.
Proof.
  intros Hf Hn. revert Hf.
  induction Hn as [|l lines Hl _ IH]; intros Hf Hs; [reflexivity|].
  cbn [forallb] in Hs. apply andb_true_iff in Hs. destruct Hs as [H1 H2].
  cbn [map]. f_equal.
  - apply (lineOut_idem l 1 Hl).
    apply (steadyLine_numbers fuel); [exact (Forall_inv Hf) | exact H1].
  - apply IH; [exact (Forall_inv_tail Hf) | exact H2].
Qed.

(** C2, as the code has it.  Formatting a text whose numbers are all
    steady returns a text that formatting leaves as it is.  A number is
    steady when it is finite and is not a negative number that rounds to
    zero at six decimals.  The other numbers are the value NaN of a field
    whose text is not a numeral, the infinite values, and the negative
    numbers rendered -0.000000. *)
Theorem format_idempotent_on_steady_numbers (fuel : nat) (text : str) :
  length text <= fuel ->
  steadyNumbers fuel text = true ->
  exists out,
    formatHkannoText fuel text = Ok out /\
    forall fuel', length out <= fuel' -> formatHkannoText fuel' out = Ok out.
Proof.
  intros Hf Hs. exists (join [newline] (map lineOut (split_nl text))).
  split; [apply formatHkannoText_eq; exact Hf|].
  intros fuel' Hf'. rewrite formatHkannoText_eq by exact Hf'.
  rewrite split_nl_formatted. f_equal. f_equal.
  apply (map_lineOut_idem fuel).
  - eapply Forall_impl; [|apply split_nl_lengths]. simpl. intros l Hl. lia.
  - apply split_nl_lines.
  - exact Hs.
Qed.

Lemma format_idempotent_on_steady_numbers_witness :
  exists out,
    formatHkannoText 50
      (lit " 1.0   animmotion 1 -2.5 3 " ++ newline :: lit "0.25  text"
       ++ newline :: lit "1e21 far")
    = Ok out /\
    forall fuel', length out <= fuel' -> formatHkannoText fuel' out = Ok out.
Proof.
  apply (format_idempotent_on_steady_numbers 50
           (lit " 1.0   animmotion 1 -2.5 3 " ++ newline :: lit "0.25  text"
            ++ newline :: lit "1e21 far")).
  - simpl. lia.
  - vm_compute. reflexivity.
Defined.

(** C2 as stated fails: a field whose text is not a numeral is rendered
    NaN, and the formatted line is then read as a line without fields; a
    negative number that rounds to zero loses its sign the second time. *)
Lemma format_not_idempotent :
  formatHkannoText 16 (lit "e animrotation") = Ok (lit "NaN animrotation") /\
  formatHkannoText 16 (lit "NaN animrotation") = Ok [] /\
  formatHkannoText 12 (lit "-0.0000001 x") = Ok (lit "-0.000000 x") /\
  formatHkannoText 12 (lit "-0.000000 x") = Ok (lit "0.000000 x") /\
  ~ formatIdempotent.
Proof.
  split; [vm_compute; reflexivity|].
  split; [vm_compute; reflexivity|].
  split; [vm_compute; reflexivity|].
  split; [vm_compute; reflexivity|].
  intros H.
  assert (E : formatHkannoText 16 (lit "e animrotation")
              = Ok (lit "NaN animrotation")) by (vm_compute; reflexivity).
  apply (H 16) in E; [|simpl; lia|simpl; lia].
  vm_compute in E. discriminate E.
Qed.

(* ================================================================== *)
(** * Rendering of parsed numbers *)

(** A parsed number is rendered in fixed notation exactly when it is
    finite and below [10 ^ 21]. *)
Lemma fixed6_iff_small (x : float) :
  canonical x = true ->
  isFixed6 (formatValue (Some (VNumber x))) = isSmallFinite x.
Proof.
  intros Hc. destruct x as [s|[|]| |neg m e]; try reflexivity.
  cbn [formatValue].
  destruct (isSmallFinite (S754_finite neg m e)) eqn:Hs.
  - apply toFixed6_small. exact Hs.
  - cbn [isSmallFinite] in Hs. apply negb_false_iff in Hs.
    destruct (toFixed6_large neg m e Hc Hs) as (txt & Ef & _ & Hshape).
    rewrite Ef. apply sciShaped_not_fixed. exact Hshape.
Qed.

(** C7, as the code has it.  A parsed number that is finite and below
    [10 ^ 21] in magnitude is rendered by the formatter in fixed notation
    (an optional minus, digits, a dot and exactly six digits), negative
    and zero values included: the lines "90" and "-90.5" are formatted
    90.000000 and -90.500000.  A finite parsed number from [10 ^ 21] on is
    not: it is rendered in exponent notation, after a minus when it is
    negative, and the line "1e21" is formatted 1e+21. *)
Theorem finite_numbers_render_fixed6 (fuel : nat) (line : str) (n : nat)
    (node : HkannoNode) (x : float) :
  length line <= fuel ->
  parseHkannoLine fuel line n = Ok node ->
  In x (numbers node) ->
  isFiniteNumber x = true ->
  (isSmallFinite x = true ->
   isFixed6 (formatValue (Some (VNumber x))) = true) /\
  (isSmallFinite x = false ->
   isFixed6 (formatValue (Some (VNumber x))) = false /\
   exists neg txt,
     formatValue (Some (VNumber x)) = signOf neg ++ txt /\ sciShaped txt) /\
  formatHkannoText 2 (lit "90") = Ok (lit "90.000000") /\
  formatHkannoText 5 (lit "-90.5") = Ok (lit "-90.500000") /\
  formatHkannoText 4 (lit "1e21") = Ok (lit "1e+21").
Proof.
  intros Hf Hp Hx Hfin.
  rewrite parseHkannoLine_eq in Hp by exact Hf. apply Ok_eq in Hp.
  subst node.
  assert (Hc : canonical x = true).
  { pose proof (numbers_canonical line n) as Hc.
    rewrite Forall_forall in Hc. apply Hc. exact Hx. }
  split; [|split; [|repeat split; vm_compute; reflexivity]].
  - intros Hs. rewrite fixed6_iff_small by exact Hc. exact Hs.
  - intros Hs. split; [rewrite fixed6_iff_small by exact Hc; exact Hs|].
    destruct x as [s|s| |neg m e]; try discriminate.
    cbn [isSmallFinite] in Hs. apply negb_false_iff in Hs.
    destruct (toFixed6_large neg m e Hc Hs) as (txt & Ef & _ & Hshape).
    exists neg, txt. split; [exact Ef | exact Hshape].
Qed.

Lemma finite_numbers_render_fixed6_witness :
  exists node,
    length (lit "  -1.25 animrotation -90.5 ") <= 27 /\
    parseHkannoLine 27 (lit "  -1.25 animrotation -90.5 ") 1 = Ok node /\
    In (Number (lit "-90.5")) (numbers node) /\
    isFiniteNumber (Number (lit "-90.5")) = true /\
    isSmallFinite (Number (lit "-90.5")) = true /\
    isFixed6 (formatValue (Some (VNumber (Number (lit "-90.5"))))) = true.
Proof.
  exists (hkannoNodeOf (lit "  -1.25 animrotation -90.5 ") 1).
  assert (Hf : length (lit "  -1.25 animrotation -90.5 ") <= 27)
    by (simpl; lia).
  assert (Hp : parseHkannoLine 27 (lit "  -1.25 animrotation -90.5 ") 1
               = Ok (hkannoNodeOf (lit "  -1.25 animrotation -90.5 ") 1))
    by (vm_compute; reflexivity).
  assert (Hx : In (Number (lit "-90.5"))
                 (numbers (hkannoNodeOf (lit "  -1.25 animrotation -90.5 ") 1)))
    by (vm_compute; right; left; reflexivity).
  assert (Hn : isFiniteNumber (Number (lit "-90.5")) = true)
    by (vm_compute; reflexivity).
  assert (Hs : isSmallFinite (Number (lit "-90.5")) = true)
    by (vm_compute; reflexivity).
  split; [exact Hf|]. split; [exact Hp|]. split; [exact Hx|].
  split; [exact Hn|]. split; [exact Hs|].
  destruct (finite_numbers_render_fixed6 27
              (lit "  -1.25 animrotation -90.5 ") 1 _ _ Hf Hp Hx Hn)
    as [H _].
  exact (H Hs).
Defined.

(** C7 as stated fails: the line "1e21" is parsed as a text line whose
    time is the number [10 ^ 21], which is finite, and the formatter
    writes it in exponent notation. *)
Lemma large_number_renders_exponent :
  parseHkannoLine 4 (lit "1e21") 1 = Ok (hkannoNodeOf (lit "1e21") 1) /\
  numbers (hkannoNodeOf (lit "1e21") 1) = [Number (lit "1e21")] /\
  isFiniteNumber (Number (lit "1e21")) = true /\
  formatNode (hkannoNodeOf (lit "1e21") 1) = lit "1e+21" /\
  ~ rendersFixed6.
Proof.
  split; [vm_compute; reflexivity|].
  split; [vm_compute; reflexivity|].
  split; [vm_compute; reflexivity|].
  split; [vm_compute; reflexivity|].
  intros H.
  specialize (H 4 (lit "1e21") 1 (hkannoNodeOf (lit "1e21") 1)
                (Number (lit "1e21")) (Nat.le_refl 4)).
  assert (Hp : parseHkannoLine 4 (lit "1e21") 1
               = Ok (hkannoNodeOf (lit "1e21") 1))
    by (vm_compute; reflexivity).
  assert (Hi : In (Number (lit "1e21")) (numbers (hkannoNodeOf (lit "1e21") 1)))
    by (vm_compute; left; reflexivity).
  specialize (H Hp Hi). vm_compute in H. discriminate H.
Qed.

(** The line "-" is parsed as a text line whose time field holds NaN,
    and the formatter writes NaN for it: what the committed sign of
    [parseNumberField] comes to in a formatted text. *)
Lemma bare_sign_renders_NaN :
  parseHkannoLine 1 (lit "-") 1 = Ok (hkannoNodeOf (lit "-") 1) /\
  numbers (hkannoNodeOf (lit "-") 1) = [S754_nan] /\
  formatNode (hkannoNodeOf (lit "-") 1) = lit "NaN" /\
  ~ rendersFixed6.
Proof.
  split; [vm_compute; reflexivity|].
  split; [vm_compute; reflexivity|].
  split; [vm_compute; reflexivity|].
  intros H.
  specialize (H 1 (lit "-") 1 (hkannoNodeOf (lit "-") 1) S754_nan
                (Nat.le_refl 1)).
  assert (Hp : parseHkannoLine 1 (lit "-") 1 = Ok (hkannoNodeOf (lit "-") 1))
    by (vm_compute; reflexivity).
  assert (Hi : In S754_nan (numbers (hkannoNodeOf (lit "-") 1)))
    by (vm_compute; left; reflexivity).
  specialize (H Hp Hi). vm_compute in H. discriminate H.
Qed.

(* ================================================================== *)
(** * Spans and cursors *)

Lemma move_nil (c : Cursor) : move c [] (snd c) = c.
Proof. destruct c as [a b]. unfold move. cbn [fst snd]. rewrite app_nil_r. reflexivity. Qed.

Lemma col_move (c : Cursor) (a rest : str) :
  col (move c a rest) = col c + length a.
Proof. unfold col, move. cbn [fst]. apply length_app. Qed.

Lemma onLine_col (line : str) (c : Cursor) :
  onLine line c -> col c + length (snd c) = length line.
Proof. unfold onLine, col. intros <-. rewrite length_app. reflexivity. Qed.

Lemma spanAt_move (n : nat) (c : Cursor) (a rest : str) :
  spanAt n c (move c a rest)
  = match a with
    | [] => None
    | _ => Some (makePos n (length (fst c)) (length (fst c) + length a))
    end.
Proof.
  unfold spanAt. rewrite col_move. unfold col.
  destruct a as [|x a]; cbn [length].
  - rewrite Nat.add_0_r, Nat.ltb_irrefl. reflexivity.
  - destruct (Nat.ltb_spec (length (fst c)) (length (fst c) + S (length a)));
      [reflexivity | lia].
Qed.

Lemma spaceAt_span (n : nat) (c : Cursor) :
  spacePos (spaceAt n c) = spanAt n c (skipSpace c).
Proof.
  unfold skipSpace. rewrite spanAt_move. unfold spaceAt, spaceTok.
  destruct (takeWhile isSpace (snd c)); reflexivity.
Qed.

Lemma numberAt_span (n : nat) (c : Cursor) :
  posOf (numberAt n c) = spanAt n c (skipNumber c).
Proof.
  unfold skipNumber. rewrite spanAt_move. unfold numberAt, numberTok.
  destruct (numberText (snd c)); reflexivity.
Qed.

Lemma untilAt_span (n : nat) (stop : str) (c : Cursor) :
  posOf (untilAt n stop c) = spanAt n c (skipUntil stop c).
Proof.
  unfold skipUntil. rewrite spanAt_move. unfold untilAt, textTok.
  destruct (takeWhile (notIn stop) (snd c)); reflexivity.
Qed.

Lemma literalAt_span (n : nat) (literal : str) (c : Cursor) :
  literal <> [] ->
  posOf (literalAt n literal c) = spanAt n c (skipLiteral literal c).
Proof.
  intros Hl. unfold skipLiteral. rewrite spanAt_move.
  unfold literalAt, literalTok, literalText.
  destruct (startsWith (snd c) literal); [|reflexivity].
  destruct literal; [contradiction | reflexivity].
Qed.

Lemma col_skipSpace (c : Cursor) : col c <= col (skipSpace c).
Proof. unfold skipSpace. rewrite col_move. lia. Qed.

Lemma col_skipNumber (c : Cursor) : col c <= col (skipNumber c).
Proof. unfold skipNumber. rewrite col_move. lia. Qed.

Lemma col_skipUntil (stop : str) (c : Cursor) : col c <= col (skipUntil stop c).
Proof. unfold skipUntil. rewrite col_move. lia. Qed.

Lemma col_skipLiteral (literal : str) (c : Cursor) :
  col c <= col (skipLiteral literal c).
Proof. unfold skipLiteral. rewrite col_move. lia. Qed.

Lemma col_onLine (line : str) (c : Cursor) :
  onLine line c -> col c <= length line.
Proof. intros H. apply onLine_col in H. lia. Qed.

(** A present value has a span, an absent one has none. *)
Lemma numberAt_value (n : nat) (c : Cursor) :
  valueOf (numberAt n c) = None <-> posOf (numberAt n c) = None.
Proof.
  unfold numberAt, numberTok. destruct (numberText (snd c)); cbn; split;
    intros; congruence.
Qed.

(** Nothing read: the cursor stays. *)
Lemma skipNumber_stay (n : nat) (c : Cursor) :
  numberAt n c = None -> skipNumber c = c.
Proof.
  unfold numberAt, numberTok, skipNumber.
  pose proof (numberText_split (snd c)) as E.
  destruct (numberText (snd c)); [|discriminate].
  intros _. cbn [app] in E. rewrite E. apply move_nil.
Qed.

Lemma skipSpace_idem (c : Cursor) : skipSpace (skipSpace c) = skipSpace c.
Proof.
  unfold skipSpace at 1. 
  assert (E : takeWhile isSpace (snd (skipSpace c)) = []).
  { unfold skipSpace, move. cbn [snd].
    destruct (dropWhile isSpace (snd c)) as [|x r] eqn:D; [reflexivity|].
    apply dropWhile_head in D. cbn [takeWhile]. rewrite D. reflexivity. }
  pose proof (takeWhile_dropWhile isSpace (snd (skipSpace c))) as S.
  rewrite E in *. cbn [app] in S. rewrite S. apply move_nil.
Qed.
(* ================================================================== *)
(** * The tokens tile the line *)

Lemma tilesFrom_app (n c : nat) (a b : list Token) :
  tilesFrom n c (a ++ b)
  = match tilesFrom n c a with
    | Some e => tilesFrom n e b
    | None => None
    end.
Proof.
  revert c. induction a as [|[[p|] k] a IH]; intros c; cbn [app tilesFrom];
    [reflexivity| |reflexivity].
  destruct (_ && _); [apply IH | reflexivity].
Qed.

Lemma tiles_token (n : nat) (c : Cursor) (a rest : str) (content : Content) :
  a <> [] ->
  tilesFrom n (col c + 1)
    [(Some (makePos n (length (fst c)) (length (fst c) + length a)), content)]
  = Some (col (move c a rest) + 1).
Proof.
  intros Ha. rewrite col_move. unfold col, makePos.
  cbn [tilesFrom Pos.line Pos.startColumn Pos.endColumn].
  rewrite !Nat.eqb_refl. cbn [andb].
  destruct a as [|x a]; [contradiction|]. cbn [length].
  destruct (Nat.ltb_spec (length (fst c) + 1)
              (length (fst c) + S (length a) + 1)); [reflexivity | lia].
Qed.

Lemma tiles_none (n : nat) (c : Cursor) (rest : str) :
  tilesFrom n (col c + 1) [] = Some (col (move c [] rest) + 1).
Proof. rewrite col_move. cbn. rewrite Nat.add_0_r. reflexivity. Qed.

Lemma spaceAt_tiles (n : nat) (c : Cursor) :
  tilesFrom n (col c + 1) (spaceToken (spaceAt n c))
  = Some (col (skipSpace c) + 1).
Proof.
  unfold spaceAt, spaceTok, skipSpace.
  destruct (takeWhile isSpace (snd c)) as [|x a] eqn:E.
  - apply tiles_none.
  - cbn [spaceToken Space.pos]. apply tiles_token. discriminate.
Qed.

Lemma numberAt_tiles (n : nat) (c : Cursor) :
  tilesFrom n (col c + 1) (fieldToken CNumber (numberAt n c))
  = Some (col (skipNumber c) + 1).
Proof.
  unfold numberAt, numberTok, skipNumber.
  destruct (numberText (snd c)) as [|x a] eqn:E.
  - apply tiles_none.
  - cbn [fieldToken fieldTok Field.pos]. apply tiles_token. discriminate.
Qed.

Lemma untilAt_tiles (n : nat) (stop : str) (c : Cursor) :
  tilesFrom n (col c + 1) (fieldToken CRaw (untilAt n stop c))
  = Some (col (skipUntil stop c) + 1).
Proof.
  unfold untilAt, textTok, skipUntil.
  destruct (takeWhile (notIn stop) (snd c)) as [|x a] eqn:E.
  - apply tiles_none.
  - cbn [fieldToken fieldTok Field.pos]. apply tiles_token. discriminate.
Qed.

Lemma trimmedAt_tiles (n : nat) (stop : str) (c : Cursor) :
  tilesFrom n (col c + 1) (fieldToken CTrimmed (trimField (untilAt n stop c)))
  = Some (col (skipUntil stop c) + 1).
Proof.
  unfold untilAt, textTok, skipUntil.
  destruct (takeWhile (notIn stop) (snd c)) as [|x a] eqn:E.
  - apply tiles_none.
  - cbn [fieldToken fieldTok trimField Field.pos]. apply tiles_token.
    discriminate.
Qed.

Lemma literalAt_tiles (n : nat) (literal : str) (c : Cursor) :
  literal <> [] ->
  tilesFrom n (col c + 1) (fieldToken CRaw (literalAt n literal c))
  = Some (col (skipLiteral literal c) + 1).
Proof.
  intros Hl. unfold literalAt, literalTok, skipLiteral, literalText,
    afterLiteral.
  destruct (startsWith (snd c) literal).
  - cbn [fieldToken fieldTok Field.pos]. apply tiles_token. exact Hl.
  - apply tiles_none.
Qed.

Lemma itemsFrom_tiles (n k : nat) :
  forall c : Cursor,
    tilesFrom n (col c + 1) (flat_map itemTokens (itemsFrom k n c))
    = Some (col (afterItems k c) + 1).
Proof.
  induction k as [|k IH]; intros c; [reflexivity|].
  cbn [itemsFrom afterItems]. destruct (snd c) eqn:E; [reflexivity|].
  cbn [flat_map]. unfold itemTokens at 1.
  cbn [ParameterItem.separator ParameterItem.value].
  rewrite <- app_assoc, !tilesFrom_app.
  rewrite literalAt_tiles by discriminate. cbv beta iota.
  rewrite tilesFrom_app, untilAt_tiles. apply IH.
Qed.

Lemma onLine_afterItems (line : str) (k : nat) :
  forall c : Cursor, onLine line c -> onLine line (afterItems k c).
Proof.
  induction k as [|k IH]; intros c Hc; [exact Hc|].
  cbn [afterItems]. destruct (snd c); [exact Hc|].
  apply IH. auto with cursor.
Qed.

Lemma filter_leaf (ts : list Token) :
  Forall (fun t => isRange t = false) ts ->
  filter (fun t => negb (isRange t)) ts = ts.
Proof.
  intros H. induction H as [|t ts Ht _ IH]; [reflexivity|].
  cbn [filter]. rewrite Ht, IH. reflexivity.
Qed.

Lemma spaceToken_leaf (s : option SpaceNode) :
  Forall (fun t => isRange t = false) (spaceToken s).
Proof. destruct s; repeat constructor. Qed.

Lemma fieldToken_leaf {T : Type} (content : T -> Content)
    (f : option (FieldNode T)) :
  (forall v, content v <> CRange) ->
  Forall (fun t => isRange t = false) (fieldToken content f).
Proof.
  intros H. destruct f as [[[v|] p]|]; repeat constructor.
  unfold isRange. cbn. specialize (H v). destruct (content v); congruence.
Qed.

Lemma jsonToken_leaf (f : option (FieldNode Json)) :
  Forall (fun t => isRange t = false) (jsonToken f).
Proof. destruct f; repeat constructor. Qed.

Lemma itemTokens_leaf (items : list ParameterItemNode) :
  Forall (fun t => isRange t = false) (flat_map itemTokens items).
Proof.
  induction items as [|it items IH]; [constructor|].
  cbn [flat_map]. unfold itemTokens at 1. rewrite !Forall_app.
  repeat split; try exact IH; apply fieldToken_leaf; discriminate.
Qed.

Ltac leaf_tac :=
  rewrite ?Forall_app; repeat split;
  first [ apply spaceToken_leaf | apply jsonToken_leaf
        | apply fieldToken_leaf; discriminate ].

Lemma instructionAt_tiles (n : nat) (c : Cursor) :
  tilesFrom n (col c + 1)
    (filter (fun t => negb (isRange t)) (instructionTokens (instructionAt n c)))
  = Some (col (afterInstruction c) + 1).
Proof.
  unfold instructionAt, afterInstruction.
  destruct (snd c) as [|ch ahead] eqn:E; [reflexivity|].
  destruct (isPrefix ch); [|reflexivity].
  cbn [instructionTokens Instruction.prefix Instruction.name
       Instruction.parameters].
  rewrite !filter_app, !tilesFrom_app.
  rewrite (filter_leaf (fieldToken CChar _)) by (apply fieldToken_leaf; discriminate).
  rewrite (filter_leaf (fieldToken CRaw _)) by (apply fieldToken_leaf; discriminate).
  cbn [fieldToken fieldTok Field.pos Field.value].
  rewrite (tiles_token n c [ch] ahead) by discriminate. cbv beta iota.
  rewrite ?tilesFrom_app, untilAt_tiles. cbv beta iota.
  destruct (startsWith _ (lit "|")); [|reflexivity].
  cbn [parametersTokens Parameters.pos Parameters.items filter isRange snd negb].
  rewrite filter_leaf by apply itemTokens_leaf.
  apply itemsFrom_tiles.
Qed.

Lemma onLine_afterInstruction (line : str) (c : Cursor) :
  onLine line c -> onLine line (afterInstruction c).
Proof.
  intros Hc. unfold afterInstruction.
  destruct (snd c) as [|ch ahead] eqn:E; [exact Hc|].
  destruct (isPrefix ch); [|exact Hc].
  assert (Hm : onLine line (move c [ch] ahead))
    by (apply onLine_move; [exact Hc | symmetry; exact E]).
  destruct (startsWith _ (lit "|")).
  - apply onLine_afterItems. auto with cursor.
  - auto with cursor.
Qed.
Ltac tiles_tac :=
  repeat (rewrite ?tilesFrom_app;
          first [ rewrite spaceAt_tiles | rewrite numberAt_tiles
                | rewrite untilAt_tiles | rewrite trimmedAt_tiles
                | rewrite literalAt_tiles by discriminate
                | rewrite instructionAt_tiles ];
          cbv beta iota).

Lemma slice_slice (s : str) (a b c : nat) :
  a <= b -> b <= c -> slice s a b ++ slice s b c = slice s a c.
Proof.
  intros Hab Hbc. unfold slice.
  replace (c - a) with ((b - a) + (c - b)) by lia.
  rewrite <- (firstn_skipn (b - a) (firstn (b - a + (c - b)) (skipn a s))).
  rewrite firstn_firstn, Nat.min_l by lia. f_equal.
  rewrite skipn_firstn_comm.
  replace (b - a + (c - b) - (b - a)) with (c - b) by lia.
  rewrite skipn_skipn. replace (b - a + a) with b by lia. reflexivity.
Qed.

(** The texts under tokens that tile give the text under their union. *)
Lemma tilesFrom_under (line : str) (n : nat) (ts : list Token) :
  forall c e,
    1 <= c ->
    tilesFrom n c ts = Some e ->
    c <= e /\ List.concat (map (under line) ts) = slice line (c - 1) (e - 1).
Proof.
  induction ts as [|[[p|] k] ts IH]; intros c e Hc H; cbn [tilesFrom] in H;
    [| |discriminate].
  - injection H as <-. split; [lia|]. unfold slice.
    rewrite Nat.sub_diag. reflexivity.
  - destruct (Nat.eqb_spec (Pos.line p) n); [|discriminate].
    destruct (Nat.eqb_spec (Pos.startColumn p) c); [|discriminate].
    destruct (Nat.ltb_spec c (Pos.endColumn p)); [|discriminate].
    cbn [andb] in H. apply IH in H; [|lia]. destruct H as [He Hs].
    split; [lia|]. cbn [map List.concat]. rewrite Hs.
    unfold under, spanned. cbn [fst]. subst c.
    apply slice_slice; lia.
Qed.

Section Tiling.

Variable JSON_parse : str -> str + Json.
Variable line : str.
Variable n : nat.

Lemma leaves_common (node : HkannoNode) : leaves (NCommon node) = tokens node.
Proof.
  unfold leaves. cbn [tokensExt]. apply filter_leaf.
  destruct node; cbn [tokens]; leaf_tac.
Qed.

Lemma leaves_iframe (node : IFrameNode) :
  leaves (NIFrame node) = tokensExt (NIFrame node).
Proof. unfold leaves. apply filter_leaf. cbn [tokensExt]. leaf_tac. Qed.

Ltac start_tac :=
  change 1 with (col (([], line) : Cursor) + 1) at 1.

Lemma commentNodeOf_tiles :
  exists c, onLine line c /\
    tilesFrom n 1 (tokens (NComment (commentNodeOf line n)))
    = Some (col (skipSpace (skipUntil [newline] c)) + 1).
Proof.
  eexists. split; cycle 1.
  - unfold commentNodeOf.
    cbn [tokens Comment.space0First Comment.hash Comment.space0HashToComment
         Comment.comment Comment.space0AfterComment].
    start_tac. tiles_tac. reflexivity.
  - auto 15 with cursor.
Qed.

Lemma trackNameNodeOf_tiles :
  exists c, onLine line c /\
    tilesFrom n 1 (tokens (NTrackName (trackNameNodeOf line n)))
    = Some (col (skipSpace (skipUntil [newline] c)) + 1).
Proof.
  eexists. split; cycle 1.
  - unfold trackNameNodeOf.
    cbn [tokens TrackName.space0First TrackName.literal
         TrackName.space0LiteralToName TrackName.name
         TrackName.space0AfterName].
    start_tac. tiles_tac. reflexivity.
  - auto 15 with cursor.
Qed.

Lemma textNodeOf_tiles :
  exists c, onLine line c /\
    tilesFrom n 1 (tokens (NText (textNodeOf line n)))
    = Some (col (skipSpace (skipUntil [newline] c)) + 1).
Proof.
  eexists. split; cycle 1.
  - unfold textNodeOf.
    cbn [tokens Text.space0First Text.time Text.space1TimeToText Text.text
         Text.space0AfterText].
    start_tac. tiles_tac. reflexivity.
  - auto 15 with cursor.
Qed.

Lemma motionNodeOf_tiles :
  exists c, onLine line c /\
    tilesFrom n 1 (tokens (NMotion (motionNodeOf line n))) = Some (col c + 1).
Proof.
  eexists. split; cycle 1.
  - unfold motionNodeOf.
    cbn [tokens Motion.space0First Motion.time Motion.space1TimeToEvent
         Motion.event Motion.space1EventToX Motion.x Motion.space1XToY
         Motion.y Motion.space1YToZ Motion.z Motion.space0AfterZ].
    start_tac. tiles_tac. reflexivity.
  - auto 20 with cursor.
Qed.

Lemma rotationNodeOf_tiles :
  exists c, onLine line c /\
    tilesFrom n 1 (tokens (NRotation (rotationNodeOf line n)))
    = Some (col c + 1).
Proof.
  eexists. split; cycle 1.
  - unfold rotationNodeOf.
    cbn [tokens Rotation.space0First Rotation.time Rotation.space1TimeToEvent
         Rotation.event Rotation.space1EventToDegrees Rotation.degrees
         Rotation.space0AfterDegrees].
    start_tac. tiles_tac. reflexivity.
  - auto 15 with cursor.
Qed.

Lemma to_line_end (ts : list Token) :
  (exists c, onLine line c /\
     tilesFrom n 1 ts = Some (col (skipSpace (skipUntil [newline] c)) + 1)) ->
  exists c, onLine line c /\ tilesFrom n 1 ts = Some (col c + 1).
Proof.
  intros (c & Hc & H). exists (skipSpace (skipUntil [newline] c)).
  split; [auto with cursor | exact H].
Qed.

Lemma hkannoNodeOf_tiles :
  exists c, onLine line c /\
    tilesFrom n 1 (tokens (hkannoNodeOf line n)) = Some (col c + 1).
Proof.
  unfold hkannoNodeOf.
  destruct (startsWith (trimStart line) (lit "#"));
    [apply to_line_end, commentNodeOf_tiles|].
  destruct (startsWith (toLowerCase (trimStart line)) (lit "trackname:"));
    [apply to_line_end, trackNameNodeOf_tiles|].
  destruct (includes (toLowerCase line) (lit "animrotation"));
    [apply rotationNodeOf_tiles|].
  destruct (includes (toLowerCase line) (lit "animmotion"));
    [apply motionNodeOf_tiles|].
  apply to_line_end, textNodeOf_tiles.
Qed.

Lemma iframeNodeOf_tiles :
  exists c, onLine line c /\
    tilesFrom n 1 (tokensExt (NIFrame (iframeNodeOf JSON_parse line n)))
    = Some (col (skipSpace (skipUntil [newline] c)) + 1).
Proof.
  unfold iframeNodeOf, iframeJsonCursor.
  set (c4 := skipLiteral _ _).
  assert (Hj : forall v,
             tilesFrom n (col c4 + 1)
               match takeWhile (notIn [newline]) (snd c4) with
               | [] => []
               | _ => [(Some (makePos n (length (fst c4))
                               (length (fst c4) +
                                length (takeWhile (notIn [newline]) (snd c4)))),
                        CJson v)]
               end
             = Some (col (skipUntil [newline] c4) + 1)).
  { intros v. unfold skipUntil.
    destruct (takeWhile (notIn [newline]) (snd c4)) as [|d ds].
    - apply tiles_none.
    - apply tiles_token. discriminate. }
  eexists. split; cycle 1.
  - destruct (takeWhile (notIn [newline]) (snd c4)) as [|d ds] eqn:E.
    + specialize (Hj None).
      cbn [tokensExt IFrame.space0First IFrame.time IFrame.space1TimeToEvent
           IFrame.event IFrame.json IFrame.space0AfterJson jsonToken].
      start_tac. tiles_tac. fold c4. rewrite ?tilesFrom_app, Hj.
      cbv beta iota. tiles_tac. subst c4. reflexivity.
    + destruct (JSON_parse (d :: ds)) as [msg|data];
        [specialize (Hj None) | specialize (Hj (Some data))];
        cbn [tokensExt IFrame.space0First IFrame.time
             IFrame.space1TimeToEvent IFrame.event IFrame.json
             IFrame.space0AfterJson jsonToken Field.pos Field.value];
        start_tac; tiles_tac; fold c4; rewrite ?tilesFrom_app, Hj;
        cbv beta iota; tiles_tac; subst c4; reflexivity.
  - auto 15 with cursor.
Qed.

Lemma payloadNodeOf_tiles :
  exists c, onLine line c /\
    tilesFrom n 1 (leaves (NPayloadInstruction (payloadNodeOf line n)))
    = Some (col c + 1).
Proof.
  eexists. split; cycle 1.
  - unfold payloadNodeOf, leaves.
    cbn [tokensExt PayloadInstruction.space0First PayloadInstruction.time
         PayloadInstruction.space1TimeToEvent PayloadInstruction.event
         PayloadInstruction.dot PayloadInstruction.instruction].
    rewrite !filter_app.
    rewrite !(filter_leaf (spaceToken _)) by apply spaceToken_leaf.
    rewrite (filter_leaf (fieldToken CNumber _))
      by (apply fieldToken_leaf; discriminate).
    rewrite !(filter_leaf (fieldToken CRaw _))
      by (apply fieldToken_leaf; discriminate).
    start_tac. tiles_tac. reflexivity.
  - apply onLine_afterInstruction. auto 15 with cursor.
Qed.

Lemma nodeBy_tiles (call : ParseCall) :
  exists c, onLine line c /\
    tilesFrom n 1 (leaves (nodeBy JSON_parse call line n)) = Some (col c + 1).
Proof.
  destruct call; cbn [nodeBy]; rewrite ?leaves_common, ?leaves_iframe.
  - apply to_line_end, commentNodeOf_tiles.
  - apply to_line_end, trackNameNodeOf_tiles.
  - apply to_line_end, textNodeOf_tiles.
  - apply motionNodeOf_tiles.
  - apply rotationNodeOf_tiles.
  - apply to_line_end, iframeNodeOf_tiles.
  - apply payloadNodeOf_tiles.
  - apply hkannoNodeOf_tiles.
  - unfold hkannoNodeExtOf.
    destruct (includes _ (lit "specialframes_invincible"));
      [rewrite leaves_iframe; apply to_line_end, iframeNodeOf_tiles|].
    destruct (includes _ (lit "pie")); [apply payloadNodeOf_tiles|].
    rewrite leaves_common. apply hkannoNodeOf_tiles.
Qed.

End Tiling.

Lemma noNewline_ahead (line : str) (c : Cursor) :
  onLine line c -> noNewline line -> noNewline (snd c).
Proof.
  unfold onLine, noNewline. intros <- H. apply Forall_app in H. apply H.
Qed.

Lemma line_end_col (line : str) (c : Cursor) :
  onLine line c -> noNewline line ->
  col (skipSpace (skipUntil [newline] c)) = length line.
Proof.
  intros Hc Hn. pose proof (noNewline_ahead line c Hc Hn) as Ha.
  unfold skipSpace, skipUntil. rewrite !col_move. cbn [move snd].
  rewrite (takeWhile_line _ Ha).
  assert (Hd : dropWhile (notIn [newline]) (snd c) = []).
  { pose proof (takeWhile_dropWhile (notIn [newline]) (snd c)) as E.
    rewrite (takeWhile_line _ Ha) in E.
    apply (f_equal (@length ascii)) in E. rewrite length_app in E.
    destruct (dropWhile _ _); [reflexivity | cbn in E; lia]. }
  rewrite Hd. cbn. apply onLine_col in Hc. lia.
Qed.

(** X1. For every parse call, the tokens of the returned node, taken in
    the order of its fields (the span of a parameter list apart, which lies
    over the tokens of its items), are laid out one after the other: all
    are on the line passed in, none is empty, the first starts at column 1
    and each of the others starts where the one before ends.  The texts
    under their spans, put together, are therefore a prefix of the line:
    what the parser has read, with nothing skipped and nothing read
    twice. *)
Theorem tokens_tile_a_prefix (JSON_parse : str -> str + Json)
    (call : ParseCall) (line : str) (lineNumber fuel : nat) :
  length line <= fuel ->
  exists node e,
    parseBy JSON_parse call fuel line lineNumber = Ok node /\
    tilesFrom lineNumber 1 (leaves node) = Some e /\
    e <= length line + 1 /\
    List.concat (map (under line) (leaves node)) = firstn (e - 1) line.
Proof.
  intros Hf.
  destruct (nodeBy_tiles JSON_parse line lineNumber call) as (c & Hc & Ht).
  exists (nodeBy JSON_parse call line lineNumber), (col c + 1).
  split; [apply parseBy_eq; exact Hf|]. split; [exact Ht|].
  split; [apply col_onLine in Hc; lia|].
  apply (tilesFrom_under line) in Ht; [|lia]. destruct Ht as [_ ->].
  unfold slice. rewrite Nat.sub_0_r. reflexivity.
Qed.

Lemma tokens_tile_a_prefix_witness :
  length (lit "1 PIE.@SGVB|a|b") <= 15 /\
  exists node e,
    parseBy (fun _ => inl []) CallHkannoLineExt 15 (lit "1 PIE.@SGVB|a|b") 4
    = Ok node /\
    tilesFrom 4 1 (leaves node) = Some e /\
    e <= length (lit "1 PIE.@SGVB|a|b") + 1 /\
    List.concat (map (under (lit "1 PIE.@SGVB|a|b")) (leaves node))
    = firstn (e - 1) (lit "1 PIE.@SGVB|a|b").
Proof.
  split; [simpl; lia|].
  apply (tokens_tile_a_prefix (fun _ => inl []) CallHkannoLineExt
           (lit "1 PIE.@SGVB|a|b") 4 15).
  simpl. lia.
Defined.

(** X2. On a line without a line break, the parsers of comment, track
    name, text and IFrame lines account for every character: the tokens of
    the node tile the whole line, and the texts under their spans, put
    together in the order of the fields, are the line. *)
Theorem line_parsers_cover_the_line (JSON_parse : str -> str + Json)
    (call : ParseCall) (line : str) (lineNumber fuel : nat) :
  In call [CallCommentLine; CallTrackNameLine; CallTextLine; CallIFrameLine] ->
  noNewline line ->
  length line <= fuel ->
  exists node,
    parseBy JSON_parse call fuel line lineNumber = Ok node /\
    tilesFrom lineNumber 1 (tokensExt node) = Some (length line + 1) /\
    List.concat (map (under line) (tokensExt node)) = line.
Proof.
  intros Hcall Hn Hf.
  exists (nodeBy JSON_parse call line lineNumber).
  split; [apply parseBy_eq; exact Hf|].
  assert (H : exists c, onLine line c /\
                tilesFrom lineNumber 1
                  (tokensExt (nodeBy JSON_parse call line lineNumber))
                = Some (col (skipSpace (skipUntil [newline] c)) + 1)).
  { cbn [In] in Hcall.
    destruct Hcall as [<-|[<-|[<-|[<-|[]]]]]; cbn [nodeBy tokensExt].
    - apply commentNodeOf_tiles.
    - apply trackNameNodeOf_tiles.
    - apply textNodeOf_tiles.
    - apply iframeNodeOf_tiles. }
  destruct H as (c & Hc & Ht).
  rewrite (line_end_col line c Hc Hn) in Ht. split; [exact Ht|].
  apply (tilesFrom_under line) in Ht; [|lia]. destruct Ht as [_ ->].
  unfold slice. rewrite Nat.sub_0_r, Nat.add_sub. apply firstn_all.
Qed.

Lemma line_parsers_cover_the_line_witness :
  In CallTextLine
     [CallCommentLine; CallTrackNameLine; CallTextLine; CallIFrameLine] /\
  noNewline (lit " 0.5  Hit Frame ") /\
  length (lit " 0.5  Hit Frame ") <= 16 /\
  exists node,
    parseBy (fun _ => inl []) CallTextLine 16 (lit " 0.5  Hit Frame ") 1
    = Ok node /\
    tilesFrom 1 1 (tokensExt node)
    = Some (length (lit " 0.5  Hit Frame ") + 1) /\
    List.concat (map (under (lit " 0.5  Hit Frame ")) (tokensExt node))
    = lit " 0.5  Hit Frame ".
Proof.
  assert (Hn : noNewline (lit " 0.5  Hit Frame "))
    by (repeat (constructor; [discriminate|]); constructor).
  split; [simpl; auto|]. split; [exact Hn|]. split; [simpl; lia|].
  apply (line_parsers_cover_the_line (fun _ => inl []) CallTextLine
           (lit " 0.5  Hit Frame ") 1 16);
    [simpl; auto | exact Hn | simpl; lia].
Defined.

(* ================================================================== *)
(** * Diagnostics *)

Lemma diagnosticsFrom_eq (JSON_parse : str -> str + Json) (fuel : nat)
    (lines : list str) :
  Forall (fun l => length l <= fuel) lines ->
  forall n acc,
    diagnosticsFrom JSON_parse fuel lines n acc
    = Ok (acc ++ markersFrom JSON_parse lines n).
Proof.
  intros H. induction H as [|l lines Hl _ IH]; intros n acc;
    cbn [diagnosticsFrom markersFrom].
  - rewrite app_nil_r. reflexivity.
  - rewrite parseHkannoLineExt_eq by exact Hl. rewrite IH, <- app_assoc.
    reflexivity.
Qed.

Lemma spanAt_in (line : str) (n : nat) (c c' : Cursor) :
  onLine line c' -> spanIn line n (spanAt n c c').
Proof.
  intros H. apply col_onLine in H. unfold spanAt, spanIn.
  destruct (Nat.ltb_spec (col c) (col c')); [|exact I].
  unfold makePos. cbn [Pos.line Pos.startColumn Pos.endColumn].
  repeat split; lia.
Qed.

(** A marker over a span of the line, or over the whole line. *)
Lemma marker_of_span (line : str) (n : nat) (p : option Pos)
    (severity : MarkerSeverity.t) (message : ustr) (code : option str) :
  spanIn line n p ->
  markerIn line n
    (Marker.mk severity message n n (startColumnOr1 p)
               (endColumnOr p (length line + 1)) code).
Proof.
  unfold markerIn, spanIn.
  cbn [Marker.startLineNumber Marker.endLineNumber Marker.startColumn
       Marker.endColumn].
  destruct p as [q|]; cbn [startColumnOr1 endColumnOr].
  - intros (_ & H1 & H2 & H3). repeat split; lia.
  - intros _. repeat split; lia.
Qed.

Lemma iframe_json_span (JSON_parse : str -> str + Json) (line : str)
    (n : nat) :
  posOf (IFrame.json (iframeNodeOf JSON_parse line n))
  = spanAt n (iframeJsonCursor line)
           (skipUntil [newline] (iframeJsonCursor line)).
Proof.
  unfold skipUntil. rewrite spanAt_move. unfold iframeNodeOf.
  destruct (takeWhile (notIn [newline]) (snd (iframeJsonCursor line)))
    as [|d ds]; [reflexivity|].
  destruct (JSON_parse (d :: ds)); reflexivity.
Qed.

Lemma onLine_iframeJsonCursor (line : str) :
  onLine line (iframeJsonCursor line).
Proof. unfold iframeJsonCursor. auto 10 with cursor. Qed.

Lemma fold_left_unless {K : Type} (skip : K -> bool) (mk : K -> Marker)
    (keys : list K) :
  forall markers,
    fold_left (fun markers key =>
                 if skip key then markers else markers ++ [mk key])
              keys markers
    = markers ++ map mk (filter (fun key => negb (skip key)) keys).
Proof.
  induction keys as [|k keys IH]; intros markers; cbn [fold_left filter].
  - rewrite app_nil_r. reflexivity.
  - rewrite IH. destruct (skip k); cbn [negb map]; [reflexivity|].
    rewrite <- app_assoc. reflexivity.
Qed.

Lemma iframe_markers_in (JSON_parse : str -> str + Json) (line : str)
    (n : nat) :
  Forall (markerIn line n)
    (provideIFrameDiagnostics (iframeNodeOf JSON_parse line n) n
                              (length line)).
Proof.
  assert (Ht : spanIn line n (posOf (IFrame.time
                                       (iframeNodeOf JSON_parse line n)))).
  { unfold iframeNodeOf.
    destruct (match takeWhile _ _ with [] => _ | _ => _ end) as [j e].
    cbn [IFrame.time]. rewrite numberAt_span. apply spanAt_in.
    auto 10 with cursor. }
  assert (He : spanIn line n (posOf (IFrame.event
                                       (iframeNodeOf JSON_parse line n)))).
  { unfold iframeNodeOf.
    destruct (match takeWhile _ _ with [] => _ | _ => _ end) as [j e].
    cbn [IFrame.event]. rewrite literalAt_span by discriminate.
    apply spanAt_in. auto 10 with cursor. }
  assert (Hj : spanIn line n (posOf (IFrame.json
                                       (iframeNodeOf JSON_parse line n)))).
  { rewrite iframe_json_span. apply spanAt_in.
    apply onLine_skipUntil, onLine_iframeJsonCursor. }
  unfold provideIFrameDiagnostics.
  set (node := iframeNodeOf JSON_parse line n) in *.
  set (m1 := match valueOf (IFrame.time node) with None => _ | Some _ => _ end).
  assert (H1 : Forall (markerIn line n) m1).
  { subst m1. destruct (valueOf (IFrame.time node)); [constructor|].
    cbn [app]. constructor; [|constructor]. apply marker_of_span, Ht. }
  set (m2 := if match valueOf (IFrame.event node) with
                | Some v => _ | None => false end then m1 else _).
  assert (H2 : Forall (markerIn line n) m2).
  { subst m2. destruct (match valueOf (IFrame.event node) with
                        | Some v => _ | None => false end); [exact H1|].
    apply Forall_app. split; [exact H1|]. constructor; [|constructor].
    apply marker_of_span, He. }
  set (m3 := match IFrame.jsonParseError node with
             | Some message => _ | None => _ end).
  assert (H3 : Forall (markerIn line n) m3).
  { subst m3. destruct (IFrame.jsonParseError node).
    - apply Forall_app. split; [exact H2|]. constructor; [|constructor].
      apply marker_of_span, Hj.
    - destruct (valueOf (IFrame.json node)); [exact H2|].
      apply Forall_app. split; [exact H2|]. constructor; [|constructor].
      apply marker_of_span, Hj. }
  destruct (valueOf (IFrame.json node)) as [value|]; [|exact H3].
  destruct (truthy value); [|exact H3].
  rewrite fold_left_unless. apply Forall_app. split; [exact H3|].
  apply Forall_map, Forall_forall. intros key _.
  apply marker_of_span, Hj.
Qed.
Lemma motion_markers_in (line : str) (n : nat) :
  Forall (markerIn line n)
    (lineDiagnostics (NCommon (NMotion (motionNodeOf line n))) line n).
Proof.
  unfold motionNodeOf.
  cbn [lineDiagnostics flat_map fst snd Motion.x Motion.y Motion.z].
  rewrite app_nil_r, !Forall_app.
  repeat split;
    (destruct (valueOf (numberAt n _)); [constructor|];
     constructor; [|constructor];
     apply marker_of_span; rewrite numberAt_span; apply spanAt_in;
     auto 20 with cursor).
Qed.

Lemma rotation_markers_in (line : str) (n : nat) :
  Forall (markerIn line n)
    (lineDiagnostics (NCommon (NRotation (rotationNodeOf line n))) line n).
Proof.
  unfold rotationNodeOf. cbn [lineDiagnostics Rotation.degrees].
  destruct (valueOf (numberAt n _)); [constructor|].
  constructor; [|constructor].
  apply marker_of_span; rewrite numberAt_span; apply spanAt_in;
    auto 20 with cursor.
Qed.

Lemma text_markers_in (line : str) (n : nat) :
  Forall (markerIn line n)
    (lineDiagnostics (NCommon (NText (textNodeOf line n))) line n).
Proof.
  unfold textNodeOf.
  cbn [lineDiagnostics Text.time Text.text Text.space1TimeToText
       Text.space0AfterText].
  set (c1 := skipSpace ([], line)).
  set (c2 := skipNumber c1). set (c3 := skipSpace c2).
  set (c4 := skipUntil [newline] c3).
  assert (H1 : onLine line c1) by (subst c1; auto with cursor).
  assert (H2 : onLine line c2) by (subst c2; auto with cursor).
  assert (H3 : onLine line c3) by (subst c3; auto with cursor).
  assert (H4 : onLine line c4) by (subst c4; auto with cursor).
  assert (H5 : onLine line (skipSpace c4)) by auto with cursor.
  pose proof (col_skipNumber c1) as L1. fold c2 in L1.
  pose proof (col_skipSpace c2) as L2. fold c3 in L2.
  pose proof (col_skipUntil [newline] c3) as L3. fold c4 in L3.
  pose proof (col_skipSpace c4) as L4.
  apply col_onLine in H5.
  assert (M : forall msg,
             markerIn line n
               (Marker.mk MarkerSeverity.Warning msg n n
                  match spacePos (spaceAt n c2) with
                  | Some p => Pos.startColumn p
                  | None => endColumnOr (posOf (numberAt n c1)) 1
                  end
                  (endColumnOr (spacePos (spaceAt n c4)) (length line + 1))
                  None)).
  { intros msg. rewrite !spaceAt_span, numberAt_span. fold c2 c3.
    unfold spanAt, markerIn, makePos.
    cbn [Marker.startLineNumber Marker.endLineNumber Marker.startColumn
         Marker.endColumn].
    destruct (Nat.ltb_spec (col c2) (col c3));
      destruct (Nat.ltb_spec (col c1) (col c2));
      destruct (Nat.ltb_spec (col c4) (col (skipSpace c4)));
      cbn [endColumnOr Pos.startColumn Pos.endColumn];
      repeat split; lia. }
  destruct (numberAt n c1) as [t|] eqn:Et; [|constructor].
  destruct (valueOf (untilAt n [newline] c3)) as [[|x v]|];
    [|constructor|]; (constructor; [apply M | constructor]).
Qed.

Lemma pie_markers_in (line : str) (n : nat) :
  Forall (markerIn line n)
    (lineDiagnostics (NPayloadInstruction (payloadNodeOf line n)) line n).
Proof.
  unfold payloadNodeOf.
  cbn [lineDiagnostics PayloadInstruction.instruction].
  set (c := skipLiteral (lit ".") _).
  assert (Hc : onLine line c) by (subst c; auto 20 with cursor).
  unfold instructionAt.
  destruct (snd c) as [|ch ahead] eqn:E; [constructor|].
  destruct (isPrefix ch); [|constructor].
  cbn [Instruction.name Instruction.parameters Instruction.prefix].
  set (c1 := move c [ch] ahead).
  assert (H1 : onLine line c1)
    by (apply onLine_move; [exact Hc | symmetry; exact E]).
  set (c2 := skipUntil (lit "|") c1).
  assert (H2 : onLine line c2) by (subst c2; auto with cursor).
  pose proof (col_skipUntil (lit "|") c1) as L2. fold c2 in L2.
  assert (L1 : col c1 = col c + 1) by (subst c1; rewrite col_move; reflexivity).
  pose proof (onLine_col line c2 H2) as T2.
  destruct (option_map toUpperCase (valueOf (untilAt n (lit "|") c1)))
    as [[|u name]|]; [constructor| |constructor].
  destruct (findNative (u :: name)) as [def|]; [|constructor].
  destruct (_ <? _); [|constructor].
  constructor; [|constructor].
  unfold markerIn, fieldTok.
  cbn [Marker.startLineNumber Marker.endLineNumber Marker.startColumn
       Marker.endColumn posOf Field.pos startColumnOr1 makePos
       Pos.startColumn].
  destruct (startsWith (snd c2) (lit "|")).
  - cbn [Parameters.pos endColumnOr makePos Pos.endColumn].
    unfold col in *. repeat split; lia.
  - cbn [endColumnOr]. rewrite untilAt_span. fold c2. unfold spanAt.
    destruct (Nat.ltb_spec (col c1) (col c2));
      cbn [endColumnOr makePos Pos.endColumn]; unfold col in *;
      repeat split; lia.
Qed.

Lemma diagnosticsOf_in (JSON_parse : str -> str + Json) (line : str)
    (n : nat) :
  Forall (markerIn line n) (diagnosticsOf JSON_parse line n).
Proof.
  unfold diagnosticsOf, hkannoNodeExtOf.
  destruct (includes _ (lit "specialframes_invincible")).
  { cbn [lineDiagnostics]. apply iframe_markers_in. }
  destruct (includes _ (lit "pie")); [apply pie_markers_in|].
  unfold hkannoNodeOf.
  destruct (startsWith (trimStart line) (lit "#")); [constructor|].
  destruct (startsWith (toLowerCase (trimStart line)) (lit "trackname:"));
    [constructor|].
  destruct (includes (toLowerCase line) (lit "animrotation"));
    [apply rotation_markers_in|].
  destruct (includes (toLowerCase line) (lit "animmotion"));
    [apply motion_markers_in|].
  apply text_markers_in.
Qed.

Lemma markersFrom_ok (JSON_parse : str -> str + Json) (lines : list str) :
  forall before,
    Forall (markerOk (before ++ lines))
           (markersFrom JSON_parse lines (length before + 1)).
Proof.
  induction lines as [|l lines IH]; intros before; cbn [markersFrom];
    [constructor|].
  apply Forall_app. split.
  - eapply Forall_impl; [|apply diagnosticsOf_in].
    intros m Hm. pose proof Hm as (Hs & _). exists l. rewrite Hs.
    split; [lia|]. split; [|exact Hm].
    rewrite Nat.add_sub, nth_error_app2, Nat.sub_diag by lia. reflexivity.
  - specialize (IH (before ++ [l])).
    rewrite <- app_assoc, length_app in IH. cbn [length app] in IH.
    exact IH.
Qed.

(** X3. [updateHkannoDiagnostics] returns for every model, and every
    marker it sets lies within one line of the model: its start and end
    line are the same line, from 1, and its columns are ordered and within
    that line, from column 1 to the column after the last character. *)
Theorem diagnostics_within_lines (JSON_parse : str -> str + Json)
    (fuel : nat) (lines : list str) :
  Forall (fun l => length l <= fuel) lines ->
  exists markers,
    updateHkannoDiagnostics JSON_parse fuel lines = Ok markers /\
    Forall (markerOk lines) markers.
Proof.
  intros Hf. exists (markersFrom JSON_parse lines 1). split.
  - unfold updateHkannoDiagnostics. rewrite diagnosticsFrom_eq by exact Hf.
    reflexivity.
  - apply (markersFrom_ok JSON_parse lines []).
Qed.

Lemma diagnostics_within_lines_witness :
  Forall (fun l => length l <= 30)
         [lit "0.5 animmotion 1 2"; lit "PIE.@SGVB|a"; lit "3  "] /\
  exists markers,
    updateHkannoDiagnostics (fun _ => inl []) 30
      [lit "0.5 animmotion 1 2"; lit "PIE.@SGVB|a"; lit "3  "] = Ok markers /\
    Forall (markerOk [lit "0.5 animmotion 1 2"; lit "PIE.@SGVB|a"; lit "3  "])
           markers.
Proof.
  assert (H : Forall (fun l => length l <= 30)
                [lit "0.5 animmotion 1 2"; lit "PIE.@SGVB|a"; lit "3  "])
    by (repeat (constructor; [simpl; lia|]); constructor).
  split; [exact H|].
  apply (diagnostics_within_lines (fun _ => inl []) 30
           [lit "0.5 animmotion 1 2"; lit "PIE.@SGVB|a"; lit "3  "] H).
Defined.

(* ------------------------------------------------------------------ *)
(** ** The kind of a line *)

Lemma kindExt_motion (JSON_parse : str -> str + Json) (line : str) (n : nat) :
  kindExt (hkannoNodeExtOf JSON_parse line n) = lit "motion" ->
  hkannoNodeExtOf JSON_parse line n = NCommon (NMotion (motionNodeOf line n)).
Proof.
  unfold hkannoNodeExtOf, hkannoNodeOf.
  destruct (includes _ (lit "specialframes_invincible"));
    [intros H; discriminate H|].
  destruct (includes _ (lit "pie")); [intros H; discriminate H|].
  destruct (startsWith (trimStart line) (lit "#")); [intros H; discriminate H|].
  destruct (startsWith (toLowerCase (trimStart line)) (lit "trackname:"));
    [intros H; discriminate H|].
  destruct (includes (toLowerCase line) (lit "animrotation"));
    [intros H; discriminate H|].
  destruct (includes (toLowerCase line) (lit "animmotion"));
    [reflexivity | intros H; discriminate H].
Qed.

Lemma numberAt_present (n : nat) (c : Cursor) :
  numberAt n c = None \/ exists x p, numberAt n c = Some (Field.mk (Some x) (Some p)).
Proof.
  unfold numberAt, numberTok, fieldTok.
  destruct (numberText (snd c)); [left; reflexivity|].
  right. eexists. eexists. reflexivity.
Qed.

(** X4. On a line read as [animmotion], the markers for missing values
    are those of the axes after the values that were read: with [k] values
    read, the first [k] of the fields x, y and z are present and the
    others absent, and the markers are those of the last [3 - k] axes, in
    this order.  So they are none, or the one of z, or those of y and z,
    or those of x, y and z, never the one of x or of y alone; a value that
    was read is not reported, whatever number it reads as.  Each marker
    is an error over the whole line. *)
Theorem motion_values_missing_in_a_row (JSON_parse : str -> str + Json)
    (fuel : nat) (line : str) (n : nat) (node : HkannoNodeExt) :
  length line <= fuel ->
  parseHkannoLineExt JSON_parse fuel line n = Ok node ->
  kindExt node = lit "motion" ->
  exists m k,
    node = NCommon (NMotion m) /\
    k = length (numberOf (Motion.x m) ++ numberOf (Motion.y m) ++
                numberOf (Motion.z m)) /\
    map isDefined [num (Motion.x m); num (Motion.y m); num (Motion.z m)]
    = map (fun i => i <? k) [0; 1; 2] /\
    lineDiagnostics node line n
    = map (missingValue line n) (skipn k [lit "x"; lit "y"; lit "z"]).
Proof.
  intros Hf Hp Hk. rewrite parseHkannoLineExt_eq in Hp by exact Hf.
  injection Hp as <-. rewrite (kindExt_motion _ _ _ Hk).
  exists (motionNodeOf line n). eexists.
  split; [reflexivity|]. split; [reflexivity|].
  unfold motionNodeOf.
  cbn [lineDiagnostics flat_map fst snd Motion.x Motion.y Motion.z].
  set (c5 := skipSpace (skipLiteral (lit "animmotion") _)).
  destruct (numberAt_present n c5) as [Ex|(x & px & Ex)].
  { pose proof (skipNumber_stay n c5 Ex) as S5. rewrite S5.
    assert (S6 : skipSpace c5 = c5) by apply skipSpace_idem.
    rewrite S6, S5, S6, Ex. split; reflexivity. }
  set (c7 := skipSpace (skipNumber c5)).
  destruct (numberAt_present n c7) as [Ey|(y & py & Ey)].
  { pose proof (skipNumber_stay n c7 Ey) as S7. rewrite S7.
    assert (S8 : skipSpace c7 = c7) by apply skipSpace_idem.
    rewrite S8, Ex, Ey. split; reflexivity. }
  set (c9 := skipSpace (skipNumber c7)).
  destruct (numberAt_present n c9) as [Ez|(z & pz & Ez)].
  { rewrite Ex, Ey, Ez. split; reflexivity. }
  rewrite Ex, Ey, Ez. split; reflexivity.
Qed.

Lemma motion_values_missing_in_a_row_witness :
  length (lit "0.5 animmotion 1 . x") <= 20 /\
  exists m k,
    NCommon (NMotion (motionNodeOf (lit "0.5 animmotion 1 . x") 7))
    = NCommon (NMotion m) /\
    k = length (numberOf (Motion.x m) ++ numberOf (Motion.y m) ++
                numberOf (Motion.z m)) /\
    map isDefined [num (Motion.x m); num (Motion.y m); num (Motion.z m)]
    = map (fun i => i <? k) [0; 1; 2] /\
    lineDiagnostics
      (NCommon (NMotion (motionNodeOf (lit "0.5 animmotion 1 . x") 7)))
      (lit "0.5 animmotion 1 . x") 7
    = map (missingValue (lit "0.5 animmotion 1 . x") 7)
          (skipn k [lit "x"; lit "y"; lit "z"]).
Proof.
  split; [simpl; lia|].
  apply (motion_values_missing_in_a_row (fun _ => inl []) 20
           (lit "0.5 animmotion 1 . x") 7
           (NCommon (NMotion (motionNodeOf (lit "0.5 animmotion 1 . x") 7))));
    [simpl; lia | reflexivity | reflexivity].
Defined.

(* ------------------------------------------------------------------ *)
(** ** A time without a text *)

Lemma signText_scan (s : str) :
  Forall (fun c => isScanChar c = true) (signText s).
Proof.
  destruct s as [|c s]; cbn [signText]; [constructor|].
  destruct (isSign c) eqn:E; constructor; [|constructor].
  unfold isScanChar. rewrite E. reflexivity.
Qed.

Lemma digits_scan (s : str) :
  Forall (fun c => isDigit c = true) s ->
  Forall (fun c => isScanChar c = true) s.
Proof.
  intros H. eapply Forall_impl; [|exact H]. intros c Hc.
  unfold isScanChar, isDigitOrDot. rewrite Hc.
  rewrite orb_true_r. reflexivity.
Qed.

Lemma numberText_scan (s : str) :
  Forall (fun c => isScanChar c = true) (numberText s).
Proof.
  unfold numberText. rewrite !Forall_app. repeat split.
  - apply signText_scan.
  - eapply Forall_impl; [|apply takeWhile_all]. intros c Hc.
    unfold isScanChar. rewrite Hc, orb_true_r. reflexivity.
  - unfold expText.
    destruct (dropWhile _ _) as [|c r]; [constructor|].
    destruct (isExpMark c) eqn:E; [|constructor].
    constructor; [unfold isScanChar; rewrite E; apply orb_true_r|].
    apply Forall_app. split; [apply signText_scan|].
    apply digits_scan, takeWhile_all.
Qed.

Lemma scanChar_lower (c : ascii) :
  isScanChar c || isSpace c = true ->
  lowerChar c <> "p"%char /\ lowerChar c <> "a"%char.
Proof.
  destruct c as [[] [] [] [] [] [] [] []]; intros H;
    try discriminate H; split; discriminate.
Qed.

Lemma scanChar_head (c : ascii) (s : str) :
  isScanChar c = true ->
  startsWith (c :: s) (lit "#") = false /\
  startsWith (toLowerCase (c :: s)) (lit "trackname:") = false.
Proof.
  destruct c as [[] [] [] [] [] [] [] []]; intros H;
    try discriminate H; split; reflexivity.
Qed.

Lemma trimStart_nil (s : str) :
  trimStart s = [] -> Forall (fun c => isSpace c = true) s.
Proof.
  induction s as [|c s IH]; cbn [trimStart]; [constructor|].
  destruct (isSpace c) eqn:E; [|discriminate].
  intros H. constructor; [exact E | apply IH, H].
Qed.

Lemma trimStart_split (s : str) : takeWhile isSpace s ++ trimStart s = s.
Proof. rewrite trimStart_dropWhile. apply takeWhile_dropWhile. Qed.

(** The parts of a line that is a bare time. *)
Lemma bareTime_parts (line : str) :
  bareTime line = true ->
  numberText (trimStart line) <> [] /\
  dropWhile isSpace (numberRest (trimStart line)) = [] /\
  Forall (fun c => isScanChar c || isSpace c = true) line.
Proof.
  unfold bareTime. cbv zeta. rewrite andb_true_iff, negb_true_iff.
  intros [H1 H2]. apply eqs_true in H2.
  assert (N : numberText (trimStart line) <> []).
  { intros E. rewrite E in H1. discriminate H1. }
  split; [exact N|]. split; [rewrite <- trimStart_dropWhile; exact H2|].
  rewrite <- (trimStart_split line), <- (numberText_split (trimStart line)).
  rewrite !Forall_app. repeat split.
  - eapply Forall_impl; [|apply takeWhile_all]. intros c Hc.
    cbv beta in Hc. rewrite Hc. apply orb_true_r.
  - eapply Forall_impl; [|apply numberText_scan]. intros c Hc.
    cbv beta in Hc. rewrite Hc. reflexivity.
  - eapply Forall_impl; [|apply trimStart_nil, H2]. intros c Hc.
    cbv beta in Hc. rewrite Hc. apply orb_true_r.
Qed.

Lemma bareTime_text (JSON_parse : str -> str + Json) (line : str) (n : nat) :
  bareTime line = true ->
  hkannoNodeExtOf JSON_parse line n = NCommon (NText (textNodeOf line n)).
Proof.
  intros H. destruct (bareTime_parts line H) as (N & _ & Hc).
  assert (Hp : avoids "p" line /\ avoids "a" line).
  { split; (eapply Forall_impl; [|exact Hc]); intros c Hx;
      apply (scanChar_lower c Hx). }
  destruct Hp as [Hp Ha].
  unfold hkannoNodeExtOf, hkannoNodeOf.
  rewrite (includes_avoids line (lit "specialframes_invincible") "p" Hp)
    by (cbn; tauto).
  rewrite (includes_avoids line (lit "pie") "p" Hp) by (cbn; tauto).
  rewrite (includes_avoids line (lit "animrotation") "a" Ha) by (cbn; tauto).
  rewrite (includes_avoids line (lit "animmotion") "a" Ha) by (cbn; tauto).
  destruct (trimStart line) as [|c r] eqn:E; [contradiction N; reflexivity|].
  assert (Hs : isScanChar c = true).
  { pose proof (numberText_scan (c :: r)) as S.
    pose proof (numberText_split (c :: r)) as P.
    destruct (numberText (c :: r)) as [|d t]; [contradiction N; reflexivity|].
    injection P as -> _. inversion S. assumption. }
  destruct (scanChar_head c r Hs) as [-> ->]. reflexivity.
Qed.

Lemma bareTime_marker (line : str) (n : nat) :
  bareTime line = true ->
  lineDiagnostics (NCommon (NText (textNodeOf line n))) line n
  = [textMissing line n].
Proof.
  intros H. destruct (bareTime_parts line H) as (N & D & _).
  unfold textNodeOf.
  cbn [lineDiagnostics Text.time Text.text Text.space1TimeToText
       Text.space0AfterText].
  set (c1 := skipSpace ([], line)).
  assert (E1 : snd c1 = trimStart line)
    by (rewrite trimStart_dropWhile; reflexivity).
  assert (F1 : length (fst c1) + length (trimStart line) = length line).
  { rewrite <- E1. apply (onLine_col line c1). subst c1. auto with cursor. }
  set (c2 := skipNumber c1).
  assert (E2 : snd c2 = numberRest (trimStart line))
    by (subst c2; unfold skipNumber, move; cbn [snd]; rewrite E1; reflexivity).
  assert (F2 : length (fst c2) + length (numberRest (trimStart line))
               = length line).
  { rewrite <- E2. apply (onLine_col line c2). subst c2 c1.
    auto with cursor. }
  set (c3 := skipSpace c2).
  assert (E3 : snd c3 = [])
    by (subst c3; unfold skipSpace, move; cbn [snd]; rewrite E2; exact D).
  assert (Et : valueOf (untilAt n [newline] c3) = None).
  { unfold untilAt. rewrite E3. reflexivity. }
  assert (E4 : spaceAt n (skipUntil [newline] c3) = None).
  { unfold spaceAt, skipUntil, move. cbn [snd]. rewrite E3. reflexivity. }
  assert (Ex : exists x, numberAt n c1
                 = Some (Field.mk (Some x)
                           (Some (makePos n (length (fst c1))
                                    (length (fst c2)))))).
  { unfold numberAt, numberTok, fieldTok. rewrite E1.
    subst c2. unfold skipNumber, move. cbn [fst]. rewrite length_app, E1.
    destruct (numberText (trimStart line)); [contradiction N; reflexivity|].
    eexists. reflexivity. }
  destruct Ex as [x Ex]. rewrite Ex, Et, E4.
  unfold textMissing. f_equal. f_equal.
  cbn [spacePos option_map endColumnOr posOf Field.pos makePos Pos.endColumn].
  unfold spaceAt, spaceTok.
  destruct (takeWhile isSpace (snd c2));
    cbn [spacePos option_map Space.pos makePos Pos.startColumn]; lia.
Qed.

Lemma textMissing_message (m : Marker) :
  Marker.message m = wide (lit "Text annotation is missing.") ->
  startsWithT m = true.
Proof. unfold startsWithT. intros ->. reflexivity. Qed.

Lemma not_bareTime_markers (JSON_parse : str -> str + Json) (line : str)
    (n : nat) :
  bareTime line = false ->
  Forall (fun m => startsWithT m = false) (diagnosticsOf JSON_parse line n).
Proof.
  intros H. unfold diagnosticsOf, hkannoNodeExtOf.
  destruct (includes _ (lit "specialframes_invincible")).
  { cbn [lineDiagnostics]. unfold provideIFrameDiagnostics.
    set (node := iframeNodeOf JSON_parse line n).
    match goal with
    | |- context [fold_left _ _ ?m3] =>
        assert (H3 : Forall (fun m => startsWithT m = false) m3)
    end.
    { destruct (valueOf (IFrame.time node));
        destruct (match valueOf (IFrame.event node) with
                  | Some v => eqs v (lit "SpecialFrames_Invincible")
                  | None => false
                  end);
        destruct (IFrame.jsonParseError node);
        destruct (valueOf (IFrame.json node));
        cbn [app]; repeat constructor. }
    destruct (valueOf (IFrame.json node)) as [value|]; [|exact H3].
    destruct (truthy value); [|exact H3].
    rewrite fold_left_unless. apply Forall_app. split; [exact H3|].
    apply Forall_map, Forall_forall. intros key _. reflexivity. }
  destruct (includes _ (lit "pie")).
  { cbn [lineDiagnostics].
    destruct (option_map toUpperCase _) as [[|u name]|]; [constructor| |constructor].
    destruct (findNative (u :: name)); [|constructor].
    destruct (_ <? _); repeat constructor. }
  unfold hkannoNodeOf.
  destruct (startsWith (trimStart line) (lit "#")); [constructor|].
  destruct (startsWith (toLowerCase (trimStart line)) (lit "trackname:"));
    [constructor|].
  destruct (includes (toLowerCase line) (lit "animrotation")).
  { cbn [lineDiagnostics]. destruct (valueOf _); repeat constructor. }
  destruct (includes (toLowerCase line) (lit "animmotion")).
  { cbn [lineDiagnostics flat_map fst snd]. rewrite app_nil_r, !Forall_app.
    repeat split; destruct (valueOf _); repeat constructor. }
  (* a text line *)
  unfold textNodeOf.
  cbn [lineDiagnostics Text.time Text.text Text.space1TimeToText
       Text.space0AfterText].
  set (c1 := skipSpace ([], line)).
  assert (E1 : snd c1 = trimStart line)
    by (rewrite trimStart_dropWhile; reflexivity).
  set (c3 := skipSpace (skipNumber c1)).
  assert (E3 : snd c3 = dropWhile isSpace (numberRest (trimStart line))).
  { subst c3. unfold skipSpace, skipNumber, move. cbn [snd]. rewrite E1.
    reflexivity. }
  destruct (numberAt n c1) as [t|] eqn:Et; [|constructor].
  destruct (valueOf (untilAt n [newline] c3)) as [[|x v]|] eqn:Ev;
    [|constructor|].
  - (* a present text is not empty *)
    exfalso. unfold untilAt, textTok in Ev.
    destruct (takeWhile (notIn [newline]) (snd c3)); discriminate Ev.
  - exfalso. unfold bareTime in H. cbv zeta in H.
    assert (N : eqs (numberText (trimStart line)) [] = false).
    { unfold numberAt, numberTok in Et. rewrite E1 in Et.
      destruct (numberText (trimStart line)); [discriminate Et | reflexivity]. }
    rewrite N in H. cbn [negb andb] in H.
    assert (D : dropWhile isSpace (numberRest (trimStart line)) = []).
    { rewrite <- E3. unfold untilAt, textTok in Ev.
      destruct (snd c3) as [|d r] eqn:E; [reflexivity|].
      symmetry in E3. pose proof (dropWhile_head _ _ E3) as Hd.
      cbn [takeWhile] in Ev.
      destruct (notIn [newline] d) eqn:Hn; [discriminate Ev|].
      unfold notIn in Hn. cbn [existsb] in Hn.
      rewrite orb_false_r, negb_false_iff in Hn. apply eqc_true in Hn.
      subst d. discriminate Hd. }
    rewrite trimStart_dropWhile, D in H. discriminate H.
Qed.

(** X5. The warning for a missing text annotation is set exactly on the
    lines that hold, white space apart, a numeral and nothing else.  On
    such a line it is the only marker, from the end of the numeral to the
    end of the line; on any other line no marker has its message. *)
Theorem text_missing_iff_bare_time (JSON_parse : str -> str + Json)
    (fuel : nat) (line : str) :
  length line <= fuel ->
  (bareTime line = true ->
   updateHkannoDiagnostics JSON_parse fuel [line] = Ok [textMissing line 1]) /\
  (bareTime line = false ->
   exists markers,
     updateHkannoDiagnostics JSON_parse fuel [line] = Ok markers /\
     Forall (fun m => Marker.message m
                      <> wide (lit "Text annotation is missing."))
            markers).
Proof.
  intros Hf.
  assert (E : updateHkannoDiagnostics JSON_parse fuel [line]
              = Ok (diagnosticsOf JSON_parse line 1)).
  { unfold updateHkannoDiagnostics.
    rewrite diagnosticsFrom_eq by (constructor; [exact Hf | constructor]).
    cbn [markersFrom app]. rewrite app_nil_r. reflexivity. }
  rewrite E. split; intros H.
  - unfold diagnosticsOf. rewrite (bareTime_text JSON_parse line 1 H).
    rewrite (bareTime_marker line 1 H). reflexivity.
  - exists (diagnosticsOf JSON_parse line 1). split; [reflexivity|].
    eapply Forall_impl; [|apply (not_bareTime_markers JSON_parse line 1 H)].
    intros m Hm Em. apply textMissing_message in Em. congruence.
Qed.

Lemma text_missing_iff_bare_time_witness :
  length (lit " 1.5e2  ") <= 8 /\
  (bareTime (lit " 1.5e2  ") = true ->
   updateHkannoDiagnostics (fun _ => inl []) 8 [lit " 1.5e2  "]
   = Ok [textMissing (lit " 1.5e2  ") 1]) /\
  (bareTime (lit " 1.5e2  ") = false ->
   exists markers,
     updateHkannoDiagnostics (fun _ => inl []) 8 [lit " 1.5e2  "]
     = Ok markers /\
     Forall (fun m => Marker.message m
                      <> wide (lit "Text annotation is missing."))
            markers).
Proof.
  split; [simpl; lia|].
  apply (text_missing_iff_bare_time (fun _ => inl []) 8 (lit " 1.5e2  ")).
  simpl. lia.
Defined.

(* ------------------------------------------------------------------ *)
(** ** An IFrame line with its time and its event name *)

Lemma scanChar_notSpace (c : ascii) :
  isScanChar c = true -> isSpace c = false.
Proof.
  destruct c as [[] [] [] [] [] [] [] []]; intros H;
    try discriminate H; reflexivity.
Qed.

Lemma space_endsNumber (c : ascii) : isSpace c = true -> endsNumber c = true.
Proof.
  destruct c as [[] [] [] [] [] [] [] []]; intros H;
    try discriminate H; reflexivity.
Qed.

Lemma numeral_head (t : str) :
  t <> [] -> numberText t = t ->
  exists c r, t = c :: r /\ isSpace c = false.
Proof.
  intros Ht Hn. destruct t as [|c r]; [contradiction Ht; reflexivity|].
  exists c, r. split; [reflexivity|]. apply scanChar_notSpace.
  pose proof (numberText_scan (c :: r)) as S. rewrite Hn in S.
  inversion S. assumption.
Qed.

(** Reading white space, then a numeral, then white space again. *)
Lemma read_blank (pre s rest : str) (c : ascii) :
  blank s -> isSpace c = false ->
  skipSpace (pre, s ++ c :: rest) = (pre ++ s, c :: rest).
Proof.
  intros Hs Hc. unfold skipSpace, move. cbn [fst snd].
  rewrite takeWhile_app_stop, dropWhile_app_stop by exact Hc.
  rewrite (takeWhile_fixed _ _ Hs), (dropWhile_all _ _ Hs). reflexivity.
Qed.

Lemma read_numeral (pre t rest : str) (c : ascii) :
  numberText t = t -> endsNumber c = true ->
  skipNumber (pre, t ++ c :: rest) = (pre ++ t, c :: rest) /\
  numberText (t ++ c :: rest) = t.
Proof.
  intros Ht Hc. unfold skipNumber, move. cbn [fst snd].
  destruct (numberText_app_stop t rest c Hc) as [E1 E2].
  rewrite E1, E2, Ht, (numberRest_of_whole t Ht). split; reflexivity.
Qed.

Section IFrameLine.

Variable JSON_parse : str -> str + Json.
Variables s0 t s1 raw : str.
Hypothesis Hs0 : blank s0.
Hypothesis Hs1 : blank s1.
Hypothesis Ht : t <> [].
Hypothesis Hnum : numberText t = t.
Hypothesis Hraw : noNewline raw.

#[local] Abbreviation line := (iframeLine s0 t s1 raw).
#[local] Abbreviation event := (lit "SpecialFrames_Invincible").

Lemma iframeLine_kind :
  includes (toLowerCase line) (lit "specialframes_invincible") = true.
Proof.
  unfold iframeLine. rewrite !toLowerCase_app.
  apply includes_app_r, includes_app_r, includes_app_r, includes_startsWith.
  apply (startsWith_app (lit "specialframes_invincible")).
Qed.

Lemma iframeLine_cursors :
  skipSpace ([], line) = (s0, t ++ s1 ++ event ++ raw) /\
  skipNumber (s0, t ++ s1 ++ event ++ raw) = (s0 ++ t, s1 ++ event ++ raw) /\
  numberText (t ++ s1 ++ event ++ raw) = t /\
  skipSpace (s0 ++ t, s1 ++ event ++ raw) = ((s0 ++ t) ++ s1, event ++ raw) /\
  skipLiteral event ((s0 ++ t) ++ s1, event ++ raw)
  = (((s0 ++ t) ++ s1) ++ event, raw).
Proof.
  destruct (numeral_head t Ht Hnum) as (c & r & Et & Hc).
  assert (He : exists d rest, s1 ++ event ++ raw = d :: rest /\
                              endsNumber d = true).
  { destruct s1 as [|d s1'] eqn:E1.
    - eexists. eexists. split; [reflexivity | reflexivity].
    - exists d, (s1' ++ event ++ raw). split; [reflexivity|].
      apply space_endsNumber. inversion Hs1. assumption. }
  destruct He as (d & rest & Ed & Hd).
  split.
  { unfold iframeLine. rewrite Et. cbn [app].
    rewrite (read_blank [] s0 (r ++ s1 ++ event ++ raw) c Hs0 Hc).
    reflexivity. }
  rewrite Ed.
  destruct (read_numeral s0 t rest d Hnum Hd) as [E1 E2].
  split; [exact E1|]. split; [exact E2|]. rewrite <- Ed.
  split.
  { change (event ++ raw)
      with ("S"%char :: lit "pecialFrames_Invincible" ++ raw).
    apply read_blank; [exact Hs1 | reflexivity]. }
  unfold skipLiteral, move, literalText, afterLiteral. cbn [fst snd].
  rewrite startsWith_app.
  rewrite (skipn_app_le (length event) event raw) by lia.
  rewrite skipn_all. reflexivity.
Qed.

Lemma iframeLine_jsonCursor :
  iframeJsonCursor line = (((s0 ++ t) ++ s1) ++ event, raw).
Proof.
  destruct iframeLine_cursors as (E1 & E2 & _ & E3 & E4).
  unfold iframeJsonCursor. rewrite E1, E2, E3, E4. reflexivity.
Qed.

(** The markers of the line: those on its JSON text. *)
Lemma iframeLine_markers (n : nat) :
  raw <> [] ->
  diagnosticsOf JSON_parse line n = [] <->
  exists v, JSON_parse raw = inr v /\
            (truthy v = true ->
             Forall (fun key => key = lit "Duration") (Object_keys v)).
Proof.
  intros Hr. unfold diagnosticsOf, hkannoNodeExtOf.
  rewrite iframeLine_kind. cbn [lineDiagnostics].
  unfold iframeNodeOf. rewrite iframeLine_jsonCursor.
  destruct iframeLine_cursors as (E1 & E2 & E5 & E3 & E4).
  rewrite E1, E2, E3. cbn [snd fst].
  rewrite (takeWhile_line raw Hraw).
  unfold provideIFrameDiagnostics.
  assert (Etime : valueOf (numberAt n (s0, t ++ s1 ++ event ++ raw))
                  = Some (Number t)).
  { unfold numberAt, numberTok. cbn [snd]. rewrite E5.
    destruct t; [contradiction Ht; reflexivity | reflexivity]. }
  assert (Eevent : valueOf (literalAt n event ((s0 ++ t) ++ s1, event ++ raw))
                   = Some event).
  { unfold literalAt, literalTok. cbn [snd]. rewrite startsWith_app.
    reflexivity. }
  destruct raw as [|d ds] eqn:Eraw; [contradiction Hr; reflexivity|].
  destruct (JSON_parse (d :: ds)) as [msg|data] eqn:Ej;
    cbn [IFrame.time IFrame.event IFrame.json IFrame.jsonParseError];
    rewrite Etime, Eevent; cbn [eqs valueOf Field.value app].
  - split.
    + intros H. discriminate H.
    + intros (w & Hw & _). discriminate Hw.
  - change (eqs event event) with true. cbv iota.
    destruct (truthy data) eqn:Tr.
    + rewrite fold_left_unless. cbn [app]. split.
      * intros H. exists data. split; [reflexivity|]. intros _.
        apply Forall_forall. intros key Hk.
        destruct (eqs key (lit "Duration")) eqn:Ek;
          [apply eqs_true; exact Ek|].
        exfalso.
        assert (Hin : In key (filter (fun key => negb (eqs key (lit "Duration")))
                                     (Object_keys data)))
          by (apply filter_In; split; [exact Hk | rewrite Ek; reflexivity]).
        destruct (filter _ (Object_keys data)); [exact Hin | discriminate H].
      * intros (w & Hw & Hall). injection Hw as <-. specialize (Hall Tr).
        assert (E : filter (fun key => negb (eqs key (lit "Duration")))
                           (Object_keys data) = []).
        { induction Hall as [|k ks Hk _ IH]; [reflexivity|].
          cbn [filter]. subst k. rewrite (proj2 (eqs_true _ _) eq_refl).
          exact IH. }
        rewrite E. reflexivity.
    + split; [|reflexivity]. intros _. exists data.
      split; [reflexivity|]. intros H. congruence.
Qed.

End IFrameLine.

(** X6. An IFrame line that has its time and, after it, the event name
    spelled as expected is free of markers exactly when the text after
    the name decodes as JSON and the decoded value, when it is truthy, has
    no key other than Duration.  So [null], [0], [false] and [{}] pass as
    well as an object with the one key. *)
Theorem iframe_line_clean_iff (JSON_parse : str -> str + Json) (fuel : nat)
    (s0 t s1 raw : str) :
  blank s0 -> blank s1 ->
  t <> [] -> numberText t = t ->
  raw <> [] -> noNewline raw ->
  length (iframeLine s0 t s1 raw) <= fuel ->
  updateHkannoDiagnostics JSON_parse fuel [iframeLine s0 t s1 raw] = Ok [] <->
  exists v,
    JSON_parse raw = inr v /\
    (truthy v = true ->
     Forall (fun key => key = lit "Duration") (Object_keys v)).
Proof.
  intros Hs0 Hs1 Ht Hnum Hr Hraw Hf.
  rewrite <- (iframeLine_markers JSON_parse s0 t s1 raw Hs0 Hs1 Ht Hnum Hraw
                1 Hr).
  unfold updateHkannoDiagnostics.
  rewrite diagnosticsFrom_eq by (constructor; [exact Hf | constructor]).
  cbn [markersFrom app]. rewrite app_nil_r.
  split; [intros H; injection H as ->; reflexivity | intros ->; reflexivity].
Qed.

Lemma iframe_line_clean_iff_witness :
  updateHkannoDiagnostics parseNullOnly 40
    [iframeLine (lit " ") (lit "0.5") (lit " ") (lit " null")] = Ok [] <->
  exists v,
    parseNullOnly (lit " null") = inr v /\
    (truthy v = true ->
     Forall (fun key => key = lit "Duration") (Object_keys v)).
Proof.
  apply (iframe_line_clean_iff parseNullOnly 40
           (lit " ") (lit "0.5") (lit " ") (lit " null")).
  - repeat constructor.
  - repeat constructor.
  - discriminate.
  - reflexivity.
  - discriminate.
  - repeat (constructor; [discriminate|]); constructor.
  - simpl. lia.
Defined.

(* ------------------------------------------------------------------ *)
(** ** A payload-instruction line *)

Lemma bars_head (params : list str) :
  bars params = [] \/ exists r, bars params = "|"%char :: r.
Proof.
  destruct params as [|x params]; [left; reflexivity|].
  right. eexists. reflexivity.
Qed.

Lemma read_barless (x : str) (params : list str) :
  barless x ->
  takeWhile (notIn (lit "|")) (x ++ bars params) = x /\
  dropWhile (notIn (lit "|")) (x ++ bars params) = bars params.
Proof.
  intros Hx. destruct (bars_head params) as [->|[r ->]].
  - rewrite app_nil_r. split; [apply takeWhile_fixed | apply dropWhile_all];
      exact Hx.
  - rewrite takeWhile_app_stop, dropWhile_app_stop by reflexivity.
    rewrite (takeWhile_fixed _ _ Hx), (dropWhile_all _ _ Hx). split; reflexivity.
Qed.

Lemma itemsFrom_bars (n : nat) (params : list str) :
  Forall barless params ->
  forall k pre,
    length params <= k ->
    itemsFrom k n (pre, bars params) = itemsOf n pre params.
Proof.
  intros H. induction H as [|x params Hx _ IH]; intros k pre Hk.
  - destruct k; reflexivity.
  - destruct k as [|k]; [cbn in Hk; lia|].
    cbn [bars flat_map app itemsFrom itemsOf snd].
    change (flat_map (fun x => "|"%char :: x) params) with (bars params).
    destruct (read_barless x params Hx) as [E1 E2].
    assert (S1 : skipLiteral (lit "|") (pre, "|"%char :: x ++ bars params)
                 = (pre ++ lit "|", x ++ bars params)) by reflexivity.
    rewrite S1.
    assert (S2 : skipUntil (lit "|") (pre ++ lit "|", x ++ bars params)
                 = ((pre ++ lit "|") ++ x, bars params)).
    { unfold skipUntil, move. cbn [fst snd]. rewrite E1, E2. reflexivity. }
    rewrite S2. f_equal.
    + unfold untilAt. cbn [fst snd]. rewrite E1. reflexivity.
    + apply IH. cbn in Hk. lia.
Qed.

Lemma providedCount_itemsOf (n : nat) (params : list str) :
  forall pre, providedCount (itemsOf n pre params) = givenCount params.
Proof.
  unfold providedCount, givenCount.
  induction params as [|x params IH]; intros pre; [reflexivity|].
  cbn [itemsOf filter ParameterItem.value].
  destruct x as [|c x]; cbn [textTok fieldTok eqs negb length]; rewrite IH;
    reflexivity.
Qed.

Lemma bars_length (params : list str) : length params <= length (bars params).
Proof.
  induction params as [|x params IH]; [cbn; lia|].
  cbn [bars flat_map length app]. rewrite length_app.
  change (flat_map (fun x => "|"%char :: x) params) with (bars params). lia.
Qed.

Section PieLine.

Variable JSON_parse : str -> str + Json.
Variable prefix : ascii.
Variable name : str.
Variable params : list str.
Hypothesis Hprefix : isPrefix prefix = true.
Hypothesis Hname : name <> [].
Hypothesis Hbarless : barless name.
Hypothesis Hparams : Forall barless params.

#[local] Abbreviation line := (pieLine prefix name params).

Lemma pieLine_node (n : nat) :
  payloadNodeOf line n
  = PayloadInstruction.mk None None None
      (Some (Field.mk (Some (lit "PIE")) (Some (makePos n 0 3))))
      (Some (Field.mk (Some (lit ".")) (Some (makePos n 3 4))))
      (Some (Instruction.mk
               (Some (Field.mk (Some prefix) (Some (makePos n 4 5))))
               (Some (Field.mk (Some name)
                        (Some (makePos n 5 (5 + length name)))))
               match params with
               | [] => None
               | _ =>
                   Some (Parameters.mk
                           (itemsOf n (lit "PIE." ++ prefix :: name) params)
                           (Some (makePos n (5 + length name)
                                    (5 + length name + length (bars params)))))
               end)).
Proof.
  unfold payloadNodeOf.
  assert (A : skipLiteral (lit ".")
                (skipUntil (lit ".")
                   (skipSpace (skipNumber (skipSpace ([], line)))))
              = (lit "PIE.", prefix :: name ++ bars params)) by reflexivity.
  f_equal; try reflexivity.
  rewrite A. unfold instructionAt. cbn [snd fst]. rewrite Hprefix.
  destruct (read_barless name params Hbarless) as [E1 E2].
  assert (S2 : skipUntil (lit "|")
                 (move (lit "PIE.", prefix :: name ++ bars params)
                       [prefix] (name ++ bars params))
               = (lit "PIE." ++ prefix :: name, bars params)).
  { unfold skipUntil, move. cbn [fst snd]. rewrite E1, E2.
    rewrite <- app_assoc. reflexivity. }
  rewrite S2. cbn [fst snd].
  assert (EN : untilAt n (lit "|")
                 (move (lit "PIE.", prefix :: name ++ bars params)
                       [prefix] (name ++ bars params))
               = Some (Field.mk (Some name)
                         (Some (makePos n 5 (5 + length name))))).
  { unfold untilAt, move. cbn [fst snd]. rewrite E1. unfold textTok.
    destruct name; [contradiction Hname; reflexivity | reflexivity]. }
  rewrite EN.
  assert (EL : length (lit "PIE." ++ prefix :: name) = 5 + length name)
    by reflexivity.
  rewrite EL.
  clear A E1 E2 S2 EN EL.
  destruct params as [|x ps]; [reflexivity|].
  change (startsWith (bars (x :: ps)) (lit "|")) with true. cbv iota.
  rewrite (itemsFrom_bars n (x :: ps) Hparams) by apply bars_length.
  reflexivity.
Qed.

End PieLine.

(** X7. A line [PIE.] with a prefix, the name of a native instruction in
    any case and parameters after bars, which does not hold
    [specialframes_invincible] in any case (such a line is read as an
    IFrame line), gets one error when the parameters that are not empty
    are fewer than the placeholders of the snippet of the instruction,
    from the prefix to the end of the line, and no marker otherwise:
    empty parameters do not count, and parameters beyond those of the
    snippet are not reported. *)
Theorem pie_arity_checked (JSON_parse : str -> str + Json) (fuel : nat)
    (prefix : ascii) (name : str) (params : list str)
    (def : PieInstruction.t) :
  isPrefix prefix = true ->
  name <> [] -> barless name -> Forall barless params ->
  includes (toLowerCase (pieLine prefix name params))
           (lit "specialframes_invincible") = false ->
  findNative (toUpperCase name) = Some def ->
  length (pieLine prefix name params) <= fuel ->
  updateHkannoDiagnostics JSON_parse fuel [pieLine prefix name params]
  = Ok (if givenCount params
           <? countPlaceholders (PieInstruction.snippet def) 0
        then [tooFewParameters (pieLine prefix name params) 1
                (toUpperCase name)
                (countPlaceholders (PieInstruction.snippet def) 0)
                (givenCount params)]
        else []).
Proof.
  intros Hp Hn Hb Hps Hk Hd Hf.
  unfold updateHkannoDiagnostics.
  rewrite diagnosticsFrom_eq by (constructor; [exact Hf | constructor]).
  cbn [markersFrom app]. rewrite app_nil_r. f_equal.
  unfold diagnosticsOf, hkannoNodeExtOf. rewrite Hk.
  assert (Ek : includes (toLowerCase (pieLine prefix name params)) (lit "pie")
               = true) by reflexivity.
  rewrite Ek, (pieLine_node prefix name params Hp Hn Hb Hps).
  cbn [lineDiagnostics PayloadInstruction.instruction Instruction.name
       Instruction.prefix Instruction.parameters valueOf Field.value
       option_map posOf Field.pos].
  destruct (toUpperCase name) as [|u w] eqn:Eu.
  { destruct name as [|c r]; [contradiction Hn; reflexivity|].
    unfold toUpperCase in Eu. cbn [flat_map] in Eu.
    apply app_eq_nil in Eu. destruct Eu as [Eu _].
    unfold upperChar in Eu. repeat destruct (_ : bool) in Eu; discriminate Eu. }
  rewrite Hd.
  assert (Ec : match params with
               | [] => 0
               | _ => providedCount
                        (itemsOf 1 (lit "PIE." ++ prefix :: name) params)
               end = givenCount params).
  { destruct params; [reflexivity | apply providedCount_itemsOf]. }
  destruct params as [|x ps] eqn:Ep.
  - destruct (_ <? _); [|reflexivity]. unfold tooFewParameters.
    f_equal. f_equal.
    unfold pieLine. cbn [bars flat_map]. rewrite app_nil_r.
    cbn [startColumnOr1 endColumnOr makePos Pos.endColumn lit
         list_ascii_of_string app length]. lia.
  - cbn [Parameters.items Parameters.pos]. rewrite Ec.
    destruct (_ <? _); [|reflexivity]. unfold tooFewParameters.
    f_equal. f_equal.
    unfold pieLine.
    cbn [startColumnOr1 endColumnOr makePos Pos.endColumn lit
         list_ascii_of_string app length].
    rewrite length_app. lia.
Qed.

Lemma pie_arity_checked_witness :
  updateHkannoDiagnostics (fun _ => inl []) 40
    [pieLine "@" (lit "sgvb") [lit "bIsBlocking"; []; lit "1"; lit "x"]]
  = Ok [].
Proof.
  apply (pie_arity_checked (fun _ => inl []) 40 "@" (lit "sgvb")
           [lit "bIsBlocking"; []; lit "1"; lit "x"]
           (PieInstruction.mk (lit "SGVB")
              (fenced (lit "PIE.@SGVB|<graphVariable>|<bool>")
                      (lit "Set an animation boolean variable."))
              (lit "SGVB|${1:graphVariable}|${2:bool}"))).
  - reflexivity.
  - discriminate.
  - repeat (constructor; [reflexivity|]); constructor.
  - repeat (constructor;
            [repeat (constructor; [reflexivity|]); constructor|]);
      constructor.
  - reflexivity.
  - reflexivity.
  - simpl. lia.
Defined.

(* ================================================================== *)
(** * Signature help *)

Lemma pieParams_length (items : list ParameterItemNode) :
  forall idx, length (pieParams items idx) = length items.
Proof.
  induction items as [|p items IH]; intros idx; cbn [pieParams length];
    [reflexivity|]. rewrite IH. reflexivity.
Qed.

Lemma pie_active (node : PayloadInstructionNode) :
  activeInRange (providePieSignatureHelp node).
Proof.
  unfold providePieSignatureHelp, activeInRange.
  destruct (PayloadInstruction.instruction node) as [i|];
    [|split; reflexivity].
  destruct (valueOf (Instruction.name i)) as [[|c name]|];
    [split; reflexivity| |split; reflexivity].
  destruct (findNative _) as [def|]; [|split; reflexivity].
  cbn [SignatureHelp.activeSignature SignatureHelp.signatures
       SignatureHelp.activeParameter SignatureInformation.parameters].
  split; [reflexivity|]. left.
  destruct (Instruction.parameters i) as [ps|].
  - rewrite pieParams_length. lia.
  - cbn [length]. lia.
Qed.

Lemma sliceTo_length (s : str) (b : Z) : length (sliceTo s b) <= length s.
Proof. unfold sliceTo. rewrite length_firstn. lia. Qed.

(** X8. [provideSignatureHelp] returns for every line and position.  When
    it gives a help, the help has at most one signature and its active
    parameter is an index of the parameters of that signature; the one
    exception is a native payload instruction, whose active parameter is
    that of its last parameter and so -1 when it has none. *)
Theorem signature_active_parameter_in_range (JSON_parse : str -> str + Json)
    (fuel : nat) (lineContent : str) (position : Position) :
  length lineContent <= fuel ->
  exists result,
    SignatureProvider.provideSignatureHelp JSON_parse fuel lineContent position
    = Ok result /\
    match result with
    | Some help => activeInRange help
    | None => True
    end.
Proof.
  intros Hf. unfold SignatureProvider.provideSignatureHelp.
  rewrite parseHkannoLineExt_eq
    by (pose proof (sliceTo_length lineContent
                      (Position.column position - 1)); lia).
  eexists. split; [reflexivity|].
  destruct (hkannoNodeExtOf _ _ _) as [[r|m|t|c|k]|f|p].
  - split; [reflexivity|]. right.
    unfold SignatureProvider.rotationArgsProvided.
    destruct (valueOf (Rotation.degrees r)); cbn; lia.
  - split; [reflexivity|]. right.
    unfold SignatureProvider.motionActiveParameter.
    destruct (posOf (Motion.x m)) as [px|]; [|cbn; lia].
    destruct (_ <=? _)%Z; [cbn; lia|].
    destruct (posOf (Motion.y m)) as [py|]; [|cbn; lia].
    destruct (_ <=? _)%Z; cbn; lia.
  - destruct (Text.time t), (Text.space1TimeToText t);
      (split; [reflexivity | right; cbn; lia]).
  - exact I.
  - exact I.
  - exact I.
  - apply pie_active.
Qed.

Lemma signature_active_parameter_in_range_witness :
  length (lit "0.5 animmotion 1 2 3") <= 20 /\
  exists result,
    SignatureProvider.provideSignatureHelp (fun _ => inl []) 20
      (lit "0.5 animmotion 1 2 3") (Position.mk 1 18) = Ok result /\
    match result with
    | Some help => activeInRange help
    | None => True
    end.
Proof.
  split; [simpl; lia|].
  apply (signature_active_parameter_in_range (fun _ => inl []) 20
           (lit "0.5 animmotion 1 2 3") (Position.mk 1 18)).
  simpl. lia.
Defined.
Lemma pieParams_itemsOf (n : nat) (params : list str) :
  forall pre idx,
    pieParams (itemsOf n pre params) idx = shownParams params idx.
Proof.
  induction params as [|x params IH]; intros pre idx; [reflexivity|].
  cbn [itemsOf pieParams shownParams ParameterItem.value]. rewrite IH.
  destruct x; reflexivity.
Qed.

Lemma itemsOf_length (n : nat) (params : list str) :
  forall pre, length (itemsOf n pre params) = length params.
Proof.
  induction params as [|x params IH]; intros pre; [reflexivity|].
  cbn [itemsOf length]. rewrite IH. reflexivity.
Qed.

Lemma sliceTo_before (before after : str) :
  sliceTo (before ++ after) (Z.of_nat (length before) + 1 - 1) = before.
Proof.
  unfold sliceTo. replace (Z.of_nat (length before) + 1 - 1)%Z
    with (Z.of_nat (length before)) by lia.
  destruct (Z.ltb_spec (Z.of_nat (length before)) 0); [lia|].
  rewrite Nat2Z.id, firstn_app, Nat.sub_diag, firstn_all. cbn [firstn].
  apply app_nil_r.
Qed.

(** X9. With the cursor after [PIE.], a prefix, the name of a native
    instruction in any case and parameters after bars, and no
    [specialframes_invincible] in any case before the cursor (the text
    would be read as an IFrame line), the signature help shows the
    instruction under the name of its definition, with one parameter for
    each bar typed so far: they are labelled [param1], [param2], ... and
    documented by the text typed for them.  The active parameter is the
    last of them, and -1 before the first bar. *)
Theorem pie_signature_of_typed_parameters (JSON_parse : str -> str + Json)
    (fuel n : nat) (prefix : ascii) (name : str) (params : list str)
    (after : str) (def : PieInstruction.t) :
  isPrefix prefix = true ->
  name <> [] -> barless name -> Forall barless params ->
  includes (toLowerCase (pieLine prefix name params))
           (lit "specialframes_invincible") = false ->
  findNative (toUpperCase name) = Some def ->
  length (pieLine prefix name params) <= fuel ->
  SignatureProvider.provideSignatureHelp JSON_parse fuel
    (pieLine prefix name params ++ after)
    (Position.mk n (Z.of_nat (length (pieLine prefix name params)) + 1))
  = Ok (Some (SignatureHelp.mk
                [SignatureInformation.mk
                   (PieInstruction.name def ++ lit "()")
                   (Some (PieInstruction.documentation def))
                   (shownParams params 0)]
                0 (Z.of_nat (length params) - 1))).
Proof.
  intros Hp Hn Hb Hps Hk Hd Hf.
  unfold SignatureProvider.provideSignatureHelp.
  cbn [Position.column Position.lineNumber].
  rewrite sliceTo_before, parseHkannoLineExt_eq by exact Hf.
  unfold hkannoNodeExtOf. rewrite Hk.
  assert (Ek : includes (toLowerCase (pieLine prefix name params)) (lit "pie")
               = true) by reflexivity.
  rewrite Ek, (pieLine_node prefix name params Hp Hn Hb Hps).
  unfold providePieSignatureHelp.
  cbn [PayloadInstruction.instruction Instruction.name Instruction.parameters
       valueOf Field.value].
  destruct name as [|c r] eqn:En; [contradiction Hn; reflexivity|].
  rewrite <- En in *. rewrite Hd.
  destruct params as [|x ps] eqn:Ep; [reflexivity|].
  cbn [Parameters.items]. rewrite pieParams_itemsOf, itemsOf_length.
  do 3 f_equal.
  assert (L : length (shownParams (x :: ps) 0) = length (x :: ps)).
  { generalize 0. generalize (x :: ps).
    induction l as [|y l IH]; intros k; cbn [shownParams length];
      [reflexivity | rewrite IH; reflexivity]. }
  lia.
Qed.

Lemma pie_signature_of_typed_parameters_witness :
  SignatureProvider.provideSignatureHelp (fun _ => inl []) 40
    (pieLine "@" (lit "SetGhost") [] ++ lit "|1")
    (Position.mk 3 (Z.of_nat (length (pieLine "@" (lit "SetGhost") [])) + 1))
  = Ok (Some (SignatureHelp.mk
                [SignatureInformation.mk
                   (lit "SETGHOST" ++ lit "()")
                   (Some (fenced (lit "PIE.@SETGHOST|<bool>")
                            (lit "Make the actor ghost (invincible).")))
                   (shownParams [] 0)]
                0 (Z.of_nat (length (@nil str)) - 1))).
Proof.
  apply (pie_signature_of_typed_parameters (fun _ => inl []) 40 3 "@"
           (lit "SetGhost") [] (lit "|1")
           (PieInstruction.mk (lit "SETGHOST")
              (fenced (lit "PIE.@SETGHOST|<bool>")
                      (lit "Make the actor ghost (invincible)."))
              (lit "SETGHOST|${1:bool}"))).
  - reflexivity.
  - discriminate.
  - repeat (constructor; [reflexivity|]); constructor.
  - constructor.
  - reflexivity.
  - reflexivity.
  - simpl. lia.
Defined.

(* ================================================================== *)
(** * Semantic tokens *)

Lemma parameters_pushes (items : list ParameterItemNode) :
  forall st,
    fold_left pushParameter items st
    = fold_left pushCall (flat_map parameterPushes items) st.
Proof.
  induction items as [|it items IH]; intros st; [reflexivity|].
  cbn [fold_left flat_map parameterPushes app]. rewrite IH. f_equal.
  unfold pushParameter, pushCall. cbn [fst snd].
  destruct (parseFloatIsNaN _); reflexivity.
Qed.

Lemma pushNode_pushes (node : HkannoNodeExt) (st : Sem.t) :
  pushNode node st = fold_left pushCall (pushes node) st.
Proof.
  destruct node as [[r|m|t|c|k]|f|p]; cbn [pushNode pushes fold_left];
    try reflexivity.
  destruct (PayloadInstruction.instruction p) as [i|]; [|reflexivity].
  cbn [fold_left].
  destruct (Instruction.parameters i) as [ps|]; [|reflexivity].
  apply parameters_pushes.
Qed.

Lemma pushed_nil (st : Sem.t) : pushed st [] = st.
Proof. destruct st. unfold pushed. cbn. rewrite app_nil_r. reflexivity. Qed.

Lemma encode_app (a b : list Placed) :
  forall l c,
    encode l c (a ++ b)
    = encode l c a ++
      encode (fst (lastPlace l c a)) (snd (lastPlace l c a)) b.
Proof.
  induction a as [|[[[tl tc] tn] ty] a IH]; intros l c; [reflexivity|].
  cbn [app encode lastPlace]. rewrite IH. reflexivity.
Qed.

Lemma lastPlace_app (a b : list Placed) :
  forall l c,
    lastPlace l c (a ++ b)
    = lastPlace (fst (lastPlace l c a)) (snd (lastPlace l c a)) b.
Proof.
  induction a as [|[[[tl tc] tn] ty] a IH]; intros l c; [reflexivity|].
  cbn [app lastPlace]. apply IH.
Qed.

Lemma pushed_app (st : Sem.t) (a b : list Placed) :
  pushed st (a ++ b) = pushed (pushed st a) b.
Proof.
  unfold pushed. cbn [Sem.data Sem.lastLine Sem.lastChar].
  rewrite encode_app, lastPlace_app, app_assoc. reflexivity.
Qed.

Lemma pushCall_placed (st : Sem.t) (c : option Pos * str) :
  knownType c -> pushCall st c = pushed st (placed c).
Proof.
  intros Hk. unfold pushCall, pushToken, placed.
  destruct (fst c) as [p|]; [|symmetry; apply pushed_nil].
  destruct (Z.eqb_spec (indexOf TOKEN_TYPES (snd c)) (-1));
    [unfold knownType in Hk; lia|].
  unfold pushed. cbn [encode lastPlace fst snd app]. reflexivity.
Qed.

Lemma pushCalls_placed (calls : list (option Pos * str)) :
  Forall knownType calls ->
  forall st, fold_left pushCall calls st = pushed st (flat_map placed calls).
Proof.
  intros H. induction H as [|c calls Hc _ IH]; intros st; cbn [fold_left flat_map].
  - symmetry. apply pushed_nil.
  - rewrite IH, pushed_app, (pushCall_placed st c Hc). reflexivity.
Qed.

Lemma pushes_known (node : HkannoNodeExt) : Forall knownType (pushes node).
Proof.
  assert (Hp : forall items, Forall knownType (flat_map parameterPushes items)).
  { induction items as [|it items IH]; [constructor|].
    cbn [flat_map parameterPushes app].
    constructor; [unfold knownType; cbn; lia|].
    constructor; [|exact IH].
    unfold knownType. cbn [snd]. destruct (parseFloatIsNaN _); cbn; lia. }
  destruct node as [[r|m|t|c|k]|f|p]; cbn [pushes];
    repeat (constructor; [unfold knownType; cbn; lia|]); try constructor.
  destruct (PayloadInstruction.instruction p) as [i|]; [|constructor].
  repeat (constructor; [unfold knownType; cbn; lia|]).
  destruct (Instruction.parameters i); [apply Hp | constructor].
Qed.

Lemma semanticLines_eq (JSON_parse : str -> str + Json) (fuel : nat)
    (lines : list str) :
  Forall (fun l => length l <= fuel) lines ->
  forall n st,
    semanticLines JSON_parse fuel lines n st
    = Ok (pushed st (placedFrom JSON_parse lines n)).
Proof.
  intros H. induction H as [|l lines Hl _ IH]; intros n st;
    cbn [semanticLines placedFrom].
  - rewrite pushed_nil. reflexivity.
  - rewrite parseHkannoLineExt_eq by exact Hl. rewrite IH, pushed_app.
    rewrite pushNode_pushes, (pushCalls_placed _ (pushes_known _)).
    reflexivity.
Qed.
(* ------------------------------------------------------------------ *)
(** ** The order of the tokens of a line *)

Lemma ordered_mono (n hi : nat) (ps : list (option Pos)) :
  forall lo lo', lo' <= lo -> ordered n lo hi ps -> ordered n lo' hi ps.
Proof.
  induction ps as [|[p|] ps IH]; intros lo lo' Hl; cbn [ordered].
  - lia.
  - intros (H1 & H2 & H3 & H4). repeat split; try assumption. lia.
  - apply IH. exact Hl.
Qed.

Lemma ordered_span (n lo hi : nat) (c c' : Cursor) (ps : list (option Pos)) :
  lo <= col c + 1 -> col c <= col c' ->
  ordered n (col c' + 1) hi ps ->
  ordered n lo hi (spanAt n c c' :: ps).
Proof.
  intros Hl Hc H. unfold spanAt.
  destruct (Nat.ltb_spec (col c) (col c')); cbn [ordered].
  - unfold makePos. cbn [Pos.line Pos.startColumn Pos.endColumn].
    repeat split; try lia. exact H.
  - apply (ordered_mono n hi ps (col c' + 1)); [lia | exact H].
Qed.

Lemma ordered_end (n : nat) (line : str) (c : Cursor) :
  onLine line c -> ordered n (col c + 1) (length line + 1) [].
Proof. intros H. apply col_onLine in H. cbn [ordered]. lia. Qed.

(** The columns of the cursors of a parse only grow. *)
Ltac col_le :=
  repeat first
    [ apply Nat.le_refl
    | (eapply Nat.le_trans; [|apply col_skipSpace])
    | (eapply Nat.le_trans; [|apply col_skipNumber])
    | (eapply Nat.le_trans; [|apply col_skipUntil])
    | (eapply Nat.le_trans; [|apply col_skipLiteral]) ].

Ltac ordered_tac :=
  repeat (apply ordered_span;
          [first [apply Nat.le_refl | apply Nat.add_le_mono_r; col_le | lia]
          | col_le |]);
  apply ordered_end; auto 20 with cursor.

Lemma items_ordered (line : str) (n k : nat) :
  forall c : Cursor,
    onLine line c ->
    ordered n (col c + 1) (length line + 1)
      (map fst (flat_map parameterPushes (itemsFrom k n c))).
Proof.
  induction k as [|k IH]; intros c Hc; [apply ordered_end, Hc|].
  cbn [itemsFrom]. destruct (snd c) eqn:E; [apply ordered_end, Hc|].
  cbn [flat_map parameterPushes app map fst ParameterItem.separator
       ParameterItem.value].
  rewrite literalAt_span by discriminate. rewrite untilAt_span.
  apply ordered_span; [lia | apply col_skipLiteral|].
  apply ordered_span; [lia | apply col_skipUntil|].
  apply IH. auto with cursor.
Qed.

Lemma payload_ordered (line : str) (n : nat) :
  ordered n 1 (length line + 1)
    (map fst (pushes (NPayloadInstruction (payloadNodeOf line n)))).
Proof.
  unfold payloadNodeOf.
  cbn [pushes PayloadInstruction.event PayloadInstruction.instruction map fst].
  rewrite untilAt_span.
  set (c3 := skipSpace (skipNumber (skipSpace ([], line)))).
  assert (H3 : onLine line c3) by (subst c3; auto 10 with cursor).
  set (c5 := skipLiteral (lit ".") (skipUntil (lit ".") c3)).
  assert (H5 : onLine line c5) by (subst c5; auto 10 with cursor).
  assert (L5 : col (skipUntil (lit ".") c3) <= col c5)
    by (subst c5; apply col_skipLiteral).
  apply ordered_span; [lia | apply col_skipUntil|].
  unfold instructionAt.
  destruct (snd c5) as [|ch ahead] eqn:E.
  { cbn [map]. apply (ordered_mono _ _ _ (col c5 + 1)); [lia|].
    apply ordered_end, H5. }
  destruct (isPrefix ch).
  2: { cbn [map]. apply (ordered_mono _ _ _ (col c5 + 1)); [lia|].
       apply ordered_end, H5. }
  cbn [Instruction.prefix Instruction.name Instruction.parameters map fst
       posOf fieldTok Field.pos].
  set (c6 := move c5 [ch] ahead).
  assert (H6 : onLine line c6)
    by (apply onLine_move; [exact H5 | symmetry; exact E]).
  assert (E6 : Some (makePos n (length (fst c5)) (length (fst c5) + length [ch]))
               = spanAt n c5 c6).
  { subst c6. rewrite spanAt_move. reflexivity. }
  rewrite E6, untilAt_span.
  apply ordered_span; [lia | subst c6; rewrite col_move; lia|].
  apply ordered_span; [lia | apply col_skipUntil|].
  destruct (startsWith _ (lit "|")).
  - cbn [Parameters.items]. apply items_ordered. auto with cursor.
  - cbn [map]. apply ordered_end. auto with cursor.
Qed.

Lemma pushes_ordered (JSON_parse : str -> str + Json) (line : str) (n : nat) :
  ordered n 1 (length line + 1)
    (map fst (pushes (hkannoNodeExtOf JSON_parse line n))).
Proof.
  change 1 with (col (([], line) : Cursor) + 1) at 1.
  unfold hkannoNodeExtOf.
  destruct (includes _ (lit "specialframes_invincible")).
  { unfold iframeNodeOf.
    destruct (match takeWhile _ _ with [] => _ | _ => _ end) as [j e].
    cbn [pushes IFrame.event map fst].
    rewrite literalAt_span by discriminate. ordered_tac. }
  destruct (includes _ (lit "pie")); [apply payload_ordered|].
  unfold hkannoNodeOf.
  destruct (startsWith (trimStart line) (lit "#")).
  { cbn [pushes map]. apply ordered_end. auto with cursor. }
  destruct (startsWith (toLowerCase (trimStart line)) (lit "trackname:")).
  { unfold trackNameNodeOf. cbn [pushes TrackName.literal TrackName.name map fst].
    assert (E : forall f, posOf (trimField f) = posOf f).
    { intros [[[[|x v]|] p]|]; reflexivity. }
    rewrite E, literalAt_span, untilAt_span by discriminate. ordered_tac. }
  destruct (includes (toLowerCase line) (lit "animrotation")).
  { unfold rotationNodeOf. cbn [pushes Rotation.event Rotation.degrees map fst].
    rewrite literalAt_span, numberAt_span by discriminate. ordered_tac. }
  destruct (includes (toLowerCase line) (lit "animmotion")).
  { unfold motionNodeOf.
    cbn [pushes Motion.event Motion.x Motion.y Motion.z map fst].
    rewrite literalAt_span, !numberAt_span by discriminate. ordered_tac. }
  unfold textNodeOf. cbn [pushes Text.time Text.text map fst].
  rewrite numberAt_span, untilAt_span. ordered_tac.
Qed.
(* ------------------------------------------------------------------ *)
(** ** The order of the tokens of a model *)

Lemma ordered_le (n hi : nat) (ps : list (option Pos)) :
  forall lo, ordered n lo hi ps -> lo <= hi.
Proof.
  induction ps as [|[p|] ps IH]; intros lo; cbn [ordered].
  - tauto.
  - intros (_ & H2 & H3 & H4). apply IH in H4. lia.
  - apply IH.
Qed.

Lemma sorted_line (N W : Z) (n hi : nat) (R : list Placed) :
  (Z.of_nat n < N)%Z ->
  (Z.of_nat hi - 1 <= W)%Z ->
  (forall l e, (l <= Z.of_nat n)%Z -> sortedFrom N W l e R) ->
  forall calls lo l e,
    Forall knownType calls ->
    ordered (n + 1) lo hi (map fst calls) ->
    1 <= lo ->
    (l < Z.of_nat n \/ l = Z.of_nat n /\ e <= Z.of_nat lo - 1)%Z ->
    sortedFrom N W l e (flat_map placed calls ++ R).
Proof.
  intros HN HW HR calls.
  induction calls as [|[[p|] ty] calls IH]; intros lo l e Hk Ho Hlo Hl.
  - cbn [flat_map app]. apply HR. lia.
  - cbn [flat_map app placed fst snd sortedFrom].
    inversion Hk as [|x xs Hty Hks]; subst x xs.
    cbn [map fst ordered] in Ho. destruct Ho as (H1 & H2 & H3 & H4).
    pose proof (ordered_le _ _ _ _ H4) as H5.
    unfold knownType in Hty. cbn [snd] in Hty.
    split.
    + rewrite H1. repeat split; try lia.
    + apply (IH (Pos.endColumn p)); [exact Hks | exact H4 | lia |].
      right. rewrite H1. lia.
  - cbn [flat_map app placed fst].
    inversion Hk as [|x xs Hty Hks]; subst x xs.
    apply (IH lo); assumption.
Qed.

Lemma placedFrom_sorted (JSON_parse : str -> str + Json) (N W : Z)
    (lines : list str) :
  Forall (fun l => (Z.of_nat (length l) <= W)%Z) lines ->
  forall n l e,
    (Z.of_nat n + Z.of_nat (length lines) <= N)%Z ->
    (l < Z.of_nat n \/ l = Z.of_nat n /\ e <= 0)%Z ->
    sortedFrom N W l e (placedFrom JSON_parse lines n).
Proof.
  intros H. induction H as [|x lines Hx _ IH]; intros n l e HN Hl;
    cbn [placedFrom]; [exact I|].
  cbn [length] in HN.
  apply (sorted_line N W n (length x + 1)) with (lo := 1).
  - lia.
  - lia.
  - intros l' e' Hl'. apply IH; lia.
  - apply pushes_known.
  - apply pushes_ordered.
  - lia.
  - cbn. lia.
Qed.

Lemma sorted_wellOrdered (N W : Z) (toks : list Placed) :
  forall l c prev,
    sortedFrom N W l (c + prev)%Z toks -> wellOrdered prev (encode l c toks).
Proof.
  induction toks as [|[[[tl tc] tn] ty] toks IH]; intros l c prev;
    cbn [sortedFrom encode app wellOrdered]; [tauto|].
  intros ((Hp & HlN & Hn & Hw & Hty) & Hs).
  split.
  - destruct (Z.eqb_spec (tl - l) 0); repeat split; lia.
  - apply IH. exact Hs.
Qed.

Lemma sorted_small (N W : Z) (toks : list Placed) :
  (N <= 2 ^ 32)%Z -> (W < 2 ^ 32)%Z ->
  forall l c e,
    (0 <= l)%Z -> (0 <= c <= e)%Z ->
    sortedFrom N W l e toks ->
    Forall (fun z => (0 <= z < 2 ^ 32)%Z) (encode l c toks).
Proof.
  intros HN HW.
  induction toks as [|[[[tl tc] tn] ty] toks IH]; intros l c e Hl Hc;
    cbn [sortedFrom encode app]; [constructor|].
  intros ((Hp & HlN & Hn & Hw & Hty) & Hs).
  cbn [length TOKEN_TYPES] in Hty.
  repeat (constructor; [try (destruct (Z.eqb_spec (tl - l) 0)); lia|]).
  apply (IH tl tc (tc + tn)%Z); [lia | lia | exact Hs].
Qed.

Lemma toUint32_small (data : list Z) :
  Forall (fun z => (0 <= z < 2 ^ 32)%Z) data -> map toUint32 data = data.
Proof.
  intros H. induction H as [|z data Hz _ IH]; [reflexivity|].
  cbn [map]. rewrite IH. unfold toUint32. rewrite Z.mod_small by exact Hz.
  reflexivity.
Qed.

(** X10. For a model of fewer than 2^32 lines, each of fewer than 2^32
    characters, [provideDocumentSemanticTokens] returns data that the
    conversion to 32-bit unsigned numbers leaves as they were pushed, and
    that list the tokens in the order of the document: each token is on
    the line of the token before it or on a later line and, on the same
    line, starts at or after the end of that token; no token is empty,
    and every type is one of [TOKEN_TYPES]. *)
Theorem semantic_tokens_in_document_order (JSON_parse : str -> str + Json)
    (fuel : nat) (lines : list str) :
  Forall (fun l => length l <= fuel) lines ->
  (Z.of_nat (length lines) <= 2 ^ 32)%Z ->
  Forall (fun l => (Z.of_nat (length l) < 2 ^ 32)%Z) lines ->
  exists st,
    semanticLines JSON_parse fuel lines 0 (Sem.mk [] 0 0) = Ok st /\
    provideDocumentSemanticTokens JSON_parse fuel lines = Ok (Sem.data st) /\
    wellOrdered 0 (Sem.data st).
Proof.
  intros Hf HN HW.
  exists (pushed (Sem.mk [] 0 0) (placedFrom JSON_parse lines 0)).
  assert (Hs : sortedFrom (2 ^ 32) (2 ^ 32 - 1) 0 (0 + 0)
                 (placedFrom JSON_parse lines 0)).
  { apply placedFrom_sorted; [|lia|right; lia].
    eapply Forall_impl; [|exact HW]. cbv beta. intros l Hl. lia. }
  assert (Hd : Sem.data (pushed (Sem.mk [] 0 0)
                           (placedFrom JSON_parse lines 0))
               = encode 0 0 (placedFrom JSON_parse lines 0)) by reflexivity.
  split; [apply semanticLines_eq; exact Hf|]. split.
  - unfold provideDocumentSemanticTokens.
    rewrite semanticLines_eq by exact Hf. cbn [mapRes]. f_equal.
    rewrite Hd. apply toUint32_small.
    apply (sorted_small (2 ^ 32) (2 ^ 32 - 1)) with (e := (0 + 0)%Z);
      [lia | lia | lia | lia | exact Hs].
  - rewrite Hd. apply (sorted_wellOrdered (2 ^ 32) (2 ^ 32 - 1)). exact Hs.
Qed.

Lemma semantic_tokens_in_document_order_witness :
  Forall (fun l => length l <= 20)
         [lit "# notes"; lit "0.5 animmotion 1 2 3"; lit "1 PIE.@SGVB|a|1"] /\
  exists st,
    semanticLines (fun _ => inl []) 20
      [lit "# notes"; lit "0.5 animmotion 1 2 3"; lit "1 PIE.@SGVB|a|1"]
      0 (Sem.mk [] 0 0) = Ok st /\
    provideDocumentSemanticTokens (fun _ => inl []) 20
      [lit "# notes"; lit "0.5 animmotion 1 2 3"; lit "1 PIE.@SGVB|a|1"]
    = Ok (Sem.data st) /\
    wellOrdered 0 (Sem.data st).
Proof.
  assert (H : Forall (fun l => length l <= 20)
                [lit "# notes"; lit "0.5 animmotion 1 2 3";
                 lit "1 PIE.@SGVB|a|1"])
    by (repeat (constructor; [simpl; lia|]); constructor).
  split; [exact H|].
  apply (semantic_tokens_in_document_order (fun _ => inl []) 20
           [lit "# notes"; lit "0.5 animmotion 1 2 3"; lit "1 PIE.@SGVB|a|1"]
           H).
  - simpl. lia.
  - repeat (constructor; [simpl; lia|]); constructor.
Defined.

(* ------------------------------------------------------------------ *)
(** ** The values typed on an [animmotion] line *)

Lemma read_blank_end (pre s : str) :
  blank s -> skipSpace (pre, s) = (pre ++ s, []).
Proof.
  intros Hs. unfold skipSpace, move. cbn [fst snd].
  rewrite (takeWhile_fixed _ _ Hs), (dropWhile_all _ _ Hs). reflexivity.
Qed.

Lemma read_numeral_end (pre t : str) :
  numberText t = t -> skipNumber (pre, t) = (pre ++ t, []).
Proof.
  intros Ht. unfold skipNumber, move. cbn [fst snd].
  rewrite Ht, (numberRest_of_whole t Ht). reflexivity.
Qed.

Lemma read_blank_ahead (pre s rest : str) :
  blank s -> solidAhead rest -> skipSpace (pre, s ++ rest) = (pre ++ s, rest).
Proof.
  intros Hs Hr. destruct rest as [|c r].
  - rewrite app_nil_r. apply read_blank_end, Hs.
  - apply read_blank; assumption.
Qed.

Lemma space_endAhead (rest : str) : spaceAhead rest -> endAhead rest.
Proof. destruct rest; [tauto | apply space_endsNumber]. Qed.

Lemma read_numeral_ahead (pre t rest : str) :
  numberText t = t -> endAhead rest ->
  skipNumber (pre, t ++ rest) = (pre ++ t, rest) /\
  numberText (t ++ rest) = t.
Proof.
  intros Ht Hr. destruct rest as [|c r].
  - rewrite app_nil_r. split; [apply read_numeral_end, Ht | exact Ht].
  - apply read_numeral; [exact Ht | exact Hr].
Qed.

Lemma numeral_solid (t rest : str) : numeral t -> solidAhead (t ++ rest).
Proof.
  intros [Ht Hn]. destruct (numeral_head t Ht Hn) as (c & r & -> & Hc).
  exact Hc.
Qed.

Lemma blank_spaceAhead (s rest : str) :
  blank s -> spaceAhead rest -> spaceAhead (s ++ rest).
Proof.
  intros Hs Hr. destruct s as [|c s]; [exact Hr|].
  inversion Hs. assumption.
Qed.

Lemma typed_spaceAhead (a : str * str) (rest : str) :
  typedValue a -> spaceAhead ((fst a ++ snd a) ++ rest).
Proof.
  intros (Hb & Hn & _). destruct (fst a) as [|c s]; [contradiction Hn; reflexivity|].
  inversion Hb. assumption.
Qed.

Lemma spaced_spaceAhead (args : list (str * str)) (trail : str) :
  Forall typedValue args -> blank trail -> spaceAhead (spaced args ++ trail).
Proof.
  intros Ha Ht. destruct Ha as [|a args Ha _].
  - cbn [spaced flat_map app].
    destruct trail as [|c r]; [exact I | inversion Ht; assumption].
  - cbn [spaced flat_map]. rewrite <- app_assoc.
    apply typed_spaceAhead, Ha.
Qed.

(** Reading one typed value. *)
Lemma read_typed (n : nat) (pre : str) (a : str * str) (rest : str) :
  typedValue a -> spaceAhead rest ->
  skipSpace (pre, (fst a ++ snd a) ++ rest)
  = (pre ++ fst a, snd a ++ rest) /\
  skipNumber (pre ++ fst a, snd a ++ rest)
  = ((pre ++ fst a) ++ snd a, rest) /\
  posOf (numberAt n (pre ++ fst a, snd a ++ rest))
  = Some (makePos n (length (pre ++ fst a))
                  (length ((pre ++ fst a) ++ snd a))).
Proof.
  intros (Hb & Hne & Hnum) Hr.
  rewrite <- app_assoc. split.
  { apply read_blank_ahead; [exact Hb | apply numeral_solid, Hnum]. }
  destruct Hnum as [Ht Hn].
  destruct (read_numeral_ahead (pre ++ fst a) (snd a) rest Hn
              (space_endAhead rest Hr)) as [E1 E2].
  split; [exact E1|].
  unfold numberAt, numberTok. cbn [fst snd]. rewrite E2.
  destruct (snd a) eqn:E; [contradiction Ht; reflexivity|].
  cbn [fieldTok posOf Field.pos]. rewrite (length_app (pre ++ fst a)).
  reflexivity.
Qed.

Lemma plainChar_lower (c : ascii) :
  isScanChar c || isSpace c = true ->
  lowerChar c <> "p"%char /\ lowerChar c <> "r"%char.
Proof.
  destruct c as [[] [] [] [] [] [] [] []]; intros H;
    try discriminate H; split; discriminate.
Qed.

Lemma numeral_plain (t : str) :
  numeral t -> Forall (fun c => isScanChar c || isSpace c = true) t.
Proof.
  intros [_ Hn]. rewrite <- Hn. eapply Forall_impl; [|apply numberText_scan].
  intros c Hc. cbv beta in Hc. rewrite Hc. reflexivity.
Qed.

Lemma blank_plain (s : str) :
  blank s -> Forall (fun c => isScanChar c || isSpace c = true) s.
Proof.
  intros H. eapply Forall_impl; [|exact H].
  intros c Hc. cbv beta in Hc. rewrite Hc. apply orb_true_r.
Qed.

Lemma spaced_plain (args : list (str * str)) :
  Forall typedValue args ->
  Forall (fun c => isScanChar c || isSpace c = true) (spaced args).
Proof.
  intros H. induction H as [|a args (Hb & _ & Hn) _ IH]; [constructor|].
  cbn [spaced flat_map]. rewrite !Forall_app. repeat split.
  - apply blank_plain, Hb.
  - apply numeral_plain, Hn.
  - exact IH.
Qed.

Section MotionBefore.

Variable JSON_parse : str -> str + Json.
Variables s0 t s1 trail : str.
Variable args : list (str * str).
Hypothesis Hs0 : blank s0.
Hypothesis Hs1 : blank s1.
Hypothesis Ht : numeral t.
Hypothesis Hargs : Forall typedValue args.
Hypothesis Htrail : blank trail.

#[local] Abbreviation before := (motionBefore s0 t s1 args trail).
#[local] Abbreviation keyword := (lit "animmotion").

Lemma motionBefore_kind (n : nat) :
  hkannoNodeExtOf JSON_parse before n
  = NCommon (NMotion (motionNodeOf before n)).
Proof.
  assert (Hl : forall ch, ch = "p"%char \/ ch = "r"%char -> avoids ch before).
  { intros ch Hch. unfold avoids, motionBefore. rewrite !Forall_app.
    assert (P : forall s, Forall (fun c => isScanChar c || isSpace c = true) s ->
                          Forall (fun c => lowerChar c <> ch) s).
    { intros s Hs. eapply Forall_impl; [|exact Hs]. intros c Hc.
      destruct (plainChar_lower c Hc) as [Hp Hr].
      destruct Hch as [->| ->]; assumption. }
    repeat split.
    - apply P, blank_plain, Hs0.
    - apply P, numeral_plain, Ht.
    - apply P, blank_plain, Hs1.
    - destruct Hch as [->| ->];
        repeat (constructor; [discriminate|]); constructor.
    - apply P, spaced_plain, Hargs.
    - apply P, blank_plain, Htrail. }
  unfold hkannoNodeExtOf, hkannoNodeOf.
  rewrite (includes_avoids before (lit "specialframes_invincible") "p")
    by (try apply Hl; cbn; tauto).
  rewrite (includes_avoids before (lit "pie") "p")
    by (try apply Hl; cbn; tauto).
  rewrite (includes_avoids before (lit "animrotation") "r")
    by (try apply Hl; cbn; tauto).
  assert (Ek : includes (toLowerCase before) keyword = true).
  { unfold motionBefore. rewrite !toLowerCase_app.
    apply includes_app_r, includes_app_r, includes_app_r, includes_startsWith.
    apply (startsWith_app keyword). }
  rewrite Ek.
  destruct Ht as [Hne Hn].
  destruct (numeral_head t Hne Hn) as (c & r & Et & Hc).
  assert (Es : trimStart before = c :: r ++ s1 ++ keyword ++ spaced args ++ trail).
  { rewrite trimStart_dropWhile. unfold motionBefore. rewrite Et. cbn [app].
    rewrite dropWhile_app_stop by exact Hc.
    rewrite (dropWhile_all _ _ Hs0). reflexivity. }
  rewrite Es.
  assert (Hs : isScanChar c = true).
  { pose proof (numberText_scan t) as S. rewrite Hn, Et in S.
    inversion S. assumption. }
  destruct (scanChar_head c (r ++ s1 ++ keyword ++ spaced args ++ trail) Hs)
    as [-> ->].
  reflexivity.
Qed.

(** The cursor after the keyword. *)
Lemma motionBefore_cursor :
  skipSpace (skipLiteral keyword
               (skipSpace (skipNumber (skipSpace ([], before)))))
  = skipSpace ((((s0 ++ t) ++ s1) ++ keyword), spaced args ++ trail).
Proof.
  destruct Ht as [Hne Hn].
  assert (E1 : skipSpace ([], before)
               = (s0, t ++ s1 ++ keyword ++ spaced args ++ trail)).
  { unfold motionBefore.
    apply (read_blank_ahead [] s0); [exact Hs0 | apply numeral_solid, Ht]. }
  assert (E2 : skipNumber (s0, t ++ s1 ++ keyword ++ spaced args ++ trail)
               = (s0 ++ t, s1 ++ keyword ++ spaced args ++ trail)).
  { apply read_numeral_ahead; [exact Hn|].
    destruct s1 as [|d s1']; [reflexivity|].
    apply space_endsNumber. inversion Hs1. assumption. }
  assert (E3 : skipSpace (s0 ++ t, s1 ++ keyword ++ spaced args ++ trail)
               = ((s0 ++ t) ++ s1, keyword ++ spaced args ++ trail)).
  { apply read_blank_ahead; [exact Hs1 | reflexivity]. }
  assert (E4 : skipLiteral keyword
                 ((s0 ++ t) ++ s1, keyword ++ spaced args ++ trail)
               = (((s0 ++ t) ++ s1) ++ keyword, spaced args ++ trail)).
  { unfold skipLiteral, move, literalText, afterLiteral. cbn [fst snd].
    rewrite startsWith_app.
    rewrite (skipn_app_le (length keyword) keyword _) by lia.
    rewrite skipn_all. reflexivity. }
  rewrite E1, E2, E3, E4. reflexivity.
Qed.

End MotionBefore.
Lemma spaced_nil (args : list (str * str)) (trail : str) :
  Forall typedValue args ->
  spaced args ++ trail = [] -> args = [] /\ trail = [].
Proof.
  intros Ha E. destruct Ha as [|a args (Hb & Hne & _) _].
  - split; [reflexivity | exact E].
  - cbn [spaced flat_map] in E. destruct (fst a); [contradiction Hne; reflexivity|].
    discriminate E.
Qed.

(** X11. With the cursor after a time, the keyword [animmotion] and the
    values typed so far, the active parameter of the signature help is
    the number of values that are followed by white space, and the last
    parameter from the third value on: a value stays active until white
    space is typed after it. *)
Theorem motion_signature_follows_typed_values
    (JSON_parse : str -> str + Json) (fuel n : nat) (s0 t s1 trail : str)
    (args : list (str * str)) (after : str) :
  blank s0 -> blank s1 -> numeral t ->
  Forall typedValue args -> blank trail ->
  length (motionBefore s0 t s1 args trail) <= fuel ->
  SignatureProvider.provideSignatureHelp JSON_parse fuel
    (motionBefore s0 t s1 args trail ++ after)
    (Position.mk n (Z.of_nat (length (motionBefore s0 t s1 args trail)) + 1))
  = Ok (Some (SignatureProvider.fnSignature
                (lit "animmotion <x: f32> <y: f32> <z: f32>")
                (lit "Applies linear motion offset to the animation.")
                [lit "x"; lit "y"; lit "z"]
                (Z.max 0 (Z.min 2 (Z.of_nat (length args)
                                   - match trail with
                                     | [] => 1
                                     | _ => 0
                                     end))))).
Proof.
  intros Hs0 Hs1 Ht Hargs Htrail Hf.
  unfold SignatureProvider.provideSignatureHelp.
  cbn [Position.column Position.lineNumber].
  rewrite sliceTo_before, parseHkannoLineExt_eq by exact Hf.
  rewrite (motionBefore_kind JSON_parse s0 t s1 trail args Hs0 Hs1 Ht Hargs
             Htrail n).
  do 3 f_equal.
  unfold SignatureProvider.motionActiveParameter, motionNodeOf.
  cbn [Motion.x Motion.y Position.column].
  rewrite (motionBefore_cursor s0 t s1 trail args Hs0 Hs1 Ht).
  set (pre := ((s0 ++ t) ++ s1) ++ lit "animmotion").
  assert (Hlen : length (motionBefore s0 t s1 args trail)
                 = length pre + length (spaced args ++ trail)).
  { unfold motionBefore. subst pre. rewrite !length_app. lia. }
  rewrite Hlen. clear Hlen Hf.
  destruct Hargs as [|a more Ha Hmore].
  { (* no value *)
    cbn [spaced flat_map app]. rewrite (read_blank_end pre trail Htrail).
    unfold numberAt. cbn [snd numberText signText]. cbn.
    destruct trail; cbn; lia. }
  cbn [spaced flat_map]. rewrite <- (app_assoc (fst a ++ snd a)).
  change (flat_map (fun a => fst a ++ snd a) more) with (spaced more).
  set (rest := spaced more ++ trail).
  assert (Hrest : spaceAhead rest)
    by (subst rest; apply spaced_spaceAhead; assumption).
  destruct (read_typed n pre a rest Ha Hrest) as (E5 & E6 & Ex).
  rewrite E5, Ex, E6.
  cbn [makePos Pos.endColumn]. rewrite !length_app.
  assert (La : 1 <= length (fst a) /\ 1 <= length (snd a)).
  { destruct Ha as (_ & H1 & H2 & _).
    destruct (fst a); [contradiction H1; reflexivity|].
    destruct (snd a); [contradiction H2; reflexivity|]. cbn. lia. }
  destruct rest as [|c r] eqn:Er.
  { (* the first value ends the text *)
    destruct (spaced_nil more trail Hmore Er) as [-> ->].
    cbn [length]. destruct (Z.leb_spec
      (Z.of_nat (length pre + (length (fst a) + length (snd a) + 0)) + 1)
      (Z.of_nat (length pre + length (fst a) + length (snd a) + 1)));
      [lia | lia]. }
  destruct (Z.leb_spec
      (Z.of_nat (length pre + (length (fst a) + length (snd a)
                               + length (c :: r))) + 1)
      (Z.of_nat (length pre + length (fst a) + length (snd a) + 1)));
    [cbn [length] in *; lia|].
  rewrite <- Er. subst rest.
  destruct Hmore as [|b more' Hb Hmore'].
  { (* white space after the first value *)
    cbn [spaced flat_map app].
    rewrite (read_blank_end _ trail Htrail).
    unfold numberAt. cbn [snd numberText signText]. cbn [posOf numberTok].
    cbn [spaced flat_map app] in Er. rewrite Er. cbn. lia. }
  cbn [spaced flat_map]. rewrite <- (app_assoc (fst b ++ snd b)).
  change (flat_map (fun a => fst a ++ snd a) more') with (spaced more').
  set (rest' := spaced more' ++ trail).
  assert (Hrest' : spaceAhead rest')
    by (subst rest'; apply spaced_spaceAhead; assumption).
  destruct (read_typed n ((pre ++ fst a) ++ snd a) b rest' Hb Hrest')
    as (E7 & _ & Ey).
  rewrite E7, Ey.
  cbn [makePos Pos.endColumn]. rewrite !length_app.
  assert (Lb : 1 <= length (fst b) /\ 1 <= length (snd b)).
  { destruct Hb as (_ & H1 & H2 & _).
    destruct (fst b); [contradiction H1; reflexivity|].
    destruct (snd b); [contradiction H2; reflexivity|]. cbn. lia. }
  destruct rest' as [|c' r'] eqn:Er'.
  { destruct (spaced_nil more' trail Hmore' Er') as [-> ->].
    cbn [length].
    match goal with
    | |- context [(?u <=? ?v)%Z] => destruct (Z.leb_spec u v)
    end; lia. }
  destruct (Z.leb_spec
      (Z.of_nat (length pre + (length (fst a) + length (snd a)
                   + (length (fst b) + length (snd b) + length (c' :: r'))))
       + 1)
      (Z.of_nat (length pre + length (fst a) + length (snd a)
                 + length (fst b) + length (snd b) + 1)));
    [cbn [length] in *; lia|].
  subst rest'. cbn [length].
  destruct trail as [|d trail'].
  - destruct more' as [|e more'']; [discriminate Er'|]. cbn [length]. lia.
  - lia.
Qed.

Lemma motion_signature_follows_typed_values_witness :
  SignatureProvider.provideSignatureHelp (fun _ => inl []) 40
    (motionBefore [] (lit "0.5") (lit " ")
                  [(lit " ", lit "1"); (lit "  ", lit "-2.5")] [] ++
     lit " 3")
    (Position.mk 2
       (Z.of_nat (length (motionBefore [] (lit "0.5") (lit " ")
                            [(lit " ", lit "1"); (lit "  ", lit "-2.5")] []))
        + 1))
  = Ok (Some (SignatureProvider.fnSignature
                (lit "animmotion <x: f32> <y: f32> <z: f32>")
                (lit "Applies linear motion offset to the animation.")
                [lit "x"; lit "y"; lit "z"]
                (Z.max 0 (Z.min 2 (Z.of_nat 2 - 1))))).
Proof.
  apply (motion_signature_follows_typed_values (fun _ => inl []) 40 2
           [] (lit "0.5") (lit " ")
           [] [(lit " ", lit "1"); (lit "  ", lit "-2.5")] (lit " 3")).
  - constructor.
  - repeat constructor.
  - split; [discriminate | reflexivity].
  - repeat constructor; try discriminate.
  - constructor.
  - simpl. lia.
Defined.

(* ================================================================== *)
(** * The names of the native instructions *)

Lemma upperChar_head (c t : ascii) (u w : ustr) :
  isCapital t = true ->
  upperChar c ++ u = N_of_ascii t :: w ->
  (upperAscii c = t /\ u = w) \/
  (t = "S"%char /\ 83%N :: u = w).
Proof.
  intros Ht H.
  destruct c as [[] [] [] [] [] [] [] []];
    cbn in H; injection H as H1 H2;
    apply (f_equal ascii_of_N) in H1; rewrite ascii_N_embedding in H1;
    subst t; try discriminate Ht;
    first [ left; split; [reflexivity | exact H2]
          | right; split; [reflexivity | exact H2] ].
Qed.

Lemma upperChar_capital (c : ascii) :
  isCapital (upperAscii c) = true ->
  upperChar c = [N_of_ascii (upperAscii c)].
Proof.
  destruct c as [[] [] [] [] [] [] [] []]; intros H;
    try discriminate H; reflexivity.
Qed.

Lemma wide_cons (T : str) (k : N) (w : ustr) :
  wide T = k :: w -> exists t T', T = t :: T' /\ N_of_ascii t = k /\ wide T' = w.
Proof.
  destruct T as [|t T']; [discriminate|].
  cbn [wide map]. intros H. injection H as H1 H2. exists t, T'. auto.
Qed.

Lemma upper_inv (name : str) :
  forall T,
    Forall (fun t => isCapital t = true) T ->
    includes T (lit "SS") = false ->
    toUpperCase name = wide T ->
    map upperAscii name = T.
Proof.
  induction name as [|c r IH]; intros T Hcap Hss E.
  - destruct T; [reflexivity | discriminate E].
  - unfold toUpperCase in E. cbn [flat_map] in E.
    change (flat_map upperChar r) with (toUpperCase r) in E.
    destruct T as [|t T'].
    { exfalso. cbn [wide map] in E. apply app_eq_nil in E. destruct E as [E _].
      destruct c as [[] [] [] [] [] [] [] []]; discriminate E. }
    inversion Hcap as [|x xs Ht Hcap']; subst x xs.
    cbn [includes] in Hss. apply orb_false_iff in Hss. destruct Hss as [Hs1 Hs2].
    cbn [wide map] in E.
    destruct (upperChar_head c t (toUpperCase r) (wide T') Ht E)
      as [[E1 E2]|[E1 E2]].
    + cbn [map]. rewrite E1. f_equal. apply IH; assumption.
    + exfalso. symmetry in E2. apply wide_cons in E2.
      destruct E2 as (t' & T'' & -> & E3 & _).
      apply (f_equal ascii_of_N) in E3. rewrite ascii_N_embedding in E3.
      subst t t'. discriminate Hs1.
Qed.

Lemma upper_fwd (name : str) :
  Forall (fun t => isCapital t = true) (map upperAscii name) ->
  toUpperCase name = wide (map upperAscii name).
Proof.
  induction name as [|c r IH]; intros H; [reflexivity|].
  cbn [map] in H. inversion H as [|x xs Hc Hr]; subst x xs.
  unfold toUpperCase. cbn [flat_map].
  change (flat_map upperChar r) with (toUpperCase r).
  rewrite (upperChar_capital c Hc), (IH Hr). reflexivity.
Qed.

Lemma equ_true (a b : ustr) : equ a b = true <-> a = b.
Proof.
  revert b. induction a as [|x a IH]; intros [|y b]; cbn [equ];
    try (split; [reflexivity | reflexivity]);
    try (split; discriminate).
  rewrite andb_true_iff, N.eqb_eq, IH. split.
  - intros [-> ->]. reflexivity.
  - intros H. injection H as -> ->. split; reflexivity.
Qed.

(** The names of the table: capitals, without a double S. *)
Lemma native_names :
  Forall (fun i =>
            Forall (fun t => isCapital t = true) (PieInstruction.name i) /\
            includes (PieInstruction.name i) (lit "SS") = false /\
            toUpperCase (PieInstruction.name i) = wide (PieInstruction.name i))
         PIE_NATIVE_INSTRUCTIONS.
Proof.
  unfold PIE_NATIVE_INSTRUCTIONS.
  repeat (constructor;
          [split; [repeat (constructor; [reflexivity|]); constructor
                  | split; reflexivity]|]).
  constructor.
Qed.

(** X12. Among the names written with characters up to U+00FF, which
    are the strings of this development, a name is that of a native
    instruction exactly when, with its letters a to z put in capitals and
    nothing else changed, it is a name of the table; the definition found
    is the one of that name.  So within this range the match ignores the
    case of the letters a to z only: the other characters that
    [toUpperCase] changes (the micro sign, the sharp s, the accented small
    letters) never make a name of the table.  Names with characters beyond
    U+00FF are not covered: [toUpperCase] maps some of them to letters A
    to Z (U+017F to S, U+0131 to I, U+FB06 to ST). *)
Theorem native_name_matches_ascii_case (name : str) (def : PieInstruction.t) :
  findNative (toUpperCase name) = Some def <->
  In def PIE_NATIVE_INSTRUCTIONS /\
  map upperAscii name = PieInstruction.name def.
Proof.
  pose proof native_names as HN. rewrite Forall_forall in HN.
  split.
  - intros H. unfold findNative in H. apply find_some in H.
    destruct H as [Hin Heq]. split; [exact Hin|].
    destruct (HN def Hin) as (Hcap & Hss & Hup).
    apply equ_true in Heq. rewrite Hup in Heq.
    apply upper_inv; [exact Hcap | exact Hss | symmetry; exact Heq].
  - intros [Hin E].
    destruct (HN def Hin) as (Hcap & _ & _).
    assert (Eu : toUpperCase name = wide (PieInstruction.name def)).
    { rewrite <- E. apply upper_fwd. rewrite E. exact Hcap. }
    unfold findNative. rewrite Eu.
    unfold PIE_NATIVE_INSTRUCTIONS in Hin. cbn [In] in Hin.
    repeat (destruct Hin as [<-|Hin]; [reflexivity|]). contradiction.
Qed.

(* ================================================================== *)
(** * Code actions *)

Lemma last_cons {A : Type} (x : A) (l : list A) (a b : A) :
  last (x :: l) a = last (x :: l) b.
Proof.
  revert x. induction l as [|y l IH]; intros x; [reflexivity|].
  cbn [last] in *. apply IH.
Qed.

Lemma setDuration_last (entries : list (str * Json)) :
  forall e,
    fold_left (fun normalized entry =>
                 setMember normalized (lit "Duration") (snd entry))
              entries [(lit "Duration", snd e)]
    = [(lit "Duration", snd (last entries e))].
Proof.
  induction entries as [|x entries IH]; intros e; [reflexivity|].
  cbn [fold_left]. 
  change (setMember [(lit "Duration", snd e)] (lit "Duration") (snd x))
    with [(lit "Duration", snd x)].
  rewrite IH. destruct entries as [|y entries]; [reflexivity|].
  rewrite (last_cons y entries x e). reflexivity.
Qed.

Lemma normalized_last (entries : list (str * Json)) :
  fold_left (fun normalized entry =>
               setMember normalized (lit "Duration") (snd entry))
            entries []
  = lastAsDuration entries.
Proof.
  destruct entries as [|e rest]; [reflexivity|].
  cbn [fold_left setMember lastAsDuration]. apply setDuration_last.
Qed.

(** The markers of an IFrame line whose JSON text decodes. *)
Lemma iframeLine_typos (JSON_parse : str -> str + Json) (s0 t s1 raw : str)
    (n : nat) (v : Json) :
  blank s0 -> blank s1 -> t <> [] -> numberText t = t -> noNewline raw ->
  raw <> [] ->
  JSON_parse raw = inr v ->
  truthy v = true ->
  diagnosticsOf JSON_parse (iframeLine s0 t s1 raw) n
  = map (typoMarker (iframeLine s0 t s1 raw) n
           (length (((s0 ++ t) ++ s1) ++ lit "SpecialFrames_Invincible") + 1))
        (otherKeys (Object_keys v)).
Proof.
  intros Hs0 Hs1 Ht Hnum Hraw Hr Hj Htr.
  unfold diagnosticsOf, hkannoNodeExtOf.
  rewrite (iframeLine_kind s0 t s1 raw). cbn [lineDiagnostics].
  unfold iframeNodeOf.
  rewrite (iframeLine_jsonCursor s0 t s1 raw Hs0 Hs1 Ht Hnum).
  destruct (iframeLine_cursors s0 t s1 raw Hs0 Hs1 Ht Hnum)
    as (E1 & E2 & E5 & E3 & E4).
  rewrite E1, E2, E3. cbn [snd fst].
  rewrite (takeWhile_line raw Hraw).
  unfold provideIFrameDiagnostics.
  assert (Etime : valueOf (numberAt n (s0, t ++ s1 ++
                             lit "SpecialFrames_Invincible" ++ raw))
                  = Some (Number t)).
  { unfold numberAt, numberTok. cbn [snd]. rewrite E5.
    destruct t; [contradiction Ht; reflexivity | reflexivity]. }
  assert (Eevent : valueOf (literalAt n (lit "SpecialFrames_Invincible")
                              ((s0 ++ t) ++ s1,
                               lit "SpecialFrames_Invincible" ++ raw))
                   = Some (lit "SpecialFrames_Invincible")).
  { unfold literalAt, literalTok. cbn [snd]. rewrite startsWith_app.
    reflexivity. }
  destruct raw as [|d ds] eqn:Eraw; [contradiction Hr; reflexivity|].
  rewrite Hj.
  cbn [IFrame.time IFrame.event IFrame.json IFrame.jsonParseError].
  rewrite Etime, Eevent. cbn [eqs valueOf Field.value app].
  change (eqs (lit "SpecialFrames_Invincible")
              (lit "SpecialFrames_Invincible")) with true.
  cbv iota. rewrite Htr, fold_left_unless. cbn [app].
  unfold otherKeys. apply map_ext. intros key. unfold typoMarker.
  cbn [posOf Field.pos startColumnOr1 endColumnOr makePos Pos.startColumn
       Pos.endColumn].
  f_equal. unfold iframeLine. rewrite !length_app. cbn [length]. lia.
Qed.

(** X13. On an IFrame line with its time, the event name and a JSON text
    that decodes to an object, there is one warning for each key other than
    Duration, and the quick fix of each of them replaces the whole JSON
    text by the same text: the encoding of an object with the single key
    Duration and the value of the last member of the decoded object.  The
    values of the other members are dropped, also that of a Duration
    member that is not the last. *)
Theorem quick_fix_keeps_the_last_value
    (JSON_parse : str -> str + Json) (JSON_stringify : Json -> str)
    (getValueInRange : Range.t -> str) (uri : str) (fuel : nat)
    (s0 t s1 raw : str) (members : list (str * Json)) :
  blank s0 -> blank s1 -> t <> [] -> numberText t = t ->
  raw <> [] -> noNewline raw ->
  JSON_parse raw = inr (JObject members) ->
  JSON_parse (trim raw) = inr (JObject members) ->
  getValueInRange
    (Range.mk 1 (length (((s0 ++ t) ++ s1) ++ lit "SpecialFrames_Invincible")
                 + 1)
              1 (length (iframeLine s0 t s1 raw) + 1)) = raw ->
  length (iframeLine s0 t s1 raw) <= fuel ->
  exists markers,
    updateHkannoDiagnostics JSON_parse fuel [iframeLine s0 t s1 raw]
    = Ok markers /\
    length markers = length (otherKeys (map fst members)) /\
    provideCodeActions JSON_parse JSON_stringify getValueInRange uri markers
    = map (quickFix uri
             (Range.mk 1 (length (((s0 ++ t) ++ s1) ++
                                  lit "SpecialFrames_Invincible") + 1)
                       1 (length (iframeLine s0 t s1 raw) + 1))
             (JSON_stringify (JObject (lastAsDuration members))))
          markers.
Proof.
  intros Hs0 Hs1 Ht Hnum Hr Hraw Hj Hjt Hg Hf.
  set (line := iframeLine s0 t s1 raw) in *.
  set (k := length (((s0 ++ t) ++ s1) ++ lit "SpecialFrames_Invincible") + 1)
    in *.
  exists (map (typoMarker line 1 k) (otherKeys (map fst members))).
  split.
  { unfold updateHkannoDiagnostics.
    rewrite diagnosticsFrom_eq by (constructor; [exact Hf | constructor]).
    cbn [markersFrom app]. rewrite app_nil_r. f_equal.
    apply (iframeLine_typos JSON_parse s0 t s1 raw 1 (JObject members));
      try assumption. reflexivity. }
  split; [apply length_map|].
  assert (Hk : k <= length line + 1).
  { subst k line. unfold iframeLine. rewrite !length_app. lia. }
  induction (otherKeys (map fst members)) as [|key keys IH]; [reflexivity|].
  cbn [map provideCodeActions typoMarker Marker.code Marker.startLineNumber
       Marker.startColumn Marker.endLineNumber Marker.endColumn].
  change (eqs (lit "fix-iframe-key") (lit "fix-iframe-key")) with true.
  cbv iota.
  assert (En : newRange 1 k 1 (length line + 1)
               = Range.mk 1 k 1 (length line + 1)).
  { unfold newRange.
    rewrite (proj2 (Nat.ltb_ge (length line + 1) k) Hk). reflexivity. }
  rewrite En, Hg. unfold fixedTextOf, JSON_parse_call. rewrite Hjt.
  cbn [Object_entries]. rewrite normalized_last, IH. reflexivity.
Qed.

Lemma quick_fix_keeps_the_last_value_witness :
  exists markers,
    updateHkannoDiagnostics
      (fun _ => inr (JObject [(lit "Duration", JBoolean true);
                              (lit "Dur", JNull)]))
      40 [iframeLine [] (lit "1") (lit " ") (lit "{}")]
    = Ok markers /\
    length markers
    = length (otherKeys (map fst [(lit "Duration", JBoolean true);
                                  (lit "Dur", JNull)])) /\
    provideCodeActions
      (fun _ => inr (JObject [(lit "Duration", JBoolean true);
                              (lit "Dur", JNull)]))
      (fun _ => lit "{}") (fun _ => lit "{}") (lit "file") markers
    = map (quickFix (lit "file")
             (Range.mk 1 (length ((([] ++ lit "1") ++ lit " ") ++
                                  lit "SpecialFrames_Invincible") + 1)
                       1 (length (iframeLine [] (lit "1") (lit " ") (lit "{}"))
                          + 1))
             ((fun _ : Json => lit "{}")
                (JObject (lastAsDuration [(lit "Duration", JBoolean true);
                                          (lit "Dur", JNull)]))))
          markers.
Proof.
  apply (quick_fix_keeps_the_last_value
           (fun _ => inr (JObject [(lit "Duration", JBoolean true);
                                   (lit "Dur", JNull)]))
           (fun _ => lit "{}") (fun _ => lit "{}") (lit "file") 40
           [] (lit "1") (lit " ") (lit "{}")
           [(lit "Duration", JBoolean true); (lit "Dur", JNull)]).
  - constructor.
  - repeat constructor.
  - discriminate.
  - reflexivity.
  - discriminate.
  - repeat (constructor; [discriminate|]); constructor.
  - reflexivity.
  - reflexivity.
  - reflexivity.
  - simpl. lia.
Defined.

(* ================================================================== *)
(** * The two dispatchers, and the formatter line by line *)

(** X14. The extended dispatcher returns the node of the lenient
    dispatcher exactly on the lines that hold neither
    [specialframes_invincible] nor [pie], in any case.  On a line that
    holds [specialframes_invincible] it returns the node of
    [parseIFrameLine], and on a line that holds [pie] and not
    [specialframes_invincible] the node of [parsePayloadInstructionLine],
    also for a comment or a track name that mentions one of the two
    words. *)
Theorem dispatchers_agree_iff_no_keyword (JSON_parse : str -> str + Json)
    (fuel : nat) (line : str) (n : nat) :
  length line <= fuel ->
  exists node nodeExt,
    parseHkannoLine fuel line n = Ok node /\
    parseHkannoLineExt JSON_parse fuel line n = Ok nodeExt /\
    (nodeExt = NCommon node <->
     includes (toLowerCase line) (lit "specialframes_invincible") = false /\
     includes (toLowerCase line) (lit "pie") = false) /\
    (includes (toLowerCase line) (lit "specialframes_invincible") = true ->
     exists iframe,
       parseIFrameLine JSON_parse fuel line n = Ok iframe /\
       nodeExt = NIFrame iframe) /\
    (includes (toLowerCase line) (lit "specialframes_invincible") = false ->
     includes (toLowerCase line) (lit "pie") = true ->
     exists pie,
       parsePayloadInstructionLine fuel line n = Ok pie /\
       nodeExt = NPayloadInstruction pie).
Proof.
  intros Hf.
  exists (hkannoNodeOf line n), (hkannoNodeExtOf JSON_parse line n).
  split; [apply parseHkannoLine_eq, Hf|].
  split; [apply parseHkannoLineExt_eq, Hf|].
  rewrite parseIFrameLine_eq, parsePayloadInstructionLine_eq by exact Hf.
  unfold hkannoNodeExtOf.
  destruct (includes _ (lit "specialframes_invincible")).
  { split; [|split].
    - split; [intros H; discriminate H | intros [H _]; discriminate H].
    - intros _. eexists. split; reflexivity.
    - intros H. discriminate H. }
  destruct (includes _ (lit "pie")).
  { split; [|split].
    - split; [intros H; discriminate H | intros [_ H]; discriminate H].
    - intros H. discriminate H.
    - intros _ _. eexists. split; reflexivity. }
  split; [|split].
  - split; [intros _; split; reflexivity | reflexivity].
  - intros H. discriminate H.
  - intros _ H. discriminate H.
Qed.

Lemma dispatchers_agree_iff_no_keyword_witness :
  length (lit "# a piece of text") <= 20 /\
  exists node nodeExt,
    parseHkannoLine 20 (lit "# a piece of text") 1 = Ok node /\
    parseHkannoLineExt (fun _ => inl []) 20 (lit "# a piece of text") 1
    = Ok nodeExt /\
    (nodeExt = NCommon node <->
     includes (toLowerCase (lit "# a piece of text"))
              (lit "specialframes_invincible") = false /\
     includes (toLowerCase (lit "# a piece of text")) (lit "pie") = false) /\
    (includes (toLowerCase (lit "# a piece of text"))
              (lit "specialframes_invincible") = true ->
     exists iframe,
       parseIFrameLine (fun _ => inl []) 20 (lit "# a piece of text") 1
       = Ok iframe /\
       nodeExt = NIFrame iframe) /\
    (includes (toLowerCase (lit "# a piece of text"))
              (lit "specialframes_invincible") = false ->
     includes (toLowerCase (lit "# a piece of text")) (lit "pie") = true ->
     exists pie,
       parsePayloadInstructionLine 20 (lit "# a piece of text") 1 = Ok pie /\
       nodeExt = NPayloadInstruction pie).
Proof.
  split; [simpl; lia|].
  apply (dispatchers_agree_iff_no_keyword (fun _ => inl []) 20
           (lit "# a piece of text") 1).
  simpl. lia.
Defined.

Lemma split_nl_break (a b : str) :
  split_nl (a ++ newline :: b) = split_nl a ++ split_nl b.
Proof.
  induction a as [|c a IH]; cbn [app split_nl].
  - rewrite eqc_refl. reflexivity.
  - destruct (eqc c newline).
    + rewrite IH. reflexivity.
    + rewrite IH. pose proof (split_nl_nonempty a) as Hn.
      destruct (split_nl a) as [|l ls]; [contradiction Hn; reflexivity|].
      reflexivity.
Qed.

Lemma join_break (xs ys : list str) :
  xs <> [] -> ys <> [] ->
  join [newline] (xs ++ ys) = join [newline] xs ++ newline :: join [newline] ys.
Proof.
  intros Hx Hy. induction xs as [|x xs IH]; [contradiction Hx; reflexivity|].
  destruct xs as [|x' xs].
  - cbn [app join]. destruct ys; [contradiction Hy; reflexivity | reflexivity].
  - cbn [app join] in *. rewrite IH by discriminate.
    rewrite <- !app_assoc. reflexivity.
Qed.

(** X15. The formatter works line by line: the format of two texts put
    together with a line break between them is the format of the first, a
    line break, and the format of the second.  The place of a line in the
    text has no part in how it is written. *)
Theorem format_line_by_line (fuel : nat) (a b : str) :
  length (a ++ newline :: b) <= fuel ->
  exists fa fb,
    formatHkannoText fuel a = Ok fa /\
    formatHkannoText fuel b = Ok fb /\
    formatHkannoText fuel (a ++ newline :: b) = Ok (fa ++ newline :: fb).
Proof.
  intros Hf. rewrite length_app in Hf. cbn [length] in Hf.
  exists (join [newline] (map lineOut (split_nl a))),
         (join [newline] (map lineOut (split_nl b))).
  rewrite !formatHkannoText_eq by (rewrite ?length_app; cbn [length]; lia).
  split; [reflexivity|]. split; [reflexivity|].
  rewrite split_nl_break, map_app, join_break; [reflexivity| |].
  - pose proof (split_nl_nonempty a). destruct (split_nl a); [contradiction|].
    discriminate.
  - pose proof (split_nl_nonempty b). destruct (split_nl b); [contradiction|].
    discriminate.
Qed.

Lemma format_line_by_line_witness :
  length (lit "1 a" ++ newline :: lit "# b") <= 10 /\
  exists fa fb,
    formatHkannoText 10 (lit "1 a") = Ok fa /\
    formatHkannoText 10 (lit "# b") = Ok fb /\
    formatHkannoText 10 (lit "1 a" ++ newline :: lit "# b")
    = Ok (fa ++ newline :: fb).
Proof.
  split; [simpl; lia|].
  apply (format_line_by_line 10 (lit "1 a") (lit "# b")). simpl. lia.
Defined.

(* ------------------------------------------------------------------ *)
(** ** Lines whose keyword is not where it is looked for *)

Lemma wordAhead_number (rest : str) :
  wordAhead rest ->
  numberText rest = [] /\ numberRest rest = rest /\
  dropWhile isSpace rest = rest.
Proof.
  destruct rest as [|c r]; [contradiction|]. intros [He Hs].
  unfold endsNumber in He. rewrite !andb_true_iff, !negb_true_iff in He.
  destruct He as [[H1 H2] H3].
  assert (Et : numberText (c :: r) = []).
  { unfold numberText. cbn [signText]. rewrite H1. cbn [length skipn app].
    cbn [takeWhile dropWhile]. rewrite H2. cbn [expText]. rewrite H3.
    reflexivity. }
  split; [exact Et|]. split.
  - pose proof (numberText_split (c :: r)) as E. rewrite Et in E. exact E.
  - cbn [dropWhile]. rewrite Hs. reflexivity.
Qed.

Lemma wordAhead_head (rest : str) :
  wordAhead rest ->
  exists c r, rest = c :: r /\ endsNumber c = true /\ isSpace c = false.
Proof.
  destruct rest as [|c r]; [contradiction|]. intros [He Hs].
  exists c, r. auto.
Qed.

Section TimedLine.

Variables s0 t s1 rest : str.
Hypothesis Hs0 : blank s0.
Hypothesis Ht : numeral t.
Hypothesis Hs1 : blank s1.
Hypothesis Hrest : wordAhead rest.

#[local] Abbreviation line := (timedLine s0 t s1 rest).

Lemma timedLine_head :
  startsWith (trimStart line) (lit "#") = false /\
  startsWith (toLowerCase (trimStart line)) (lit "trackname:") = false.
Proof.
  destruct Ht as [Hne Hn].
  destruct (numeral_head t Hne Hn) as (c & r & Et & Hc).
  assert (Es : trimStart line = c :: r ++ s1 ++ rest).
  { rewrite trimStart_dropWhile. unfold timedLine. rewrite Et. cbn [app].
    rewrite dropWhile_app_stop by exact Hc.
    rewrite (dropWhile_all _ _ Hs0). reflexivity. }
  rewrite Es. apply scanChar_head.
  pose proof (numberText_scan t) as S. rewrite Hn, Et in S.
  inversion S. assumption.
Qed.

(** The texts ahead of the fields of the line. *)
Lemma timedLine_ahead :
  dropWhile isSpace line = t ++ s1 ++ rest /\
  numberValue (t ++ s1 ++ rest) = Some (VNumber (Number t)) /\
  afterNumber (t ++ s1 ++ rest) = rest.
Proof.
  destruct Ht as [Hne Hn].
  destruct (wordAhead_head rest Hrest) as (c & r & Er & He & Hc).
  unfold timedLine. rewrite Er.
  assert (E1 : dropWhile isSpace (s0 ++ t ++ s1 ++ c :: r)
               = t ++ s1 ++ c :: r).
  { destruct (numeral_head t Hne Hn) as (d & u & Et & Hd).
    rewrite Et. cbn [app].
    rewrite dropWhile_app_stop by exact Hd.
    rewrite (dropWhile_all _ _ Hs0). reflexivity. }
  assert (Ha : endAhead (s1 ++ c :: r)).
  { destruct s1 as [|d s1']; [exact He|].
    apply space_endsNumber. inversion Hs1. assumption. }
  destruct (read_numeral_ahead [] t (s1 ++ c :: r) Hn Ha) as [E2 E3].
  split; [exact E1|]. split.
  - unfold numberValue. rewrite E3.
    destruct t; [contradiction Hne; reflexivity | reflexivity].
  - unfold afterNumber.
    unfold skipNumber, move in E2. cbn [fst snd] in E2. rewrite E3 in E2.
    injection E2 as E2. rewrite E2.
    rewrite dropWhile_app_stop by exact Hc.
    rewrite (dropWhile_all _ _ Hs1). reflexivity.
Qed.

Lemma timedLine_rotationOut :
  startsWith rest (lit "animrotation") = false ->
  rotationOut line = toFixed6 (Number t).
Proof.
  intros Hk. destruct timedLine_ahead as (E1 & E2 & E3).
  destruct (wordAhead_number rest Hrest) as (N1 & N2 & N3).
  unfold rotationOut. rewrite E1, E2, E3.
  unfold literalValue, afterLiteral. rewrite Hk, N3.
  unfold numberValue. rewrite N1. reflexivity.
Qed.

Lemma timedLine_motionOut :
  startsWith rest (lit "animmotion") = false ->
  motionOut line = toFixed6 (Number t).
Proof.
  intros Hk. destruct timedLine_ahead as (E1 & E2 & E3).
  destruct (wordAhead_number rest Hrest) as (N1 & N2 & N3).
  unfold motionOut. rewrite E1, E2, E3.
  unfold literalValue, afterLiteral. rewrite Hk, N3.
  unfold afterNumber. rewrite N2, N3, N2, N3.
  unfold numberValue. rewrite N1. reflexivity.
Qed.

End TimedLine.

(** X16. A line with a time that is read as [animrotation] or
    [animmotion] because it holds the keyword in some case somewhere, but
    that does not have the keyword in lower case right after the time, is
    formatted to its time alone, as the formatter writes a number: the
    rest of the line is dropped.  What is written has six fraction digits
    exactly when the time is a finite number below [10 ^ 21].  So
    [0.5 AnimRotation 90] and [1 play animmotion_sound] become
    [0.500000] and [1.000000]. *)
Theorem format_keeps_only_the_time (fuel : nat) (s0 t s1 rest : str) :
  blank s0 -> numeral t -> blank s1 -> wordAhead rest ->
  noNewline (timedLine s0 t s1 rest) ->
  (includes (toLowerCase (timedLine s0 t s1 rest)) (lit "animrotation")
   = true /\
   startsWith rest (lit "animrotation") = false) \/
  (includes (toLowerCase (timedLine s0 t s1 rest)) (lit "animrotation")
   = false /\
   includes (toLowerCase (timedLine s0 t s1 rest)) (lit "animmotion") = true /\
   startsWith rest (lit "animmotion") = false) ->
  length (timedLine s0 t s1 rest) <= fuel ->
  formatHkannoText fuel (timedLine s0 t s1 rest) = Ok (toFixed6 (Number t)) /\
  isFixed6 (toFixed6 (Number t)) = isSmallFinite (Number t).
Proof.
  intros Hs0 Ht Hs1 Hrest Hn Hk Hf.
  split; [|apply (fixed6_iff_small (Number t)), Number_canonical].
  rewrite formatHkannoText_eq by exact Hf.
  rewrite (split_nl_noNewline _ Hn). cbn [map join]. f_equal.
  unfold lineOut.
  destruct (timedLine_head s0 t s1 rest Hs0 Ht) as [-> ->].
  destruct Hk as [[K1 K2]|(K1 & K2 & K3)].
  - rewrite K1. apply timedLine_rotationOut; assumption.
  - rewrite K1, K2. apply timedLine_motionOut; assumption.
Qed.

Lemma format_keeps_only_the_time_witness :
  formatHkannoText 30 (timedLine [] (lit "0.5") (lit " ") (lit "AnimRotation 90"))
  = Ok (toFixed6 (Number (lit "0.5"))) /\
  isFixed6 (toFixed6 (Number (lit "0.5"))) = isSmallFinite (Number (lit "0.5")).
Proof.
  apply (format_keeps_only_the_time 30 [] (lit "0.5") (lit " ")
           (lit "AnimRotation 90")).
  - constructor.
  - split; [discriminate | reflexivity].
  - repeat constructor.
  - split; reflexivity.
  - repeat (constructor; [discriminate|]); constructor.
  - left. split; reflexivity.
  - simpl. lia.
Defined.

(** X17. A line that is read as a track name because it starts, in some
    case, with [trackname:], but not with [trackName:] as it is written
    in the source, is formatted to [trackName: ] followed by the whole
    line, trimmed: the word of the line is kept in the name.  So
    [TRACKNAME: x] becomes [trackName: TRACKNAME: x]. *)
Theorem format_track_name_in_another_case (fuel : nat) (s0 rest : str) :
  blank s0 ->
  noNewline (s0 ++ rest) ->
  startsWith (toLowerCase rest) (lit "trackname:") = true ->
  startsWith rest (lit "trackName:") = false ->
  length (s0 ++ rest) <= fuel ->
  formatHkannoText fuel (s0 ++ rest) = Ok (lit "trackName: " ++ trim rest).
Proof.
  intros Hs0 Hline Hl Hk Hf.
  rewrite formatHkannoText_eq by exact Hf.
  assert (Hn : noNewline rest).
  { unfold noNewline in Hline. apply Forall_app in Hline. apply Hline. }
  rewrite (split_nl_noNewline _ Hline). cbn [map join]. f_equal.
  destruct rest as [|c r] eqn:Er; [discriminate Hl|].
  assert (Hc : isSpace c = false).
  { cbn [toLowerCase map startsWith lit list_ascii_of_string] in Hl.
    apply andb_true_iff in Hl. destruct Hl as [Hl _]. apply eqc_true in Hl.
    destruct c as [[] [] [] [] [] [] [] []]; try discriminate Hl; reflexivity. }
  assert (Ed : dropWhile isSpace (s0 ++ c :: r) = c :: r).
  { rewrite dropWhile_app_stop by exact Hc.
    rewrite (dropWhile_all _ _ Hs0). reflexivity. }
  assert (Eh : startsWith (c :: r) (lit "#") = false).
  { cbn [toLowerCase map startsWith lit list_ascii_of_string] in Hl.
    apply andb_true_iff in Hl. destruct Hl as [Hl _]. apply eqc_true in Hl.
    destruct c as [[] [] [] [] [] [] [] []]; try discriminate Hl; reflexivity. }
  unfold lineOut. rewrite trimStart_dropWhile, Ed, Eh, Hl.
  unfold trackNameOut. rewrite Ed. unfold afterLiteral. rewrite Hk.
  assert (Ed' : dropWhile isSpace (c :: r) = c :: r)
    by (cbn [dropWhile]; rewrite Hc; reflexivity).
  rewrite Ed', (takeWhile_line _ Hn), trim_idem. reflexivity.
Qed.

Lemma format_track_name_in_another_case_witness :
  formatHkannoText 20 (lit " " ++ lit "TRACKNAME: x ")
  = Ok (lit "trackName: " ++ trim (lit "TRACKNAME: x ")).
Proof.
  apply (format_track_name_in_another_case 20 (lit " ") (lit "TRACKNAME: x ")).
  - repeat constructor.
  - repeat (constructor; [discriminate|]); constructor.
  - reflexivity.
  - reflexivity.
  - simpl. lia.
Defined.

(* ================================================================== *)
(** * Hover *)

Lemma join_head (sep : str) (c : ascii) (x : str) (rest : list str) :
  exists r, join sep ((c :: x) :: rest) = c :: r.
Proof.
  destruct rest as [|y rest]; cbn [join app]; eexists; reflexivity.
Qed.

Section HoverShown.

Variable JSON_parse : str -> str + Json.
Variable Number_toString : float -> str.
Variable JSON_stringify2 : Json -> str.

#[local] Abbreviation markdownOf :=
  (buildHoverMarkdown Number_toString JSON_stringify2).

(** Every node but a comment has a markdown that is not empty. *)
Lemma markdown_shown (node : HkannoNodeExt) (column : Z) :
  kindExt node <> lit "comment" ->
  exists c r, markdownOf node column = Some (c :: r).
Proof.
  intros Hk.
  assert (J : forall sep d x rest,
             exists c r, Some (join sep ((d :: x) :: rest)) = Some (c :: r)).
  { intros sep d x rest. destruct (join_head sep d x rest) as [w Hw].
    rewrite Hw. exists d, w. reflexivity. }
  destruct node as [[r|m|t|c|k]|f|p]; cbn [buildHoverMarkdown];
    try (contradiction Hk; reflexivity).
  - unfold hoverRotation, template.
    destruct (isCursorInside _ _); apply J.
  - unfold hoverMotion, template.
    destruct (isCursorInside _ _); apply J.
  - unfold hoverText, template. apply J.
  - unfold hoverTrackName, template. apply J.
  - unfold hoverIFrame, template.
    destruct (isCursorInside _ _); apply J.
  - unfold hoverPie, template.
    destruct (isCursorInside _ _); apply J.
Qed.

End HoverShown.

(** X18. The hover shows nothing exactly on the lines the extended
    dispatcher reads as comments: those that start with [#] after their
    leading white space and hold neither [specialframes_invincible] nor
    [pie] in any case.  On every other line it shows a text, wherever the
    cursor is. *)
Theorem hover_absent_iff_comment (JSON_parse : str -> str + Json)
    (Number_toString : float -> str) (JSON_stringify2 : Json -> str)
    (fuel : nat) (line : str) (position : Position) :
  length line <= fuel ->
  exists shown,
    provideHover JSON_parse Number_toString JSON_stringify2 fuel line position
    = Ok shown /\
    (shown = None <->
     includes (toLowerCase line) (lit "specialframes_invincible") = false /\
     includes (toLowerCase line) (lit "pie") = false /\
     startsWith (trimStart line) (lit "#") = true).
Proof.
  intros Hf. unfold provideHover.
  rewrite parseHkannoLineExt_eq by exact Hf.
  eexists. split; [reflexivity|].
  assert (S : forall node,
             kindExt node <> lit "comment" ->
             match buildHoverMarkdown Number_toString JSON_stringify2 node
                     (Position.column position) with
             | Some ((_ :: _) as markdown) => Some markdown
             | _ => None
             end <> None).
  { intros node Hk.
    destruct (markdown_shown Number_toString JSON_stringify2 node
                (Position.column position) Hk) as (c & r & E).
    rewrite E. discriminate. }
  unfold hkannoNodeExtOf, hkannoNodeOf.
  destruct (includes _ (lit "specialframes_invincible")).
  { split; [intros H; exfalso; revert H; apply S; discriminate
           | intros (H & _); discriminate H]. }
  destruct (includes _ (lit "pie")).
  { split; [intros H; exfalso; revert H; apply S; discriminate
           | intros (_ & H & _); discriminate H]. }
  destruct (startsWith (trimStart line) (lit "#")).
  { split; [intros _; repeat split | reflexivity]. }
  split; [|intros (_ & _ & H); discriminate H].
  intros H. exfalso. revert H. apply S.
  destruct (startsWith _ (lit "trackname:")); [discriminate|].
  destruct (includes _ (lit "animrotation")); [discriminate|].
  destruct (includes _ (lit "animmotion")); discriminate.
Qed.

Lemma hover_absent_iff_comment_witness :
  length (lit "  # a pie") <= 20 /\
  exists shown,
    provideHover (fun _ => inl []) (fun _ => []) (fun _ => []) 20
      (lit "  # a pie") (Position.mk 1 4)
    = Ok shown /\
    (shown = None <->
     includes (toLowerCase (lit "  # a pie"))
              (lit "specialframes_invincible") = false /\
     includes (toLowerCase (lit "  # a pie")) (lit "pie") = false /\
     startsWith (trimStart (lit "  # a pie")) (lit "#") = true).
Proof.
  split; [simpl; lia|].
  apply (hover_absent_iff_comment (fun _ => inl []) (fun _ => [])
           (fun _ => []) 20 (lit "  # a pie") (Position.mk 1 4)).
  simpl. lia.
Defined.
Lemma shown_itemsOf (n : nat) (params : list str) :
  forall pre,
    map (fun p => match valueOf (ParameterItem.value p) with
                  | Some v => v
                  | None => UNKNOWN
                  end)
        (itemsOf n pre params)
    = map shownParameter params.
Proof.
  induction params as [|x params IH]; intros pre; [reflexivity|].
  cbn [itemsOf map ParameterItem.value]. rewrite IH.
  destruct x; reflexivity.
Qed.

(** X19. On a line [PIE.], a prefix, a name and parameters after bars,
    which does not hold [specialframes_invincible] in any case (such a
    line is read as an IFrame line and gets the hover of an IFrame), with
    the cursor off the event name and the dot, the hover names the kind of
    the prefix, the name of the instruction and its parameters between
    bars, with a placeholder for each parameter left empty; without a bar
    it says that there are no parameters. *)
Theorem hover_pie_instruction (JSON_parse : str -> str + Json)
    (Number_toString : float -> str) (JSON_stringify2 : Json -> str)
    (fuel n : nat) (prefix : ascii) (name : str) (params : list str)
    (column : Z) :
  isPrefix prefix = true ->
  name <> [] -> barless name -> Forall barless params ->
  includes (toLowerCase (pieLine prefix name params))
           (lit "specialframes_invincible") = false ->
  length (pieLine prefix name params) <= fuel ->
  (column < 1 \/ 4 < column)%Z ->
  exists kind,
    In (prefix, kind) prefixKinds /\
    provideHover JSON_parse Number_toString JSON_stringify2 fuel
      (pieLine prefix name params) (Position.mk n column)
    = Ok (Some (lit "# PIE Instruction" ++ newline ::
                lit "- Kind: `" ++ kind ++ lit "`" ++ newline ::
                lit "- Name: `" ++ name ++ lit "`" ++ newline ::
                match params with
                | [] => lit "- No parameters"
                | _ => lit "- Parameters: " ++
                       join (lit " | ") (map shownParameter params)
                end)).
Proof.
  intros Hp Hn Hb Hps Hk Hf Hc.
  assert (K : exists kind,
             In (prefix, kind) prefixKinds /\
             getPrefixKindDisplay (Some prefix) = Some kind).
  { unfold isPrefix in Hp. unfold getPrefixKindDisplay, prefixKinds.
    destruct (eqc prefix "@") eqn:E1.
    { apply eqc_true in E1. subst prefix. eexists. split; [|reflexivity].
      left. reflexivity. }
    destruct (eqc prefix "$") eqn:E2.
    { apply eqc_true in E2. subst prefix. eexists. split; [|reflexivity].
      right. left. reflexivity. }
    destruct (eqc prefix "!") eqn:E3.
    { apply eqc_true in E3. subst prefix. eexists. split; [|reflexivity].
      right. right. left. reflexivity. }
    exfalso. revert Hp. cbn [existsb lit].
    rewrite ?E1, ?E2, ?E3. discriminate. }
  destruct K as (kind & Hin & Ekind). exists kind. split; [exact Hin|].
  unfold provideHover. cbn [Position.column Position.lineNumber].
  rewrite parseHkannoLineExt_eq by exact Hf.
  unfold hkannoNodeExtOf. rewrite Hk.
  assert (Ek : includes (toLowerCase (pieLine prefix name params)) (lit "pie")
               = true) by reflexivity.
  rewrite Ek, (pieLine_node prefix name params Hp Hn Hb Hps).
  cbn [buildHoverMarkdown]. unfold hoverPie.
  assert (Eout : isCursorInside
                   (Some (Field.mk (Some (lit "PIE")) (Some (makePos n 0 3))))
                   column = false).
  { unfold isCursorInside. cbn.
    destruct Hc as [Hc|Hc].
    - destruct (Z.leb_spec 1 column); [lia | reflexivity].
    - destruct (Z.leb_spec column 4); [lia | apply andb_false_r]. }
  cbn [PayloadInstruction.event PayloadInstruction.instruction].
  rewrite Eout.
  cbn [Instruction.name Instruction.prefix Instruction.parameters valueOf
       Field.value].
  rewrite Ekind. cbn [showText].
  destruct params as [|x ps] eqn:Ep.
  - cbn [join]. rewrite <- !app_assoc. reflexivity.
  - cbn [Parameters.items]. rewrite shown_itemsOf.
    destruct (map shownParameter (x :: ps)) as [|y ys] eqn:Em;
      [discriminate Em|].
    cbn [join]. rewrite <- !app_assoc. reflexivity.
Qed.

Lemma hover_pie_instruction_witness :
  exists kind,
    In ("@"%char, kind) prefixKinds /\
    provideHover (fun _ => inl []) (fun _ => []) (fun _ => []) 40
      (pieLine "@" (lit "SGVI") [lit "speed"; []]) (Position.mk 2 7%Z)
    = Ok (Some (lit "# PIE Instruction" ++ newline ::
                lit "- Kind: `" ++ kind ++ lit "`" ++ newline ::
                lit "- Name: `" ++ lit "SGVI" ++ lit "`" ++ newline ::
                lit "- Parameters: " ++
                join (lit " | ") (map shownParameter [lit "speed"; []]))).
Proof.
  apply (hover_pie_instruction (fun _ => inl []) (fun _ => []) (fun _ => [])
           40 2 "@" (lit "SGVI") [lit "speed"; []] 7%Z).
  - reflexivity.
  - discriminate.
  - repeat (constructor; [reflexivity|]); constructor.
  - repeat constructor.
  - reflexivity.
  - simpl. lia.
  - right. lia.
Defined.
(** X20. On a line with a time and the event name of an IFrame, with the
    cursor off the event name, the hover shows the time and the data typed
    after the name: its JSON text when the data decodes to a truthy value,
    the error of the decoder between angle brackets when it does not
    decode, and [<undefined>] when nothing is typed or the data decodes to
    [null], [false], [0] or the empty text. *)
Theorem hover_iframe_data (JSON_parse : str -> str + Json)
    (Number_toString : float -> str) (JSON_stringify2 : Json -> str)
    (fuel n : nat) (s0 t s1 raw : str) (column : Z) :
  blank s0 -> blank s1 -> t <> [] -> numberText t = t -> noNewline raw ->
  length (iframeLine s0 t s1 raw) <= fuel ->
  (column <= Z.of_nat (length (s0 ++ t ++ s1)) \/
   Z.of_nat (length (s0 ++ t ++ s1)) + 25 < column)%Z ->
  provideHover JSON_parse Number_toString JSON_stringify2 fuel
    (iframeLine s0 t s1 raw) (Position.mk n column)
  = Ok (Some (lit " # I-Frame value" ++ newline ::
              lit "- Time: " ++ Number_toString (Number t) ++ lit "s" ++
              newline ::
              lit "- JSON Data:" ++ newline ::
              lit "  ```json" ++ newline ::
              lit "  " ++ shownData JSON_parse JSON_stringify2 raw ++
              newline ::
              lit "  ```" ++ [newline; newline])).
Proof.
  intros Hs0 Hs1 Ht Hnum Hraw Hf Hc.
  unfold provideHover. cbn [Position.column Position.lineNumber].
  rewrite parseHkannoLineExt_eq by exact Hf.
  unfold hkannoNodeExtOf.
  rewrite (iframeLine_kind s0 t s1 raw).
  cbn [buildHoverMarkdown]. unfold hoverIFrame, iframeNodeOf.
  rewrite (iframeLine_jsonCursor s0 t s1 raw Hs0 Hs1 Ht Hnum).
  destruct (iframeLine_cursors s0 t s1 raw Hs0 Hs1 Ht Hnum)
    as (E1 & E2 & E5 & E3 & E4).
  rewrite E1, E2, E3. cbn [snd fst].
  rewrite (takeWhile_line raw Hraw).
  set (event := lit "SpecialFrames_Invincible") in *.
  assert (Etime : valueOf (numberAt n (s0, t ++ s1 ++ event ++ raw))
                  = Some (Number t)).
  { unfold numberAt, numberTok. cbn [snd]. rewrite E5.
    destruct t; [contradiction Ht; reflexivity | reflexivity]. }
  assert (Eout : isCursorInside
                   (literalAt n event ((s0 ++ t) ++ s1, event ++ raw)) column
                 = false).
  { unfold isCursorInside, literalAt, literalTok. cbn [snd fst].
    rewrite startsWith_app. unfold fieldTok, makePos.
    cbn [posOf Field.pos Pos.startColumn Pos.endColumn].
    rewrite <- app_assoc.
    change (length event) with 24.
    destruct Hc as [Hc|Hc].
    - destruct (Z.leb_spec (Z.of_nat (length (s0 ++ t ++ s1) + 1)) column);
        [lia | reflexivity].
    - destruct (Z.leb_spec column
                  (Z.of_nat (length (s0 ++ t ++ s1) + 24 + 1)));
        [lia | apply andb_false_r]. }
  assert (Shape : forall json err,
             (match valueOf json with
              | Some v =>
                  if truthy v then JSON_stringify2 v
                  else lit "<" ++ showText err ++ lit ">"
              | None => lit "<" ++ showText err ++ lit ">"
              end = shownData JSON_parse JSON_stringify2 raw) ->
             Ok (match
                   Some (hoverIFrame Number_toString JSON_stringify2
                           (IFrame.mk
                              (spaceAt n ([], iframeLine s0 t s1 raw))
                              (numberAt n (s0, t ++ s1 ++ event ++ raw))
                              (spaceAt n (s0 ++ t, s1 ++ event ++ raw))
                              (literalAt n event
                                 ((s0 ++ t) ++ s1, event ++ raw))
                              json
                              (spaceAt n
                                 (skipUntil [newline]
                                    (((s0 ++ t) ++ s1) ++ event, raw)))
                              err) column)
                 with
                 | Some ((_ :: _) as markdown) => Some markdown
                 | _ => None
                 end)
             = Ok (Some (lit " # I-Frame value" ++ newline ::
                         lit "- Time: " ++ Number_toString (Number t) ++
                         lit "s" ++ newline ::
                         lit "- JSON Data:" ++ newline ::
                         lit "  ```json" ++ newline ::
                         lit "  " ++
                         shownData JSON_parse JSON_stringify2 raw ++
                         newline ::
                         lit "  ```" ++ [newline; newline]))).
  { intros json err E. unfold hoverIFrame.
    cbn [IFrame.time IFrame.event IFrame.json IFrame.jsonParseError].
    rewrite Eout. unfold showNumber. rewrite Etime, E.
    unfold template. cbn [join]. rewrite <- !app_assoc. reflexivity. }
  unfold hoverIFrame in Shape |- *.
  destruct raw as [|d ds] eqn:Eraw.
  - apply Shape. reflexivity.
  - destruct (JSON_parse (d :: ds)) as [msg|data] eqn:Ej.
    + apply Shape. unfold shownData. rewrite Ej. reflexivity.
    + apply Shape. unfold shownData. rewrite Ej. reflexivity.
Qed.

Lemma hover_iframe_data_witness :
  provideHover parseNullOnly (fun _ => lit "0.5") (fun _ => []) 40
    (iframeLine [] (lit "0.5") (lit " ") (lit " null")) (Position.mk 1 2%Z)
  = Ok (Some (lit " # I-Frame value" ++ newline ::
              lit "- Time: " ++ lit "0.5" ++ lit "s" ++ newline ::
              lit "- JSON Data:" ++ newline ::
              lit "  ```json" ++ newline ::
              lit "  " ++
              shownData parseNullOnly (fun _ => []) (lit " null") ++
              newline ::
              lit "  ```" ++ [newline; newline])).
Proof.
  apply (hover_iframe_data parseNullOnly (fun _ => lit "0.5") (fun _ => [])
           40 1 [] (lit "0.5") (lit " ") (lit " null") 2%Z).
  - constructor.
  - repeat constructor.
  - discriminate.
  - reflexivity.
  - repeat (constructor; [discriminate|]); constructor.
  - simpl. lia.
  - left. simpl. lia.
Defined.
